(** * discord-forum: the ingestion and synchronisation core, embedded in Rocq

    A shallow embedding of the bot's TypeScript sources:
    - [lib/sanitizer.ts]  ([sanitizeContent], [convertToHtml]) over a small
      backtracking matcher that follows ECMAScript's regular-expression
      semantics for the constructs the sources use;
    - [lib/hash.ts]       ([hashUserId], [validatePepper]) over SHA-256;
    - the slug computations of [lib/sync.ts] and [lib/smartSync.ts];
    - [lib/smartSync.ts]  (the cursor-driven orchestrator) and [lib/sync.ts]
      (the scoped historical sync) over an explicit world: relational store,
      platform, wall clock and a schedule of transport failures;
    - the start-up sequence of [index.ts];
    - the staff table at run time ([lib/staffLoader.ts]), the live message
      and thread handlers, the [/sync] command, [sanitizeForHtml] and
      [fetchRecentMessages] of [lib/delta-sync.ts], over the same world.

    JavaScript strings are sequences of UTF-16 code units: [list N]. *)

From Stdlib Require Import ZArith NArith List String Ascii Lia Bool DecimalString.
From stdpp Require Import gmap strings list.

Set Default Proof Using "Type".
Open Scope N_scope.

(** ** JavaScript strings *)

Abbreviation jsstring := (list N).

Definition ch (a : ascii) : N := N_of_ascii a.

Definition str (s : string) : jsstring := map N_of_ascii (list_ascii_of_string s).

(** [\d], [\w] and [\s] of ECMAScript (no [u] flag). *)
Definition is_digit (c : N) : bool := (48 <=? c) && (c <=? 57).
Definition is_upper (c : N) : bool := (65 <=? c) && (c <=? 90).
Definition is_lower (c : N) : bool := (97 <=? c) && (c <=? 122).
Definition is_word (c : N) : bool :=
  is_digit c || is_upper c || is_lower c || (c =? 95).
Definition is_line_terminator (c : N) : bool :=
  (c =? 10) || (c =? 13) || (c =? 8232) || (c =? 8233).
Definition is_space (c : N) : bool :=
  (c =? 9) || (c =? 11) || (c =? 12) || (c =? 32) || (c =? 160) || (c =? 65279)
  || (c =? 5760) || ((8192 <=? c) && (c <=? 8202)) || (c =? 8239) || (c =? 8287)
  || (c =? 12288) || is_line_terminator c.

(** Canonicalize of the [i] flag, for classes whose members are ASCII: an
    ASCII letter matches its other case; a code unit of 128 and above never
    canonicalizes to an ASCII one. *)
Definition flipcase (c : N) : N :=
  if is_upper c then c + 32 else if is_lower c then c - 32 else c.

(** ** Regular expressions *)

Module Re.

Inductive item : Type :=
| Lit (c : N)
| Range (lo hi : N)
| Digit
| Word
| Space.

Record charset : Type := { negated : bool; items : list item }.

Inductive regex : Type :=
| Eps
| Chr (cs : charset)
| Any                                   (* [.] *)
| Seq (a b : regex)
| Alt (a b : regex)
| Rep (greedy : bool) (lo : nat) (hi : option nat) (a : regex)
| Cap (i : nat) (a : regex)             (* capture group number i *)
| Bol                                   (* [^] *)
| Eol                                   (* [$] *)
| WordB                                 (* [\b] *)
| NegLook (a : regex).                  (* [(?!a)] *)

(** A literal of the source: pattern and flags; every one is global. *)
Record RegExp : Type := { source : regex; ignoreCase : bool }.

Definition item_has (it : item) (c : N) : bool :=
  match it with
  | Lit a => c =? a
  | Range lo hi => (lo <=? c) && (c <=? hi)
  | Digit => is_digit c
  | Word => is_word c
  | Space => is_space c
  end.

Definition charset_has (ic : bool) (cs : charset) (c : N) : bool :=
  xorb (negated cs)
       (existsb (fun it => item_has it c || (ic && item_has it (flipcase c))) (items cs)).

(** Matcher state: the code units already passed (most recent first), the
    remaining input and the captures. *)
Record mstate : Type := { before : jsstring; rest : jsstring; caps : list (nat * jsstring) }.

Definition advance (c : N) (t : jsstring) (s : mstate) : mstate :=
  {| before := c :: before s; rest := t; caps := caps s |}.

Definition consumed (s s' : mstate) : jsstring :=
  rev (firstn (length (before s') - length (before s)) (before s')).

Definition set_cap (i : nat) (w : jsstring) (s : mstate) : mstate :=
  {| before := before s; rest := rest s; caps := (i, w) :: caps s |}.

Definition at_word_boundary (s : mstate) : bool :=
  xorb (match before s with c :: _ => is_word c | [] => false end)
       (match rest s with c :: _ => is_word c | [] => false end).

Definition orelse {A} (x : option A) (y : option A) : option A :=
  match x with Some _ => x | None => y end.

(** RepeatMatcher of ECMA-262 over the matcher [m] of the repeated pattern:
    below the minimum the pattern must match once more; from the minimum on
    a greedy quantifier tries one more round before the continuation, a lazy
    one the continuation first; a round that matches the empty string once
    the minimum is reached is rejected. Every round of [rep_loop] either
    lowers the minimum or follows a round that consumed input, so
    [lo + length (rest x) + 1] units of fuel are never used up
    ([rmatch_slack] below). *)
Fixpoint rep_loop (m : (mstate -> option mstate) -> mstate -> option mstate)
  (k : mstate -> option mstate) (greedy : bool) (fuel : nat) (lo : nat) (hi : option nat)
  (x : mstate) {struct fuel} : option mstate :=
  match fuel with
  | O => None
  | S fuel' =>
      match hi with
      | Some O => k x
      | _ =>
          let d := fun y =>
            if (lo =? 0)%nat && (length (rest y) =? length (rest x))%nat
            then None
            else rep_loop m k greedy fuel' (Nat.pred lo) (option_map Nat.pred hi) y in
          if negb (lo =? 0)%nat then m d x
          else if greedy then orelse (m d x) (k x)
          else orelse (k x) (m d x)
      end
  end.

(** The backtracking matcher, in continuation-passing style as in ECMA-262:
    [k] is what has to match after [r]. [slack] is fuel beyond what a
    quantifier needs; every use below has [slack = 0]. The latest value of
    a capture is the one read; a quantifier does not clear the captures of
    its body before a round, which no pattern of the sources can tell: none
    of their replacement texts refers to a capture inside a quantifier. *)
Fixpoint rmatch (slack : nat) (ic : bool) (r : regex) (k : mstate -> option mstate)
  (s : mstate) {struct r} : option mstate :=
  match r with
  | Eps => k s
  | Chr cs =>
      match rest s with
      | c :: t => if charset_has ic cs c then k (advance c t s) else None
      | [] => None
      end
  | Any =>
      match rest s with
      | c :: t => if is_line_terminator c then None else k (advance c t s)
      | [] => None
      end
  | Seq a b => rmatch slack ic a (fun s' => rmatch slack ic b k s') s
  | Alt a b => orelse (rmatch slack ic a k s) (rmatch slack ic b k s)
  | Rep greedy lo hi a =>
      rep_loop (rmatch slack ic a) k greedy (S (slack + lo + length (rest s))) lo hi s
  | Cap i a => rmatch slack ic a (fun s' => k (set_cap i (consumed s s') s')) s
  | Bol => match before s with [] => k s | _ => None end
  | Eol => match rest s with [] => k s | _ => None end
  | WordB => if at_word_boundary s then k s else None
  | NegLook a => match rmatch slack ic a Some s with Some _ => None | None => k s end
  end.

(** One attempt at the current position: length of the match and captures. *)
Definition exec_at (re : RegExp) (bef : jsstring) (s : jsstring) : option (nat * list (nat * jsstring)) :=
  match rmatch 0 (ignoreCase re) (source re) Some
          {| before := bef; rest := s; caps := [] |} with
  | Some s' => Some ((length s - length (rest s'))%nat, caps s')
  | None => None
  end.

(** Replacement templates: literal text and [$i]. *)
Inductive piece : Type := Txt (w : jsstring) | Ref (i : nat).

Fixpoint get_cap (i : nat) (cs : list (nat * jsstring)) : jsstring :=
  match cs with
  | [] => []
  | (j, w) :: cs' => if (i =? j)%nat then w else get_cap i cs'
  end.

Definition expand (tpl : list piece) (cs : list (nat * jsstring)) : jsstring :=
  flat_map (fun p => match p with Txt w => w | Ref i => get_cap i cs end) tpl.

(** [String.prototype.replace] with a global pattern: leftmost matches, one
    after the other; after an empty match the scan moves on by one unit.
    [skip] counts the units of the current match still to drop. *)
Fixpoint replace_from (re : RegExp) (tpl : list piece) (bef : jsstring) (s : jsstring)
  (skip : nat) {struct s} : jsstring :=
  match skip with
  | S n =>
      match s with
      | c :: t => replace_from re tpl (c :: bef) t n
      | [] => []
      end
  | O =>
      match exec_at re bef s with
      | Some (len, cs) =>
          expand tpl cs ++
          match s with
          | c :: t =>
              match len with
              | O => c :: replace_from re tpl (c :: bef) t 0
              | S n => replace_from re tpl (c :: bef) t n
              end
          | [] => []
          end
      | None =>
          match s with
          | c :: t => c :: replace_from re tpl (c :: bef) t 0
          | [] => []
          end
      end
  end.

Definition replace (re : RegExp) (tpl : list piece) (s : jsstring) : jsstring :=
  replace_from re tpl [] s 0.

(** [RegExp.prototype.test] from [lastIndex = 0] (where every use in the
    sources finds it: [replace] and [match] with a global pattern reset it,
    and a failed [test] does). *)
Fixpoint test_from (re : RegExp) (bef : jsstring) (s : jsstring) {struct s} : bool :=
  match exec_at re bef s with
  | Some _ => true
  | None =>
      match s with
      | c :: t => test_from re (c :: bef) t
      | [] => false
      end
  end.

Definition test (re : RegExp) (s : jsstring) : bool := test_from re [] s.

(** [String.prototype.match] with a global pattern: the matched substrings,
    [None] for JavaScript's [null]. *)
Fixpoint match_from (re : RegExp) (bef : jsstring) (s : jsstring) (skip : nat)
  {struct s} : list jsstring :=
  match skip with
  | S n =>
      match s with
      | c :: t => match_from re (c :: bef) t n
      | [] => []
      end
  | O =>
      match exec_at re bef s with
      | Some (len, _) =>
          firstn len s ::
          match s with
          | c :: t => match_from re (c :: bef) t (Nat.pred len)
          | [] => []
          end
      | None =>
          match s with
          | c :: t => match_from re (c :: bef) t 0
          | [] => []
          end
      end
  end.

Definition match_all (re : RegExp) (s : jsstring) : option (list jsstring) :=
  match match_from re [] s 0 with
  | [] => None
  | l => Some l
  end.

(** Pattern-building shorthands. *)
Definition one (c : ascii) : regex := Chr {| negated := false; items := [Lit (ch c)] |}.
Definition cls (l : list item) : regex := Chr {| negated := false; items := l |}.
Definition ncls (l : list item) : regex := Chr {| negated := true; items := l |}.
Definition lit (s : string) : regex :=
  fold_right (fun c r => Seq (Chr {| negated := false; items := [Lit c] |}) r) Eps (str s).
Definition opt (a : regex) : regex := Rep true 0 (Some 1%nat) a.
Definition star (a : regex) : regex := Rep true 0 None a.
Definition plus (a : regex) : regex := Rep true 1 None a.
Definition lazy_star (a : regex) : regex := Rep false 0 None a.
Definition between (lo hi : nat) (a : regex) : regex := Rep true lo (Some hi) a.
Definition at_least (lo : nat) (a : regex) : regex := Rep true lo None a.
Definition exactly (n : nat) (a : regex) : regex := Rep true n (Some n) a.
Definition az : item := Range (ch "a") (ch "z").
Definition AZ : item := Range (ch "A") (ch "Z").
Definition d09 : item := Range (ch "0") (ch "9").

Fixpoint seqs (l : list regex) : regex :=
  match l with
  | [] => Eps
  | [a] => a
  | a :: l' => Seq a (seqs l')
  end.

End Re.

(** ** lib/sanitizer.ts *)

Module Sanitizer.
Import Re.

(** Discord mention patterns *)
Definition DISCORD_USER_MENTION : RegExp :=      (* /<@!?(\d{17,19})>/g *)
  {| source := seqs [one "<"; one "@"; opt (one "!");
                     Cap 1 (between 17 19 (cls [Digit])); one ">"];
     ignoreCase := false |}.
Definition DISCORD_CHANNEL_MENTION : RegExp :=   (* /<#(\d{17,19})>/g *)
  {| source := seqs [one "<"; one "#"; Cap 1 (between 17 19 (cls [Digit])); one ">"];
     ignoreCase := false |}.
Definition DISCORD_ROLE_MENTION : RegExp :=      (* /<@&(\d{17,19})>/g *)
  {| source := seqs [one "<"; one "@"; one "&";
                     Cap 1 (between 17 19 (cls [Digit])); one ">"];
     ignoreCase := false |}.
Definition DISCORD_EMOJI : RegExp :=             (* /<a?:\w+:\d{17,19}>/g *)
  {| source := seqs [one "<"; opt (one "a"); one ":"; plus (cls [Word]); one ":";
                     between 17 19 (cls [Digit]); one ">"];
     ignoreCase := false |}.
Definition DISCORD_TIMESTAMP : RegExp :=         (* /<t:(\d{1,13})(?::([tTdDfFR]))?>/g *)
  {| source := seqs [one "<"; one "t"; one ":"; Cap 1 (between 1 13 (cls [Digit]));
                     opt (Seq (one ":")
                              (Cap 2 (cls [Lit (ch "t"); Lit (ch "T"); Lit (ch "d"); Lit (ch "D");
                                           Lit (ch "f"); Lit (ch "F"); Lit (ch "R")])));
                     one ">"];
     ignoreCase := false |}.

(** Script tag patterns *)
Definition SCRIPT_TAG : RegExp :=
  (* /<script\b[^<]*(?:(?!<\/script>)<[^<]* )*<\/script>/gi, without the blank *)
  {| source := seqs [lit "<script"; WordB; star (ncls [Lit (ch "<")]);
                     star (seqs [NegLook (lit "</script>"); one "<"; star (ncls [Lit (ch "<")])]);
                     lit "</script>"];
     ignoreCase := true |}.
Definition JAVASCRIPT_PROTOCOL : RegExp :=       (* /javascript:/gi *)
  {| source := lit "javascript:"; ignoreCase := true |}.
Definition ON_EVENT_ATTRIBUTES : RegExp :=       (* /\son\w+\s*=/gi *)
  {| source := seqs [cls [Space]; one "o"; one "n"; plus (cls [Word]); star (cls [Space]); one "="];
     ignoreCase := true |}.

(** PII patterns *)
Definition EMAIL_PATTERN : RegExp :=
  (* /\b[A-Za-z0-9._%+-]+@[A-Za-z0-9.-]+\.[A-Z|a-z]{2,}\b/g *)
  {| source := seqs [WordB;
                     plus (cls [AZ; az; d09; Lit (ch "."); Lit (ch "_"); Lit (ch "%");
                                Lit (ch "+"); Lit (ch "-")]);
                     one "@";
                     plus (cls [AZ; az; d09; Lit (ch "."); Lit (ch "-")]);
                     one ".";
                     at_least 2 (cls [AZ; Lit (ch "|"); az]);
                     WordB];
     ignoreCase := false |}.
Definition PHONE_PATTERN : RegExp :=
  (* /(\+?1[-.\s]?)?(\(?[0-9]{3}\)?[-.\s]?[0-9]{3}[-.\s]?[0-9]{4})/g *)
  let sep := opt (cls [Lit (ch "-"); Lit (ch "."); Space]) in
  {| source := seqs [opt (Cap 1 (seqs [opt (one "+"); one "1"; sep]));
                     Cap 2 (seqs [opt (one "("); exactly 3 (cls [d09]); opt (one ")"); sep;
                                  exactly 3 (cls [d09]); sep; exactly 4 (cls [d09])])];
     ignoreCase := false |}.
Definition SSN_PATTERN : RegExp :=               (* /\b\d{3}-\d{2}-\d{4}\b/g *)
  {| source := seqs [WordB; exactly 3 (cls [Digit]); one "-"; exactly 2 (cls [Digit]); one "-";
                     exactly 4 (cls [Digit]); WordB];
     ignoreCase := false |}.
Definition CREDIT_CARD_PATTERN : RegExp :=       (* /\b(?:\d{4}[-\s]?){3}\d{4}\b/g *)
  {| source := seqs [WordB;
                     exactly 3 (Seq (exactly 4 (cls [Digit])) (opt (cls [Lit (ch "-"); Space])));
                     exactly 4 (cls [Digit]); WordB];
     ignoreCase := false |}.

Record SanitizationResult : Type := {
  sanitizedContent : jsstring;
  removedMentions : list jsstring;
  removedEmojis : list jsstring;
  redactedPii : bool;
  hadScriptTags : bool
}.

(** One [const m = s.match(re); if (m) { log.push(...m); s = s.replace(re, t) }]. *)
Definition strip_logged (re : RegExp) (t : string) (acc : jsstring * list jsstring)
  : jsstring * list jsstring :=
  match match_all re (fst acc) with
  | Some m => (replace re [Txt (str t)] (fst acc), snd acc ++ m)
  | None => acc
  end.

(** One [if (re.test(s)) { flag = true; s = s.replace(re, t) }]. *)
Definition strip_flagged (re : RegExp) (t : string) (acc : jsstring * bool) : jsstring * bool :=
  if test re (fst acc) then (replace re [Txt (str t)] (fst acc), true) else acc.

Definition sanitizeContent (content : jsstring) : SanitizationResult :=
  let sanitized := content in
  (* Remove Discord mentions but log them *)
  let '(sanitized, removedMentions) :=
    strip_logged DISCORD_USER_MENTION "[User Mention]" (sanitized, []) in
  let '(sanitized, removedMentions) :=
    strip_logged DISCORD_CHANNEL_MENTION "[Channel Mention]" (sanitized, removedMentions) in
  let '(sanitized, removedMentions) :=
    strip_logged DISCORD_ROLE_MENTION "[Role Mention]" (sanitized, removedMentions) in
  (* Remove Discord emojis but log them *)
  let '(sanitized, removedEmojis) :=
    strip_logged DISCORD_EMOJI "[Emoji]" (sanitized, []) in
  (* Remove Discord timestamps *)
  let sanitized := replace DISCORD_TIMESTAMP [Txt (str "[Timestamp]")] sanitized in
  (* Remove script tags and dangerous attributes *)
  let '(sanitized, hadScriptTags) :=
    strip_flagged SCRIPT_TAG "[Removed Script]" (sanitized, false) in
  let sanitized := replace JAVASCRIPT_PROTOCOL [Txt (str "javascript-removed:")] sanitized in
  let sanitized := replace ON_EVENT_ATTRIBUTES [Txt (str " data-removed-event=")] sanitized in
  (* Redact PII *)
  let '(sanitized, redactedPii) :=
    strip_flagged EMAIL_PATTERN "[Email Redacted]" (sanitized, false) in
  let '(sanitized, redactedPii) :=
    strip_flagged PHONE_PATTERN "[Phone Redacted]" (sanitized, redactedPii) in
  let '(sanitized, redactedPii) :=
    strip_flagged SSN_PATTERN "[SSN Redacted]" (sanitized, redactedPii) in
  let '(sanitized, redactedPii) :=
    strip_flagged CREDIT_CARD_PATTERN "[Card Number Redacted]" (sanitized, redactedPii) in
  {| sanitizedContent := sanitized;
     removedMentions := removedMentions;
     removedEmojis := removedEmojis;
     redactedPii := redactedPii;
     hadScriptTags := hadScriptTags |}.

(** The patterns of [convertToHtml], in the order the function applies them. *)
Definition BOLD : RegExp :=          (* /\*\*(.*?)\*\*/g *)
  {| source := seqs [lit "**"; Cap 1 (lazy_star Any); lit "**"]; ignoreCase := false |}.
Definition ITALIC : RegExp :=        (* /\*(.*?)\*/g *)
  {| source := seqs [one "*"; Cap 1 (lazy_star Any); one "*"]; ignoreCase := false |}.
Definition STRIKE : RegExp :=        (* /~~(.*?)~~/g *)
  {| source := seqs [lit "~~"; Cap 1 (lazy_star Any); lit "~~"]; ignoreCase := false |}.
Definition CODE : RegExp :=          (* /`(.*?)`/g *)
  {| source := seqs [one "`"; Cap 1 (lazy_star Any); one "`"]; ignoreCase := false |}.
Definition CODE_BLOCK : RegExp :=    (* /```([\s\S]*?)```/g *)
  {| source := seqs [lit "```"; Cap 1 (lazy_star (Alt (cls [Space]) (ncls [Space]))); lit "```"];
     ignoreCase := false |}.
Definition NEWLINE : RegExp :=       (* /\n/g *)
  {| source := cls [Lit 10]; ignoreCase := false |}.
Definition URL : RegExp :=           (* /(https?:\/\/[^\s]+)/g *)
  {| source := Cap 1 (seqs [lit "http"; opt (one "s"); lit "://"; plus (ncls [Space])]);
     ignoreCase := false |}.

Definition dquote : jsstring := [34].

Definition convertToHtml (content : jsstring) : jsstring :=
  let html := content in
  (* Bold **text** *)
  let html := replace BOLD [Txt (str "<strong>"); Ref 1; Txt (str "</strong>")] html in
  (* Italic *text* *)
  let html := replace ITALIC [Txt (str "<em>"); Ref 1; Txt (str "</em>")] html in
  (* Strikethrough ~~text~~ *)
  let html := replace STRIKE [Txt (str "<del>"); Ref 1; Txt (str "</del>")] html in
  (* Code `text` *)
  let html := replace CODE [Txt (str "<code>"); Ref 1; Txt (str "</code>")] html in
  (* Code blocks ```text``` *)
  let html := replace CODE_BLOCK [Txt (str "<pre><code>"); Ref 1; Txt (str "</code></pre>")] html in
  (* Convert newlines to <br> *)
  let html := replace NEWLINE [Txt (str "<br>")] html in
  (* Convert URLs to links (simple pattern) *)
  let html := replace URL
    [Txt (str "<a href=" ++ dquote); Ref 1;
     Txt (dquote ++ str " target=" ++ dquote ++ str "_blank" ++ dquote ++ str " rel="
          ++ dquote ++ str "noopener noreferrer" ++ dquote ++ str ">");
     Ref 1; Txt (str "</a>")] html in
  html.

(** The pipeline every caller runs on a message body:
    [convertToHtml(sanitizeContent(x).sanitizedContent)]. *)
Definition sanitize_html (x : jsstring) : jsstring :=
  convertToHtml (sanitizedContent (sanitizeContent x)).

End Sanitizer.

(** ** SHA-256 (FIPS 180-4), the digest [crypto.createHash('sha256')] computes *)

Module SHA256.
Open Scope Z_scope.

Definition w32 (x : Z) : Z := x mod 2 ^ 32.
Definition add32 (x y : Z) : Z := w32 (x + y).
Definition rotr (n x : Z) : Z := Z.lor (Z.shiftr x n) (w32 (Z.shiftl x (32 - n))).
Definition shr (n x : Z) : Z := Z.shiftr x n.
Definition not32 (x : Z) : Z := 2 ^ 32 - 1 - x.

Definition Ch (x y z : Z) : Z := Z.lxor (Z.land x y) (Z.land (not32 x) z).
Definition Maj (x y z : Z) : Z := Z.lxor (Z.lxor (Z.land x y) (Z.land x z)) (Z.land y z).
Definition Sigma0 (x : Z) : Z := Z.lxor (Z.lxor (rotr 2 x) (rotr 13 x)) (rotr 22 x).
Definition Sigma1 (x : Z) : Z := Z.lxor (Z.lxor (rotr 6 x) (rotr 11 x)) (rotr 25 x).
Definition sigma0 (x : Z) : Z := Z.lxor (Z.lxor (rotr 7 x) (rotr 18 x)) (shr 3 x).
Definition sigma1 (x : Z) : Z := Z.lxor (Z.lxor (rotr 17 x) (rotr 19 x)) (shr 10 x).

(** The constants of the standard by their definition: the first 32 bits of
    the fractional parts of the cube roots (round constants) and of the
    square roots (initial hash value) of the first primes. *)
Definition primes : list Z :=
  [2; 3; 5; 7; 11; 13; 17; 19; 23; 29; 31; 37; 41; 43; 47; 53; 59; 61; 67; 71; 73; 79; 83;
   89; 97; 101; 103; 107; 109; 113; 127; 131; 137; 139; 149; 151; 157; 163; 167; 173; 179;
   181; 191; 193; 197; 199; 211; 223; 227; 229; 233; 239; 241; 251; 257; 263; 269; 271; 277;
   281; 283; 293; 307; 311].

(** The greatest [x] below [2 ^ bits] with [x ^ 3 <= n], bit by bit. *)
Fixpoint cube_root (bits : nat) (n : Z) (x : Z) : Z :=
  match bits with
  | O => x
  | S b =>
      let y := x + 2 ^ Z.of_nat b in
      cube_root b n (if y * y * y <=? n then y else x)
  end.

Definition K : list Z := map (fun p => w32 (cube_root 36 (p * 2 ^ 96) 0)) primes.

Record state : Type := St { ha : Z; hb : Z; hc : Z; hd : Z; he : Z; hf : Z; hg : Z; hh : Z }.

Definition frac_sqrt (p : Z) : Z := w32 (Z.sqrt (p * 2 ^ 64)).

Definition H0 : state :=
  St (frac_sqrt 2) (frac_sqrt 3) (frac_sqrt 5) (frac_sqrt 7)
     (frac_sqrt 11) (frac_sqrt 13) (frac_sqrt 17) (frac_sqrt 19).

(** Padding: a 1 bit, zeros up to 56 modulo 64 bytes, the bit length on 64 bits. *)
Definition be_bytes (n : nat) (x : Z) : list Z :=
  map (fun i => (x / 2 ^ (8 * Z.of_nat i)) mod 256) (rev (seq 0 n)).

Definition pad (msg : list Z) : list Z :=
  let l := Z.of_nat (length msg) in
  let zeros := Z.to_nat ((55 - l) mod 64) in
  msg ++ [128] ++ repeat 0 zeros ++ be_bytes 8 (8 * l).

Fixpoint be_word (bs : list Z) : Z :=
  match bs with
  | [] => 0
  | b :: bs' => b * 2 ^ (8 * Z.of_nat (length bs')) + be_word bs'
  end.

Fixpoint words (n : nat) (bs : list Z) : list Z :=
  match n with
  | O => []
  | S n' => be_word (firstn 4 bs) :: words n' (skipn 4 bs)
  end.

(** Message schedule: [rw] holds the words so far, most recent first. *)
Fixpoint schedule (n : nat) (rw : list Z) : list Z :=
  match n with
  | O => rw
  | S n' =>
      let w := add32 (add32 (sigma1 (nth 1 rw 0)) (nth 6 rw 0))
                     (add32 (sigma0 (nth 14 rw 0)) (nth 15 rw 0)) in
      schedule n' (w :: rw)
  end.

Definition round (s : state) (kw : Z * Z) : state :=
  let '(k, w) := kw in
  let t1 := add32 (add32 (add32 (hh s) (Sigma1 (he s))) (add32 (Ch (he s) (hf s) (hg s)) k)) w in
  let t2 := add32 (Sigma0 (ha s)) (Maj (ha s) (hb s) (hc s)) in
  St (add32 t1 t2) (ha s) (hb s) (hc s) (add32 (hd s) t1) (he s) (hf s) (hg s).

Definition compress (h : state) (block : list Z) : state :=
  let w := rev (schedule 48 (rev (words 16 block))) in
  let s := fold_left round (combine K w) h in
  St (add32 (ha h) (ha s)) (add32 (hb h) (hb s)) (add32 (hc h) (hc s)) (add32 (hd h) (hd s))
     (add32 (he h) (he s)) (add32 (hf h) (hf s)) (add32 (hg h) (hg s)) (add32 (hh h) (hh s)).

Fixpoint blocks (n : nat) (h : state) (bs : list Z) : state :=
  match n with
  | O => h
  | S n' => blocks n' (compress h (firstn 64 bs)) (skipn 64 bs)
  end.

Definition digest (msg : list Z) : state :=
  let p := pad msg in
  blocks (length p / 64) H0 p.

(** [digest('hex')]: lower-case hexadecimal, eight digits a word. *)
Definition hexdigit (x : Z) : N :=
  if x <? 10 then Z.to_N (48 + x) else Z.to_N (87 + x).

Definition hex32 (w : Z) : list N :=
  [hexdigit ((w / 2 ^ 28) mod 16); hexdigit ((w / 2 ^ 24) mod 16);
   hexdigit ((w / 2 ^ 20) mod 16); hexdigit ((w / 2 ^ 16) mod 16);
   hexdigit ((w / 2 ^ 12) mod 16); hexdigit ((w / 2 ^ 8) mod 16);
   hexdigit ((w / 2 ^ 4) mod 16); hexdigit (w mod 16)].

Definition hex (s : state) : list N :=
  hex32 (ha s) ++ hex32 (hb s) ++ hex32 (hc s) ++ hex32 (hd s) ++
  hex32 (he s) ++ hex32 (hf s) ++ hex32 (hg s) ++ hex32 (hh s).

End SHA256.

(** UTF-8, the encoding [hash.update(string)] applies to a JavaScript string:
    a surrogate pair is one code point, a lone surrogate becomes U+FFFD. *)
Fixpoint utf8 (s : jsstring) : list Z :=
  let enc (cp : Z) : list Z :=
    (if cp <? 128 then [cp]
     else if cp <? 2048 then [192 + cp / 64; 128 + cp mod 64]
     else if cp <? 65536 then [224 + cp / 4096; 128 + (cp / 64) mod 64; 128 + cp mod 64]
     else [240 + cp / 262144; 128 + (cp / 4096) mod 64; 128 + (cp / 64) mod 64; 128 + cp mod 64])%Z in
  match s with
  | [] => []
  | c :: t =>
      if (55296 <=? c) && (c <=? 56319) then
        match t with
        | c2 :: t2 =>
            if (56320 <=? c2) && (c2 <=? 57343)
            then enc (65536 + (Z.of_N c - 55296) * 1024 + (Z.of_N c2 - 56320))%Z ++ utf8 t2
            else enc 65533%Z ++ utf8 t
        | [] => enc 65533%Z
        end
      else if (56320 <=? c) && (c <=? 57343) then enc 65533%Z ++ utf8 t
      else enc (Z.of_N c) ++ utf8 t
  end.

Definition sha256_hex (s : jsstring) : jsstring := SHA256.hex (SHA256.digest (utf8 s)).

(** ** Exceptions and [process.env] *)

Inductive result (A : Type) : Type :=
| Ok (a : A)
| Throw (e : string).
Arguments Ok {A} a.
Arguments Throw {A} e.

Abbreviation Env := (gmap string jsstring).

(** ** lib/hash.ts *)

Module Hash.

Definition hashUserId (env : Env) (userId : jsstring) : result jsstring :=
  match env !! "PII_PEPPER"%string with
  | None | Some [] => Throw "PII_PEPPER environment variable is required"
  | Some pepper =>
      let hash := sha256_hex (userId ++ pepper) in
      (* Return first 12 characters as specified *)
      Ok (firstn 12 hash)
  end.

Definition HEX64 : Re.RegExp :=                  (* /^[0-9a-fA-F]{64}$/ *)
  {| Re.source := Re.seqs [Re.Bol;
                           Re.exactly 64 (Re.cls [Re.d09; Re.Range (ch "a") (ch "f");
                                                  Re.Range (ch "A") (ch "F")]);
                           Re.Eol];
     Re.ignoreCase := false |}.

Definition validatePepper (env : Env) : result unit :=
  match env !! "PII_PEPPER"%string with
  | None | Some [] => Throw "PII_PEPPER environment variable is required"
  | Some pepper =>
      (* Validate that pepper is 256 bits (64 hex chars) *)
      if negb (Re.test HEX64 pepper)
      then Throw "PII_PEPPER must be a 256-bit (64 character) hex string"
      else Ok tt
  end.

End Hash.

(** ** Slugs *)

Module Slug.
Import Re.

(** [String.prototype.toLowerCase], by its effect on what the slug patterns
    keep: ASCII capitals are lowered; U+212A (Kelvin sign) lowers to [k] and
    U+0130 to [i] followed by U+0307; every other code unit stays outside
    [a-z0-9], [-] and white space, and is left as it is here. *)
Definition toLowerCase (s : jsstring) : jsstring :=
  flat_map (fun c =>
    if is_upper c then [c + 32]
    else if c =? 8490 then [ch "k"]
    else if c =? 304 then [ch "i"; 775]
    else [c]) s.

(** [String.prototype.trim]: white space and line terminators, both ends. *)
Fixpoint trimStart (s : jsstring) : jsstring :=
  match s with
  | c :: t => if is_space c then trimStart t else s
  | [] => []
  end.
Definition trim (s : jsstring) : jsstring := rev (trimStart (rev (trimStart s))).

Definition substring0 (n : nat) (s : jsstring) : jsstring := firstn n s.

Definition NOT_SLUG_CHAR : RegExp :=             (* /[^a-z0-9\s-]/g *)
  {| source := ncls [az; d09; Space; Lit (ch "-")]; ignoreCase := false |}.
Definition SPACES : RegExp :=                    (* /\s+/g *)
  {| source := plus (cls [Space]); ignoreCase := false |}.
Definition DASHES : RegExp :=                    (* /-+/g *)
  {| source := plus (one "-"); ignoreCase := false |}.
Definition EDGE_DASH : RegExp :=                 (* /^-|-$/g *)
  {| source := Alt (Seq Bol (one "-")) (Seq (one "-") Eol); ignoreCase := false |}.
Definition NOT_ALNUM_RUN : RegExp :=             (* /[^a-z0-9]+/g *)
  {| source := plus (ncls [az; d09]); ignoreCase := false |}.

(** The slug of [syncSpecificThread] (lib/sync.ts), also that of
    [syncNewThread] and [handleThreadUpsert]. *)
Definition syncSpecificThread_slug (name : jsstring) : jsstring :=
  substring0 255
    (replace EDGE_DASH []
      (replace DASHES [Txt (str "-")]
        (replace SPACES [Txt (str "-")]
          (replace NOT_SLUG_CHAR [] (toLowerCase name))))).

(** The slug of [upsertThread] and of [upsertChannel] (lib/smartSync.ts). *)
Definition upsertThread_slug (name : jsstring) : jsstring :=
  replace DASHES [Txt (str "-")]
    (replace SPACES [Txt (str "-")]
      (trim (replace NOT_SLUG_CHAR [] (toLowerCase name)))).

(** The channel slug of [syncSpecificChannel] (lib/sync.ts). *)
Definition syncSpecificChannel_slug (name : jsstring) : jsstring :=
  replace NOT_ALNUM_RUN [Txt (str "-")] (toLowerCase name).

(** [^[a-z0-9]+(-[a-z0-9]+)*$], the shape the specification gives a slug. *)
Definition SLUG_SHAPE : RegExp :=
  {| source := seqs [Bol; plus (cls [az; d09]);
                     star (Seq (one "-") (plus (cls [az; d09]))); Eol];
     ignoreCase := false |}.

End Slug.

(** ** The world: store, platform, clock, transport *)

Abbreviation Snowflake := Z.
Abbreviation Time := Z.            (* milliseconds since the epoch *)

(** *** The relational store (schema of [init.sql]; the audit log, written by
    triggers only, is left out) *)

Record SyncState : Type := { last_sync : Time; is_first_run : Z }.

(** [config.value] of the row ['sync_state'], by what [JSON.parse] makes of
    it: a [SyncState] object, or a [SyntaxError]. *)
Inductive ConfigValue : Type :=
| Json (st : SyncState)
| Malformed.

Record ConfigRow : Type := { cfg_value : ConfigValue; cfg_updated_at : Time }.

Record ChannelRow : Type := {
  ch_slug : jsstring; ch_name : jsstring; ch_description : option jsstring;
  ch_position : Z; ch_created_at : Time }.

Record ThreadRow : Type := {
  th_channel_id : Snowflake; th_slug : jsstring; th_title : jsstring;
  th_author_alias : jsstring; th_body_html : jsstring; th_tags : option (list jsstring);
  th_reply_count : Z; th_created_at : Time; th_updated_at : Time }.

Record PostRow : Type := {
  po_thread_id : Snowflake; po_author_alias : jsstring; po_body_html : jsstring;
  po_reply_to_id : option Snowflake; po_reply_to_author_alias : option jsstring;
  po_created_at : Time; po_updated_at : Time }.

Record Store : Type := {
  sync_state : option ConfigRow;           (* config WHERE key_name = 'sync_state' *)
  channels : gmap Z ChannelRow;
  threads : gmap Z ThreadRow;
  posts : gmap Z PostRow;
  staff_roles : gmap jsstring jsstring     (* discord_user_id_hash -> public_tag *)
}.

(** *** The platform, as the client sees it *)

Record Message : Type := {
  m_id : Snowflake;
  m_channel_id : Snowflake;                (* message.channel.id *)
  m_author_id : jsstring;
  m_author_bot : bool;
  m_content : jsstring;
  m_reference : option Snowflake;          (* message.reference?.messageId *)
  m_createdAt : Time;
  m_editedAt : option Time;
  m_attachments : list jsstring }.         (* attachment urls *)

Record ForumTag : Type := { tag_id : jsstring; tag_name : jsstring }.

Record ThreadChannel : Type := {
  t_id : Snowflake;
  t_name : jsstring;
  t_parentId : Snowflake;
  t_ownerId : jsstring;                    (* [] for a missing owner id *)
  t_appliedTags : list jsstring;
  t_createdTimestamp : Time;
  t_starter : option Message;              (* what fetchStarterMessage resolves to *)
  t_messages : list Message }.

Inductive ChannelType : Type := GuildForum | OtherChannel.

Record ForumChannel : Type := {
  c_id : Snowflake;
  c_type : ChannelType;
  c_name : jsstring;
  c_topic : jsstring;                      (* [] for null *)
  c_position : Z;
  c_createdTimestamp : Time;
  c_availableTags : list ForumTag;
  c_active : list ThreadChannel;           (* threads.fetchActive() *)
  c_archived : list ThreadChannel }.       (* threads.fetchArchived() *)

Record Guild : Type := { g_id : Snowflake; g_name : jsstring; g_channels : list ForumChannel }.

Record Client : Type := { guilds : list Guild }.     (* client.guilds.cache *)

Record ProcessedImage : Type := { img_url : jsstring; img_width : N; img_height : N }.

(** *** Run statistics ([SyncStats] of smartSync.ts; sync.ts uses the fields
    without [mode], [guildsProcessed] and [durationMs]) *)

Inductive Mode : Type := full | delta.

Record SyncStats : Type := {
  mode : Mode;
  guildsProcessed : nat;
  channelsProcessed : nat;
  threadsProcessed : nat;
  postsProcessed : nat;
  errorsEncountered : nat;
  startTime : Time;
  endTime : option Time;
  durationMs : option Z }.

(** *** Transport: what happens to the next awaited call *)

Record Event : Type := { fails : bool; latency : nat }.

Record World : Type := {
  store : Store;
  env : Env;
  discord : Client;                          (* the platform behind message.channel *)
  media : jsstring -> Time -> ProcessedImage; (* download, transcode, upload of an url *)
  staff_csv : option (list (jsstring * jsstring)); (* the rows of the file at STAFF_CSV_PATH *)
  now : Time;
  db_events : list Event;                    (* one for each statement sent to the pool *)
  net_events : list Event;                   (* one for each platform or media call *)
  stats : SyncStats }.

(** *** The monad of the asynchronous code: state and exceptions *)

Definition M (A : Type) : Type := World -> result A * World.

Definition ret {A} (a : A) : M A := fun w => (Ok a, w).
Definition throw {A} (e : string) : M A := fun w => (Throw e, w).
Definition bind {A B} (m : M A) (f : A -> M B) : M B :=
  fun w => match m w with
           | (Ok a, w') => f a w'
           | (Throw e, w') => (Throw e, w')
           end.
Definition try_catch {A} (m : M A) (h : string -> M A) : M A :=
  fun w => match m w with
           | (Ok a, w') => (Ok a, w')
           | (Throw e, w') => h e w'
           end.
Definition lift {A} (r : result A) : M A := fun w => (r, w).
Definition gets {A} (f : World -> A) : M A := fun w => (Ok (f w), w).
Definition modify (f : World -> World) : M unit := fun w => (Ok tt, f w).

Notation "'do' x <- m ; k" := (bind m (fun x => k))
  (at level 10, x name, m at level 100, k at level 200).
Notation "'do' ' p <- m ; k" := (bind m (fun x => match x with p => k end))
  (at level 10, p pattern, m at level 100, k at level 200).
Notation "m ;; k" := (bind m (fun _ => k))
  (at level 100, k at level 200, right associativity).

Fixpoint foreach {X} (l : list X) (body : X -> M unit) : M unit :=
  match l with
  | [] => ret tt
  | x :: l' => body x ;; foreach l' body
  end.

Definition set_store (f : Store -> Store) (w : World) : World :=
  {| store := f (store w); env := env w; discord := discord w; media := media w;
     staff_csv := staff_csv w;
     now := now w; db_events := db_events w; net_events := net_events w; stats := stats w |}.
Definition set_stats (f : SyncStats -> SyncStats) (w : World) : World :=
  {| store := store w; env := env w; discord := discord w; media := media w;
     staff_csv := staff_csv w;
     now := now w; db_events := db_events w; net_events := net_events w; stats := f (stats w) |}.
Definition set_now (t : Time) (w : World) : World :=
  {| store := store w; env := env w; discord := discord w; media := media w;
     staff_csv := staff_csv w;
     now := t; db_events := db_events w; net_events := net_events w; stats := stats w |}.
Definition set_db_events (l : list Event) (w : World) : World :=
  {| store := store w; env := env w; discord := discord w; media := media w;
     staff_csv := staff_csv w;
     now := now w; db_events := l; net_events := net_events w; stats := stats w |}.
Definition set_net_events (l : list Event) (w : World) : World :=
  {| store := store w; env := env w; discord := discord w; media := media w;
     staff_csv := staff_csv w;
     now := now w; db_events := db_events w; net_events := l; stats := stats w |}.

(** [new Date()] *)
Definition Date_now : M Time := gets now.

(** [await new Promise(resolve => setTimeout(resolve, ms))] *)
Definition sleep (ms : Z) : M unit := modify (fun w => set_now (now w + ms)%Z w).

(** An awaited statement on the pool: the next event of the schedule says
    how long it takes and whether it is rejected (constraint violation, lost
    connection, ...); a rejected statement changes nothing. An exhausted
    schedule means immediate success. *)
Definition db_io : M unit :=
  fun w => match db_events w with
           | [] => (Ok tt, w)
           | e :: l =>
               let w' := set_now (now w + Z.of_nat (latency e))%Z (set_db_events l w) in
               if fails e then (Throw "query failed", w') else (Ok tt, w')
           end.

(** An awaited call to the platform or to the media pipeline. *)
Definition net_io : M unit :=
  fun w => match net_events w with
           | [] => (Ok tt, w)
           | e :: l =>
               let w' := set_now (now w + Z.of_nat (latency e))%Z (set_net_events l w) in
               if fails e then (Throw "request failed", w') else (Ok tt, w')
           end.

(** *** Statements (lib/db.ts [query]): one awaited round trip, then the
    effect of the statement on the store

    The primary keys and the unique slug of init.sql decide what an upsert
    does and are part of the effect. The foreign keys ([threads.channel_id],
    [posts.thread_id], [posts.reply_to_id]) and the widths of the columns are
    not looked up in the store: a statement MySQL refuses on their account is
    a rejected event of the schedule, and what is proved of accepted writes
    is stated for stores that hold the rows referred to. *)

Module Db.

Definition with_sync_state (v : option ConfigRow) (s : Store) : Store :=
  {| sync_state := v; channels := channels s; threads := threads s; posts := posts s;
     staff_roles := staff_roles s |}.
Definition with_channels (v : gmap Z ChannelRow) (s : Store) : Store :=
  {| sync_state := sync_state s; channels := v; threads := threads s; posts := posts s;
     staff_roles := staff_roles s |}.
Definition with_threads (v : gmap Z ThreadRow) (s : Store) : Store :=
  {| sync_state := sync_state s; channels := channels s; threads := v; posts := posts s;
     staff_roles := staff_roles s |}.
Definition with_posts (v : gmap Z PostRow) (s : Store) : Store :=
  {| sync_state := sync_state s; channels := channels s; threads := threads s; posts := v;
     staff_roles := staff_roles s |}.
Definition with_staff_roles (v : gmap jsstring jsstring) (s : Store) : Store :=
  {| sync_state := sync_state s; channels := channels s; threads := threads s;
     posts := posts s; staff_roles := v |}.

Definition read {A} (f : Store -> A) : M A := db_io ;; gets (fun w => f (store w)).
Definition write (f : Time -> Store -> Store) : M unit :=
  db_io ;; modify (fun w => set_store (f (now w)) w).

(** [SELECT value FROM config WHERE key_name = 'sync_state'] *)
Definition select_sync_state : M (list ConfigValue) :=
  read (fun s => match sync_state s with Some r => [cfg_value r] | None => [] end).

(** [UPDATE config SET value = ?, updated_at = NOW() WHERE key_name = 'sync_state'] *)
Definition update_sync_state (v : SyncState) : M unit :=
  write (fun t s =>
    match sync_state s with
    | Some _ => with_sync_state (Some {| cfg_value := Json v; cfg_updated_at := t |}) s
    | None => s
    end).

(** [INSERT INTO channels ... ON DUPLICATE KEY UPDATE slug, name, description,
    position] (smartSync.ts); [keep_slug] for the statement of sync.ts, which
    leaves the slug of an existing row alone. *)
Definition upsert_channel (keep_slug : bool) (id : Snowflake) (r : ChannelRow) : M unit :=
  write (fun _ s =>
    match channels s !! id with
    | Some old =>
        with_channels (<[id := {| ch_slug := if keep_slug then ch_slug old else ch_slug r;
                                  ch_name := ch_name r; ch_description := ch_description r;
                                  ch_position := ch_position r;
                                  ch_created_at := ch_created_at old |}]> (channels s)) s
    | None => with_channels (<[id := r]> (channels s)) s
    end).

(** The row that holds a slug, [threads.slug] being UNIQUE. *)
Definition slug_owner (ths : gmap Z ThreadRow) (slug : jsstring) : option Snowflake :=
  fst <$> head (List.filter (fun ir => bool_decide (th_slug (snd ir) = slug)) (map_to_list ths)).

(** [INSERT INTO threads ... ON DUPLICATE KEY UPDATE [slug,] title, body_html,
    tags, updated_at]: a duplicate of the primary key, or else of the unique
    slug, turns the insert into an update of the row that holds it;
    [reply_count], [author_alias], [channel_id] and [created_at] of that row
    stay. Updating a slug to one another row holds is rejected. *)
Definition upsert_thread (keep_slug : bool) (id : Snowflake) (r : ThreadRow) : M unit :=
  let upd (old : ThreadRow) : ThreadRow :=
    {| th_channel_id := th_channel_id old;
       th_slug := if keep_slug then th_slug old else th_slug r;
       th_title := th_title r; th_author_alias := th_author_alias old;
       th_body_html := th_body_html r; th_tags := th_tags r;
       th_reply_count := th_reply_count old; th_created_at := th_created_at old;
       th_updated_at := th_updated_at r |} in
  db_io ;;
  do s <- gets store;
  match threads s !! id with
  | Some old =>
      match slug_owner (delete id (threads s)) (th_slug r) with
      | Some _ =>
          if keep_slug then modify (set_store (with_threads (<[id := upd old]> (threads s))))
          else throw "Duplicate entry for key 'slug'"
      | None => modify (set_store (with_threads (<[id := upd old]> (threads s))))
      end
  | None =>
      match slug_owner (threads s) (th_slug r) with
      | Some j =>
          match threads s !! j with
          | Some old => modify (set_store (with_threads (<[j := upd old]> (threads s))))
          | None => ret tt
          end
      | None => modify (set_store (with_threads (<[id := r]> (threads s))))
      end
  end.

(** [SELECT author_alias FROM posts WHERE id = ?] and its kin *)
Definition select_post (id : Snowflake) : M (list PostRow) :=
  read (fun s => match posts s !! id with Some p => [p] | None => [] end).

(** [SELECT id FROM threads WHERE id = ?] *)
Definition select_thread (id : Snowflake) : M (list ThreadRow) :=
  read (fun s => match threads s !! id with Some t => [t] | None => [] end).

(** [INSERT INTO posts ... ON DUPLICATE KEY UPDATE body_html, reply_to_id,
    reply_to_author_alias, updated_at] *)
Definition upsert_post (id : Snowflake) (r : PostRow) : M unit :=
  write (fun _ s =>
    match posts s !! id with
    | Some old =>
        with_posts (<[id := {| po_thread_id := po_thread_id old;
                               po_author_alias := po_author_alias old;
                               po_body_html := po_body_html r;
                               po_reply_to_id := po_reply_to_id r;
                               po_reply_to_author_alias := po_reply_to_author_alias r;
                               po_created_at := po_created_at old;
                               po_updated_at := po_updated_at r |}]> (posts s)) s
    | None => with_posts (<[id := r]> (posts s)) s
    end).

(** [UPDATE posts SET reply_to_id = ?, reply_to_author_alias = ?, updated_at = ?
    WHERE id = ?] *)
Definition update_post_reply (id : Snowflake) (reply_to : Snowflake) (alias : jsstring)
  (updated : Time) : M unit :=
  write (fun _ s =>
    match posts s !! id with
    | Some old =>
        with_posts (<[id := {| po_thread_id := po_thread_id old;
                               po_author_alias := po_author_alias old;
                               po_body_html := po_body_html old;
                               po_reply_to_id := Some reply_to;
                               po_reply_to_author_alias := Some alias;
                               po_created_at := po_created_at old;
                               po_updated_at := updated |}]> (posts s)) s
    | None => s
    end).

(** [SELECT COUNT( * ) FROM posts WHERE thread_id = ?] *)
Definition count_posts (s : Store) (thread_id : Snowflake) : Z :=
  Z.of_nat (size (filter (fun ip => po_thread_id (snd ip) = thread_id) (posts s))).

(** [threads.updated_at] is declared ON UPDATE CURRENT_TIMESTAMP: a row a
    statement changes without naming the column has it set to the time of
    the statement. *)
Definition set_reply_count (n : Z) (t : Time) (old : ThreadRow) : ThreadRow :=
  {| th_channel_id := th_channel_id old; th_slug := th_slug old; th_title := th_title old;
     th_author_alias := th_author_alias old; th_body_html := th_body_html old;
     th_tags := th_tags old; th_reply_count := n; th_created_at := th_created_at old;
     th_updated_at := if (th_reply_count old =? n)%Z then th_updated_at old else t |}.

(** [UPDATE threads SET reply_count = (SELECT COUNT( * ) - 1 FROM posts WHERE
    thread_id = ?) WHERE id = ?] *)
Definition update_reply_count_from_posts (thread_id : Snowflake) : M unit :=
  write (fun t s =>
    match threads s !! thread_id with
    | Some old =>
        with_threads (<[thread_id := set_reply_count (count_posts s thread_id - 1) t old]>
                        (threads s)) s
    | None => s
    end).

(** [UPDATE threads SET reply_count = ? WHERE id = ?] *)
Definition update_reply_count (n : Z) (thread_id : Snowflake) : M unit :=
  write (fun t s =>
    match threads s !! thread_id with
    | Some old => with_threads (<[thread_id := set_reply_count n t old]> (threads s)) s
    | None => s
    end).

(** [INSERT INTO staff_roles ... ON DUPLICATE KEY UPDATE public_tag, added_by,
    added_at] *)
Definition upsert_staff_role (hashedId : jsstring) (tag : jsstring) : M unit :=
  write (fun _ s => with_staff_roles (<[hashedId := tag]> (staff_roles s)) s).

(** [pool.getConnection()], [connection.ping()] *)
Definition ping : M unit := db_io.

(** [SELECT public_tag FROM staff_roles WHERE discord_user_id_hash = ?] *)
Definition select_staff_tag (hashedId : jsstring) : M (list jsstring) :=
  read (fun s => match staff_roles s !! hashedId with Some t => [t] | None => [] end).

End Db.

(** *** discord.js: collections and fetches *)

(** A [Collection] is a [Map]: insertion order, one entry for a key. *)
Abbreviation Collection A := (list (Snowflake * A)).

Fixpoint coll_set {A} (id : Snowflake) (v : A) (c : Collection A) : Collection A :=
  match c with
  | [] => [(id, v)]
  | (j, u) :: c' => if (j =? id)%Z then (j, v) :: c' else (j, u) :: coll_set id v c'
  end.

Definition coll_set_all {A} (key : A -> Snowflake) (l : list A) (c : Collection A)
  : Collection A :=
  fold_left (fun acc x => coll_set (key x) x acc) l c.

(** [Array.prototype.sort((a, b) => a.createdAt - b.createdAt)], stable. *)
Fixpoint insert_by_created (x : Message) (l : list Message) : list Message :=
  match l with
  | [] => [x]
  | y :: l' => if (m_createdAt x <=? m_createdAt y)%Z then x :: l
               else y :: insert_by_created x l'
  end.
Definition sort_by_created (l : list Message) : list Message :=
  fold_right insert_by_created [] l.

(** The REST order of a channel's messages: newest (greatest id) first. *)
Fixpoint insert_by_id_desc (x : Message) (l : list Message) : list Message :=
  match l with
  | [] => [x]
  | y :: l' => if (m_id y <=? m_id x)%Z then x :: l else y :: insert_by_id_desc x l'
  end.
Definition newest_first (l : list Message) : list Message :=
  fold_right insert_by_id_desc [] l.

(** [thread.messages.fetch({ limit: 100, before })] *)
Definition messages_fetch_before (thread : ThreadChannel) (before : option Snowflake)
  : M (list Message) :=
  net_io ;;
  ret (firstn 100 (List.filter (fun m => match before with
                                    | Some b => bool_decide (m_id m < b)%Z
                                    | None => true
                                    end)
                          (newest_first (t_messages thread)))).

(** [thread.messages.fetch({ after })]: the (at most 50, the default limit)
    messages that follow the given id, newest first. *)
Definition messages_fetch_after (thread : ThreadChannel) (after : Z) : M (list Message) :=
  net_io ;;
  ret (rev (firstn 50 (rev (List.filter (fun m => bool_decide (after < m_id m)%Z)
                                   (newest_first (t_messages thread)))))).

Definition all_threads (c : Client) : list ThreadChannel :=
  flat_map (fun g => flat_map (fun c => c_active c ++ c_archived c) (g_channels g)) (guilds c).

(** [message.channel.messages.fetch(id)]: rejected for an unknown message. *)
Definition channel_message_fetch (channel_id : Snowflake) (id : Snowflake) : M Message :=
  net_io ;;
  do c <- gets discord;
  match find (fun t => (t_id t =? channel_id)%Z) (all_threads c) with
  | Some t =>
      match find (fun m => (m_id m =? id)%Z) (t_messages t) with
      | Some m => ret m
      | None => throw "Unknown Message"
      end
  | None => throw "Unknown Channel"
  end.

Definition fetchStarterMessage (thread : ThreadChannel) : M (option Message) :=
  net_io ;; ret (t_starter thread).
Definition fetchActive (channel : ForumChannel) : M (list ThreadChannel) :=
  net_io ;; ret (c_active channel).
Definition fetchArchived (channel : ForumChannel) : M (list ThreadChannel) :=
  net_io ;; ret (c_archived channel).

(** ** lib/staffLoader.ts *)

Module StaffLoader.

Definition getStaffTag (discordUserId : jsstring) : M (option jsstring) :=
  try_catch
    (do e <- gets env;
     do hashedId <- lift (Hash.hashUserId e discordUserId);
     do result <- Db.select_staff_tag hashedId;
     ret (match result with
          | [] => None
          | [] :: _ => None            (* public_tag || null *)
          | tag :: _ => Some tag
          end))
    (fun _ => ret None).

(** The rows the CSV stream yields: both columns trimmed and not empty. *)
Definition csv_records (rows : list (jsstring * jsstring)) : list (jsstring * jsstring) :=
  map (fun r => (Slug.trim (fst r), Slug.trim (snd r)))
      (List.filter (fun r => match Slug.trim (fst r), Slug.trim (snd r) with
                             | _ :: _, _ :: _ => true
                             | _, _ => false
                             end) rows).

(** [staff_csv] is what [existsSync] and the stream find at the path: no
    file, or the rows of the file. A read that fails after the file was
    found (the ['error'] event of the stream, which rejects) is not part of
    the world. *)
Definition loadStaffFromCSV : M unit :=
  do csv <- gets staff_csv;
  match csv with
  | None => ret tt                     (* Staff CSV file not found, skipping staff load *)
  | Some rows =>
      foreach (csv_records rows) (fun record =>
        try_catch
          (do e <- gets env;
           do hashedId <- lift (Hash.hashUserId e (fst record));
           Db.upsert_staff_role hashedId (snd record))
          (fun _ => ret tt))           (* Failed to process staff record *)
  end.

End StaffLoader.

(** ** handlers/image.ts and lib/image.ts *)

Module Image.
Import Re.

Definition IMAGE_EXTENSIONS : RegExp :=          (* /\.(jpg|jpeg|png|gif|webp|bmp|svg)$/i *)
  {| source := seqs [one ".";
                     Alt (lit "jpg") (Alt (lit "jpeg") (Alt (lit "png") (Alt (lit "gif")
                       (Alt (lit "webp") (Alt (lit "bmp") (lit "svg"))))));
                     Eol];
     ignoreCase := true |}.

(** [url.split('?')[0]] *)
Fixpoint before_query (url : jsstring) : jsstring :=
  match url with
  | [] => []
  | c :: t => if c =? ch "?" then [] else c :: before_query t
  end.

Definition isImageUrl (url : jsstring) : bool :=
  let urlPath := before_query url in
  match urlPath with
  | [] => false
  | _ => test IMAGE_EXTENSIONS urlPath
  end.

(** [downloadImage] then [processAndUploadImage]: two awaited calls; what the
    pipeline returns for an url is the world's [media]. *)
Fixpoint processImageUrls (urls : list jsstring) : M (list ProcessedImage) :=
  match urls with
  | [] => ret []
  | url :: urls' =>
      if negb (isImageUrl url) then processImageUrls urls'
      else
        do r <- try_catch
                  (net_io ;; net_io ;;
                   do t <- Date_now;
                   do f <- gets media;
                   ret [f url t])
                  (fun _ => ret []);
        do rs <- processImageUrls urls';
        ret (r ++ rs)
  end.

Definition decimal (n : N) : jsstring :=
  str (DecimalString.NilZero.string_of_uint (N.to_uint n)).

Fixpoint join (sep : jsstring) (l : list jsstring) : jsstring :=
  match l with
  | [] => []
  | [x] => x
  | x :: l' => x ++ sep ++ join sep l'
  end.

(** [<img src=... width=... height=... alt="Image" />] *)
Definition img_tag (img : ProcessedImage) : jsstring :=
  str "<img src=" ++ [34] ++ img_url img ++ [34] ++ str " width=" ++ [34]
  ++ decimal (img_width img) ++ [34] ++ str " height=" ++ [34] ++ decimal (img_height img)
  ++ [34] ++ str " alt=" ++ [34] ++ str "Image" ++ [34] ++ str " />".

(** The block every caller repeats: append the processed images to the html;
    a failure is logged and the html kept. *)
Definition append_images (htmlContent : jsstring) (imageUrls : list jsstring) : M jsstring :=
  match imageUrls with
  | [] => ret htmlContent
  | _ =>
      try_catch
        (do imageData <- processImageUrls imageUrls;
         match imageData with
         | [] => ret htmlContent
         | _ => ret (htmlContent ++ str "<br>" ++ join (str "<br>") (map img_tag imageData))
         end)
        (fun _ => ret htmlContent)
  end.

End Image.

(** ** The statistics object of a run *)

Definition upd_stats (f : SyncStats -> SyncStats) : M unit := modify (set_stats f).

Definition with_mode (m : Mode) (s : SyncStats) : SyncStats :=
  {| mode := m; guildsProcessed := guildsProcessed s; channelsProcessed := channelsProcessed s;
     threadsProcessed := threadsProcessed s; postsProcessed := postsProcessed s;
     errorsEncountered := errorsEncountered s; startTime := startTime s;
     endTime := endTime s; durationMs := durationMs s |}.
Definition inc_guilds (s : SyncStats) : SyncStats :=
  {| mode := mode s; guildsProcessed := S (guildsProcessed s);
     channelsProcessed := channelsProcessed s;
     threadsProcessed := threadsProcessed s; postsProcessed := postsProcessed s;
     errorsEncountered := errorsEncountered s; startTime := startTime s;
     endTime := endTime s; durationMs := durationMs s |}.
Definition inc_channels (s : SyncStats) : SyncStats :=
  {| mode := mode s; guildsProcessed := guildsProcessed s;
     channelsProcessed := S (channelsProcessed s);
     threadsProcessed := threadsProcessed s; postsProcessed := postsProcessed s;
     errorsEncountered := errorsEncountered s; startTime := startTime s;
     endTime := endTime s; durationMs := durationMs s |}.
Definition inc_threads (s : SyncStats) : SyncStats :=
  {| mode := mode s; guildsProcessed := guildsProcessed s;
     channelsProcessed := channelsProcessed s;
     threadsProcessed := S (threadsProcessed s); postsProcessed := postsProcessed s;
     errorsEncountered := errorsEncountered s; startTime := startTime s;
     endTime := endTime s; durationMs := durationMs s |}.
Definition inc_posts (s : SyncStats) : SyncStats :=
  {| mode := mode s; guildsProcessed := guildsProcessed s;
     channelsProcessed := channelsProcessed s;
     threadsProcessed := threadsProcessed s; postsProcessed := S (postsProcessed s);
     errorsEncountered := errorsEncountered s; startTime := startTime s;
     endTime := endTime s; durationMs := durationMs s |}.
Definition inc_errors (s : SyncStats) : SyncStats :=
  {| mode := mode s; guildsProcessed := guildsProcessed s;
     channelsProcessed := channelsProcessed s;
     threadsProcessed := threadsProcessed s; postsProcessed := postsProcessed s;
     errorsEncountered := S (errorsEncountered s); startTime := startTime s;
     endTime := endTime s; durationMs := durationMs s |}.
Definition with_end (t : Time) (s : SyncStats) : SyncStats :=
  {| mode := mode s; guildsProcessed := guildsProcessed s;
     channelsProcessed := channelsProcessed s;
     threadsProcessed := threadsProcessed s; postsProcessed := postsProcessed s;
     errorsEncountered := errorsEncountered s; startTime := startTime s;
     endTime := Some t; durationMs := Some (t - startTime s)%Z |}.
Definition fresh_stats (t : Time) : SyncStats :=
  {| mode := full; guildsProcessed := 0; channelsProcessed := 0; threadsProcessed := 0;
     postsProcessed := 0; errorsEncountered := 0; startTime := t; endTime := None;
     durationMs := None |}.

(** [fetchAllMessages], the same text in smartSync.ts and sync.ts: pages of
    100, each before the last id seen, until an empty page or a rejected
    fetch. A page holds ids below [before] and its last id is the new
    [before], so one more round than the thread has messages is never
    reached. *)
Fixpoint fetchAllMessages_loop (fuel : nat) (thread : ThreadChannel)
  (messages : Collection Message) (lastId : option Snowflake) : M (Collection Message) :=
  match fuel with
  | O => ret messages
  | S fuel' =>
      do step <- try_catch
                   (do batch <- messages_fetch_before thread lastId;
                    match batch with
                    | [] => ret None                                    (* break *)
                    | _ =>
                        (* Small delay to avoid rate limiting *)
                        sleep 100 ;;
                        ret (Some (coll_set_all m_id batch messages,
                                   option_map m_id (last batch)))
                    end)
                   (fun _ => ret None);                                 (* break *)
      match step with
      | None => ret messages
      | Some (messages', lastId') => fetchAllMessages_loop fuel' thread messages' lastId'
      end
  end.

Definition fetchAllMessages (thread : ThreadChannel) : M (Collection Message) :=
  fetchAllMessages_loop (S (length (t_messages thread))) thread [] None.

(** ** lib/smartSync.ts *)

Module SmartSync.
Import Sanitizer.

Definition getSyncState : M SyncState :=
  try_catch
    (do result <- Db.select_sync_state;
     match result with
     | [] => throw "Sync state not found in config table"
     | Json st :: _ => ret st
     | Malformed :: _ => throw "SyntaxError"
     end)
    (fun _ => ret {| last_sync := 0; is_first_run := 1 |}).

Definition updateSyncState : M unit :=
  do t <- Date_now;
  let newState := {| last_sync := t; is_first_run := 0 |} in
  Db.update_sync_state newState.

Definition upsertChannel (channel : ForumChannel) : M unit :=
  let slug := Slug.upsertThread_slug (c_name channel) in
  Db.upsert_channel false (c_id channel)
    {| ch_slug := slug; ch_name := c_name channel; ch_description := Some (c_topic channel);
       ch_position := c_position channel; ch_created_at := c_createdTimestamp channel |}.

(** [staffTag ? `${authorId.slice(0, 8)}:${staffTag}` : authorId] *)
Definition author_alias (authorId : jsstring) (staffTag : option jsstring) : jsstring :=
  match staffTag with
  | Some tag => firstn 8 authorId ++ str ":" ++ tag
  | None => authorId
  end.

Definition upsertThread (thread : ThreadChannel) : M unit :=
  (* Generate thread slug *)
  let slug := Slug.upsertThread_slug (t_name thread) in
  (* Get author information *)
  do e <- gets env;
  do authorId <- lift (Hash.hashUserId e (t_ownerId thread));
  do staffTag <- StaffLoader.getStaffTag (t_ownerId thread);
  let authorAlias := author_alias authorId staffTag in
  (* Get starter message for body content *)
  do bodyHtml <-
    try_catch
      (do starterMessage <- fetchStarterMessage thread;
       match starterMessage with
       | Some sm =>
           if negb (m_author_bot sm)
           then Image.append_images (sanitize_html (m_content sm)) (m_attachments sm)
           else ret []
       | None => ret []
       end)
      (fun _ => ret []);
  (* Process tags *)
  let tags := t_appliedTags thread in
  do t <- Date_now;
  Db.upsert_thread false (t_id thread)
    {| th_channel_id := t_parentId thread; th_slug := slug; th_title := t_name thread;
       th_author_alias := authorAlias; th_body_html := bodyHtml; th_tags := Some tags;
       th_reply_count := 0; th_created_at := t_createdTimestamp thread; th_updated_at := t |}.

Definition upsertPost (message : Message) : M unit :=
  (* Generate author alias *)
  do e <- gets env;
  do authorId <- lift (Hash.hashUserId e (m_author_id message));
  do staffTag <- StaffLoader.getStaffTag (m_author_id message);
  let authorAlias := author_alias authorId staffTag in
  (* Handle reply references *)
  do reply <-
    match m_reference message with
    | Some replyToId =>
        try_catch
          (* Check if referenced message exists in database *)
          (do referencedPost <- Db.select_post replyToId;
           match referencedPost with
           | p :: _ => ret (Some replyToId, Some (po_author_alias p))
           | [] => ret (None, None)
           end)
          (fun _ => ret (None, None))
    | None => ret (None, None)
    end;
  (* Process content, then images *)
  do htmlContent <- Image.append_images (sanitize_html (m_content message))
                                        (m_attachments message);
  (* Insert/update post *)
  Db.upsert_post (m_id message)
    {| po_thread_id := m_channel_id message; po_author_alias := authorAlias;
       po_body_html := htmlContent; po_reply_to_id := fst reply;
       po_reply_to_author_alias := snd reply; po_created_at := m_createdAt message;
       po_updated_at := match m_editedAt message with
                        | Some t => t
                        | None => m_createdAt message
                        end |} ;;
  upd_stats inc_posts.

Definition updateThreadReplyCount (threadId : Snowflake) : M unit :=
  Db.update_reply_count_from_posts threadId.

(** The loop both thread syncs run over the sorted messages. *)
Definition upsert_messages (sortedMessages : list Message) : M unit :=
  foreach sortedMessages (fun message =>
    if m_author_bot message then ret tt              (* Skip bot messages *)
    else try_catch (upsertPost message) (fun _ => upd_stats inc_errors)).

Definition syncThreadFull (thread : ThreadChannel) : M unit :=
  (* Ensure thread exists in database *)
  upsertThread thread ;;
  (* Fetch all messages *)
  do messages <- fetchAllMessages thread;
  (* Process messages in chronological order *)
  let sortedMessages := sort_by_created (map snd messages) in
  upsert_messages sortedMessages ;;
  (* Update reply count *)
  updateThreadReplyCount (t_id thread).

Definition syncThreadDelta (thread : ThreadChannel) (lastSyncDate : Time) : M unit :=
  (* Ensure thread exists in database *)
  upsertThread thread ;;
  try_catch
    ((* Fetch messages after lastSyncDate *)
     do messages <- messages_fetch_after thread lastSyncDate;
     (* Process messages in chronological order *)
     let sortedMessages := sort_by_created messages in
     upsert_messages sortedMessages ;;
     (* Update reply count *)
     updateThreadReplyCount (t_id thread))
    (fun e => throw e).

(** [allThreads]: the active threads, then the archived ones, set by id. *)
Definition combine_threads (active archived : list ThreadChannel) : list ThreadChannel :=
  map snd (coll_set_all t_id archived (coll_set_all t_id active [])).

Definition syncChannelThreads (sync : ThreadChannel -> M unit) (channel : ForumChannel)
  : M unit :=
  try_catch
    (do activeThreads <- fetchActive channel;
     do archivedThreads <- fetchArchived channel;
     foreach (combine_threads activeThreads archivedThreads) (fun thread =>
       try_catch (sync thread ;; upd_stats inc_threads)
                 (fun _ => upd_stats inc_errors)))
    (fun _ => upd_stats inc_errors).

Definition syncChannelThreadsFull (channel : ForumChannel) : M unit :=
  syncChannelThreads syncThreadFull channel.

Definition syncChannelThreadsDelta (channel : ForumChannel) (lastSyncDate : Time) : M unit :=
  syncChannelThreads (fun thread => syncThreadDelta thread lastSyncDate) channel.

Definition is_forum (c : ForumChannel) : bool :=
  match c_type c with GuildForum => true | OtherChannel => false end.

Definition syncGuild (syncThreads : ForumChannel -> M unit) (guild : Guild) : M unit :=
  let channels := List.filter is_forum (g_channels guild) in
  foreach channels (fun channel =>
    try_catch (upsertChannel channel ;; syncThreads channel ;; upd_stats inc_channels)
              (fun _ => upd_stats inc_errors)).

Definition syncGuildFull (guild : Guild) : M unit :=
  syncGuild syncChannelThreadsFull guild.

Definition syncGuildDelta (guild : Guild) (lastSyncDate : Time) : M unit :=
  syncGuild (fun channel => syncChannelThreadsDelta channel lastSyncDate) guild.

Definition runFullSync (client : Client) : M unit :=
  foreach (guilds client) (fun guild =>
    try_catch (syncGuildFull guild ;; upd_stats inc_guilds)
              (fun _ => upd_stats inc_errors)).

Definition runDeltaSync (client : Client) (lastSyncDate : Time) : M unit :=
  foreach (guilds client) (fun guild =>
    try_catch (syncGuildDelta guild lastSyncDate ;; upd_stats inc_guilds)
              (fun _ => upd_stats inc_errors)).

Definition smartSync (client : Client) (forceFull : bool) : M unit :=
  do t0 <- Date_now;
  modify (set_stats (fun _ => fresh_stats t0)) ;;
  try_catch
    ((* Get current sync state *)
     do syncState <- getSyncState;
     (* Determine sync mode *)
     (if forceFull || (is_first_run syncState =? 1)%Z
      then upd_stats (with_mode full) ;; runFullSync client
      else upd_stats (with_mode delta) ;;
           let lastSyncDate := last_sync syncState in
           runDeltaSync client lastSyncDate) ;;
     (* Update sync state *)
     updateSyncState ;;
     do t1 <- Date_now;
     upd_stats (with_end t1))
    (fun e => upd_stats inc_errors ;; throw e).

End SmartSync.

(** ** lib/sync.ts, from [syncSpecificThread] down *)

Module Sync.
Import Sanitizer.

Definition syncMessage (message : Message) : M unit :=
  do e <- gets env;
  do authorAlias <- lift (Hash.hashUserId e (m_author_id message));
  (* Check for reply context *)
  do reply <-
    match m_reference message with
    | Some ref =>
        do replyToAuthorAlias <-
          try_catch
            (do referencedMessage <- channel_message_fetch (m_channel_id message) ref;
             do a <- lift (Hash.hashUserId e (m_author_id referencedMessage));
             ret (Some a))
            (fun _ => ret None);            (* Could not fetch referenced message *)
        (* Check if the referenced message exists in the database *)
        try_catch
          (do existingPost <- Db.select_post ref;
           match existingPost with
           | [] => ret (None, None)
           | _ => ret (Some ref, replyToAuthorAlias)
           end)
          (fun _ => ret (None, None))
    | None => ret (None, None)
    end;
  (* Process content, then images *)
  do htmlContent <- Image.append_images (sanitize_html (m_content message))
                                        (m_attachments message);
  (* Insert post *)
  Db.upsert_post (m_id message)
    {| po_thread_id := m_channel_id message; po_author_alias := authorAlias;
       po_body_html := htmlContent; po_reply_to_id := fst reply;
       po_reply_to_author_alias := snd reply; po_created_at := m_createdAt message;
       po_updated_at := match m_editedAt message with
                        | Some t => t
                        | None => m_createdAt message
                        end |} ;;
  upd_stats inc_posts.

Definition updateReplyReferences (message : Message) : M unit :=
  match m_reference message with
  | None => ret tt
  | Some replyToId =>
      (* Check if the current post has no reply reference set *)
      do currentPost <- Db.select_post (m_id message);
      match currentPost with
      | [] => ret tt                   (* Post doesn't exist *)
      | p :: _ =>
          match po_reply_to_id p with
          | Some _ => ret tt           (* already has reply reference *)
          | None =>
              (* Check if the referenced message now exists in the database *)
              do referencedPost <- Db.select_post replyToId;
              match referencedPost with
              | r :: _ =>
                  (* Update the reply reference *)
                  do t <- Date_now;
                  Db.update_post_reply (m_id message) replyToId (po_author_alias r) t
              | [] => ret tt
              end
          end
      end
  end.

(** [tags.map(...).filter(Boolean)], or [null] when the thread has no tag;
    [None] of the result is a thread without parent, on which the [in] test
    throws. *)
Definition tag_names (parent : option ForumChannel) (tags : list jsstring)
  : result (option (list jsstring)) :=
  match tags with
  | [] => Ok None
  | _ =>
      match parent with
      | None => Throw "TypeError"
      | Some p =>
          Ok (Some (List.filter (fun n => match n with [] => false | _ => true end)
                (map (fun tagId =>
                        match find (fun t => bool_decide (tag_id t = tagId)) (c_availableTags p) with
                        | Some t => match tag_name t with [] => tagId | n => n end
                        | None => tagId
                        end) tags)))
      end
  end.

Definition all_channels (c : Client) : list ForumChannel := flat_map g_channels (guilds c).

(** First pass of [syncSpecificThread]; the result is [postCount]. *)
Fixpoint sync_messages (sortedMessages : list Message) (postCount : Z) : M Z :=
  match sortedMessages with
  | [] => ret postCount
  | message :: rest =>
      do postCount <- try_catch (syncMessage message ;; ret (postCount + 1)%Z)
                                (fun _ => upd_stats inc_errors ;; ret postCount);
      sync_messages rest postCount
  end.

(** Second pass: Update reply relationships for messages that had missing
    references. *)
Definition update_references (sortedMessages : list Message) : M unit :=
  foreach sortedMessages (fun message =>
    try_catch
      (match m_reference message with
       | Some _ => updateReplyReferences message
       | None => ret tt
       end)
      (fun _ => ret tt)).

(** The two passes of [syncSpecificThread] over the sorted replies. *)
Definition reconcile_replies (sortedMessages : list Message) : M Z :=
  do postCount <- sync_messages sortedMessages 0%Z;
  update_references sortedMessages ;;
  ret postCount.

Definition syncSpecificThread (client : Client) (threadId : Snowflake) (skipExisting : bool)
  : M unit :=
  match find (fun t => (t_id t =? threadId)%Z) (all_threads client) with
  | None => throw "Thread not found"
  | Some thread =>
      (* Check if thread already exists and skip if requested *)
      do skip <- (if skipExisting
                  then do existingThread <- Db.select_thread threadId;
                       ret (match existingThread with [] => false | _ => true end)
                  else ret false);
      if skip then ret tt else
      (* Get starter message *)
      do starter <- fetchStarterMessage thread;
      match starter with
      | None => ret tt                 (* No starter message, skipping *)
      | Some starterMessage =>
          if m_author_bot starterMessage then ret tt else
          do e <- gets env;
          do authorAlias <- lift (Hash.hashUserId e (m_author_id starterMessage));
          (* Process starter message content, then images from attachments *)
          do htmlContent <- Image.append_images (sanitize_html (m_content starterMessage))
                                                (m_attachments starterMessage);
          (* Extract tags from thread *)
          do tagNames <- lift (tag_names
                                 (find (fun c => (c_id c =? t_parentId thread)%Z)
                                       (all_channels client))
                                 (t_appliedTags thread));
          (* Create thread slug *)
          let slug := Slug.syncSpecificThread_slug (t_name thread) in
          (* Upsert thread *)
          do t <- Date_now;
          Db.upsert_thread true (t_id thread)
            {| th_channel_id := t_parentId thread; th_slug := slug;
               th_title := t_name thread; th_author_alias := authorAlias;
               th_body_html := htmlContent; th_tags := tagNames; th_reply_count := 0;
               th_created_at := m_createdAt starterMessage; th_updated_at := t |} ;;
          upd_stats inc_threads ;;
          (* Fetch all messages in the thread *)
          do messages <- fetchAllMessages thread;
          (* Sort messages by creation time to process in chronological order *)
          let sortedMessages :=
            sort_by_created
              (List.filter (fun msg => negb (m_id msg =? m_id starterMessage)%Z
                                       && negb (m_author_bot msg))
                           (map snd messages)) in
          do postCount <- reconcile_replies sortedMessages;
          (* Update thread reply count *)
          Db.update_reply_count postCount threadId
      end
  end.

End Sync.

(** ** index.ts: start-up and the [ready] handler *)

Module Index.

Inductive Outcome : Type :=
| Exited (code : Z)                    (* process.exit(code) *)
| Serving.                             (* the event loop goes on *)

Definition truthy (o : option jsstring) : bool :=
  match o with Some (_ :: _) => true | _ => false end.

Definition env_is (e : Env) (k : string) (v : string) : bool :=
  bool_decide (e !! k = Some (str v)).

(** [initializeDatabase]: the pool is created, one connection pinged. *)
Definition initializeDatabase : M unit := Db.ping.

(** [client.login(token)] *)
Definition login (token : option jsstring) : M unit :=
  if truthy token then net_io else throw "TokenInvalid".

(** [commandHandler.loadCommands]: the command modules beside the program
    are imported and kept in memory. A module that fails to load is logged
    and skipped, a missing directory is a warning: the call returns. *)
Definition loadCommands : M unit := ret tt.

(** [commandHandler.registerCommands]: one REST call. *)
Definition registerCommands : M unit := net_io.

Definition main : M Outcome :=
  try_catch
    ((* Initialize metrics, then the database *)
     initializeDatabase ;;
     do e <- gets env;
     (* Load staff from CSV if exists *)
     (if truthy (e !! "STAFF_CSV_PATH"%string) then StaffLoader.loadStaffFromCSV else ret tt) ;;
     (* Initialize Discord client, then the command handler *)
     loadCommands ;;
     (* Set up the event handlers, then login to Discord *)
     login (e !! "DISCORD_TOKEN"%string) ;;
     ret Serving)
    (fun _ => ret (Exited 1)).         (* Failed to start application *)

(** [client.on('ready', ...)] *)
Definition ready (client : Client) : M Outcome :=
  do e <- gets env;
  let runMode := match e !! "RUN_MODE"%string with
                 | Some (c :: m) => c :: m
                 | _ => str "watch"
                 end in
  let once := bool_decide (runMode = str "once") in
  let exitAfterSync := env_is e "EXIT_AFTER_SYNC" "true" in
  (* Register commands only in watch mode or if explicitly enabled *)
  (if (bool_decide (runMode = str "watch") || env_is e "REGISTER_COMMANDS" "true")
      && truthy (e !! "DISCORD_TOKEN"%string)
   then try_catch registerCommands (fun _ => ret tt)
   else ret tt) ;;
  (* Run smart sync if enabled *)
  if env_is e "ENABLE_HISTORICAL_SYNC" "true" then
    (* Determine if this should be a forced full sync *)
    let forceFull := env_is e "FORCE_FULL_SYNC" "true" in
    try_catch
      (SmartSync.smartSync client forceFull ;;
       (* Exit after sync if in one-time mode or explicitly configured *)
       if once || exitAfterSync then ret (Exited 0) else ret Serving)
      (fun _ =>
         (* Exit on sync failure if in one-time mode *)
         if once || exitAfterSync then ret (Exited 1) else ret Serving)
  else if once then ret (Exited 0)
  else ret Serving.

(** The process from its start to the end of the [ready] handler. *)
Definition start : M Outcome :=
  do o <- main;
  match o with
  | Exited c => ret (Exited c)
  | Serving => do c <- gets discord; ready c
  end.

End Index.

(** ** A concrete installation: one guild, one forum channel [General], one
    thread [How do I X?] with the starter M1, M2 replying to M1, M3 replying
    to M2; a fresh store with the cursor row of [init.sql] *)

Module Scenario.

Definition pepper : jsstring :=
  str "00112233445566778899aabbccddeeff00112233445566778899aabbccddeeff".

Definition message (id : Snowflake) (author content : string) (ref : option Snowflake)
  (created : Time) : Message :=
  {| m_id := id; m_channel_id := 500; m_author_id := str author; m_author_bot := false;
     m_content := str content; m_reference := ref; m_createdAt := created;
     m_editedAt := None; m_attachments := [] |}.

Definition M1 : Message := message 500 "111" "How?" None 1000.
Definition M2 : Message := message 502 "222" "Like **this**" (Some 500%Z) 2000.
Definition M3 : Message := message 503 "333" "thanks" (Some 502%Z) 3000.

Definition thread (messages : list Message) : ThreadChannel :=
  {| t_id := 500; t_name := str "How do I X?"; t_parentId := 40; t_ownerId := str "111";
     t_appliedTags := []; t_createdTimestamp := 1000; t_starter := Some M1;
     t_messages := messages |}.

Definition client_of (t : ThreadChannel) : Client :=
  {| guilds := [{| g_id := 1; g_name := str "Guild";
                   g_channels := [{| c_id := 40; c_type := GuildForum; c_name := str "General";
                                     c_topic := []; c_position := 0; c_createdTimestamp := 10;
                                     c_availableTags := []; c_active := [t];
                                     c_archived := [] |}] |}] |}.

Definition client : Client := client_of (thread [M1; M2; M3]).

Definition fresh_store : Store :=
  {| sync_state := Some {| cfg_value := Json {| last_sync := 0; is_first_run := 1 |};
                           cfg_updated_at := 0 |};
     channels := ∅; threads := ∅; posts := ∅; staff_roles := ∅ |}.

(** The store once the channel row exists. *)
Definition store_with_channel : Store :=
  Db.with_channels
    {[ 40%Z := {| ch_slug := str "general"; ch_name := str "General";
                  ch_description := Some []; ch_position := 0%Z; ch_created_at := 10%Z |} ]}
    fresh_store.

Definition world_of (s : Store) (e : Env) (c : Client) (db net : list Event) : World :=
  {| store := s; env := e; discord := c;
     media := fun url _ => {| img_url := url; img_width := 1; img_height := 1 |};
     staff_csv := None; now := 1000000; db_events := db; net_events := net;
     stats := fresh_stats 0 |}.

Definition env0 : Env :=
  {[ "PII_PEPPER"%string := pepper ]} ∪ {[ "DISCORD_TOKEN"%string := str "token" ]}.

(** Start time 1000000, every call answered at once and without failure. *)
Definition world : World := world_of fresh_store env0 client [] [].

End Scenario.

(** ** lib/sanitizer.ts: [sanitizeForHtml] *)

Module Html.
Import Re.

Definition AMP : RegExp := {| source := one "&"; ignoreCase := false |}.    (* /&/g *)
Definition LT : RegExp := {| source := one "<"; ignoreCase := false |}.     (* /</g *)
Definition GT : RegExp := {| source := one ">"; ignoreCase := false |}.     (* />/g *)
Definition QUOT : RegExp :=                        (* the double quote, global *)
  {| source := Chr {| negated := false; items := [Lit 34] |}; ignoreCase := false |}.
Definition APOS : RegExp := {| source := one "'"; ignoreCase := false |}.   (* /'/g *)

(** Basic HTML escaping for safety *)
Definition sanitizeForHtml (content : jsstring) : jsstring :=
  replace APOS [Txt (str "&#x27;")]
    (replace QUOT [Txt (str "&quot;")]
      (replace GT [Txt (str "&gt;")]
        (replace LT [Txt (str "&lt;")]
          (replace AMP [Txt (str "&amp;")] content)))).

End Html.

(** ** lib/staffLoader.ts: the staff table at run time *)

Module StaffRoles.

(** [SELECT COUNT( * ) as count FROM staff_roles WHERE discord_user_id_hash = ?]:
    one row, the key being the primary key. *)
Definition count_staff_roles (hashedId : jsstring) : M (list Z) :=
  Db.read (fun s => match staff_roles s !! hashedId with
                    | Some _ => [1%Z]
                    | None => [0%Z]
                    end).

(** [DELETE FROM staff_roles WHERE discord_user_id_hash = ?]; the result is
    [affectedRows]. *)
Definition delete_staff_role (hashedId : jsstring) : M Z :=
  db_io ;;
  do s <- gets store;
  modify (set_store (Db.with_staff_roles (delete hashedId (staff_roles s)))) ;;
  ret (match staff_roles s !! hashedId with Some _ => 1%Z | None => 0%Z end).

Definition isStaff (discordUserId : jsstring) : M bool :=
  try_catch
    (do e <- gets env;
     do hashedId <- lift (Hash.hashUserId e discordUserId);
     do result <- count_staff_roles hashedId;
     ret (match result with
          | count :: _ => (0 <? count)%Z     (* (result[0]?.count || 0) > 0 *)
          | [] => false
          end))
    (fun _ => ret false).

(** The columns [added_by] and [added_at] are not read anywhere and are left
    out of the store. *)
Definition addStaffRole (discordUserId tag addedBy : jsstring) : M bool :=
  try_catch
    (do e <- gets env;
     do hashedId <- lift (Hash.hashUserId e discordUserId);
     Db.upsert_staff_role hashedId tag ;;
     ret true)
    (fun _ => ret false).

Definition removeStaffRole (discordUserId : jsstring) : M bool :=
  try_catch
    (do e <- gets env;
     do hashedId <- lift (Hash.hashUserId e discordUserId);
     do affectedRows <- delete_staff_role hashedId;
     let deleted := (0 <? affectedRows)%Z in
     ret deleted)
    (fun _ => ret false).

End StaffRoles.

(** ** lib/sync.ts, above [syncSpecificThread] *)

Module SyncAll.

(** [SyncOptions]; an id or a limit that is not given is [None]. *)
Record SyncOptions : Type := {
  guildId : option Snowflake;
  channelId : option Snowflake;
  threadId : option Snowflake;
  limit : option Z;
  skipExisting : bool }.

(** [options.limit && stats.threadsProcessed >= options.limit] *)
Definition limit_reached (options : SyncOptions) (s : SyncStats) : bool :=
  match limit options with
  | Some n => negb (n =? 0)%Z && (n <=? Z.of_nat (threadsProcessed s))%Z
  | None => false
  end.

(** The loop of [syncSpecificChannel] over the threads of the channel. *)
Fixpoint sync_threads (client : Client) (options : SyncOptions) (allThreads : list ThreadChannel)
  : M unit :=
  match allThreads with
  | [] => ret tt
  | thread :: rest =>
      do s <- gets stats;
      if limit_reached options s then ret tt         (* Reached thread limit, stopping *)
      else
        try_catch (Sync.syncSpecificThread client (t_id thread) (skipExisting options))
                  (fun _ => upd_stats inc_errors) ;;
        sync_threads client options rest
  end.

Definition syncSpecificChannel (client : Client) (channelId : Snowflake)
  (options : SyncOptions) : M unit :=
  match find (fun c => (c_id c =? channelId)%Z) (Sync.all_channels client) with
  | None => throw "Forum channel not found"
  | Some channel =>
      if negb (SmartSync.is_forum channel) then throw "Forum channel not found" else
      (* Upsert channel first *)
      do t <- Date_now;
      Db.upsert_channel true (c_id channel)
        {| ch_slug := Slug.syncSpecificChannel_slug (c_name channel);
           ch_name := c_name channel;
           ch_description := match c_topic channel with [] => None | topic => Some topic end;
           ch_position := c_position channel; ch_created_at := t |} ;;
      upd_stats inc_channels ;;
      (* Get all threads (archived and active) *)
      do threads <- fetchArchived channel;
      do activeThreads <- fetchActive channel;
      let allThreads := map snd (coll_set_all t_id activeThreads (coll_set_all t_id threads [])) in
      sync_threads client options allThreads
  end.

Definition syncSpecificGuild (client : Client) (guildId : Snowflake) (options : SyncOptions)
  : M unit :=
  match find (fun g => (g_id g =? guildId)%Z) (guilds client) with
  | None => throw "Guild not found"
  | Some guild =>
      (* Get all forum channels *)
      let forumChannels := List.filter SmartSync.is_forum (g_channels guild) in
      foreach forumChannels (fun channel =>
        try_catch (syncSpecificChannel client (c_id channel) options)
                  (fun _ => upd_stats inc_errors))
  end.

Definition syncAllGuilds (client : Client) (options : SyncOptions) : M unit :=
  foreach (guilds client) (fun guild =>
    try_catch (syncSpecificGuild client (g_id guild) options)
              (fun _ => upd_stats inc_errors)).

Definition with_endTime (t : Time) (s : SyncStats) : SyncStats :=
  {| mode := mode s; guildsProcessed := guildsProcessed s;
     channelsProcessed := channelsProcessed s;
     threadsProcessed := threadsProcessed s; postsProcessed := postsProcessed s;
     errorsEncountered := errorsEncountered s; startTime := startTime s;
     endTime := Some t; durationMs := durationMs s |}.

Definition syncHistoricalData (client : Client) (options : SyncOptions) : M SyncStats :=
  do t0 <- Date_now;
  modify (set_stats (fun _ => fresh_stats t0)) ;;
  try_catch
    ((match threadId options, channelId options, guildId options with
      | Some id, _, _ =>
          (* Sync specific thread *)
          Sync.syncSpecificThread client id (skipExisting options)
      | None, Some id, _ =>
          (* Sync specific channel *)
          syncSpecificChannel client id options
      | None, None, Some id =>
          (* Sync specific guild *)
          syncSpecificGuild client id options
      | None, None, None =>
          (* Sync all guilds *)
          syncAllGuilds client options
      end) ;;
     do t1 <- Date_now;
     upd_stats (with_endTime t1))
    (fun e => upd_stats inc_errors ;; throw e) ;;
  gets stats.

End SyncAll.

(** ** The live handlers: handlers/message.ts *)

Module Handlers.
Import Sanitizer.

Record Attachment : Type := { att_url : jsstring; att_contentType : option jsstring }.

(** [String.prototype.startsWith] *)
Fixpoint startsWith (s searchString : jsstring) : bool :=
  match searchString, s with
  | [], _ => true
  | p :: rest, c :: s' => (c =? p) && startsWith s' rest
  | _ :: _, [] => false
  end.

(** [attachment.contentType?.startsWith('image/') || isImageUrl(attachment.url)] *)
Definition is_image (attachment : Attachment) : bool :=
  match att_contentType attachment with
  | Some t => startsWith t (str "image/")
  | None => false
  end || Image.isImageUrl (att_url attachment).

(** The loop of [processImages]: download, transcode and upload, one image
    after the other; a failure is logged and the loop goes on. *)
Fixpoint process_attachments (l : list Attachment) : M (list ProcessedImage) :=
  match l with
  | [] => ret []
  | attachment :: l' =>
      do r <- try_catch
                (net_io ;; net_io ;;
                 do t <- Date_now;
                 do f <- gets media;
                 ret [f (att_url attachment) t])
                (fun _ => ret []);
      do rs <- process_attachments l';
      ret (r ++ rs)
  end.

Definition processImages (attachments : list Attachment) : M (list ProcessedImage) :=
  let imageAttachments := List.filter is_image attachments in
  match imageAttachments with
  | [] => ret []
  | _ => process_attachments imageAttachments
  end.

Definition with_images (htmlContent : jsstring) (imageData : list ProcessedImage) : jsstring :=
  match imageData with
  | [] => htmlContent
  | _ => htmlContent ++ str "<br>" ++ Image.join (str "<br>") (map Image.img_tag imageData)
  end.

(** A message event as the gateway delivers it: the message (content [[]]
    for null), whether it is partial, its attachments, its channel
    ([isThread()], [parent?.type]) and what [message.fetch()] resolves to
    ([None] when the fetch is rejected). *)
Record Incoming : Type := {
  in_message : Message;
  in_partial : bool;
  in_attachments : list Attachment;
  in_isThread : bool;
  in_parentType : option Z;
  in_fetch : option (Message * list Attachment) }.

(** [UPDATE threads SET reply_count = (SELECT COUNT( * ) FROM posts WHERE
    thread_id = ?), updated_at = ? WHERE id = ?] *)
Definition update_thread_count (thread_id : Snowflake) (updated : Time) : M unit :=
  Db.write (fun _ s =>
    match threads s !! thread_id with
    | Some old =>
        Db.with_threads
          (<[thread_id := {| th_channel_id := th_channel_id old; th_slug := th_slug old;
                             th_title := th_title old; th_author_alias := th_author_alias old;
                             th_body_html := th_body_html old; th_tags := th_tags old;
                             th_reply_count := Db.count_posts s thread_id;
                             th_created_at := th_created_at old;
                             th_updated_at := updated |}]> (threads s)) s
    | None => s
    end).

(** [UPDATE posts SET body_html = ?, updated_at = ? WHERE id = ?] *)
Definition update_post_body (id : Snowflake) (html : jsstring) (updated : Time) : M unit :=
  Db.write (fun _ s =>
    match posts s !! id with
    | Some old =>
        Db.with_posts (<[id := {| po_thread_id := po_thread_id old;
                                  po_author_alias := po_author_alias old;
                                  po_body_html := html;
                                  po_reply_to_id := po_reply_to_id old;
                                  po_reply_to_author_alias := po_reply_to_author_alias old;
                                  po_created_at := po_created_at old;
                                  po_updated_at := updated |}]> (posts s)) s
    | None => s
    end).

(** [UPDATE threads SET body_html = ?, updated_at = ? WHERE id = ?] *)
Definition update_thread_body (id : Snowflake) (html : jsstring) (updated : Time) : M unit :=
  Db.write (fun _ s =>
    match threads s !! id with
    | Some old =>
        Db.with_threads
          (<[id := {| th_channel_id := th_channel_id old; th_slug := th_slug old;
                      th_title := th_title old; th_author_alias := th_author_alias old;
                      th_body_html := html; th_tags := th_tags old;
                      th_reply_count := th_reply_count old;
                      th_created_at := th_created_at old;
                      th_updated_at := updated |}]> (threads s)) s
    | None => s
    end).

(** [posts.reply_to_id] REFERENCES [posts(id)] ON DELETE SET NULL. *)
Definition unlink (id : Snowflake) (p : PostRow) : PostRow :=
  if bool_decide (po_reply_to_id p = Some id)
  then {| po_thread_id := po_thread_id p; po_author_alias := po_author_alias p;
          po_body_html := po_body_html p; po_reply_to_id := None;
          po_reply_to_author_alias := po_reply_to_author_alias p;
          po_created_at := po_created_at p; po_updated_at := po_updated_at p |}
  else p.

(** [DELETE FROM posts WHERE id = ?]; the result is [affectedRows]. *)
Definition delete_post (id : Snowflake) : M Z :=
  db_io ;;
  do s <- gets store;
  match posts s !! id with
  | Some _ =>
      modify (set_store (Db.with_posts (unlink id <$> delete id (posts s)))) ;;
      ret 1%Z
  | None => ret 0%Z
  end.

Definition getReplyContext (message : Message) : M (option Snowflake * option jsstring) :=
  match m_reference message with
  | Some replyToId =>
      (* Try to get the original message to find the author *)
      do e <- gets env;
      do replyToAuthorAlias <-
        try_catch
          (do referencedMessage <- channel_message_fetch (m_channel_id message) replyToId;
           do a <- lift (Hash.hashUserId e (m_author_id referencedMessage));
           ret (Some a))
          (fun _ => ret None);
      ret (Some replyToId, replyToAuthorAlias)
  | None => ret (None, None)
  end.

Definition handleMessageCreate (message : Message) (attachments : list Attachment)
  (isThread : bool) : M unit :=
  do e <- gets env;
  do authorAlias <- lift (Hash.hashUserId e (m_author_id message));
  do staffTag <- StaffLoader.getStaffTag (m_author_id message);
  (* Get reply context *)
  do replyContext <- getReplyContext message;
  (* Sanitize content, process images if any *)
  do imageData <- processImages attachments;
  let htmlContent := with_images (sanitize_html (m_content message)) imageData in
  (* Determine if this is a thread starter or a reply *)
  if isThread then
    (* This is a reply in an existing thread *)
    Db.upsert_post (m_id message)
      {| po_thread_id := m_channel_id message; po_author_alias := authorAlias;
         po_body_html := htmlContent; po_reply_to_id := fst replyContext;
         po_reply_to_author_alias := snd replyContext; po_created_at := m_createdAt message;
         po_updated_at := match m_editedAt message with
                          | Some t => t
                          | None => m_createdAt message
                          end |} ;;
    (* Update thread reply count *)
    do t <- Date_now;
    update_thread_count (m_channel_id message) t
  else ret tt.                         (* Message in non-thread channel, skipping *)

(** [oldContent] is [oldMessage.content], [None] for null. *)
Definition handleMessageUpdate (message : Message) (attachments : list Attachment)
  (isThread : bool) (oldContent : option jsstring) : M unit :=
  (* Only process if content actually changed *)
  if bool_decide (Some (m_content message) = oldContent) then ret tt else
  do e <- gets env;
  do authorAlias <- lift (Hash.hashUserId e (m_author_id message));
  do imageData <- processImages attachments;
  let htmlContent := with_images (sanitize_html (m_content message)) imageData in
  if isThread then
    (* Check if this is a post or the thread starter *)
    do existingPost <- Db.select_post (m_id message);
    match existingPost with
    | _ :: _ =>
        (* Update existing post *)
        do t <- Date_now;
        update_post_body (m_id message) htmlContent
          (match m_editedAt message with Some ed => ed | None => t end)
    | [] =>
        (* This might be the thread starter message, check threads table *)
        do existingThread <- Db.select_thread (m_channel_id message);
        match existingThread with
        | _ :: _ =>
            do t <- Date_now;
            update_thread_body (m_channel_id message) htmlContent
              (match m_editedAt message with Some ed => ed | None => t end)
        | [] => ret tt
        end
    end
  else ret tt.

Definition handleMessageDelete (message : Message) (isThread : bool) : M unit :=
  (* Try to delete from posts table first *)
  do affectedRows <- delete_post (m_id message);
  let postDeleted := (0 <? affectedRows)%Z in
  if postDeleted then
    (* Update thread reply count if a post was deleted *)
    if isThread then
      do t <- Date_now;
      update_thread_count (m_channel_id message) t
    else ret tt
  else ret tt.                         (* Message not found in database *)

(** [oldMessage] is [None] for a create or delete event, and the old
    content for an update. *)
Definition messageHandler (message : Incoming) (oldMessage : option (option jsstring))
  : M unit :=
  try_catch
    ((* Skip if not in a forum channel or thread *)
     if negb (in_isThread message)
        && negb (match in_parentType message with
                 | Some t => negb (t =? 0)%Z
                 | None => false
                 end)
     then ret tt
     else
       (* Handle message deletion *)
       if in_partial message && match m_content (in_message message) with
                                | [] => true
                                | _ => false
                                end
       then handleMessageDelete (in_message message) (in_isThread message)
       else
         (* Fetch partial message *)
         do full <- (if in_partial message
                     then net_io ;;
                          match in_fetch message with
                          | Some f => ret f
                          | None => throw "Unknown Message"
                          end
                     else ret (in_message message, in_attachments message));
         let '(msg, attachments) := full in
         (* Skip bot messages and empty messages *)
         if m_author_bot msg || match m_content msg with [] => true | _ => false end
         then ret tt
         else
           (* Process based on event type *)
           match oldMessage with
           | Some oldContent =>
               handleMessageUpdate msg attachments (in_isThread message) oldContent
           | None => handleMessageCreate msg attachments (in_isThread message)
           end)
    (fun _ => ret tt).                 (* Error handling message event *)

End Handlers.

(** ** The live handlers: handlers/thread.ts *)

Module ThreadHandler.
Import Sanitizer.

(** A thread event: the thread, its parent channel ([None] when it is not
    cached), [thread.lastMessage] with its attachments ([None] when the last
    message is not cached), and the attachments of the message
    [fetchStarterMessage] resolves to. *)
Record ThreadEvent : Type := {
  ev_thread : ThreadChannel;
  ev_parent : option ForumChannel;
  ev_lastMessage : option (Message * list Handlers.Attachment);
  ev_starterAttachments : list Handlers.Attachment }.

(** [INSERT INTO threads ... ON DUPLICATE KEY UPDATE title, body_html, tags,
    reply_count, updated_at]: as [Db.upsert_thread] with the slug kept, but
    the reply count is written too. *)
Definition upsert_thread_counted (id : Snowflake) (r : ThreadRow) : M unit :=
  let upd (old : ThreadRow) : ThreadRow :=
    {| th_channel_id := th_channel_id old; th_slug := th_slug old;
       th_title := th_title r; th_author_alias := th_author_alias old;
       th_body_html := th_body_html r; th_tags := th_tags r;
       th_reply_count := th_reply_count r; th_created_at := th_created_at old;
       th_updated_at := th_updated_at r |} in
  db_io ;;
  do s <- gets store;
  match threads s !! id with
  | Some old => modify (set_store (Db.with_threads (<[id := upd old]> (threads s))))
  | None =>
      match Db.slug_owner (threads s) (th_slug r) with
      | Some j =>
          match threads s !! j with
          | Some old => modify (set_store (Db.with_threads (<[j := upd old]> (threads s))))
          | None => ret tt
          end
      | None => modify (set_store (Db.with_threads (<[id := r]> (threads s))))
      end
  end.

Definition handleThreadUpsert (ev : ThreadEvent) (parent : ForumChannel) : M unit :=
  let thread := ev_thread ev in
  (* Get the starter message *)
  do starter <- match ev_lastMessage ev with
                | Some last => ret (Some last)
                | None =>
                    do m <- fetchStarterMessage thread;
                    ret (option_map (fun m => (m, ev_starterAttachments ev)) m)
                end;
  match starter with
  | None => ret tt
  | Some (starterMessage, attachments) =>
      if m_author_bot starterMessage then ret tt else
      do e <- gets env;
      do authorAlias <- lift (Hash.hashUserId e (m_author_id starterMessage));
      do staffTag <- StaffLoader.getStaffTag (m_author_id starterMessage);
      (* Create channel entry if it doesn't exist *)
      do t0 <- Date_now;
      Db.upsert_channel true (t_parentId thread)
        {| ch_slug := Slug.syncSpecificChannel_slug (c_name parent);
           ch_name := c_name parent;
           ch_description := match c_topic parent with [] => None | topic => Some topic end;
           ch_position := c_position parent; ch_created_at := t0 |} ;;
      (* Sanitize thread content, process images if any *)
      do imageData <- Handlers.processImages attachments;
      let htmlContent :=
        Handlers.with_images (sanitize_html (m_content starterMessage)) imageData in
      (* Extract tags from thread (if any) *)
      do tagNames <- lift (Sync.tag_names (Some parent) (t_appliedTags thread));
      (* Get current reply count *)
      do replyCount <- Db.read (fun s => Db.count_posts s (t_id thread));
      (* Create thread slug from title *)
      let slug := Slug.syncSpecificThread_slug (t_name thread) in
      (* Upsert thread *)
      do t <- Date_now;
      upsert_thread_counted (t_id thread)
        {| th_channel_id := t_parentId thread; th_slug := slug; th_title := t_name thread;
           th_author_alias := authorAlias; th_body_html := htmlContent;
           th_tags := tagNames; th_reply_count := replyCount;
           th_created_at := m_createdAt starterMessage; th_updated_at := t |}
  end.

Definition threadHandler (ev : ThreadEvent) : M unit :=
  try_catch
    (match ev_parent ev with
     | Some parent =>
         (* Skip if not in a forum channel *)
         if negb (SmartSync.is_forum parent) then ret tt
         else handleThreadUpsert ev parent
     | None => ret tt
     end)
    (fun _ => ret tt).                 (* Error handling thread event *)

End ThreadHandler.

(** ** commands/sync.ts: the [/sync] command *)

Module SyncCommand.

Inductive Subcommand : Type :=
| all
| channel (target : option (Snowflake * ChannelType))   (* getChannel('channel') *)
| thread (threadId : option Snowflake).                 (* getString('thread-id') *)

Record Interaction : Type := {
  user_id : jsstring;
  interaction_guildId : option Snowflake;
  subcommand : Subcommand;
  option_limit : option Z;                 (* getInteger('limit') *)
  option_skip_existing : option bool }.    (* getBoolean('skip-existing') *)

(** The last message the command shows. *)
Inductive Reply : Type :=
| NoPermission                 (* You do not have permission to use this command. *)
| InvalidChannel               (* Please specify a valid forum channel. *)
| Completed (stats : SyncStats)
| Failed.                      (* Sync Operation Failed *)

(** [interaction.reply], [deferReply], [editReply]: one call to the platform. *)
Definition send : M unit := net_io.

Definition run (client : Client) (syncOptions : SyncAll.SyncOptions) : M Reply :=
  send ;;                                  (* Starting sync operation... *)
  do stats <- SyncAll.syncHistoricalData client syncOptions;
  send ;;                                  (* Sync Operation Completed *)
  ret (Completed stats).

Definition execute (client : Client) (interaction : Interaction) : M Reply :=
  (* Check if user is staff *)
  do userIsStaff <- StaffRoles.isStaff (user_id interaction);
  if negb userIsStaff then send ;; ret NoPermission else
  send ;;                                  (* deferReply *)
  try_catch
    (let limit := match option_limit interaction with
                  | Some n => if (n =? 0)%Z then None else Some n
                  | None => None
                  end in
     let skipExisting := match option_skip_existing interaction with
                         | Some b => b
                         | None => false
                         end in
     match subcommand interaction with
     | all =>
         run client {| SyncAll.guildId := interaction_guildId interaction;
                       SyncAll.channelId := None; SyncAll.threadId := None;
                       SyncAll.limit := limit; SyncAll.skipExisting := skipExisting |}
     | channel target =>
         match target with
         | Some (id, GuildForum) =>
             run client {| SyncAll.guildId := None; SyncAll.channelId := Some id;
                           SyncAll.threadId := None;
                           SyncAll.limit := limit; SyncAll.skipExisting := skipExisting |}
         | _ => send ;; ret InvalidChannel
         end
     | thread threadId =>
         run client {| SyncAll.guildId := None; SyncAll.channelId := None;
                       SyncAll.threadId := threadId;
                       SyncAll.limit := limit; SyncAll.skipExisting := skipExisting |}
     end)
    (fun _ => send ;; ret Failed).

End SyncCommand.

(** ** lib/delta-sync.ts: the messages of a thread since a date *)

Module DeltaSync.

(** [message.createdAt > since || (message.editedAt && message.editedAt > since)] *)
Definition isRecent (since : Time) (message : Message) : bool :=
  (since <? m_createdAt message)%Z
  || match m_editedAt message with
     | Some edited => (since <? edited)%Z
     | None => false
     end.

(** [fetchRecentMessages]: pages of 100 as in [fetchAllMessages]; the recent
    messages of a page are kept, and the loop ends with a page that holds a
    message that is not recent and no message created after [since]. *)
Fixpoint fetchRecentMessages_loop (fuel : nat) (thread : ThreadChannel) (since : Time)
  (messages : Collection Message) (lastId : option Snowflake) : M (Collection Message) :=
  match fuel with
  | O => ret messages
  | S fuel' =>
      do step <- try_catch
                   (do batch <- messages_fetch_before thread lastId;
                    match batch with
                    | [] => ret (messages, None)                           (* break *)
                    | _ =>
                        let messages' :=
                          coll_set_all m_id (List.filter (isRecent since) batch) messages in
                        let foundOldMessage :=
                          negb (forallb (isRecent since) batch) in
                        (* If all messages in this batch are older than since date,
                           stop fetching *)
                        if foundOldMessage
                           && forallb (fun msg => (m_createdAt msg <=? since)%Z) batch
                        then ret (messages', None)                         (* break *)
                        else
                          (* Small delay to avoid rate limiting *)
                          sleep 100 ;;
                          ret (messages', Some (option_map m_id (last batch)))
                    end)
                   (fun _ => ret (messages, None));                        (* break *)
      match step with
      | (messages', None) => ret messages'
      | (messages', Some lastId') =>
          fetchRecentMessages_loop fuel' thread since messages' lastId'
      end
  end.

Definition fetchRecentMessages (thread : ThreadChannel) (since : Time)
  : M (Collection Message) :=
  fetchRecentMessages_loop (S (length (t_messages thread))) thread since [] None.

End DeltaSync.

(** * Vocabulary of the properties *)

Import Re Sanitizer.

(** [m] leaves the part [f] of the world as it was. *)
Definition preserves {X A} (f : World -> X) (m : M A) : Prop :=
  forall w, f (snd (m w)) = f w.

(** The cursor row and the mode of the run. *)
Definition cursor_and_mode (w : World) : option ConfigRow * Mode :=
  (sync_state (store w), mode (stats w)).

(** The mode branch of [smartSync]. *)
Definition traverse (client : Client) (forceFull : bool) (syncState : SyncState) : M unit :=
  if forceFull || (is_first_run syncState =? 1)%Z
  then upd_stats (with_mode full) ;; SmartSync.runFullSync client
  else upd_stats (with_mode delta) ;; SmartSync.runDeltaSync client (last_sync syncState).

(** The read of the cursor row fails: the statement is rejected, the row is
    missing, or its value does not parse. *)
Definition sync_state_unreadable (w : World) : Prop :=
  (exists e l, db_events w = e :: l /\ fails e = true) \/
  sync_state (store w) = None \/
  (exists r, sync_state (store w) = Some r /\ cfg_value r = Malformed).

(** The reply count of a stored thread is the number of its stored posts
    without the starter. *)
Definition reply_count_law (s : Store) (thread_id : Snowflake) : Prop :=
  forall row, threads s !! thread_id = Some row ->
              th_reply_count row = (Db.count_posts s thread_id - 1)%Z.

(** What the platform and media calls leave alone. *)
Definition core (w : World) : Store * Env * Client * list Event :=
  (store w, env w, discord w, db_events w).

(** Every statement of the schedule succeeds. *)
Definition db_ok (w : World) : Prop := Forall (fun e => fails e = false) (db_events w).

(** PII_PEPPER is set to a non-empty string. *)
Definition pepper_set (e : Env) : Prop :=
  exists c p, e !! "PII_PEPPER"%string = Some (c :: p).

(** [w1] follows [w] with the same environment and platform, and a schedule
    that is still free of failures. *)
Definition follows (w w1 : World) : Prop :=
  env w1 = env w /\ discord w1 = discord w /\ db_ok w1.

(** The alias the first pass takes from the platform: the hash of the author
    of the referenced message, when the thread holds it. *)
Definition platform_alias (e : Env) (c : Client) (channel_id ref : Snowflake) : option jsstring :=
  match find (fun t => (t_id t =? channel_id)%Z) (all_threads c) with
  | Some t =>
      match find (fun m => (m_id m =? ref)%Z) (t_messages t) with
      | Some m =>
          match Hash.hashUserId e (m_author_id m) with
          | Ok a => Some a
          | Throw _ => None
          end
      | None => None
      end
  | None => None
  end.

(** The row of a referring message after the first pass: linked to a post
    that exists, with the alias taken from the platform (or none), or not
    linked at all. *)
Definition first_pass_row (e : Env) (c : Client) (m : Message) (p : PostRow)
  (ps : gmap Z PostRow) : Prop :=
  match m_reference m with
  | None => True
  | Some X =>
      (po_reply_to_id p = Some X /\ is_Some (ps !! X) /\
       (po_reply_to_author_alias p = platform_alias e c (m_channel_id m) X \/
        po_reply_to_author_alias p = None)) \/
      (po_reply_to_id p = None /\ po_reply_to_author_alias p = None)
  end.

(** The row of a referring message after both passes. *)
Definition closed_row (e : Env) (c : Client) (m : Message) (p : PostRow)
  (ps : gmap Z PostRow) : Prop :=
  match m_reference m with
  | None => True
  | Some X =>
      match ps !! X with
      | Some r =>
          po_reply_to_id p = Some X /\
          (po_reply_to_author_alias p = Some (po_author_alias r) \/
           po_reply_to_author_alias p = platform_alias e c (m_channel_id m) X \/
           po_reply_to_author_alias p = None)
      | None => po_reply_to_id p = None /\ po_reply_to_author_alias p = None
      end
  end.

(** The reply fields [syncMessage] computes. *)
Definition reply_context (e : Env) (message : Message)
  : M (option Snowflake * option jsstring) :=
  match m_reference message with
  | Some ref =>
      do replyToAuthorAlias <-
        try_catch
          (do referencedMessage <- channel_message_fetch (m_channel_id message) ref;
           do a <- lift (Hash.hashUserId e (m_author_id referencedMessage));
           ret (Some a))
          (fun _ => ret None);
      try_catch
        (do existingPost <- Db.select_post ref;
         match existingPost with
         | [] => ret (None, None)
         | _ => ret (Some ref, replyToAuthorAlias)
         end)
        (fun _ => ret (None, None))
  | None => ret (None, None)
  end.

(** The store of the scenario after an earlier, complete run of
    [syncSpecificThread]. *)
Definition synced_store : Store :=
  store (snd (Sync.syncSpecificThread Scenario.client 500 false
                (Scenario.world_of Scenario.store_with_channel Scenario.env0
                   Scenario.client [] []))).

(** A [Collection] keyed by message id: no key twice, and every key is the
    id of its message. *)
Definition keyed (c : Collection Message) : Prop :=
  NoDup (map fst c) /\ Forall (fun kv => fst kv = m_id (snd kv)) c.

(** The scenario without PII_PEPPER, with a staff file to load, the sync
    enabled and RUN_MODE=once. *)
Definition world_without_pepper : World :=
  let e : Env := {[ "DISCORD_TOKEN"%string := str "token" ]}
                 ∪ {[ "STAFF_CSV_PATH"%string := str "staff.csv" ]}
                 ∪ {[ "ENABLE_HISTORICAL_SYNC"%string := str "true" ]}
                 ∪ {[ "RUN_MODE"%string := str "once" ]} in
  {| store := Scenario.fresh_store; env := e; discord := Scenario.client;
     media := fun url _ => {| img_url := url; img_width := 1; img_height := 1 |};
     staff_csv := Some [(str "111", str "Mod")]; now := 1000000; db_events := [];
     net_events := []; stats := fresh_stats 0 |}.

(** [s'] is [s] after the code units [w]. *)
Definition reaches (s s' : mstate) (w : jsstring) : Prop :=
  rest s = w ++ rest s' /\ before s' = rev w ++ before s.

(** The code units of the range [lo-hi]. *)
Definition enum (lo hi : N) : list N :=
  map (fun i => lo + N.of_nat i) (seq 0 (N.to_nat (hi + 1 - lo))).

(** Every code unit the class item accepts satisfies [p]. *)
Definition item_within (ic : bool) (p : N -> bool) (it : item) : bool :=
  let ok x := p x && (negb ic || p (flipcase x)) in
  match it with
  | Lit a => ok a
  | Range lo hi => forallb ok (enum lo hi)
  | Digit => forallb ok (enum 48 57)
  | Word | Space => false
  end.

(** A sufficient syntactic condition for: every match of [r] contains a code
    unit that satisfies [p]. *)
Fixpoint needs (ic : bool) (p : N -> bool) (r : regex) : bool :=
  match r with
  | Chr cs => negb (negated cs) && forallb (item_within ic p) (items cs)
  | Seq a b => needs ic p a || needs ic p b
  | Alt a b => needs ic p a && needs ic p b
  | Rep _ lo hi a =>
      (0 <? lo)%nat && match hi with Some h => (lo <=? h)%nat | None => true end
      && needs ic p a
  | Cap _ a => needs ic p a
  | _ => false
  end.

(** What a successful match is: the continuation succeeded on a state the
    input reaches, and the units in between contain what the pattern needs. *)
Definition sound (p : N -> bool) (nd : bool)
  (m : (mstate -> option mstate) -> mstate -> option mstate) : Prop :=
  forall k s res, m k s = Some res ->
    exists s' w, k s' = Some res /\ reaches s s' w /\
                 (nd = true -> Exists (fun c => p c = true) w).

(** The scans agree on an input without a match: [test] is false, [match]
    is null and [replace] returns its input. *)
Definition no_match (re : RegExp) (bef s : jsstring) : Prop :=
  forall pre t, s = pre ++ t -> exec_at re (rev pre ++ bef) t = None.

(** The replacements of [sanitizeContent], in order. *)
Definition CONTENT_PASSES : list (RegExp * list piece) :=
  [(DISCORD_USER_MENTION, [Txt (str "[User Mention]")]);
   (DISCORD_CHANNEL_MENTION, [Txt (str "[Channel Mention]")]);
   (DISCORD_ROLE_MENTION, [Txt (str "[Role Mention]")]);
   (DISCORD_EMOJI, [Txt (str "[Emoji]")]);
   (DISCORD_TIMESTAMP, [Txt (str "[Timestamp]")]);
   (SCRIPT_TAG, [Txt (str "[Removed Script]")]);
   (JAVASCRIPT_PROTOCOL, [Txt (str "javascript-removed:")]);
   (ON_EVENT_ATTRIBUTES, [Txt (str " data-removed-event=")]);
   (EMAIL_PATTERN, [Txt (str "[Email Redacted]")]);
   (PHONE_PATTERN, [Txt (str "[Phone Redacted]")]);
   (SSN_PATTERN, [Txt (str "[SSN Redacted]")]);
   (CREDIT_CARD_PATTERN, [Txt (str "[Card Number Redacted]")])].

(** The replacements of [convertToHtml], in order. *)
Definition HTML_PASSES : list (RegExp * list piece) :=
  [(BOLD, [Txt (str "<strong>"); Ref 1; Txt (str "</strong>")]);
   (ITALIC, [Txt (str "<em>"); Ref 1; Txt (str "</em>")]);
   (STRIKE, [Txt (str "<del>"); Ref 1; Txt (str "</del>")]);
   (CODE, [Txt (str "<code>"); Ref 1; Txt (str "</code>")]);
   (CODE_BLOCK, [Txt (str "<pre><code>"); Ref 1; Txt (str "</code></pre>")]);
   (NEWLINE, [Txt (str "<br>")]);
   (URL, [Txt (str "<a href=" ++ dquote); Ref 1;
          Txt (dquote ++ str " target=" ++ dquote ++ str "_blank" ++ dquote ++ str " rel="
               ++ dquote ++ str "noopener noreferrer" ++ dquote ++ str ">");
          Ref 1; Txt (str "</a>")])].

Definition run_passes (passes : list (RegExp * list piece)) (s : jsstring) : jsstring :=
  fold_left (fun acc pass => replace (fst pass) (snd pass) acc) passes s.

(** The code units some pattern of the pipeline needs in order to match:
    [<], [:], [=], [@], [*], [~], the backquote, the line feed and the
    digits. *)
Definition trigger (c : N) : bool :=
  is_digit c || existsb (N.eqb c) [60; 58; 61; 64; 42; 126; 96; 10].

Definition plain (s : jsstring) : Prop := Forall (fun c => trigger c = false) s.

(** [s] has a substring of the shape [P]. *)
Definition occurs (P : jsstring -> Prop) (s : jsstring) : Prop :=
  exists pre m post, s = pre ++ m ++ post /\ P m.

(** A piece of replacement text cannot take part in an occurrence of [P]
    when it splits around a unit [b] no occurrence contains, into a part
    without a unit an occurrence can end with and a part without a unit an
    occurrence can start with. *)
Definition good_chunk (sig firstc lastc : N -> bool) (rep : jsstring) : bool :=
  existsb (fun i =>
    match rep !! i with
    | Some b => negb (sig b) && forallb (fun c => negb (lastc c)) (firstn i rep)
                && forallb (fun c => negb (firstc c)) (skipn (S i) rep)
    | None => false
    end) (seq 0 (length rep)).

(** A replacement text that is cut into such pieces by taking the longest
    one at its start, again and again. *)
Fixpoint good_cut (sig firstc lastc : N -> bool) (n : nat) (rep : jsstring) : bool :=
  match n with
  | O => false
  | S n' =>
      match find (fun k => good_chunk sig firstc lastc (firstn (S k) rep))
                 (rev (seq 0 (length rep))) with
      | Some k =>
          if (S k =? length rep)%nat then true
          else good_cut sig firstc lastc n' (skipn (S k) rep)
      | None => false
      end
  end.

Definition good_text (sig firstc lastc : N -> bool) (rep : jsstring) : bool :=
  good_cut sig firstc lastc (length rep) rep.

(** A template of good texts with one capture between any two of them. *)
Fixpoint good_tpl (sig firstc lastc : N -> bool) (tpl : list piece) : bool :=
  match tpl with
  | [Txt a] => good_text sig firstc lastc a
  | Txt a :: Ref _ :: tl => good_text sig firstc lastc a && good_tpl sig firstc lastc tl
  | _ => false
  end.

(** The passes of a list whose templates are all good. *)
Definition good_passes (sig firstc lastc : N -> bool) (passes : list (RegExp * list piece)) : bool :=
  forallb (fun pass => good_tpl sig firstc lastc (snd pass)) passes.

(** [v] is a substring of [s]. *)
Definition factor_of (v s : jsstring) : Prop := exists pre post, s = pre ++ v ++ post.

(** The whole input of a matcher state. *)
Definition whole (x : mstate) : jsstring := rev (before x) ++ rest x.

(** [x] is a state over the input [W] whose captures are substrings of [W]. *)
Definition caps_in (W : jsstring) (x : mstate) : Prop :=
  whole x = W /\ Forall (fun jv => factor_of (snd jv) W) (caps x).

Definition keeps_caps (m : (mstate -> option mstate) -> mstate -> option mstate) : Prop :=
  forall W k x res, caps_in W x -> m k x = Some res -> exists y, caps_in W y /\ k y = Some res.

(** No occurrence in [u ++ s] starts inside [u]. *)
Definition clean_before (P : jsstring -> Prop) (u s : jsstring) : Prop :=
  forall pre m post, u ++ s = pre ++ m ++ post -> P m -> (length u <= length pre)%nat.

(** [x] after the code units [w], with [t] still to read. *)
Definition run_state (w : jsstring) (x : mstate) (t : jsstring) : mstate :=
  {| before := rev w ++ before x; rest := t; caps := caps x |}.

(** A Discord id as the patterns take it: 17 to 19 decimal digits. *)
Definition snowflake (ds : jsstring) : Prop :=
  Forall (fun c => is_digit c = true) ds /\ (17 <= length ds <= 19)%nat.

(** An id between [open] and [>]. *)
Definition framed_id (open : string) (m : jsstring) : Prop :=
  exists ds, snowflake ds /\ m = str open ++ ds ++ str ">".

Definition is_user_mention (m : jsstring) : Prop := framed_id "<@" m \/ framed_id "<@!" m.
Definition is_channel_mention (m : jsstring) : Prop := framed_id "<#" m.
Definition is_role_mention (m : jsstring) : Prop := framed_id "<@&" m.

(** [c] is the letter [a] in either case. *)
Definition same_letter (c a : N) : Prop := c = a \/ flipcase c = a.

Definition is_javascript (m : jsstring) : Prop := Forall2 same_letter m (str "javascript:").

(** The code units of a mention, its first and its last one. *)
Definition mention_unit (c : N) : bool :=
  is_digit c || existsb (N.eqb c) (str "<@!#&>").
Definition opens_mention (c : N) : bool := c =? ch "<".
Definition closes_mention (c : N) : bool := c =? ch ">".

Definition javascript_unit (c : N) : bool :=
  existsb (fun a => (c =? a) || (flipcase c =? a)) (str "javascript:").
Definition opens_javascript (c : N) : bool := (c =? ch "j") || (c =? ch "J").
Definition closes_javascript (c : N) : bool := c =? ch ":".

(** No mention with an id of 17 to 19 digits and no [javascript:] in [s]. *)
Definition non_escape (s : jsstring) : Prop :=
  ~ occurs is_user_mention s /\ ~ occurs is_channel_mention s /\
  ~ occurs is_role_mention s /\ ~ occurs is_javascript s.

(** The patterns of the specification's sentence, with [\d+] for the id. *)
Definition LOOSE_USER_MENTION : RegExp :=         (* /<@!?\d+>/ *)
  {| source := seqs [one "<"; one "@"; opt (one "!"); plus (cls [Digit]); one ">"];
     ignoreCase := false |}.
Definition LOOSE_CHANNEL_MENTION : RegExp :=      (* /<#\d+>/ *)
  {| source := seqs [one "<"; one "#"; plus (cls [Digit]); one ">"]; ignoreCase := false |}.
Definition LOOSE_ROLE_MENTION : RegExp :=         (* /<@&\d+>/ *)
  {| source := seqs [one "<"; one "@"; one "&"; plus (cls [Digit]); one ">"];
     ignoreCase := false |}.

(** A matcher that only continues on states with no more input left than
    it started with gives the same result with continuations that agree on
    such states. *)
Definition local_matcher (m m' : (mstate -> option mstate) -> mstate -> option mstate) : Prop :=
  forall d d' x,
    (forall y, (length (rest y) <= length (rest x))%nat -> d y = d' y) -> m d x = m' d' x.

(** What [sanitizeForHtml] writes for one code unit. *)
Definition escape_unit (c : N) : jsstring :=
  if c =? ch "&" then str "&amp;"
  else if c =? ch "<" then str "&lt;"
  else if c =? ch ">" then str "&gt;"
  else if c =? 34 then str "&quot;"
  else if c =? ch "'" then str "&#x27;"
  else [c].

(** A global replacement of the units of one class, unit by unit. *)
Definition map_class (ic : bool) (cs : charset) (rep : jsstring) (s : jsstring) : jsstring :=
  flat_map (fun c => if charset_has ic cs c then rep else [c]) s.

(** A global replacement of the runs of one class: [inrun] says that the
    unit before was of the class. *)
Fixpoint squeeze (has : N -> bool) (rep : jsstring) (inrun : bool) (s : jsstring) : jsstring :=
  match s with
  | [] => []
  | c :: t =>
      if has c then (if inrun then [] else rep) ++ squeeze has rep true t
      else c :: squeeze has rep false t
  end.

(** [tl] does not go on with a unit of the class. *)
Definition stops (has : N -> bool) (tl : jsstring) : Prop :=
  match tl with [] => True | c :: _ => has c = false end.

(** A hexadecimal digit, either case. *)
Definition is_hex (c : N) : bool :=
  is_digit c || ((97 <=? c) && (c <=? 102)) || ((65 <=? c) && (c <=? 70)).

(** The unit [c] matches the letter [a] of a pattern, with or without the
    [i] flag. *)
Definition lit_has (ic : bool) (c a : N) : Prop :=
  charset_has ic {| negated := false; items := [Lit a] |} c = true.

(** A unit of a slug: a lower-case letter, a digit or the dash. *)
Definition slug_unit (c : N) : bool := is_lower c || is_digit c || (c =? 45).

(** [s] without a dash at its end. *)
Fixpoint drop_last_dash (s : jsstring) : jsstring :=
  match s with
  | [] => []
  | [c] => if c =? 45 then [] else [c]
  | c :: t => c :: drop_last_dash t
  end.

(** [s] without a dash at its start and without a dash at its end. *)
Definition strip_edge (s : jsstring) : jsstring :=
  match s with
  | [] => []
  | c :: t => if c =? 45 then drop_last_dash t else c :: drop_last_dash t
  end.

(** No dash is followed by a dash. *)
Fixpoint single_dashes (s : jsstring) : Prop :=
  match s with
  | [] => True
  | a :: t => (a = 45 -> head t <> Some 45) /\ single_dashes t
  end.

(** The extensions [isImageUrl] knows. *)
Definition image_extensions : list string :=
  ["jpg"; "jpeg"; "png"; "gif"; "webp"; "bmp"; "svg"]%string.

(** [p] ends with a dot and one of the extensions, in any mix of case. *)
Definition has_image_extension (p : jsstring) : Prop :=
  exists stem ext e, p = stem ++ ch "." :: ext /\ In e image_extensions /\
                     Forall2 same_letter ext (str e).

(** Messages in the order of the REST pages: ids strictly descending. *)
Fixpoint desc_ids (l : list Message) : Prop :=
  match l with
  | [] => True
  | x :: t => Forall (fun y => (m_id y < m_id x)%Z) t /\ desc_ids t
  end.

(** The entry of a message in a [Collection] keyed by id. *)
Definition entry (m : Message) : Snowflake * Message := (m_id m, m).

(** The [before] filter of a page request. *)
Definition before_id (lastId : option Snowflake) (m : Message) : bool :=
  match lastId with
  | Some b => bool_decide (m_id m < b)%Z
  | None => true
  end.

(** No call to the platform or the media pipeline fails. *)
Definition net_ok (w : World) : Prop := Forall (fun e => fails e = false) (net_events w).

(** The scenario's store with the row of an earlier thread 600, titled
    [How do I X] (no question mark). *)
Definition namesake_row : ThreadRow :=
  {| th_channel_id := 40%Z; th_slug := str "how-do-i-x";
     th_title := str "How do I X"; th_author_alias := str "0123456789ab";
     th_body_html := str "first"; th_tags := Some [];
     th_reply_count := 7%Z; th_created_at := 900%Z; th_updated_at := 900%Z |}.
Definition store_with_namesake : Store :=
  Db.with_threads {[ 600%Z := namesake_row ]} Scenario.store_with_channel.

(** The number of threads the run has counted so far. *)
Definition processed (w : World) : nat := threadsProcessed (stats w).

(** [m] counts at most one thread. *)
Definition counts_one {A} (m : M A) : Prop :=
  forall w, (processed (snd (m w)) <= S (processed w))%nat.

(** [m] counts no thread beyond the [n]-th. *)
Definition capped (n : nat) {A} (m : M A) : Prop :=
  forall w, (processed (snd (m w)) <= Nat.max (processed w) n)%nat.

(** The options of [sync --limit 1]. *)
Definition limit_one : SyncAll.SyncOptions :=
  {| SyncAll.guildId := None; SyncAll.channelId := None; SyncAll.threadId := None;
     SyncAll.limit := Some 1%Z; SyncAll.skipExisting := false |}.

(** The options with another limit. *)
Definition set_limit (l : option Z) (o : SyncAll.SyncOptions) : SyncAll.SyncOptions :=
  {| SyncAll.guildId := SyncAll.guildId o; SyncAll.channelId := SyncAll.channelId o;
     SyncAll.threadId := SyncAll.threadId o; SyncAll.limit := l;
     SyncAll.skipExisting := SyncAll.skipExisting o |}.

(** The thread and post tables. *)
Definition content_tables (w : World) : gmap Z ThreadRow * gmap Z PostRow :=
  (threads (store w), posts (store w)).

(** A fourth message of the scenario's thread, replying to M3, and the
    world in which it arrives: the thread synced, every call answered. *)
Definition M4 : Message := Scenario.message 504 "222" "you are welcome" (Some 503%Z) 4000.
Definition synced_world : World :=
  Scenario.world_of synced_store Scenario.env0 Scenario.client [] [].

(** A message event of the scenario's thread, complete, without attachments. *)
Definition incoming (m : Message) : Handlers.Incoming :=
  {| Handlers.in_message := m; Handlers.in_partial := false; Handlers.in_attachments := [];
     Handlers.in_isThread := true; Handlers.in_parentType := Some 15%Z;
     Handlers.in_fetch := None |}.

(** M4 written by a bot. *)
Definition M4_bot : Message :=
  {| m_id := 504; m_channel_id := 500; m_author_id := str "999"; m_author_bot := true;
     m_content := str "beep"; m_reference := None; m_createdAt := 4000;
     m_editedAt := None; m_attachments := [] |}.

(** The row of the scenario's thread after the sync, and a thread event for
    it with M3 cached as the last message. *)
Definition synced_thread_row : ThreadRow :=
  default namesake_row (threads synced_store !! 500%Z).
Definition scenario_channel : ForumChannel :=
  {| c_id := 40; c_type := GuildForum; c_name := str "General"; c_topic := [];
     c_position := 0; c_createdTimestamp := 10; c_availableTags := [];
     c_active := [Scenario.thread [Scenario.M1; Scenario.M2; Scenario.M3]];
     c_archived := [] |}.
Definition thread_event : ThreadHandler.ThreadEvent :=
  {| ThreadHandler.ev_thread := Scenario.thread [Scenario.M1; Scenario.M2; Scenario.M3];
     ThreadHandler.ev_parent := Some scenario_channel;
     ThreadHandler.ev_lastMessage := Some (Scenario.M3, []);
     ThreadHandler.ev_starterAttachments := [] |}.

(** [m] leaves a failure-free schedule of platform calls failure-free. *)
Definition keeps_net_ok_of {A} (m : M A) : Prop :=
  forall w, net_ok w -> net_ok (snd (m w)).

(** The code units a pattern of the pipeline other than [SCRIPT_TAG] and
    [ON_EVENT_ATTRIBUTES] needs in order to match: a digit, [:], [@], [*],
    [~], the backquote or the line feed. *)
Definition markup_trigger (c : N) : bool :=
  is_digit c || existsb (N.eqb c) [58; 64; 42; 126; 96; 10].

(** [a] directly followed by [b] somewhere in [s]. *)
Fixpoint has_pair (a b : N) (s : jsstring) : bool :=
  match s with
  | [] => false
  | c :: t =>
      if (c =? a) && match t with d :: _ => d =? b | [] => false end then true
      else has_pair a b t
  end.

(** Text without a digit, white space, [:], [@], [*], [~] or backquote, and
    without a closing tag [</]: markup with opening tags and attributes is
    of this kind. *)
Definition raw_markup (s : jsstring) : bool :=
  forallb (fun c => negb (markup_trigger c) && negb (is_space c)) s
  && negb (has_pair (ch "<") (ch "/") s).

(** The pass leaves the text as it is. *)
Definition fixes (s : jsstring) (pass : RegExp * list piece) : Prop :=
  replace (fst pass) (snd pass) s = s.

(** [m] leaves a failure-free schedule of statements failure-free. *)
Definition keeps_db_ok {A} (m : M A) : Prop :=
  forall w, db_ok w -> db_ok (snd (m w)).

(** The scenario in once mode with the sync enabled, without PII_PEPPER and
    with a platform that rejects every call. *)
Definition once_env : Env :=
  {[ "DISCORD_TOKEN"%string := str "token" ]}
  ∪ {[ "ENABLE_HISTORICAL_SYNC"%string := str "true" ]}
  ∪ {[ "RUN_MODE"%string := str "once" ]}.
Definition failing_net : list Event :=
  repeat {| fails := true; latency := 5 |} 40.
Definition once_world : World :=
  Scenario.world_of Scenario.fresh_store once_env Scenario.client [] failing_net.

(** The scenario with a staff file of three rows, the second one blank. *)
Definition staff_rows : list (jsstring * jsstring) :=
  [(str " 111 ", str "Mod"); (str "  ", str "Admin"); (str "333", str " Helper")].
Definition world_with_staff_file : World :=
  {| store := Scenario.fresh_store; env := Scenario.env0; discord := Scenario.client;
     media := fun url _ => {| img_url := url; img_width := 1; img_height := 1 |};
     staff_csv := Some staff_rows; now := 1000000; db_events := [];
     net_events := []; stats := fresh_stats 0 |}.

(** The store and the statistics of the last run. *)
Definition store_and_stats (w : World) : Store * SyncStats := (store w, stats w).

(** A [/sync all] from user 111. *)
Definition sync_all_from_111 : SyncCommand.Interaction :=
  {| SyncCommand.user_id := str "111"; SyncCommand.interaction_guildId := Some 1%Z;
     SyncCommand.subcommand := SyncCommand.all; SyncCommand.option_limit := None;
     SyncCommand.option_skip_existing := None |}.

(** The (at most 50) messages of lowest id, oldest first: what a fetch with
    [after] below every id returns. *)
Definition oldest_50 (thread : ThreadChannel) : list Message :=
  firstn 50 (rev (newest_first (t_messages thread))).

(** A thread of [n] messages with the ids 1000 to 1000 + n - 1. *)
Definition long_thread (n : nat) : ThreadChannel :=
  Scenario.thread
    (map (fun i => Scenario.message (1000 + Z.of_nat i) "222" "more" None (5000 + Z.of_nat i))
         (seq 0 n)).
Definition newest_of_60 : Message := Scenario.message 1059 "222" "more" None 5059.

(** The next statement, and the next platform call, is answered. *)
Definition next_ok (l : list Event) : Prop :=
  match l with
  | [] => True
  | e :: _ => fails e = false
  end.

(** The scenario with a [config] table that has no [sync_state] row. *)
Definition world_without_cursor : World :=
  Scenario.world_of (Db.with_sync_state None Scenario.fresh_store) Scenario.env0
    Scenario.client [] [].

(** The scenario with a readable cursor of a later date than every message. *)
Definition world_with_late_cursor : World :=
  Scenario.world_of
    (Db.with_sync_state
       (Some {| cfg_value := Json {| last_sync := 900000; is_first_run := 0 |};
                cfg_updated_at := 900000 |}) Scenario.fresh_store)
    Scenario.env0 Scenario.client [] [].

(** The scenario after M2 (502) was deleted upstream: the platform holds M1
    and M3, the store still has the post of M2 from the earlier run. *)
Definition world_after_upstream_delete : World :=
  Scenario.world_of synced_store Scenario.env0
    (Scenario.client_of (Scenario.thread [Scenario.M1; Scenario.M3])) [] [].

(** The digits of [digest('hex')]. *)
Definition is_lower_hex (c : N) : bool := is_digit c || ((97 <=? c) && (c <=? 102)).

Definition other_pepper : jsstring :=
  str "ffeeddccbbaa99887766554433221100ffeeddccbbaa99887766554433221100".

(** No pattern of the pipeline has a match in [y]. *)
Definition unmatched (y : jsstring) : bool :=
  forallb (fun pass => negb (test (fst pass) y)) (CONTENT_PASSES ++ HTML_PASSES).

(** ** Markdown pairs *)

(** [D] is a prefix of [s]. *)
Fixpoint starts_with (D s : jsstring) : bool :=
  match D with
  | [] => true
  | d :: D' =>
      match s with
      | c :: s' => (c =? d) && starts_with D' s'
      | [] => false
      end
  end.

(** The first occurrence of [D] in [s]: what is before it and what is after. *)
Fixpoint split_at (D s : jsstring) {struct s} : option (jsstring * jsstring) :=
  if starts_with D s then Some ([], skipn (length D) s)
  else match s with
       | [] => None
       | c :: t =>
           match split_at D t with
           | Some (a, b) => Some (c :: a, b)
           | None => None
           end
       end.

(** [s] opens with the marker [D] and has a second one later: the text up
    to the first such marker, and the rest. *)
Definition decompose (D s : jsstring) : option (jsstring * jsstring) :=
  if starts_with D s then split_at D (skipn (length D) s) else None.

(** [out] is [s] with its marker pairs, leftmost first and each as short as
    can be, replaced by the tags [o] and [c] around the text between them. *)
Inductive converts (D o c : jsstring) : jsstring -> jsstring -> Prop :=
| conv_nil : converts D o c [] []
| conv_skip ch t out :
    decompose D (ch :: t) = None -> converts D o c t out ->
    converts D o c (ch :: t) (ch :: out)
| conv_pair s cap rest out :
    decompose D s = Some (cap, rest) -> converts D o c rest out ->
    converts D o c s (o ++ cap ++ c ++ out).

(** The pattern of a marker pair: [D(.*?)D]. *)
Definition pair_pattern (rD : regex) : RegExp :=
  {| source := seqs [rD; Cap 1 (lazy_star Any); rD]; ignoreCase := false |}.

Definition single_line (s : jsstring) : Prop :=
  Forall (fun c => is_line_terminator c = false) s.

(** How many units of [s] satisfy [p]. *)
Fixpoint how_many (p : N -> bool) (s : jsstring) : nat :=
  match s with
  | [] => 0
  | c :: t => (if p c then 1 else 0) + how_many p t
  end.

(** A lower bound on the units of a match of [r] that satisfy [p]. *)
Fixpoint least (ic : bool) (p : N -> bool) (r : regex) : nat :=
  match r with
  | Chr cs => if negb (negated cs) && forallb (item_within ic p) (items cs) then 1 else 0
  | Seq a b => least ic p a + least ic p b
  | Alt a b => Nat.min (least ic p a) (least ic p b)
  | Rep _ lo hi a =>
      if match hi with Some h => (lo <=? h)%nat | None => true end
      then lo * least ic p a else 0
  | Cap _ a => least ic p a
  | _ => 0
  end.

(** What a successful match is, with the count: the continuation succeeded
    on a state the input reaches, and at least [n] of the units in between
    satisfy [p]. *)
Definition counted (p : N -> bool) (n : nat)
  (m : (mstate -> option mstate) -> mstate -> option mstate) : Prop :=
  forall k s res, m k s = Some res ->
    exists s' w, k s' = Some res /\ reaches s s' w /\ (n <= how_many p w)%nat.

(** The code unit before a [>] in the tags of [convertToHtml]: [g], [m], [e]. *)
Definition tag_end (p : N) : bool := existsb (N.eqb p) [103; 109; 101].

(** Every [>] of [s] stands behind the end of a tag name; [prev] is the
    unit before [s]. *)
Fixpoint closes (prev : N) (s : jsstring) : bool :=
  match s with
  | [] => true
  | x :: t => (negb (x =? 62) || tag_end prev) && closes x t
  end.

(** A line of markdown: a text without a line terminator, [<], [>], [:],
    [=], [@] or [~], and with eight digits at most. Stars and backquotes are
    allowed: on such a line only [BOLD], [ITALIC] and [CODE] can match. *)
Definition md_trigger (c : N) : bool :=
  existsb (N.eqb c) [60; 62; 58; 61; 64; 126] || is_line_terminator c.

Definition markdown_line (s : jsstring) : Prop :=
  Forall (fun c => md_trigger c = false) s /\ (how_many is_digit s <= 8)%nat.

(** What is still absent once the tags are in. *)
Definition html_trigger (c : N) : bool :=
  existsb (N.eqb c) [58; 61; 64; 126] || is_line_terminator c.

(** The html of a line of markdown: the three conversions, one after the
    other, and nothing else. *)
Definition md_html (x : jsstring) : jsstring :=
  replace CODE [Txt (str "<code>"); Ref 1; Txt (str "</code>")]
    (replace ITALIC [Txt (str "<em>"); Ref 1; Txt (str "</em>")]
       (replace BOLD [Txt (str "<strong>"); Ref 1; Txt (str "</strong>")] x)).

(** * Properties *)

(** ** What a computation leaves alone *)

Section Preserves.
Context {X : Type} (f : World -> X).

Lemma preserves_ret {A} (a : A) : preserves f (ret a).
Proof. intros w; reflexivity. Qed.

Lemma preserves_throw {A} e : preserves f (@throw A e).
Proof. intros w; reflexivity. Qed.

Lemma preserves_lift {A} (r : result A) : preserves f (lift r).
Proof. intros w; reflexivity. Qed.

Lemma preserves_gets {A} (g : World -> A) : preserves f (gets g).
Proof. intros w; reflexivity. Qed.

Lemma preserves_modify g : (forall w, f (g w) = f w) -> preserves f (modify g).
Proof. intros H w; apply H. Qed.

Lemma preserves_bind {A B} (m : M A) (k : A -> M B) :
  preserves f m -> (forall a, preserves f (k a)) -> preserves f (bind m k).
Proof.
  intros Hm Hk w. unfold bind. specialize (Hm w).
  destruct (m w) as [[a|e] w1]; simpl in *.
  - rewrite Hk. exact Hm.
  - exact Hm.
Qed.

Lemma preserves_try_catch {A} (m : M A) (h : string -> M A) :
  preserves f m -> (forall e, preserves f (h e)) -> preserves f (try_catch m h).
Proof.
  intros Hm Hh w. unfold try_catch. specialize (Hm w).
  destruct (m w) as [[a|e] w1]; simpl in *.
  - exact Hm.
  - rewrite Hh. exact Hm.
Qed.

Lemma preserves_foreach {A} (l : list A) (body : A -> M unit) :
  (forall x, preserves f (body x)) -> preserves f (foreach l body).
Proof.
  intros Hb. induction l as [|x l IH]; simpl.
  - apply preserves_ret.
  - apply preserves_bind; [apply Hb | intros _; exact IH].
Qed.

End Preserves.

Lemma bind_ok {A B} (m : M A) (k : A -> M B) w a w1 :
  m w = (Ok a, w1) -> bind m k w = k a w1.
Proof. intros H. unfold bind. rewrite H. reflexivity. Qed.

Lemma bind_throw {A B} (m : M A) (k : A -> M B) w e w1 :
  m w = (Throw e, w1) -> bind m k w = (Throw e, w1).
Proof. intros H. unfold bind. rewrite H. reflexivity. Qed.

Lemma db_io_frame : preserves cursor_and_mode db_io.
Proof.
  intros w. unfold db_io. destruct (db_events w) as [|e l]; [reflexivity|].
  destruct (fails e); reflexivity.
Qed.

Lemma net_io_frame : preserves cursor_and_mode net_io.
Proof.
  intros w. unfold net_io. destruct (net_events w) as [|e l]; [reflexivity|].
  destruct (fails e); reflexivity.
Qed.

Lemma sleep_frame ms : preserves cursor_and_mode (sleep ms).
Proof. intros w; reflexivity. Qed.

Lemma read_frame {A} (g : Store -> A) : preserves cursor_and_mode (Db.read g).
Proof.
  unfold Db.read. apply preserves_bind; [apply db_io_frame | intros _; apply preserves_gets].
Qed.

Lemma write_frame g :
  (forall t s, sync_state (g t s) = sync_state s) -> preserves cursor_and_mode (Db.write g).
Proof.
  intros H. unfold Db.write. apply preserves_bind; [apply db_io_frame | intros _].
  apply preserves_modify. intros w. unfold cursor_and_mode. simpl. rewrite H. reflexivity.
Qed.

Lemma upd_stats_frame g :
  (forall s, mode (g s) = mode s) -> preserves cursor_and_mode (upd_stats g).
Proof.
  intros H. apply preserves_modify. intros w. unfold cursor_and_mode. simpl.
  rewrite H. reflexivity.
Qed.

(** One step of a frame proof: peel the outermost construct of the goal. *)
Ltac frame_step :=
  match goal with
  | |- preserves _ (bind _ _) => apply preserves_bind; [|intros ?]
  | |- preserves _ (try_catch _ _) => apply preserves_try_catch; [|intros ?]
  | |- preserves _ (foreach _ _) => apply preserves_foreach; intros ?
  | |- preserves _ (ret _) => apply preserves_ret
  | |- preserves _ (throw _) => apply preserves_throw
  | |- preserves _ (lift _) => apply preserves_lift
  | |- preserves _ (gets _) => apply preserves_gets
  | |- preserves _ Date_now => apply preserves_gets
  | |- preserves _ db_io => apply db_io_frame
  | |- preserves _ Db.ping => apply db_io_frame
  | |- preserves _ net_io => apply net_io_frame
  | |- preserves _ (sleep _) => apply sleep_frame
  | |- preserves _ (Db.read _) => apply read_frame
  | |- preserves _ (Db.write _) =>
      apply write_frame; intros ? ?;
      repeat match goal with |- context [match ?x with _ => _ end] => destruct x end;
      reflexivity
  | |- preserves _ (upd_stats _) => apply upd_stats_frame; intros ?; reflexivity
  | |- preserves _ (modify (set_store _)) => apply preserves_modify; intros ?; reflexivity
  | |- preserves _ (match ?x with _ => _ end) => destruct x
  | |- preserves _ (if ?x then _ else _) => destruct x
  | |- preserves _ (let '(_, _) := ?x in _) => destruct x
  end.

Ltac frame := repeat frame_step; eauto.

Lemma getStaffTag_frame id : preserves cursor_and_mode (StaffLoader.getStaffTag id).
Proof. unfold StaffLoader.getStaffTag, Db.select_staff_tag. frame. Qed.

Lemma processImageUrls_frame urls : preserves cursor_and_mode (Image.processImageUrls urls).
Proof. induction urls as [|u urls IH]; simpl; frame. Qed.

Lemma append_images_frame h urls : preserves cursor_and_mode (Image.append_images h urls).
Proof.
  unfold Image.append_images. destruct urls; [frame|].
  apply preserves_try_catch; [|intros; frame].
  apply preserves_bind; [apply processImageUrls_frame | intros; frame].
Qed.

Lemma fetchAllMessages_loop_frame fuel thread messages lastId :
  preserves cursor_and_mode (fetchAllMessages_loop fuel thread messages lastId).
Proof.
  revert messages lastId. induction fuel as [|fuel IH]; intros; simpl; [frame|].
  apply preserves_bind.
  - unfold messages_fetch_before. frame.
  - intros [[m l]|]; [apply IH | frame].
Qed.

Lemma fetchAllMessages_frame thread : preserves cursor_and_mode (fetchAllMessages thread).
Proof. apply fetchAllMessages_loop_frame. Qed.

#[local] Hint Resolve getStaffTag_frame processImageUrls_frame append_images_frame
  fetchAllMessages_frame : core.

Lemma upsertChannel_frame c : preserves cursor_and_mode (SmartSync.upsertChannel c).
Proof. unfold SmartSync.upsertChannel, Db.upsert_channel. frame. Qed.

Lemma upsert_thread_frame b id r : preserves cursor_and_mode (Db.upsert_thread b id r).
Proof. unfold Db.upsert_thread. frame. Qed.

Lemma upsertThread_frame t : preserves cursor_and_mode (SmartSync.upsertThread t).
Proof.
  unfold SmartSync.upsertThread, fetchStarterMessage. frame.
  apply upsert_thread_frame.
Qed.

Lemma upsertPost_frame m : preserves cursor_and_mode (SmartSync.upsertPost m).
Proof. unfold SmartSync.upsertPost, Db.select_post, Db.upsert_post. frame. Qed.

Lemma updateThreadReplyCount_frame id :
  preserves cursor_and_mode (SmartSync.updateThreadReplyCount id).
Proof.
  unfold SmartSync.updateThreadReplyCount, Db.update_reply_count_from_posts. frame.
Qed.

#[local] Hint Resolve upsertChannel_frame upsertThread_frame upsertPost_frame
  updateThreadReplyCount_frame : core.

Lemma upsert_messages_frame l : preserves cursor_and_mode (SmartSync.upsert_messages l).
Proof. unfold SmartSync.upsert_messages. frame. Qed.

#[local] Hint Resolve upsert_messages_frame : core.

Lemma syncThreadFull_frame t : preserves cursor_and_mode (SmartSync.syncThreadFull t).
Proof. unfold SmartSync.syncThreadFull. frame. Qed.


Lemma syncChannelThreads_frame sync c :
  (forall t, preserves cursor_and_mode (sync t)) ->
  preserves cursor_and_mode (SmartSync.syncChannelThreads sync c).
Proof. intros H. unfold SmartSync.syncChannelThreads, fetchActive, fetchArchived. frame. Qed.

Lemma syncGuild_frame sync g :
  (forall c, preserves cursor_and_mode (sync c)) ->
  preserves cursor_and_mode (SmartSync.syncGuild sync g).
Proof. intros H. unfold SmartSync.syncGuild. frame. Qed.

Lemma runFullSync_frame client : preserves cursor_and_mode (SmartSync.runFullSync client).
Proof.
  unfold SmartSync.runFullSync, SmartSync.syncGuildFull, SmartSync.syncChannelThreadsFull.
  frame. apply syncGuild_frame. intros c. apply syncChannelThreads_frame.
  apply syncThreadFull_frame.
Qed.



(** ** The cursor (lib/smartSync.ts) *)



Lemma smartSync_unfold client forceFull w :
  SmartSync.smartSync client forceFull w =
  try_catch
    (do syncState <- SmartSync.getSyncState;
     traverse client forceFull syncState ;;
     SmartSync.updateSyncState ;;
     do t1 <- Date_now;
     upd_stats (with_end t1))
    (fun e => upd_stats inc_errors ;; throw e)
    (set_stats (fun _ => fresh_stats (now w)) w).
Proof. reflexivity. Qed.


(** C1. On a run that returns, the cursor holds the clock reading taken by
    [updateSyncState] at the end of the run, not the start time: in the
    scenario the run starts at 1000000, the one page of messages is followed
    by the pause of 100 ms, and the row is written with 1000100. *)
Theorem smartSync_cursor_is_end_of_run :
  let '(r, w') := SmartSync.smartSync Scenario.client false Scenario.world in
  r = Ok tt /\
  startTime (stats w') = 1000000%Z /\
  sync_state (store w') =
    Some {| cfg_value := Json {| last_sync := 1000100; is_first_run := 0 |};
            cfg_updated_at := 1000100 |}.
Proof. vm_compute. repeat split; reflexivity. Qed.

Lemma getSyncState_default w :
  sync_state_unreadable w ->
  exists w', SmartSync.getSyncState w = (Ok {| last_sync := 0; is_first_run := 1 |}, w').
Proof.
  unfold SmartSync.getSyncState, Db.select_sync_state, Db.read, try_catch, bind, db_io, gets.
  intros [(e & l & He & Hf) | [Hn | (r & Hr & Hm)]].
  - rewrite He, Hf. eauto.
  - destruct (db_events w) as [|e l]; [|destruct (fails e)]; simpl; rewrite ?Hn; eauto.
  - destruct (db_events w) as [|e l]; [|destruct (fails e)]; simpl; rewrite ?Hr, ?Hm; eauto.
Qed.

Lemma runFullSync_returns client w : fst (SmartSync.runFullSync client w) = Ok tt.
Proof.
  unfold SmartSync.runFullSync. revert w.
  induction (guilds client) as [|g l IH]; intros w; simpl; [reflexivity|].
  unfold bind at 1. unfold try_catch at 1.
  destruct (bind _ _ w) as [[[]|e] w1]; simpl; apply IH.
Qed.

Lemma updateSyncState_outcome w :
  exists w3,
    (SmartSync.updateSyncState w = (Ok tt, w3) \/
     (exists err, SmartSync.updateSyncState w = (Throw err, w3)) /\
     exists e l, db_events w = e :: l /\ fails e = true) /\
    channels (store w3) = channels (store w) /\ threads (store w3) = threads (store w) /\
    posts (store w3) = posts (store w) /\ stats w3 = stats w.
Proof.
  unfold SmartSync.updateSyncState, Db.update_sync_state, Db.write, Date_now, bind, gets,
    modify, db_io.
  destruct (db_events w) as [|e l]; simpl.
  - eexists. split; [left; reflexivity|]. simpl.
    destruct (sync_state (store w)); repeat split; reflexivity.
  - destruct (fails e) eqn:Ef; simpl.
    + eexists. split; [right; split; [eexists; reflexivity | eauto]|]. repeat split; reflexivity.
    + eexists. split; [left; reflexivity|]. simpl.
      destruct (sync_state (store w)); repeat split; reflexivity.
Qed.

(** C10. A rejected or empty read of the cursor row, or a value that does
    not parse, is not propagated: [getSyncState] returns the default
    [(epoch, 1)], and the run of [smartSync] is the full traversal, whatever
    the flag: it ends with [mode = full], its channel, thread and post tables
    and its counters are those [runFullSync] leaves when started after the
    failed read, and it throws only if the UPDATE of the cursor at its end is
    rejected. *)
Theorem getSyncState_failure_selects_full (client : Client) (forceFull : bool) (w : World) :
  sync_state_unreadable w ->
  fst (SmartSync.getSyncState w) = Ok {| last_sync := 0; is_first_run := 1 |} /\
  SmartSync.smartSync client forceFull w = SmartSync.smartSync client true w /\
  exists w1 w2,
    SmartSync.getSyncState (set_stats (fun _ => fresh_stats (now w)) w)
      = (Ok {| last_sync := 0; is_first_run := 1 |}, w1) /\
    SmartSync.runFullSync client (set_stats (with_mode full) w1) = (Ok tt, w2) /\
    let r := SmartSync.smartSync client forceFull w in
    mode (stats (snd r)) = full /\
    channels (store (snd r)) = channels (store w2) /\
    threads (store (snd r)) = threads (store w2) /\
    posts (store (snd r)) = posts (store w2) /\
    guildsProcessed (stats (snd r)) = guildsProcessed (stats w2) /\
    channelsProcessed (stats (snd r)) = channelsProcessed (stats w2) /\
    threadsProcessed (stats (snd r)) = threadsProcessed (stats w2) /\
    postsProcessed (stats (snd r)) = postsProcessed (stats w2) /\
    (fst r = Ok tt \/ exists e l, db_events w2 = e :: l /\ fails e = true).
Proof.
  intros Hu. split.
  { destruct (getSyncState_default w Hu) as [w' ->]. reflexivity. }
  assert (Hu0 : sync_state_unreadable (set_stats (fun _ => fresh_stats (now w)) w)) by exact Hu.
  destruct (getSyncState_default _ Hu0) as [w1 H1].
  assert (Heq : SmartSync.smartSync client forceFull w = SmartSync.smartSync client true w).
  { rewrite !smartSync_unfold. unfold try_catch. rewrite !(bind_ok _ _ _ _ _ H1).
    unfold traverse. simpl. rewrite orb_true_r. reflexivity. }
  split; [exact Heq|]. exists w1.
  pose proof (runFullSync_returns client (set_stats (with_mode full) w1)) as Hret.
  pose proof (runFullSync_frame client (set_stats (with_mode full) w1)) as Hfr.
  destruct (SmartSync.runFullSync client (set_stats (with_mode full) w1)) as [r2 w2] eqn:E2.
  simpl in Hret. subst r2. exists w2. split; [exact H1|]. split; [reflexivity|].
  apply (f_equal snd) in Hfr. simpl in Hfr.
  destruct (updateSyncState_outcome w2) as (w3 & Hcase & Hc & Ht & Hp & Hs).
  assert (Hrun : SmartSync.smartSync client true w =
                 match SmartSync.updateSyncState w2 with
                 | (Ok _, w3) => (Ok tt, set_stats (with_end (now w3)) w3)
                 | (Throw e, w3) => (Throw e, set_stats inc_errors w3)
                 end).
  { rewrite smartSync_unfold. unfold try_catch. rewrite (bind_ok _ _ _ _ _ H1).
    unfold traverse. cbn [orb]. unfold bind at 1 2, upd_stats at 1, modify at 1. rewrite E2.
    unfold bind at 1. destruct (SmartSync.updateSyncState w2) as [[[]|e3] w4]; reflexivity. }
  cbv zeta. rewrite Heq, Hrun.
  destruct Hcase as [-> | [[err ->] Hrej]]; simpl; rewrite Hc, Ht, Hp, Hs, Hfr; auto 12.
Qed.

(** The theorem at a store without the cursor row. The run without the flag
    stores the whole thread of the scenario; with a readable cursor of a
    later date the same platform gives a delta run that stores no post of the
    thread. *)
Lemma getSyncState_failure_selects_full_witness :
  let w := world_without_cursor in
  sync_state_unreadable w /\
  (fst (SmartSync.getSyncState w) = Ok {| last_sync := 0; is_first_run := 1 |} /\
   SmartSync.smartSync Scenario.client false w = SmartSync.smartSync Scenario.client true w /\
   mode (stats (snd (SmartSync.smartSync Scenario.client false w))) = full) /\
  (let w' := snd (SmartSync.smartSync Scenario.client false w) in
   fst (SmartSync.smartSync Scenario.client false w) = Ok tt /\
   size (posts (store w')) = 3%nat /\
   posts (store w') !! 500%Z <> None /\ posts (store w') !! 502%Z <> None /\
   posts (store w') !! 503%Z <> None /\
   threadsProcessed (stats w') = 1%nat /\ postsProcessed (stats w') = 3%nat) /\
  (let w' := snd (SmartSync.smartSync Scenario.client false world_with_late_cursor) in
   mode (stats w') = delta /\ posts (store w') = ∅).
Proof.
  intros w.
  assert (H : sync_state_unreadable w) by (right; left; reflexivity).
  split; [exact H|]. split.
  { destruct (getSyncState_failure_selects_full Scenario.client false w H)
      as (H1 & H2 & w1 & w2 & _ & _ & H3 & _).
    split; [exact H1|]. split; [exact H2 | exact H3]. }
  split.
  { vm_compute. split; [reflexivity|]. split; [reflexivity|].
    split; [discriminate|]. split; [discriminate|]. split; [discriminate|].
    split; reflexivity. }
  vm_compute. split; reflexivity.
Defined.


(** ** Reply counts *)

Lemma bind_inv_ok {A B} (m : M A) (k : A -> M B) w b w' :
  bind m k w = (Ok b, w') -> exists a w1, m w = (Ok a, w1) /\ k a w1 = (Ok b, w').
Proof.
  unfold bind. destruct (m w) as [[a|e] w1]; intros H; [eauto | discriminate].
Qed.

Lemma try_rethrow_inv_ok {A} (m : M A) w a w' :
  try_catch m (fun e => throw e) w = (Ok a, w') -> m w = (Ok a, w').
Proof.
  unfold try_catch, throw. destruct (m w) as [[a0|e] w1]; intros H; [exact H | discriminate].
Qed.

Lemma updateThreadReplyCount_law thread_id w w' :
  SmartSync.updateThreadReplyCount thread_id w = (Ok tt, w') ->
  reply_count_law (store w') thread_id.
Proof.
  unfold SmartSync.updateThreadReplyCount, Db.update_reply_count_from_posts, Db.write.
  intros H. apply bind_inv_ok in H as ([] & w1 & H1 & H2).
  assert (Hs : store w1 = store w).
  { revert H1. unfold db_io. destruct (db_events w) as [|e l].
    - intros [= <-]. reflexivity.
    - destruct (fails e); intros [= <-]; reflexivity. }
  unfold modify in H2. injection H2 as <-. simpl. rewrite Hs.
  intros row. destruct (threads (store w) !! thread_id) as [old|] eqn:E; simpl.
  - rewrite lookup_insert_eq. intros [= <-]. reflexivity.
  - rewrite E. discriminate.
Qed.

(** C3, as the code has it. After [syncThreadFull] or [syncThreadDelta]
    (lib/smartSync.ts, where the starter is stored as a post of its thread)
    returns, the stored [reply_count] of the thread is the number of post
    rows of the thread minus one. *)
Theorem smartSync_reply_count_law (thread : ThreadChannel) (w w' : World) :
  SmartSync.syncThreadFull thread w = (Ok tt, w') \/
  (exists since, SmartSync.syncThreadDelta thread since w = (Ok tt, w')) ->
  forall row, threads (store w') !! t_id thread = Some row ->
              th_reply_count row = (Db.count_posts (store w') (t_id thread) - 1)%Z.
Proof.
  intros [H | [since H]].
  - unfold SmartSync.syncThreadFull in H.
    apply bind_inv_ok in H as (? & w1 & _ & H).
    apply bind_inv_ok in H as (? & w2 & _ & H).
    apply bind_inv_ok in H as (? & w3 & _ & H).
    exact (updateThreadReplyCount_law _ _ _ H).
  - unfold SmartSync.syncThreadDelta in H.
    apply bind_inv_ok in H as (? & w1 & _ & H).
    apply try_rethrow_inv_ok in H.
    apply bind_inv_ok in H as (? & w2 & _ & H).
    apply bind_inv_ok in H as (? & w3 & _ & H).
    exact (updateThreadReplyCount_law _ _ _ H).
Qed.

(** The theorem at the scenario: three posts (the starter among them),
    [reply_count = 2]. *)
Lemma smartSync_reply_count_law_witness :
  let t := Scenario.thread [Scenario.M1; Scenario.M2; Scenario.M3] in
  let w := Scenario.world_of Scenario.store_with_channel Scenario.env0 Scenario.client [] [] in
  let w' := snd (SmartSync.syncThreadFull t w) in
  SmartSync.syncThreadFull t w = (Ok tt, w') /\
  exists row, threads (store w') !! 500%Z = Some row /\
              th_reply_count row = 2%Z /\
              th_reply_count row = (Db.count_posts (store w') 500 - 1)%Z.
Proof.
  intros t w w'.
  assert (H : SmartSync.syncThreadFull t w = (Ok tt, w')) by (vm_compute; reflexivity).
  split; [exact H|].
  destruct (threads (store w') !! 500%Z) as [row|] eqn:E; [|vm_compute in E; discriminate].
  exists row. split; [reflexivity|]. split.
  - vm_compute in E. injection E as <-. reflexivity.
  - exact (smartSync_reply_count_law t w w' (or_introl H) row E).
Defined.

(** C3 as stated fails on [syncSpecificThread] (lib/sync.ts): the starter is
    no post there and the count written is that of the replies upserted in
    the run. In the scenario two posts are stored and [reply_count = 2], one
    more than the number of post rows minus one. *)
Lemma syncSpecificThread_reply_count_counterexample :
  let w := Scenario.world_of Scenario.store_with_channel Scenario.env0 Scenario.client [] [] in
  let '(r, w') := Sync.syncSpecificThread Scenario.client 500 false w in
  r = Ok tt /\
  Db.count_posts (store w') 500 = 2%Z /\
  exists row, threads (store w') !! 500%Z = Some row /\ th_reply_count row = 2%Z /\
              th_reply_count row <> (Db.count_posts (store w') 500 - 1)%Z.
Proof.
  vm_compute. split; [reflexivity|]. split; [reflexivity|].
  eexists. split; [reflexivity|]. split; [reflexivity|]. discriminate.
Qed.

(** ** Reply references (lib/sync.ts) *)

Lemma net_io_core : preserves core net_io.
Proof.
  intros w. unfold net_io. destruct (net_events w) as [|e l]; [reflexivity|].
  destruct (fails e); reflexivity.
Qed.

Ltac core_step :=
  match goal with
  | |- preserves _ (bind _ _) => apply preserves_bind; [|intros ?]
  | |- preserves _ (try_catch _ _) => apply preserves_try_catch; [|intros ?]
  | |- preserves _ (ret _) => apply preserves_ret
  | |- preserves _ (throw _) => apply preserves_throw
  | |- preserves _ (lift _) => apply preserves_lift
  | |- preserves _ (gets _) => apply preserves_gets
  | |- preserves _ Date_now => apply preserves_gets
  | |- preserves _ net_io => apply net_io_core
  | |- preserves _ (upd_stats _) => apply preserves_modify; intros ?; reflexivity
  | |- preserves _ (match ?x with _ => _ end) => destruct x
  | |- preserves _ (if ?x then _ else _) => destruct x
  end.

Lemma channel_message_fetch_core c id : preserves core (channel_message_fetch c id).
Proof. unfold channel_message_fetch. repeat core_step. Qed.

Lemma processImageUrls_core urls : preserves core (Image.processImageUrls urls).
Proof. induction urls as [|u urls IH]; simpl; repeat core_step; exact IH. Qed.

Lemma append_images_core h urls : preserves core (Image.append_images h urls).
Proof.
  unfold Image.append_images. destruct urls; [repeat core_step|].
  apply preserves_try_catch; [|intros; repeat core_step].
  apply preserves_bind; [apply processImageUrls_core | intros; repeat core_step].
Qed.

(** [processImageUrls] catches what its calls throw. *)
Lemma processImageUrls_total urls w : exists r w1, Image.processImageUrls urls w = (Ok r, w1).
Proof.
  revert w. induction urls as [|u urls IH]; intros w; simpl; [eauto|].
  destruct (negb (Image.isImageUrl u)); [apply IH|].
  unfold bind at 1.
  destruct (try_catch _ _ w) as [[r|e] w1] eqn:E.
  - destruct (IH w1) as (rs & w2 & H2). unfold bind. rewrite H2. eauto.
  - exfalso. revert E. unfold try_catch, bind, net_io, Date_now, gets, ret.
    repeat match goal with
           | |- context [match ?x with _ => _ end] => destruct x
           end; discriminate.
Qed.

Lemma append_images_total h urls w : exists r w1, Image.append_images h urls w = (Ok r, w1).
Proof.
  unfold Image.append_images. destruct urls as [|u urls]; [eauto|].
  unfold try_catch, bind.
  destruct (processImageUrls_total (u :: urls) w) as (r & w1 & ->).
  destruct r; eauto.
Qed.

Lemma follows_core w w1 : db_ok w -> core w1 = core w -> follows w w1 /\ store w1 = store w.
Proof.
  unfold core, follows, db_ok. intros H E.
  assert (Hs : store w1 = store w) by congruence.
  assert (He : env w1 = env w) by congruence.
  assert (Hd : discord w1 = discord w) by congruence.
  assert (Hv : db_events w1 = db_events w) by congruence.
  rewrite Hv. auto.
Qed.

Lemma follows_trans w w1 w2 : follows w w1 -> follows w1 w2 -> follows w w2.
Proof. unfold follows. intros (? & ? & ?) (? & ? & ?). repeat split; congruence. Qed.

Lemma db_io_ok w : db_ok w -> exists w1, db_io w = (Ok tt, w1) /\ follows w w1 /\ store w1 = store w.
Proof.
  unfold db_ok, db_io, follows. intros H. destruct (db_events w) as [|e l] eqn:E.
  - eexists. split; [reflexivity|]. unfold db_ok. rewrite E. auto.
  - inversion H as [|? ? He Hl]; subst. rewrite He. eexists. split; [reflexivity|].
    unfold db_ok. simpl. auto.
Qed.

Lemma read_ok {A} (g : Store -> A) w :
  db_ok w -> exists w1, Db.read g w = (Ok (g (store w)), w1) /\ follows w w1 /\ store w1 = store w.
Proof.
  intros H. destruct (db_io_ok w H) as (w1 & H1 & Hf & Hs).
  exists w1. unfold Db.read. rewrite (bind_ok _ _ _ _ _ H1). unfold gets. rewrite Hs. auto.
Qed.

Lemma write_ok g w :
  db_ok w ->
  exists w1 t, Db.write g w = (Ok tt, w1) /\ follows w w1 /\ store w1 = g t (store w).
Proof.
  intros H. destruct (db_io_ok w H) as (w1 & H1 & (He & Hd & Hk) & Hs).
  exists (set_store (g (now w1)) w1), (now w1). unfold Db.write. rewrite (bind_ok _ _ _ _ _ H1).
  unfold modify. split; [reflexivity|]. split; [|simpl; rewrite Hs; reflexivity].
  repeat split; assumption.
Qed.

Lemma hashUserId_ok e uid :
  pepper_set e -> exists a, Hash.hashUserId e uid = Ok a.
Proof. intros (c & p & H). unfold Hash.hashUserId. rewrite H. eauto. Qed.

Lemma first_pass_row_mono e c m p (ps ps' : gmap Z PostRow) :
  (forall j, is_Some (ps !! j) -> is_Some (ps' !! j)) ->
  first_pass_row e c m p ps -> first_pass_row e c m p ps'.
Proof.
  unfold first_pass_row. intros Hd. destruct (m_reference m) as [X|]; [|auto].
  intros [(H1 & H2 & H3) | H]; [left | right; exact H]. auto.
Qed.

Lemma closed_row_stable e c m p (ps ps' : gmap Z PostRow) :
  (forall j, po_author_alias <$> ps' !! j = po_author_alias <$> ps !! j) ->
  closed_row e c m p ps -> closed_row e c m p ps'.
Proof.
  unfold closed_row. intros Ha. destruct (m_reference m) as [X|]; [|auto].
  specialize (Ha X).
  destruct (ps !! X) as [r|], (ps' !! X) as [r'|]; simpl in Ha; try discriminate; [|auto].
  injection Ha as Ha. rewrite Ha. auto.
Qed.

(** The fetch of the referenced message, as [syncMessage] wraps it. *)
Lemma fetch_alias_spec e0 channel_id ref w :
  exists a w1,
    try_catch
      (do referencedMessage <- channel_message_fetch channel_id ref;
       do a <- lift (Hash.hashUserId e0 (m_author_id referencedMessage));
       ret (Some a))
      (fun _ => ret None) w = (Ok a, w1) /\
    core w1 = core w /\
    (a = platform_alias e0 (discord w) channel_id ref \/ a = None).
Proof.
  unfold try_catch, bind at 1.
  pose proof (channel_message_fetch_core channel_id ref w) as Hc.
  destruct (channel_message_fetch channel_id ref w) as [[rm|err] w1] eqn:E; simpl in Hc.
  2:{ exists None, w1. auto. }
  assert (Hrm : exists t, find (fun t => (t_id t =? channel_id)%Z) (all_threads (discord w)) = Some t
                          /\ find (fun m => (m_id m =? ref)%Z) (t_messages t) = Some rm).
  { revert E. unfold channel_message_fetch, bind, net_io, gets.
    assert (Hd : forall l t, discord (set_now t (set_net_events l w)) = discord w) by reflexivity.
    destruct (net_events w) as [|ev l]; [|destruct (fails ev); [discriminate|]];
      simpl; rewrite ?Hd;
      destruct (find _ (all_threads (discord w))) as [t|]; try discriminate;
      destruct (find _ (t_messages t)) as [m|] eqn:Em; try discriminate;
      intros [= <- _]; eauto. }
  destruct Hrm as (t & Ht & Hm).
  unfold bind, lift, ret, platform_alias. rewrite Ht, Hm.
  destruct (Hash.hashUserId e0 (m_author_id rm)) as [a|err].
  - exists (Some a), w1. auto.
  - exists None, w1. auto.
Qed.

Lemma upsert_post_ok id r w :
  db_ok w ->
  exists w1 p, Db.upsert_post id r w = (Ok tt, w1) /\ follows w w1 /\
    posts (store w1) = <[id := p]> (posts (store w)) /\
    po_reply_to_id p = po_reply_to_id r /\
    po_reply_to_author_alias p = po_reply_to_author_alias r.
Proof.
  intros H. unfold Db.upsert_post.
  destruct (write_ok (fun (_ : Time) s =>
    match posts s !! id with
    | Some old =>
        Db.with_posts (<[id := {| po_thread_id := po_thread_id old;
                               po_author_alias := po_author_alias old;
                               po_body_html := po_body_html r;
                               po_reply_to_id := po_reply_to_id r;
                               po_reply_to_author_alias := po_reply_to_author_alias r;
                               po_created_at := po_created_at old;
                               po_updated_at := po_updated_at r |}]> (posts s)) s
    | None => Db.with_posts (<[id := r]> (posts s)) s
    end) w H) as (w1 & t & H1 & Hf & Hs).
  destruct (posts (store w) !! id) as [old|] eqn:E.
  - eexists w1, _. split; [exact H1|]. split; [exact Hf|]. rewrite Hs. simpl.
    split; [reflexivity|]. auto.
  - exists w1, r. split; [exact H1|]. split; [exact Hf|]. rewrite Hs. auto.
Qed.

Lemma follows_set_stats w w1 g : follows w w1 -> follows w (set_stats g w1).
Proof. unfold follows, db_ok. intros H. exact H. Qed.

Lemma gets_run {A} (g : World -> A) w : gets g w = (Ok (g w), w).
Proof. reflexivity. Qed.

Lemma reply_context_spec m w :
  db_ok w ->
  exists rp w1, reply_context (env w) m w = (Ok rp, w1) /\ follows w w1 /\ store w1 = store w /\
    match m_reference m with
    | None => rp = (None, None)
    | Some X =>
        (fst rp = Some X /\ is_Some (posts (store w) !! X) /\
         (snd rp = platform_alias (env w) (discord w) (m_channel_id m) X \/ snd rp = None)) \/
        rp = (None, None)
    end.
Proof.
  intros H. unfold reply_context. destruct (m_reference m) as [X|].
  2:{ exists (None, None), w. split; [reflexivity|]. repeat split; auto. }
  destruct (fetch_alias_spec (env w) (m_channel_id m) X w) as (a & w1 & H1 & Hc & Ha).
  rewrite (bind_ok _ _ _ _ _ H1).
  destruct (follows_core w w1 H Hc) as [Hf Hs].
  destruct (read_ok (fun s => match posts s !! X with Some p => [p] | None => [] end) w1
              (proj2 (proj2 Hf))) as (w2 & H2 & Hf2 & Hs2).
  unfold try_catch, Db.select_post. rewrite (bind_ok _ _ _ _ _ H2). rewrite Hs.
  destruct (posts (store w) !! X) as [p|] eqn:E; unfold ret.
  - exists (Some X, a), w2. split; [reflexivity|]. split; [eapply follows_trans; eauto|].
    split; [congruence|]. left. simpl. eauto.
  - exists (None, None), w2. split; [reflexivity|]. split; [eapply follows_trans; eauto|].
    split; [congruence|]. right. reflexivity.
Qed.

Lemma syncMessage_spec m w :
  db_ok w -> pepper_set (env w) ->
  exists w1 p, Sync.syncMessage m w = (Ok tt, w1) /\ follows w w1 /\
    posts (store w1) = <[m_id m := p]> (posts (store w)) /\
    first_pass_row (env w) (discord w) m p (posts (store w1)).
Proof.
  intros H Hp. unfold Sync.syncMessage.
  rewrite (bind_ok _ _ _ _ _ (gets_run env w)).
  destruct (hashUserId_ok (env w) (m_author_id m) Hp) as [alias Ha].
  assert (Hl : lift (Hash.hashUserId (env w) (m_author_id m)) w = (Ok alias, w))
    by (unfold lift; rewrite Ha; reflexivity).
  rewrite (bind_ok _ _ _ _ _ Hl).
  destruct (reply_context_spec m w H) as (rp & w1 & H1 & Hf1 & Hs1 & Hrp).
  unfold reply_context in H1. rewrite (bind_ok _ _ _ _ _ H1).
  destruct (append_images_total (Sanitizer.sanitize_html (m_content m)) (m_attachments m) w1)
    as (html & w2 & H2).
  pose proof (append_images_core (Sanitizer.sanitize_html (m_content m)) (m_attachments m) w1)
    as Hc2.
  rewrite H2 in Hc2. simpl in Hc2.
  destruct (follows_core w1 w2 (proj2 (proj2 Hf1)) Hc2) as [Hf2 Hs2].
  rewrite (bind_ok _ _ _ _ _ H2).
  match goal with
  | |- context [Db.upsert_post ?i ?r] =>
      destruct (upsert_post_ok i r w2 (proj2 (proj2 Hf2))) as (w3 & p & H3 & Hf3 & Hps & Hr1 & Hr2)
  end.
  rewrite (bind_ok _ _ _ _ _ H3).
  exists (set_stats inc_posts w3), p. split; [reflexivity|].
  split.
  { apply follows_set_stats. eauto using follows_trans. }
  simpl in *. split; [congruence|].
  unfold first_pass_row. destruct (m_reference m) as [X|]; [|exact I].
  rewrite Hps, Hs2, Hs1. destruct Hrp as [(Ha1 & Ha2 & Ha3) | ->].
  - left. split; [congruence|]. split.
    + destruct (decide (m_id m = X)) as [->|Hne].
      * rewrite lookup_insert_eq. eauto.
      * rewrite lookup_insert_ne by exact Hne. exact Ha2.
    + rewrite Hr2. exact Ha3.
  - right. simpl in *. auto.
Qed.

Lemma sync_messages_spec l : forall w n,
  NoDup (map m_id l) -> db_ok w -> pepper_set (env w) ->
  exists w1, Sync.sync_messages l n w = (Ok (n + Z.of_nat (length l))%Z, w1) /\ follows w w1 /\
    (forall j, is_Some (posts (store w) !! j) -> is_Some (posts (store w1) !! j)) /\
    (forall j, ~ In j (map m_id l) -> posts (store w1) !! j = posts (store w) !! j) /\
    (forall m, In m l ->
       exists p, posts (store w1) !! m_id m = Some p /\
                 first_pass_row (env w) (discord w) m p (posts (store w1))).
Proof.
  induction l as [|m l IH]; intros w n Hnd Hok Hp.
  - exists w. simpl. rewrite Z.add_0_r. split; [reflexivity|].
    split; [repeat split; auto|]. split; [auto|]. split; [auto|]. intros m [].
  - inversion Hnd as [|? ? Hnotin0 Hnd']; subst.
    assert (Hnotin : ~ In (m_id m) (map m_id l)) by (rewrite <- list_elem_of_In; exact Hnotin0).
    destruct (syncMessage_spec m w Hok Hp) as (w1 & p & H1 & Hf1 & Hps & Hrow).
    assert (Hstep : try_catch (Sync.syncMessage m ;; ret (n + 1)%Z)
                      (fun _ => upd_stats inc_errors ;; ret n) w = (Ok (n + 1)%Z, w1)).
    { unfold try_catch. rewrite (bind_ok _ _ _ _ _ H1). reflexivity. }
    destruct Hf1 as (He1 & Hd1 & Hok1).
    assert (Hp1 : pepper_set (env w1)) by (rewrite He1; exact Hp).
    destruct (IH w1 (n + 1)%Z Hnd' Hok1 Hp1) as (w2 & H2 & Hf2 & Hdom & Hother & Hrows).
    exists w2. simpl Sync.sync_messages. rewrite (bind_ok _ _ _ _ _ Hstep).
    split.
    { rewrite H2. f_equal. f_equal. simpl length. lia. }
    split; [eapply follows_trans; [|exact Hf2]; repeat split; assumption|].
    assert (Hdom1 : forall j, is_Some (posts (store w) !! j) -> is_Some (posts (store w1) !! j)).
    { intros j Hj. rewrite Hps. destruct (decide (m_id m = j)) as [->|Hne].
      - rewrite lookup_insert_eq. eauto.
      - rewrite lookup_insert_ne by exact Hne. exact Hj. }
    split; [intros j Hj; apply Hdom, Hdom1, Hj|].
    split.
    { intros j Hj. simpl in Hj. rewrite Hother by tauto.
      rewrite Hps. apply lookup_insert_ne. tauto. }
    intros m' [<- | Hin].
    + exists p. split.
      * rewrite Hother by exact Hnotin. rewrite Hps. apply lookup_insert_eq.
      * eapply first_pass_row_mono; [exact Hdom | exact Hrow].
    + rewrite <- He1, <- Hd1. apply Hrows, Hin.
Qed.

Lemma updateReplyReferences_spec m X w :
  m_reference m = Some X -> db_ok w ->
  exists w1, Sync.updateReplyReferences m w = (Ok tt, w1) /\ follows w w1 /\
    (forall j, j <> m_id m -> posts (store w1) !! j = posts (store w) !! j) /\
    (forall j, po_author_alias <$> posts (store w1) !! j
               = po_author_alias <$> posts (store w) !! j) /\
    (forall p, posts (store w) !! m_id m = Some p ->
       exists p', posts (store w1) !! m_id m = Some p' /\
         match po_reply_to_id p with
         | Some _ => p' = p
         | None =>
             match posts (store w) !! X with
             | Some r => po_reply_to_id p' = Some X /\
                         po_reply_to_author_alias p' = Some (po_author_alias r)
             | None => p' = p
             end
         end).
Proof.
  intros Href Hok. unfold Sync.updateReplyReferences. rewrite Href.
  destruct (read_ok (fun s => match posts s !! m_id m with Some p => [p] | None => [] end) w Hok)
    as (w1 & H1 & Hf1 & Hs1).
  unfold Db.select_post at 1. rewrite (bind_ok _ _ _ _ _ H1).
  destruct (posts (store w) !! m_id m) as [p|] eqn:Ep.
  2:{ exists w1. split; [reflexivity|]. split; [exact Hf1|]. rewrite Hs1.
      split; [auto|]. split; [auto|]. intros p. rewrite Ep. discriminate. }
  destruct (po_reply_to_id p) as [Y|] eqn:Er.
  { exists w1. split; [reflexivity|]. split; [exact Hf1|]. rewrite Hs1.
    split; [auto|]. split; [auto|]. intros p0. rewrite Ep. intros [= <-].
    exists p. rewrite Er. auto. }
  destruct (read_ok (fun s => match posts s !! X with Some p => [p] | None => [] end) w1
              (proj2 (proj2 Hf1))) as (w2 & H2 & Hf2 & Hs2).
  unfold Db.select_post. rewrite (bind_ok _ _ _ _ _ H2). rewrite Hs1.
  assert (Hf12 : follows w w2) by (eapply follows_trans; eauto).
  assert (Hs12 : store w2 = store w) by congruence.
  destruct (posts (store w) !! X) as [r|] eqn:Ex.
  2:{ exists w2. split; [reflexivity|]. split; [exact Hf12|]. rewrite Hs12.
      split; [auto|]. split; [auto|]. intros p0. rewrite Ep. intros [= <-].
      exists p. rewrite ?Er, ?Ex. auto. }
  rewrite (bind_ok _ _ _ _ _ (gets_run now w2)).
  unfold Db.update_post_reply.
  match goal with
  | |- context [Db.write ?g] =>
      destruct (write_ok g w2 (proj2 (proj2 Hf12))) as (w3 & t & H3 & Hf3 & Hs3)
  end.
  exists w3. split; [exact H3|]. split; [eapply follows_trans; eauto|].
  rewrite Hs3, Hs12, Ep. simpl.
  split; [intros j Hj; apply lookup_insert_ne; congruence|].
  split.
  { intros j. destruct (decide (m_id m = j)) as [<-|Hne].
    - rewrite lookup_insert_eq, Ep. reflexivity.
    - rewrite lookup_insert_ne by exact Hne. reflexivity. }
  intros p0 [= <-].
  eexists. split; [apply lookup_insert_eq|]. rewrite ?Er, ?Ex. simpl. auto.
Qed.

Lemma fmap_alias_dom (ps ps' : gmap Z PostRow) j :
  po_author_alias <$> ps' !! j = po_author_alias <$> ps !! j ->
  (is_Some (ps !! j) -> is_Some (ps' !! j)).
Proof.
  intros H [p Hp]. rewrite Hp in H. destruct (ps' !! j); [eauto | discriminate].
Qed.

Lemma repair_closes e c m X p p' (ps ps1 : gmap Z PostRow) :
  m_reference m = Some X ->
  first_pass_row e c m p ps ->
  (forall j, po_author_alias <$> ps1 !! j = po_author_alias <$> ps !! j) ->
  match po_reply_to_id p with
  | Some _ => p' = p
  | None =>
      match ps !! X with
      | Some r => po_reply_to_id p' = Some X /\
                  po_reply_to_author_alias p' = Some (po_author_alias r)
      | None => p' = p
      end
  end ->
  closed_row e c m p' ps1.
Proof.
  unfold first_pass_row, closed_row. intros -> Hrow Ha Hstep.
  specialize (Ha X).
  destruct Hrow as [(Hr & [r Hx] & Hal) | [Hr Hal]]; rewrite Hr in Hstep.
  - subst p'. rewrite Hx in Ha. destruct (ps1 !! X) as [r1|]; [|discriminate]. tauto.
  - destruct (ps !! X) as [r|].
    + destruct (ps1 !! X) as [r1|]; [|discriminate]. injection Ha as Ha.
      destruct Hstep as [H1 H2]. rewrite Ha. auto.
    + subst p'. destruct (ps1 !! X); [discriminate|]. auto.
Qed.

Lemma update_references_spec e c l : forall w,
  NoDup (map m_id l) -> db_ok w ->
  (forall m, In m l -> exists p, posts (store w) !! m_id m = Some p /\
                                  first_pass_row e c m p (posts (store w))) ->
  exists w1, Sync.update_references l w = (Ok tt, w1) /\ follows w w1 /\
    (forall j, po_author_alias <$> posts (store w1) !! j
               = po_author_alias <$> posts (store w) !! j) /\
    (forall j, ~ In j (map m_id l) -> posts (store w1) !! j = posts (store w) !! j) /\
    (forall m, In m l -> exists p, posts (store w1) !! m_id m = Some p /\
                                   closed_row e c m p (posts (store w1))).
Proof.
  unfold Sync.update_references.
  induction l as [|m l IH]; intros w Hnd Hok Hrows.
  - exists w. split; [reflexivity|]. split; [repeat split; auto|].
    split; [auto|]. split; [auto|]. intros m [].
  - inversion Hnd as [|? ? Hnotin0 Hnd']; subst.
    assert (Hnotin : ~ In (m_id m) (map m_id l)) by (rewrite <- list_elem_of_In; exact Hnotin0).
    destruct (Hrows m (or_introl eq_refl)) as (p & Hp & Hrow).
    assert (Hstep : exists w1,
      try_catch (match m_reference m with
                 | Some _ => Sync.updateReplyReferences m
                 | None => ret tt
                 end) (fun _ => ret tt) w = (Ok tt, w1) /\ follows w w1 /\
      (forall j, j <> m_id m -> posts (store w1) !! j = posts (store w) !! j) /\
      (forall j, po_author_alias <$> posts (store w1) !! j
                 = po_author_alias <$> posts (store w) !! j) /\
      (exists p', posts (store w1) !! m_id m = Some p' /\
                  closed_row e c m p' (posts (store w1)))).
    { destruct (m_reference m) as [X|] eqn:Href.
      - destruct (updateReplyReferences_spec m X w Href Hok) as (w1 & H1 & Hf & Ho & Ha & Hr).
        exists w1. unfold try_catch. rewrite H1. repeat split; try apply Hf; auto.
        destruct (Hr p Hp) as (p' & Hp' & Hcase). exists p'. split; [exact Hp'|].
        eapply repair_closes; eauto.
      - exists w. split; [reflexivity|]. split; [repeat split; auto|].
        split; [auto|]. split; [auto|]. exists p. split; [exact Hp|].
        unfold closed_row. rewrite Href. exact I. }
    destruct Hstep as (w1 & H1 & Hf1 & Ho1 & Ha1 & p' & Hp' & Hclosed).
    assert (Hrows1 : forall m', In m' l ->
              exists q, posts (store w1) !! m_id m' = Some q /\
                        first_pass_row e c m' q (posts (store w1))).
    { intros m' Hin. destruct (Hrows m' (or_intror Hin)) as (q & Hq & Hqrow).
      exists q. split.
      - rewrite Ho1; [exact Hq|]. intros Heq. apply Hnotin. rewrite <- Heq.
        apply in_map, Hin.
      - eapply first_pass_row_mono; [|exact Hqrow]. intros j. apply fmap_alias_dom, Ha1. }
    destruct (IH w1 Hnd' (proj2 (proj2 Hf1)) Hrows1) as (w2 & H2 & Hf2 & Ha2 & Ho2 & Hr2).
    exists w2. simpl foreach. rewrite (bind_ok _ _ _ _ _ H1).
    split; [exact H2|]. split; [eapply follows_trans; eauto|].
    split; [intros j; rewrite Ha2; apply Ha1|].
    split.
    { intros j Hj. simpl in Hj. rewrite Ho2 by tauto. apply Ho1. intros ->. tauto. }
    intros m' [<- | Hin].
    + exists p'. split; [rewrite Ho2 by exact Hnotin; exact Hp'|].
      eapply closed_row_stable; [exact Ha2 | exact Hclosed].
    + apply Hr2, Hin.
Qed.

(** What the two passes do guarantee. When every statement of the two passes
    succeeds, the passes return the number of replies, and each reply that
    refers to a message X ends with [reply_to_id = X] exactly when a post X
    is stored, both reply fields being null otherwise; the alias stored with
    the link is the referent's stored [author_alias] (repair pass), the hash
    of the author of the referenced message taken from the platform (first
    pass), or null (first pass, fetch rejected). *)
Theorem deferred_reference_closure (sortedMessages : list Message) (w : World) :
  NoDup (map m_id sortedMessages) -> db_ok w -> pepper_set (env w) ->
  exists w',
    Sync.reconcile_replies sortedMessages w = (Ok (Z.of_nat (length sortedMessages)), w') /\
    forall m X, In m sortedMessages -> m_reference m = Some X ->
      exists p, posts (store w') !! m_id m = Some p /\
        match posts (store w') !! X with
        | Some r =>
            po_reply_to_id p = Some X /\
            (po_reply_to_author_alias p = Some (po_author_alias r) \/
             po_reply_to_author_alias p
               = platform_alias (env w) (discord w) (m_channel_id m) X \/
             po_reply_to_author_alias p = None)
        | None => po_reply_to_id p = None /\ po_reply_to_author_alias p = None
        end.
Proof.
  intros Hnd Hok Hp.
  destruct (sync_messages_spec sortedMessages w 0%Z Hnd Hok Hp)
    as (w1 & H1 & Hf1 & _ & _ & Hrows).
  destruct (update_references_spec (env w) (discord w) sortedMessages w1 Hnd
              (proj2 (proj2 Hf1)) Hrows) as (w2 & H2 & _ & _ & _ & Hclosed).
  exists w2. unfold Sync.reconcile_replies.
  rewrite (bind_ok _ _ _ _ _ H1), (bind_ok _ _ _ _ _ H2). split; [reflexivity|].
  intros m X Hin Href. destruct (Hclosed m Hin) as (p & Hpm & Hrow).
  exists p. split; [exact Hpm|]. unfold closed_row in Hrow. rewrite Href in Hrow. exact Hrow.
Qed.

(** The closure at the replies M2 and M3 of the scenario. *)
Lemma deferred_reference_closure_witness :
  let l := [Scenario.M2; Scenario.M3] in
  let w := Scenario.world_of synced_store Scenario.env0 Scenario.client [] [] in
  (NoDup (map m_id l) /\ db_ok w /\ pepper_set (env w)) /\
  exists w',
    Sync.reconcile_replies l w = (Ok (Z.of_nat (length l)), w') /\
    forall m X, In m l -> m_reference m = Some X ->
      exists p, posts (store w') !! m_id m = Some p /\
        match posts (store w') !! X with
        | Some r =>
            po_reply_to_id p = Some X /\
            (po_reply_to_author_alias p = Some (po_author_alias r) \/
             po_reply_to_author_alias p
               = platform_alias (env w) (discord w) (m_channel_id m) X \/
             po_reply_to_author_alias p = None)
        | None => po_reply_to_id p = None /\ po_reply_to_author_alias p = None
        end.
Proof.
  intros l w.
  assert (Hnd : NoDup (map m_id l)) by (apply (bool_decide_unpack _); vm_compute; exact I).
  assert (Hok : db_ok w) by constructor.
  assert (Hp : pepper_set (env w)).
  { unfold pepper_set. vm_compute. eauto. }
  split; [auto|]. exact (deferred_reference_closure l w Hnd Hok Hp).
Defined.

Lemma reply_context_linked m X r w :
  db_ok w -> m_reference m = Some X -> posts (store w) !! X = Some r ->
  exists a w1, reply_context (env w) m w = (Ok (Some X, a), w1) /\ follows w w1 /\
    store w1 = store w /\
    (a = platform_alias (env w) (discord w) (m_channel_id m) X \/ a = None).
Proof.
  intros H Href Hx. unfold reply_context. rewrite Href.
  destruct (fetch_alias_spec (env w) (m_channel_id m) X w) as (a & w1 & H1 & Hc & Ha).
  rewrite (bind_ok _ _ _ _ _ H1).
  destruct (follows_core w w1 H Hc) as [Hf Hs].
  destruct (read_ok (fun s => match posts s !! X with Some p => [p] | None => [] end) w1
              (proj2 (proj2 Hf))) as (w2 & H2 & Hf2 & Hs2).
  unfold try_catch, Db.select_post. rewrite (bind_ok _ _ _ _ _ H2). rewrite Hs, Hx.
  exists a, w2. split; [reflexivity|]. split; [eapply follows_trans; eauto|].
  split; [congruence | exact Ha].
Qed.

Lemma syncMessage_linked m X r w :
  db_ok w -> pepper_set (env w) -> m_reference m = Some X -> posts (store w) !! X = Some r ->
  exists w1 p, Sync.syncMessage m w = (Ok tt, w1) /\ follows w w1 /\
    posts (store w1) = <[m_id m := p]> (posts (store w)) /\
    po_reply_to_id p = Some X /\
    (po_reply_to_author_alias p = platform_alias (env w) (discord w) (m_channel_id m) X \/
     po_reply_to_author_alias p = None).
Proof.
  intros H Hp Href Hx. unfold Sync.syncMessage.
  rewrite (bind_ok _ _ _ _ _ (gets_run env w)).
  destruct (hashUserId_ok (env w) (m_author_id m) Hp) as [alias Ha].
  assert (Hl : lift (Hash.hashUserId (env w) (m_author_id m)) w = (Ok alias, w))
    by (unfold lift; rewrite Ha; reflexivity).
  rewrite (bind_ok _ _ _ _ _ Hl).
  destruct (reply_context_linked m X r w H Href Hx) as (a & w1 & H1 & Hf1 & Hs1 & Hrp).
  unfold reply_context in H1. rewrite (bind_ok _ _ _ _ _ H1).
  destruct (append_images_total (Sanitizer.sanitize_html (m_content m)) (m_attachments m) w1)
    as (html & w2 & H2).
  pose proof (append_images_core (Sanitizer.sanitize_html (m_content m)) (m_attachments m) w1)
    as Hc2.
  rewrite H2 in Hc2. simpl in Hc2.
  destruct (follows_core w1 w2 (proj2 (proj2 Hf1)) Hc2) as [Hf2 Hs2].
  rewrite (bind_ok _ _ _ _ _ H2).
  match goal with
  | |- context [Db.upsert_post ?i ?r] =>
      destruct (upsert_post_ok i r w2 (proj2 (proj2 Hf2))) as (w3 & p & H3 & Hf3 & Hps & Hr1 & Hr2)
  end.
  rewrite (bind_ok _ _ _ _ _ H3).
  exists (set_stats inc_posts w3), p. split; [reflexivity|].
  split.
  { apply follows_set_stats. eauto using follows_trans. }
  simpl in *. split; [congruence|]. split; [exact Hr1|]. rewrite Hr2. exact Hrp.
Qed.

Lemma sync_messages_linked m X r l : forall w n,
  NoDup (map m_id l) -> db_ok w -> pepper_set (env w) ->
  In m l -> m_reference m = Some X ->
  posts (store w) !! X = Some r -> ~ In X (map m_id l) ->
  exists w1, Sync.sync_messages l n w = (Ok (n + Z.of_nat (length l))%Z, w1) /\ follows w w1 /\
    posts (store w1) !! X = Some r /\
    exists p, posts (store w1) !! m_id m = Some p /\
      po_reply_to_id p = Some X /\
      (po_reply_to_author_alias p = platform_alias (env w) (discord w) (m_channel_id m) X \/
       po_reply_to_author_alias p = None).
Proof.
  induction l as [|m' l IH]; intros w n Hnd Hok Hp Hin Href Hx HX; [destruct Hin|].
  inversion Hnd as [|? ? Hnotin0 Hnd']; subst.
  assert (Hnotin : ~ In (m_id m') (map m_id l)) by (rewrite <- list_elem_of_In; exact Hnotin0).
  assert (HXm : X <> m_id m') by (intros ->; apply HX; left; reflexivity).
  assert (HXl : ~ In X (map m_id l)) by (intros HI; apply HX; right; exact HI).
  assert (Hlen : forall k : Z, (k + 1 + Z.of_nat (length l) = k + Z.of_nat (length (m' :: l)))%Z)
    by (intros; simpl length; lia).
  assert (Hcase : m = m' \/ (m_id m <> m_id m' /\ In m l)).
  { destruct Hin as [Heq0 | Hin']; [left; symmetry; exact Heq0|].
    destruct (decide (m_id m = m_id m')) as [Heq | Hne]; [|right; auto].
    exfalso. apply Hnotin. rewrite <- Heq. apply in_map, Hin'. }
  destruct Hcase as [<- | [Hne Hin']].
  - destruct (syncMessage_linked m X r w Hok Hp Href Hx)
      as (w1 & p & H1 & Hf1 & Hps & Hr1 & Hr2).
    assert (Hstep : try_catch (Sync.syncMessage m ;; ret (n + 1)%Z)
                      (fun _ => upd_stats inc_errors ;; ret n) w = (Ok (n + 1)%Z, w1)).
    { unfold try_catch. rewrite (bind_ok _ _ _ _ _ H1). reflexivity. }
    destruct Hf1 as (He1 & Hd1 & Hok1).
    assert (Hp1 : pepper_set (env w1)) by (rewrite He1; exact Hp).
    destruct (sync_messages_spec l w1 (n + 1)%Z Hnd' Hok1 Hp1)
      as (w2 & H2 & Hf2 & _ & Hother & _).
    exists w2. simpl Sync.sync_messages. rewrite (bind_ok _ _ _ _ _ Hstep).
    split; [rewrite H2, Hlen; reflexivity|].
    split; [eapply follows_trans; [|exact Hf2]; repeat split; assumption|].
    split.
    { rewrite Hother by exact HXl. rewrite Hps, lookup_insert_ne by congruence. exact Hx. }
    exists p. split; [|auto].
    rewrite Hother by exact Hnotin. rewrite Hps. apply lookup_insert_eq.
  - destruct (syncMessage_spec m' w Hok Hp) as (w1 & p' & H1 & Hf1 & Hps & _).
    assert (Hstep : try_catch (Sync.syncMessage m' ;; ret (n + 1)%Z)
                      (fun _ => upd_stats inc_errors ;; ret n) w = (Ok (n + 1)%Z, w1)).
    { unfold try_catch. rewrite (bind_ok _ _ _ _ _ H1). reflexivity. }
    destruct Hf1 as (He1 & Hd1 & Hok1).
    assert (Hp1 : pepper_set (env w1)) by (rewrite He1; exact Hp).
    assert (Hx1 : posts (store w1) !! X = Some r).
    { rewrite Hps, lookup_insert_ne by congruence. exact Hx. }
    destruct (IH w1 (n + 1)%Z Hnd' Hok1 Hp1 Hin' Href Hx1 HXl) as (w2 & H2 & Hf2 & Hx2 & Hrow).
    exists w2. simpl Sync.sync_messages. rewrite (bind_ok _ _ _ _ _ Hstep).
    split; [rewrite H2, Hlen; reflexivity|].
    split; [eapply follows_trans; [|exact Hf2]; repeat split; assumption|].
    split; [exact Hx2|]. rewrite <- He1, <- Hd1. exact Hrow.
Qed.

Lemma update_references_keeps l : forall w j p,
  db_ok w -> posts (store w) !! j = Some p ->
  po_reply_to_id p <> None \/ ~ In j (map m_id l) ->
  exists w1, Sync.update_references l w = (Ok tt, w1) /\ follows w w1 /\
             posts (store w1) !! j = Some p.
Proof.
  unfold Sync.update_references.
  induction l as [|m l IH]; intros w j p Hok Hj Hkeep.
  - exists w. split; [reflexivity|]. split; [repeat split; auto | exact Hj].
  - assert (Hstep : exists w1,
      try_catch (match m_reference m with
                 | Some _ => Sync.updateReplyReferences m
                 | None => ret tt
                 end) (fun _ => ret tt) w = (Ok tt, w1) /\ follows w w1 /\
      posts (store w1) !! j = Some p).
    { destruct (m_reference m) as [Y|] eqn:Href.
      - destruct (updateReplyReferences_spec m Y w Href Hok) as (w1 & H1 & Hf & Ho & _ & Hr).
        exists w1. unfold try_catch. rewrite H1. split; [reflexivity|]. split; [exact Hf|].
        destruct (decide (j = m_id m)) as [-> | Hne]; [|rewrite Ho by exact Hne; exact Hj].
        destruct (Hr p Hj) as (p' & Hp' & Hcase). rewrite Hp'. f_equal.
        destruct (po_reply_to_id p) eqn:E; [exact Hcase|].
        destruct Hkeep as [Hk | Hk]; [congruence|]. exfalso. apply Hk. left. reflexivity.
      - exists w. split; [reflexivity|]. split; [repeat split; auto | exact Hj]. }
    destruct Hstep as (w1 & H1 & Hf1 & Hj1).
    assert (Hkeep1 : po_reply_to_id p <> None \/ ~ In j (map m_id l)).
    { destruct Hkeep as [Hk | Hk]; [left; exact Hk | right]. intros HI. apply Hk. right. exact HI. }
    destruct (IH w1 j p (proj2 (proj2 Hf1)) Hj1 Hkeep1) as (w2 & H2 & Hf2 & Hj2).
    exists w2. simpl foreach. rewrite (bind_ok _ _ _ _ _ H1).
    split; [exact H2|]. split; [eapply follows_trans; eauto | exact Hj2].
Qed.

(** C4, where the code departs from it. The referent X is stored (by an
    earlier run) and the platform no longer returns it: the first pass takes
    the alias from the platform only, links the reply to the stored post with
    a null alias, and the repair pass leaves a linked row alone. After both
    passes the post of the reply has [reply_to_id = X] and no
    [reply_to_author_alias], although post X is in the store with its
    [author_alias]. The thread row of the replies is stored, as the foreign
    key of [thread_id] demands, and every statement is accepted. *)
Theorem reconcile_replies_null_alias (sortedMessages : list Message) (m : Message)
  (X : Snowflake) (r : PostRow) (w : World) :
  NoDup (map m_id sortedMessages) -> db_ok w -> pepper_set (env w) ->
  (forall m', In m' sortedMessages -> is_Some (threads (store w) !! m_channel_id m')) ->
  In m sortedMessages -> m_reference m = Some X ->
  posts (store w) !! X = Some r -> ~ In X (map m_id sortedMessages) ->
  platform_alias (env w) (discord w) (m_channel_id m) X = None ->
  exists w' p,
    Sync.reconcile_replies sortedMessages w = (Ok (Z.of_nat (length sortedMessages)), w') /\
    posts (store w') !! X = Some r /\
    posts (store w') !! m_id m = Some p /\
    po_reply_to_id p = Some X /\
    po_reply_to_author_alias p = None /\
    po_reply_to_author_alias p <> Some (po_author_alias r).
Proof.
  intros Hnd Hok Hp _ Hin Href Hx HX Hgone.
  destruct (sync_messages_linked m X r sortedMessages w 0%Z Hnd Hok Hp Hin Href Hx HX)
    as (w1 & H1 & Hf1 & Hx1 & p & Hpm & Hlink & Halias).
  assert (Hnone : po_reply_to_author_alias p = None).
  { rewrite Hgone in Halias. destruct Halias; assumption. }
  assert (Hlinked : po_reply_to_id p <> None) by (rewrite Hlink; discriminate).
  destruct (update_references_keeps sortedMessages w1 (m_id m) p (proj2 (proj2 Hf1)) Hpm
              (or_introl Hlinked)) as (w2 & H2 & Hf2 & Hpm2).
  destruct (update_references_keeps sortedMessages w1 X r (proj2 (proj2 Hf1)) Hx1
              (or_intror HX)) as (w2' & H2' & _ & Hx2).
  rewrite H2 in H2'. injection H2' as <-.
  exists w2, p. unfold Sync.reconcile_replies.
  rewrite (bind_ok _ _ _ _ _ H1), (bind_ok _ _ _ _ _ H2).
  split; [reflexivity|]. split; [exact Hx2|]. split; [exact Hpm2|]. split; [exact Hlink|].
  split; [exact Hnone|]. rewrite Hnone. discriminate.
Qed.

(** The theorem at the reply M3 of the scenario, whose referent 502 was
    stored by the earlier run and has since been deleted upstream. *)
Lemma reconcile_replies_null_alias_witness :
  let l := [Scenario.M3] in
  let w := world_after_upstream_delete in
  exists r,
    (NoDup (map m_id l) /\ db_ok w /\ pepper_set (env w) /\
     (forall m', In m' l -> is_Some (threads (store w) !! m_channel_id m')) /\
     In Scenario.M3 l /\
     m_reference Scenario.M3 = Some 502%Z /\ posts (store w) !! 502%Z = Some r /\
     ~ In 502%Z (map m_id l) /\
     platform_alias (env w) (discord w) (m_channel_id Scenario.M3) 502 = None) /\
    po_author_alias r = str "0c6c1b1c7cac" /\
    exists w' p,
      Sync.reconcile_replies l w = (Ok (Z.of_nat (length l)), w') /\
      posts (store w') !! 502%Z = Some r /\
      posts (store w') !! m_id Scenario.M3 = Some p /\
      po_reply_to_id p = Some 502%Z /\
      po_reply_to_author_alias p = None /\
      po_reply_to_author_alias p <> Some (po_author_alias r).
Proof.
  intros l w.
  assert (Hnd : NoDup (map m_id l)) by (apply (bool_decide_unpack _); vm_compute; exact I).
  assert (Hok : db_ok w) by constructor.
  assert (Hp : pepper_set (env w)) by (unfold pepper_set; vm_compute; eauto).
  assert (Hin : In Scenario.M3 l) by (left; reflexivity).
  assert (Href : m_reference Scenario.M3 = Some 502%Z) by reflexivity.
  assert (Hx : exists r, posts (store w) !! 502%Z = Some r /\ po_author_alias r = str "0c6c1b1c7cac").
  { vm_compute. eexists. split; reflexivity. }
  destruct Hx as (r & Hx & Hr).
  assert (HX : ~ In 502%Z (map m_id l)) by (simpl; intros [H | []]; discriminate).
  assert (Hgone : platform_alias (env w) (discord w) (m_channel_id Scenario.M3) 502 = None)
    by (vm_compute; reflexivity).
  assert (Hth : forall m', In m' l -> is_Some (threads (store w) !! m_channel_id m')).
  { intros m' [<- | []]. vm_compute. eauto. }
  exists r. split; [auto 10|]. split; [exact Hr|].
  exact (reconcile_replies_null_alias l Scenario.M3 502 r w Hnd Hok Hp Hth Hin Href Hx HX Hgone).
Defined.

(** The two ways a reply ends without its referent's alias, or without its
    link, in whole runs of [syncSpecificThread].
    (1) The referent 502 is stored by an earlier run and has since been
    deleted upstream: the platform no longer returns it, the first pass links
    M3 to the stored post with a null alias, and the repair pass leaves a
    linked row alone.
    (2) The statements that look the referent up for M3 are rejected, once in
    each pass (the fourth and the eighth of the run): M3 stays unlinked while
    post 502 is stored. *)
Lemma deferred_reference_counterexample :
  (let c := Scenario.client_of (Scenario.thread [Scenario.M1; Scenario.M3]) in
   let w := Scenario.world_of synced_store Scenario.env0 c [] [] in
   let '(r, w') := Sync.syncSpecificThread c 500 false w in
   r = Ok tt /\ m_reference Scenario.M3 = Some 502%Z /\
   exists p q, posts (store w') !! 503%Z = Some p /\ posts (store w') !! 502%Z = Some q /\
               po_reply_to_id p = Some 502%Z /\
               po_reply_to_author_alias p = None /\
               po_reply_to_author_alias p <> Some (po_author_alias q)) /\
  (let ok := {| fails := false; latency := 0 |} in
   let ko := {| fails := true; latency := 0 |} in
   let w := Scenario.world_of Scenario.store_with_channel Scenario.env0 Scenario.client
              [ok; ok; ok; ko; ok; ok; ok; ko] [] in
   let '(r, w') := Sync.syncSpecificThread Scenario.client 500 false w in
   r = Ok tt /\ m_reference Scenario.M3 = Some 502%Z /\
   exists p, posts (store w') !! 503%Z = Some p /\ is_Some (posts (store w') !! 502%Z) /\
             po_reply_to_id p = None).
Proof.
  split.
  - vm_compute. split; [reflexivity|]. split; [reflexivity|].
    eexists; eexists. repeat split; try reflexivity. discriminate.
  - vm_compute. split; [reflexivity|]. split; [reflexivity|].
    eexists. repeat split; try reflexivity. eexists; reflexivity.
Qed.

Lemma coll_set_keys {A} id (v : A) (c : Collection A) :
  map fst (coll_set id v c) = map fst c \/
  (~ In id (map fst c) /\ map fst (coll_set id v c) = map fst c ++ [id]).
Proof.
  induction c as [|[j u] c IH]; simpl.
  - right. split; [tauto | reflexivity].
  - destruct (Z.eqb_spec j id) as [->|Hne]; simpl; [left; reflexivity|].
    destruct IH as [-> | [Hn ->]]; [left; reflexivity|].
    right. split; [tauto | reflexivity].
Qed.

Lemma coll_set_keyed m c : keyed c -> keyed (coll_set (m_id m) m c).
Proof.
  intros [Hnd Hk]. split.
  - destruct (coll_set_keys (m_id m) m c) as [-> | [Hn ->]]; [exact Hnd|].
    apply NoDup_app. split; [exact Hnd|]. split.
    + intros x Hx Hx'. apply list_elem_of_In in Hx, Hx'. destruct Hx' as [<-|[]]. tauto.
    + apply NoDup_singleton.
  - clear Hnd. induction c as [|[j u] c IH]; simpl.
    + constructor; [reflexivity | constructor].
    + inversion Hk as [|? ? Hj Hc]; subst.
      destruct (Z.eqb_spec j (m_id m)) as [->|Hne]; constructor; auto.
Qed.

Lemma coll_set_all_keyed batch c : keyed c -> keyed (coll_set_all m_id batch c).
Proof.
  unfold coll_set_all. revert c. induction batch as [|m batch IH]; intros c Hc; simpl.
  - exact Hc.
  - apply IH, coll_set_keyed, Hc.
Qed.

Lemma fetch_step_cases thread (c : Collection Message) lastId w :
  exists w1,
    try_catch
      (do batch <- messages_fetch_before thread lastId;
       match batch with
       | [] => ret None
       | _ => sleep 100 ;;
              ret (Some (coll_set_all m_id batch c, option_map m_id (last batch)))
       end)
      (fun _ => ret None) w = (Ok None, w1) \/
    exists batch,
      try_catch
        (do batch <- messages_fetch_before thread lastId;
         match batch with
         | [] => ret None
         | _ => sleep 100 ;;
                ret (Some (coll_set_all m_id batch c, option_map m_id (last batch)))
         end)
        (fun _ => ret None) w
      = (Ok (Some (coll_set_all m_id batch c, option_map m_id (last batch))), w1).
Proof.
  unfold try_catch.
  destruct (messages_fetch_before thread lastId w) as [[batch|e] w1] eqn:E.
  - rewrite !(bind_ok _ _ _ _ _ E). destruct batch as [|m batch].
    + exists w1. left. reflexivity.
    + eexists. right. exists (m :: batch). reflexivity.
  - rewrite !(bind_throw _ _ _ _ _ E). exists w1. left. reflexivity.
Qed.

Lemma fetchAllMessages_loop_keyed fuel thread : forall c lastId w,
  keyed c ->
  exists c' w', fetchAllMessages_loop fuel thread c lastId w = (Ok c', w') /\ keyed c'.
Proof.
  induction fuel as [|fuel IH]; intros c lastId w Hc; simpl.
  - eauto.
  - destruct (fetch_step_cases thread c lastId w) as (w1 & [H | [batch H]]);
      rewrite (bind_ok _ _ _ _ _ H).
    + eauto.
    + apply IH, coll_set_all_keyed, Hc.
Qed.

Lemma insert_by_created_perm x l : Permutation (insert_by_created x l) (x :: l).
Proof.
  induction l as [|y l IH]; simpl; [reflexivity|].
  destruct (m_createdAt x <=? m_createdAt y)%Z; [reflexivity|].
  rewrite IH. apply perm_swap.
Qed.

Lemma sort_by_created_perm l : Permutation (sort_by_created l) l.
Proof.
  unfold sort_by_created. induction l as [|x l IH]; simpl; [reflexivity|].
  rewrite insert_by_created_perm, IH. reflexivity.
Qed.

Lemma filter_ids_NoDup (f : Message -> bool) l :
  NoDup (map m_id l) -> NoDup (map m_id (List.filter f l)).
Proof.
  induction l as [|x l IH]; simpl; intros H; [exact H|].
  apply NoDup_cons in H as [Hx Hl]. destruct (f x); simpl; [|auto].
  apply NoDup_cons. split; [|auto].
  intros Hin. apply Hx. apply list_elem_of_In in Hin. apply list_elem_of_In.
  apply in_map_iff in Hin as (y & Hy & Hiny). apply in_map_iff. exists y.
  split; [exact Hy|]. apply List.filter_In in Hiny. tauto.
Qed.

Lemma fetched_replies_distinct thread (f : Message -> bool) w :
  exists c w', fetchAllMessages thread w = (Ok c, w') /\
    NoDup (map m_id (sort_by_created (List.filter f (map snd c)))).
Proof.
  destruct (fetchAllMessages_loop_keyed (S (length (t_messages thread))) thread [] None w)
    as (c & w' & H & Hnd & Hk).
  { split; [apply NoDup_nil_2 | constructor]. }
  exists c, w'. split; [exact H|].
  rewrite (sort_by_created_perm _). apply filter_ids_NoDup.
  assert (Heq : map m_id (map snd c) = map fst c).
  { clear -Hk. induction Hk as [|[j u] c Hj _ IH]; simpl; [reflexivity|].
    simpl in Hj. rewrite IH, Hj. reflexivity. }
  rewrite Heq. exact Hnd.
Qed.

(** ** The identity hasher (lib/hash.ts) *)

Lemma sha256_hex_length s : length (sha256_hex s) = 64%nat.
Proof. unfold sha256_hex, SHA256.hex. rewrite !length_app. reflexivity. Qed.

Lemma hexdigit_lower x : (0 <= x < 16)%Z -> is_lower_hex (SHA256.hexdigit x) = true.
Proof.
  intros H. destruct x as [|p|p]; [reflexivity | | lia].
  do 4 (destruct p as [p|p|]; try lia; try reflexivity).
Qed.

Lemma hex32_lower w : Forall (fun c => is_lower_hex c = true) (SHA256.hex32 w).
Proof.
  unfold SHA256.hex32.
  repeat constructor; apply hexdigit_lower, Z.mod_pos_bound; lia.
Qed.

Lemma sha256_hex_lower s : Forall (fun c => is_lower_hex c = true) (sha256_hex s).
Proof.
  unfold sha256_hex, SHA256.hex. rewrite !Forall_app. repeat split; apply hex32_lower.
Qed.

(** C5. With the pepper set, [hashUserId] returns the first 12 hexadecimal
    digits of SHA-256 over the UTF-8 bytes of the id followed by the pepper:
    12 units, each a digit or a letter from [a] to [f]; any process with the
    same pepper returns the same alias. The hash function is that of the
    standard (its three test messages give the published digests), and the
    id 111 has two different aliases under two peppers of 64 digits. *)
Theorem hashUserId_alias (e : Env) (uid : jsstring) (c : N) (p : jsstring) :
  e !! "PII_PEPPER"%string = Some (c :: p) ->
  (exists a,
     Hash.hashUserId e uid = Ok a /\
     a = firstn 12 (SHA256.hex (SHA256.digest (utf8 (uid ++ c :: p)))) /\
     length a = 12%nat /\
     Forall (fun d => is_lower_hex d = true) a /\
     forall e' : Env, e' !! "PII_PEPPER"%string = Some (c :: p) ->
                      Hash.hashUserId e' uid = Ok a) /\
  (SHA256.hex (SHA256.digest (utf8 (str "abc")))
     = str "ba7816bf8f01cfea414140de5dae2223b00361a396177a9cb410ff61f20015ad" /\
   SHA256.hex (SHA256.digest (utf8 []))
     = str "e3b0c44298fc1c149afbf4c8996fb92427ae41e4649b934ca495991b7852b855" /\
   SHA256.hex (SHA256.digest
                 (utf8 (str "abcdbcdecdefdefgefghfghighijhijkijkljklmklmnlmnomnopnopq")))
     = str "248d6a61d20638b8e5c026930c3e6039a33ce45964ff2167f6ecedd419db06c1") /\
  (Hash.hashUserId {[ "PII_PEPPER"%string := Scenario.pepper ]} (str "111")
     = Ok (str "ec8df9e5494b") /\
   Hash.hashUserId {[ "PII_PEPPER"%string := other_pepper ]} (str "111")
     = Ok (str "afed94556539")).
Proof.
  intros H. split; [|split].
  - exists (firstn 12 (sha256_hex (uid ++ c :: p))).
    unfold Hash.hashUserId. rewrite H. cbv zeta.
    split; [reflexivity|]. split; [reflexivity|].
    split; [rewrite length_firstn, sha256_hex_length; reflexivity|].
    split; [apply Forall_take, sha256_hex_lower|].
    intros e' He'. rewrite He'. reflexivity.
  - split; [|split]; vm_compute; reflexivity.
  - split; vm_compute; reflexivity.
Qed.

(** The theorem at the scenario's environment and a user id outside ASCII:
    the alias is the one Node computes for it. *)
Lemma hashUserId_alias_witness :
  let e := Scenario.env0 in
  let uid := [104; 233; 108; 108; 111; 8364; 55357; 56832] in
  e !! "PII_PEPPER"%string = Some (ch "0" :: tl Scenario.pepper) /\
  Hash.hashUserId e uid = Ok (str "be0438f931a0") /\
  exists a,
    Hash.hashUserId e uid = Ok a /\
    a = firstn 12 (SHA256.hex (SHA256.digest (utf8 (uid ++ ch "0" :: tl Scenario.pepper)))) /\
    length a = 12%nat /\
    Forall (fun d => is_lower_hex d = true) a.
Proof.
  intros e uid.
  assert (H : e !! "PII_PEPPER"%string = Some (ch "0" :: tl Scenario.pepper))
    by (vm_compute; reflexivity).
  split; [exact H|]. split; [vm_compute; reflexivity|].
  destruct (hashUserId_alias e uid _ _ H) as [(a & H1 & H2 & H3 & H4 & _) _].
  exists a. auto.
Defined.

(** The alias has 48 bits, so it cannot differ for every two peppers: these
    two peppers of 64 hexadecimal digits give the id 111 the same alias. *)
Lemma hashUserId_peppers_can_collide :
  let p1 := str "0000000000000000000000000000000000000000000000000000831481be4fb3" in
  let p2 := str "0000000000000000000000000000000000000000000000000000a1433e0174f8" in
  p1 <> p2 /\
  length p1 = 64%nat /\ length p2 = 64%nat /\
  Hash.hashUserId {[ "PII_PEPPER"%string := p1 ]} (str "111") = Ok (str "6cdfb7bd4a7b") /\
  Hash.hashUserId {[ "PII_PEPPER"%string := p2 ]} (str "111") = Ok (str "6cdfb7bd4a7b").
Proof.
  intros p1 p2. split; [intros H; vm_compute in H; discriminate|].
  split; [reflexivity|]. split; [reflexivity|]. split; vm_compute; reflexivity.
Qed.

(** ** Start-up (index.ts) *)

Lemma foreach_unchanged {X} (l : list X) (body : X -> M unit) w :
  (forall x, body x w = (Ok tt, w)) -> foreach l body w = (Ok tt, w).
Proof.
  intros H. induction l as [|x l IH]; simpl; [reflexivity|].
  rewrite (bind_ok _ _ _ _ _ (H x)). exact IH.
Qed.

Lemma loadStaffFromCSV_without_pepper w :
  env w !! "PII_PEPPER"%string = None ->
  StaffLoader.loadStaffFromCSV w = (Ok tt, w).
Proof.
  intros H. unfold StaffLoader.loadStaffFromCSV.
  rewrite (bind_ok _ _ _ _ _ (gets_run staff_csv w)).
  destruct (staff_csv w) as [rows|]; [|reflexivity].
  apply foreach_unchanged. intros x.
  unfold try_catch. rewrite (bind_ok _ _ _ _ _ (gets_run env w)).
  unfold bind, lift, Hash.hashUserId. rewrite H. reflexivity.
Qed.

(** C6 fails on the code: [validatePepper] is never called and [main] does
    not look at PII_PEPPER. Without the pepper, with a token and with every
    call answered, [main] ends with the process serving; the missing pepper
    shows only later, when [hashUserId] throws. *)
Theorem startup_without_pepper (w : World) :
  env w !! "PII_PEPPER"%string = None ->
  Index.truthy (env w !! "DISCORD_TOKEN"%string) = true ->
  db_events w = [] -> net_events w = [] ->
  Index.main w = (Ok Index.Serving, w) /\
  Hash.validatePepper (env w) = Throw "PII_PEPPER environment variable is required" /\
  forall uid, Hash.hashUserId (env w) uid = Throw "PII_PEPPER environment variable is required".
Proof.
  intros Hp Ht Hdb Hnet. split.
  - unfold Index.main, try_catch.
    assert (H1 : Index.initializeDatabase w = (Ok tt, w)).
    { unfold Index.initializeDatabase, Db.ping, db_io. rewrite Hdb. reflexivity. }
    rewrite (bind_ok _ _ _ _ _ H1), (bind_ok _ _ _ _ _ (gets_run env w)).
    assert (H2 : (if Index.truthy (env w !! "STAFF_CSV_PATH"%string)
                  then StaffLoader.loadStaffFromCSV else ret tt) w = (Ok tt, w)).
    { destruct (Index.truthy (env w !! "STAFF_CSV_PATH"%string));
        [apply loadStaffFromCSV_without_pepper, Hp | reflexivity]. }
    rewrite (bind_ok _ _ _ _ _ H2).
    assert (Hc : Index.loadCommands w = (Ok tt, w)) by reflexivity.
    rewrite (bind_ok _ _ _ _ _ Hc).
    assert (H3 : Index.login (env w !! "DISCORD_TOKEN"%string) w = (Ok tt, w)).
    { unfold Index.login. rewrite Ht. unfold net_io. rewrite Hnet. reflexivity. }
    rewrite (bind_ok _ _ _ _ _ H3). reflexivity.
  - unfold Hash.validatePepper, Hash.hashUserId. rewrite Hp. auto.
Qed.

Lemma startup_without_pepper_witness :
  let w := world_without_pepper in
  (env w !! "PII_PEPPER"%string = None /\
   Index.truthy (env w !! "DISCORD_TOKEN"%string) = true /\
   db_events w = [] /\ net_events w = []) /\
  Index.main w = (Ok Index.Serving, w) /\
  Hash.validatePepper (env w) = Throw "PII_PEPPER environment variable is required" /\
  forall uid, Hash.hashUserId (env w) uid = Throw "PII_PEPPER environment variable is required".
Proof.
  intros w.
  assert (H1 : env w !! "PII_PEPPER"%string = None) by (vm_compute; reflexivity).
  assert (H2 : Index.truthy (env w !! "DISCORD_TOKEN"%string) = true) by (vm_compute; reflexivity).
  split; [repeat split; auto|].
  exact (startup_without_pepper w H1 H2 eq_refl eq_refl).
Defined.

(** There the whole process, start-up and [ready] handler, exits with code
    0: every thread fails on [hashUserId], the failures are counted, and the
    run still returns and writes the cursor. *)
Example start_without_pepper_exits_zero :
  let '(r, w') := Index.start world_without_pepper in
  r = Ok (Index.Exited 0) /\
  threads (store w') = ∅ /\
  errorsEncountered (stats w') = 1%nat /\
  exists t u, sync_state (store w') =
              Some {| cfg_value := Json {| last_sync := t; is_first_run := 0 |};
                      cfg_updated_at := u |}.
Proof. vm_compute. repeat split; eauto. Qed.

(** ** Slugs *)

(** C9 fails on [upsertThread] (lib/smartSync.ts): it trims white space
    where [syncSpecificThread] trims dashes, so a dash at an end of the
    stripped title stays. *)
Theorem upsertThread_slug_edge_dash :
  Slug.upsertThread_slug (str "What is this - ?") = str "what-is-this-" /\
  Re.test Slug.SLUG_SHAPE (Slug.upsertThread_slug (str "What is this - ?")) = false /\
  Slug.upsertThread_slug (str "-a") = str "-a" /\
  Re.test Slug.SLUG_SHAPE (Slug.upsertThread_slug (str "-a")) = false /\
  Slug.syncSpecificThread_slug (str "What is this - ?") = str "what-is-this" /\
  Re.test Slug.SLUG_SHAPE (Slug.syncSpecificThread_slug (str "What is this - ?")) = true.
Proof. vm_compute. repeat split; reflexivity. Qed.

(** [syncSpecificThread] trims the dashes and then cuts at 255 units, so the
    cut itself can leave a dash at the end; that takes a title of more than
    255 units, and the platform's titles have at most 100. *)
Example syncSpecificThread_slug_cut :
  let slug := Slug.syncSpecificThread_slug (repeat (ch "a") 254 ++ str " b") in
  length slug = 255%nat /\ List.last slug 0 = ch "-" /\
  Re.test Slug.SLUG_SHAPE slug = false.
Proof. vm_compute. repeat split; reflexivity. Qed.

(** ** The matcher *)

Import Re.

Lemma reaches_refl s : reaches s s [].
Proof. split; reflexivity. Qed.

Lemma reaches_trans s s1 s2 w1 w2 :
  reaches s s1 w1 -> reaches s1 s2 w2 -> reaches s s2 (w1 ++ w2).
Proof.
  intros [H1 H2] [H3 H4]. split.
  - rewrite H1, H3, app_assoc. reflexivity.
  - rewrite H4, H2, rev_app_distr, app_assoc. reflexivity.
Qed.

Lemma reaches_advance s c t : rest s = c :: t -> reaches s (advance c t s) [c].
Proof. intros H. split; [exact H | reflexivity]. Qed.

Lemma reaches_length s s' w : reaches s s' w -> length (rest s) = (length w + length (rest s'))%nat.
Proof. intros [H _]. rewrite H, length_app. reflexivity. Qed.

Lemma flipcase_involutive c : flipcase (flipcase c) = c.
Proof.
  unfold flipcase, is_upper, is_lower.
  repeat match goal with
         | |- context [if ?b then _ else _] => destruct b eqn:?
         end;
  rewrite ?andb_true_iff, ?andb_false_iff, ?N.leb_le, ?N.leb_gt in *; lia.
Qed.

Lemma in_enum lo hi c : lo <= c -> c <= hi -> In c (enum lo hi).
Proof.
  intros H1 H2. unfold enum. apply in_map_iff. exists (N.to_nat (c - lo)).
  split; [lia|]. apply in_seq. lia.
Qed.

Lemma item_within_sound ic p it c :
  item_within ic p it = true ->
  item_has it c || (ic && item_has it (flipcase c)) = true -> p c = true.
Proof.
  assert (Hok : forall x, p x && (negb ic || p (flipcase x)) = true ->
                (c = x \/ (ic = true /\ flipcase c = x)) -> p c = true).
  { intros x Hx [-> | [-> <-]]; apply andb_true_iff in Hx as [H1 H2]; [exact H1|].
    simpl in H2. rewrite flipcase_involutive in H2. exact H2. }
  assert (Hrange : forall lo hi, forallb (fun x => p x && (negb ic || p (flipcase x))) (enum lo hi) = true ->
            ((lo <=? c) && (c <=? hi)) || (ic && ((lo <=? flipcase c) && (flipcase c <=? hi))) = true ->
            p c = true).
  { intros lo hi Hall H. rewrite forallb_forall in Hall.
    apply orb_true_iff in H as [H | H].
    - apply andb_true_iff in H as [H1 H2]. apply N.leb_le in H1, H2.
      apply (Hok c); [apply Hall, in_enum; assumption | auto].
    - apply andb_true_iff in H as [Hic H]. apply andb_true_iff in H as [H1 H2].
      apply N.leb_le in H1, H2.
      apply (Hok (flipcase c)); [apply Hall, in_enum; assumption | auto]. }
  destruct it as [a | lo hi | | |]; simpl; intros Hw H; try discriminate.
  - apply (Hok a Hw). apply orb_true_iff in H as [H | H].
    + apply N.eqb_eq in H. auto.
    + apply andb_true_iff in H as [Hic H]. apply N.eqb_eq in H. auto.
  - exact (Hrange lo hi Hw H).
  - exact (Hrange 48 57 Hw H).
Qed.

Lemma charset_within_sound ic p cs c :
  negb (negated cs) && forallb (item_within ic p) (items cs) = true ->
  charset_has ic cs c = true -> p c = true.
Proof.
  intros H Hc. apply andb_true_iff in H as [Hn Hall]. unfold charset_has in Hc.
  destruct (negated cs); [discriminate|]. simpl in Hc.
  apply existsb_exists in Hc as (it & Hin & Hit).
  rewrite forallb_forall in Hall. exact (item_within_sound ic p it c (Hall it Hin) Hit).
Qed.

Lemma orelse_Some {A} (x y : option A) r :
  orelse x y = Some r -> x = Some r \/ y = Some r.
Proof. destruct x; simpl; auto. Qed.

Lemma rep_loop_sound p nd m greedy :
  sound p nd m ->
  forall fuel k lo hi x res,
    rep_loop m k greedy fuel lo hi x = Some res ->
    exists s' w, k s' = Some res /\ reaches x s' w /\
      ((0 <? lo)%nat && match hi with Some h => (lo <=? h)%nat | None => true end && nd = true ->
       Exists (fun c => p c = true) w).
Proof.
  intros Hm. induction fuel as [|fuel IH]; intros k lo hi x res H; simpl in H; [discriminate|].
  assert (Hstop : k x = Some res -> lo = 0%nat \/ hi = Some 0%nat ->
            exists s' w, k s' = Some res /\ reaches x s' w /\
              ((0 <? lo)%nat && match hi with Some h => (lo <=? h)%nat | None => true end
               && nd = true -> Exists (fun c => p c = true) w)).
  { intros Hk Hlo. exists x, []. split; [exact Hk|]. split; [apply reaches_refl|].
    intros Hn. exfalso. destruct Hlo as [-> | ->]; [discriminate|].
    destruct lo; [discriminate|]. simpl in Hn. discriminate. }
  assert (Hiter : m (fun y =>
              if (lo =? 0)%nat && (length (rest y) =? length (rest x))%nat then None
              else rep_loop m k greedy fuel (Nat.pred lo) (option_map Nat.pred hi) y) x
            = Some res -> hi <> Some 0%nat ->
            exists s' w, k s' = Some res /\ reaches x s' w /\
              ((0 <? lo)%nat && match hi with Some h => (lo <=? h)%nat | None => true end
               && nd = true -> Exists (fun c => p c = true) w)).
  { intros Hmd Hhi. apply Hm in Hmd as (y & w1 & Hd & Hr1 & Hn1).
    destruct ((lo =? 0)%nat && (length (rest y) =? length (rest x))%nat); [discriminate|].
    apply IH in Hd as (s' & w2 & Hk & Hr2 & _).
    exists s', (w1 ++ w2). split; [exact Hk|]. split; [eapply reaches_trans; eauto|].
    intros Hn. apply Exists_app. left. apply Hn1.
    apply andb_true_iff in Hn as [_ Hn]. exact Hn. }
  destruct hi as [[|h]|].
  - apply Hstop; auto.
  - destruct (lo =? 0)%nat eqn:Elo; simpl in H.
    + apply Nat.eqb_eq in Elo. destruct greedy; apply orelse_Some in H as [H | H];
        try (apply Hiter; [exact H | discriminate]); apply Hstop; auto.
    + apply Hiter; [exact H | discriminate].
  - destruct (lo =? 0)%nat eqn:Elo; simpl in H.
    + apply Nat.eqb_eq in Elo. destruct greedy; apply orelse_Some in H as [H | H];
        try (apply Hiter; [exact H | discriminate]); apply Hstop; auto.
    + apply Hiter; [exact H | discriminate].
Qed.

Lemma reaches_set_cap s s' w i v : reaches s s' w -> reaches s (set_cap i v s') w.
Proof. intros H. exact H. Qed.

Lemma rmatch_sound slack ic p r : sound p (needs ic p r) (rmatch slack ic r).
Proof.
  induction r as [ | cs | | a IHa b IHb | a IHa b IHb | g lo hi a IHa | i a IHa | | | | a IHa];
    intros k s res H.
  - simpl in H. exists s, []. split; [exact H|]. split; [apply reaches_refl | discriminate].
  - simpl in H. destruct (rest s) as [|c t] eqn:E; [discriminate|].
    destruct (charset_has ic cs c) eqn:Ec; [|discriminate].
    exists (advance c t s), [c]. split; [exact H|]. split; [apply reaches_advance, E|].
    intros Hn. constructor. eapply charset_within_sound; eauto.
  - simpl in H. destruct (rest s) as [|c t] eqn:E; [discriminate|].
    destruct (is_line_terminator c); [discriminate|].
    exists (advance c t s), [c]. split; [exact H|]. split; [apply reaches_advance, E|].
    discriminate.
  - simpl in H. apply IHa in H as (s1 & w1 & H & Hr1 & Hn1).
    apply IHb in H as (s2 & w2 & H & Hr2 & Hn2).
    exists s2, (w1 ++ w2). split; [exact H|]. split; [eapply reaches_trans; eauto|].
    simpl. intros Hn. apply Exists_app. apply orb_true_iff in Hn as [Hn | Hn]; auto.
  - simpl in H. simpl. apply orelse_Some in H as [H | H].
    + apply IHa in H as (s1 & w1 & H & Hr1 & Hn1). exists s1, w1.
      repeat split; try apply Hr1; auto. intros Hn. apply andb_true_iff in Hn as [Hn _]. auto.
    + apply IHb in H as (s1 & w1 & H & Hr1 & Hn1). exists s1, w1.
      repeat split; try apply Hr1; auto. intros Hn. apply andb_true_iff in Hn as [_ Hn]. auto.
  - exact (rep_loop_sound p (needs ic p a) _ g IHa _ k lo hi s res H).
  - simpl in H. apply IHa in H as (s1 & w1 & H & Hr1 & Hn1).
    exists (set_cap i (consumed s s1) s1), w1. auto.
  - simpl in H. destruct (before s); [|discriminate].
    exists s, []. split; [exact H|]. split; [apply reaches_refl | discriminate].
  - simpl in H. destruct (rest s); [|discriminate].
    exists s, []. split; [exact H|]. split; [apply reaches_refl | discriminate].
  - simpl in H. destruct (at_word_boundary s); [|discriminate].
    exists s, []. split; [exact H|]. split; [apply reaches_refl | discriminate].
  - simpl in H. destruct (rmatch slack ic a Some s); [discriminate|].
    exists s, []. split; [exact H|]. split; [apply reaches_refl | discriminate].
Qed.

Lemma exec_at_Some re p bef s len cs :
  exec_at re bef s = Some (len, cs) ->
  exists w t, s = w ++ t /\ len = length w /\
    (needs (ignoreCase re) p (source re) = true -> Exists (fun c => p c = true) w).
Proof.
  unfold exec_at.
  destruct (rmatch 0 (ignoreCase re) (source re) Some _) as [s'|] eqn:E; [|discriminate].
  intros [= <- <-].
  apply (rmatch_sound 0 (ignoreCase re) p) in E as (s1 & w & [= ->] & Hr & Hn).
  exists w, (rest s'). destruct Hr as [Hr _]. simpl in Hr.
  split; [exact Hr|]. split; [|exact Hn]. rewrite Hr, length_app. lia.
Qed.

Lemma exec_at_without re p bef s :
  needs (ignoreCase re) p (source re) = true ->
  Forall (fun c => p c = false) s -> exec_at re bef s = None.
Proof.
  intros Hn Hs. destruct (exec_at re bef s) as [[len cs]|] eqn:E; [|reflexivity].
  apply (exec_at_Some re p) in E as (w & t & -> & _ & Hw). exfalso.
  apply Forall_app in Hs as [Hs _]. apply Hw in Hn.
  apply Exists_exists in Hn as (c & Hc & Hp). rewrite Forall_forall in Hs.
  rewrite Hs in Hp by exact Hc. discriminate.
Qed.

Lemma no_match_tail re bef c t : no_match re bef (c :: t) -> no_match re (c :: bef) t.
Proof.
  intros H pre t' ->. specialize (H (c :: pre) t' eq_refl). simpl in H.
  rewrite <- app_assoc in H. exact H.
Qed.

Lemma no_match_head re bef s : no_match re bef s -> exec_at re bef s = None.
Proof. intros H. exact (H [] s eq_refl). Qed.

Lemma replace_from_no_match re tpl s : forall bef,
  no_match re bef s -> replace_from re tpl bef s 0 = s.
Proof.
  induction s as [|c t IH]; intros bef H; simpl; rewrite (no_match_head _ _ _ H); [reflexivity|].
  rewrite IH by (apply no_match_tail, H). reflexivity.
Qed.

Lemma test_from_false re s : forall bef, test_from re bef s = false -> no_match re bef s.
Proof.
  induction s as [|c t IH]; intros bef H; simpl in H.
  - destruct (exec_at re bef []) eqn:E; [discriminate|].
    intros pre t' Heq. symmetry in Heq. apply app_eq_nil in Heq as [-> ->]. exact E.
  - destruct (exec_at re bef (c :: t)) eqn:E; [discriminate|].
    intros [|c' pre] t' Heq; simpl in Heq.
    + subst t'. exact E.
    + injection Heq as <- ->. simpl. rewrite <- app_assoc. apply (IH (c :: bef) H). reflexivity.
Qed.

Lemma match_from_nil re s : forall bef, match_from re bef s 0 = [] -> no_match re bef s.
Proof.
  induction s as [|c t IH]; intros bef H; simpl in H.
  - destruct (exec_at re bef []) as [[len cs]|] eqn:E; [discriminate|].
    intros pre t' Heq. symmetry in Heq. apply app_eq_nil in Heq as [-> ->]. exact E.
  - destruct (exec_at re bef (c :: t)) as [[len cs]|] eqn:E; [discriminate|].
    intros [|c' pre] t' Heq; simpl in Heq.
    + subst t'. exact E.
    + injection Heq as <- ->. simpl. rewrite <- app_assoc. apply (IH (c :: bef) H). reflexivity.
Qed.

Lemma test_false_replace re tpl s : test re s = false -> replace re tpl s = s.
Proof. intros H. apply replace_from_no_match, test_from_false, H. Qed.

Lemma match_all_None_replace re tpl s : match_all re s = None -> replace re tpl s = s.
Proof.
  unfold match_all. intros H. apply replace_from_no_match, match_from_nil.
  destruct (match_from re [] s 0); [reflexivity | discriminate].
Qed.

(** ** The sanitizer as a chain of replacements *)

Import Sanitizer.

Lemma strip_logged_fst re t s acc : fst (strip_logged re t (s, acc)) = replace re [Txt (str t)] s.
Proof.
  unfold strip_logged. simpl. destruct (match_all re s) eqn:E; simpl; [reflexivity|].
  symmetry. apply match_all_None_replace, E.
Qed.

Lemma strip_flagged_fst re t s acc : fst (strip_flagged re t (s, acc)) = replace re [Txt (str t)] s.
Proof.
  unfold strip_flagged. simpl. destruct (test re s) eqn:E; simpl; [reflexivity|].
  symmetry. apply test_false_replace, E.
Qed.

Lemma sanitizedContent_passes x :
  sanitizedContent (sanitizeContent x) = run_passes CONTENT_PASSES x.
Proof.
  unfold sanitizeContent.
  repeat match goal with
         | |- context [let '(a, b) := ?e in _] =>
             rewrite (surjective_pairing e)
         end.
  cbn [sanitizedContent].
  repeat match goal with
         | |- context [fst (strip_flagged ?re ?t ?p)] =>
             rewrite (surjective_pairing p) at 1; rewrite strip_flagged_fst
         | |- context [fst (strip_logged ?re ?t ?p)] =>
             rewrite (surjective_pairing p) at 1; rewrite strip_logged_fst
         end.
  reflexivity.
Qed.

Lemma convertToHtml_passes x : convertToHtml x = run_passes HTML_PASSES x.
Proof. reflexivity. Qed.

Lemma sanitize_html_passes x :
  sanitize_html x = run_passes (CONTENT_PASSES ++ HTML_PASSES) x.
Proof.
  unfold sanitize_html, run_passes. rewrite fold_left_app.
  rewrite sanitizedContent_passes, convertToHtml_passes. reflexivity.
Qed.

(** ** Idempotence of the sanitizer *)

Lemma replace_plain re tpl s :
  needs (ignoreCase re) trigger (source re) = true -> plain s -> replace re tpl s = s.
Proof.
  intros Hn Hs. apply replace_from_no_match. intros pre t ->.
  apply Forall_app in Hs as [_ Ht]. exact (exec_at_without re trigger _ t Hn Ht).
Qed.

Lemma run_passes_plain passes s :
  forallb (fun pass => needs (ignoreCase (fst pass)) trigger (source (fst pass))) passes = true ->
  plain s -> run_passes passes s = s.
Proof.
  unfold run_passes. induction passes as [|[re tpl] passes IH]; simpl; intros H Hs; [reflexivity|].
  apply andb_true_iff in H as [H1 H2]. rewrite (replace_plain re tpl s H1 Hs). exact (IH H2 Hs).
Qed.

Lemma sanitize_html_plain x : plain x -> sanitize_html x = x.
Proof.
  intros H. rewrite sanitize_html_passes. apply run_passes_plain; [|exact H].
  vm_compute. reflexivity.
Qed.

Lemma run_passes_unmatched passes y :
  forallb (fun pass => negb (test (fst pass) y)) passes = true -> run_passes passes y = y.
Proof.
  unfold run_passes. induction passes as [|[re tpl] passes IH]; simpl; intros H; [reflexivity|].
  apply andb_true_iff in H as [H1 H2]. apply negb_true_iff in H1.
  rewrite (test_false_replace re tpl y H1). exact (IH H2).
Qed.

Lemma sanitize_html_unmatched y : unmatched y = true -> sanitize_html y = y.
Proof. intros H. rewrite sanitize_html_passes. apply run_passes_unmatched, H. Qed.

(** The pipeline is idempotent on the inputs of these two lemmas and on the
    lines of markdown; the theorem is at the end of the development, after
    the lemmas on the matcher it needs. *)

(** C7 as stated fails, in more than one way.
    (1) The link the first application builds around an URL contains the URL
    twice, and the second application links both again.
    (2) [.] does not match a line feed: markers on two lines are no pair for
    the first application, which then turns the line feed into [<br>]; for
    the second they are a pair.
    (3) A pass can make room for an earlier one: the address is followed by
    a digit and is no match of [\b...\b] until the telephone number after it
    is redacted; the second application redacts the address. *)
Lemma sanitize_html_not_idempotent :
  (let x := str "http://a.b" in
   sanitize_html (sanitize_html x) <> sanitize_html x) /\
  (let x := str "*a" ++ [10] ++ str "*b" in
   sanitize_html x = str "*a<br>*b" /\
   sanitize_html (sanitize_html x) = str "<em>a<br></em>b") /\
  (let x := str "a@b.co5551234567" in
   sanitize_html x = str "a@b.co[Phone Redacted]" /\
   sanitize_html (sanitize_html x) = str "[Email Redacted][Phone Redacted]").
Proof.
  split; [intros x H; vm_compute in H; discriminate|].
  split; (split; vm_compute; reflexivity).
Qed.

(** ** What the sanitizer removes *)

Import Re Sanitizer.

Lemma occurs_app_l P u v : occurs P u -> occurs P (u ++ v).
Proof.
  intros (pre & m & post & -> & H). exists pre, m, (post ++ v).
  split; [|exact H]. rewrite <- !app_assoc. reflexivity.
Qed.

Lemma occurs_app_r P u v : occurs P v -> occurs P (u ++ v).
Proof.
  intros (pre & m & post & -> & H). exists (u ++ pre), m, post.
  split; [|exact H]. rewrite <- !app_assoc. reflexivity.
Qed.

(** *** Captures are substrings of the input *)

Lemma caps_in_advance W x c t : caps_in W x -> rest x = c :: t -> caps_in W (advance c t x).
Proof.
  intros [Hw Hc] Hx. split; [|exact Hc]. unfold whole in *. simpl.
  rewrite <- Hw, Hx, <- app_assoc. reflexivity.
Qed.

Lemma caps_in_set_cap W x y i : caps_in W y -> caps_in W (set_cap i (consumed x y) y).
Proof.
  intros [Hw Hc]. split; [exact Hw|]. simpl. constructor; [|exact Hc]. simpl.
  unfold consumed. set (n := (length (before y) - length (before x))%nat).
  exists (rev (skipn n (before y))), (rest y).
  rewrite <- Hw. unfold whole. rewrite <- (firstn_skipn n (before y)) at 1.
  rewrite rev_app_distr, <- app_assoc. reflexivity.
Qed.

Lemma rep_loop_caps m greedy :
  keeps_caps m ->
  forall fuel W k lo hi x res,
    caps_in W x -> rep_loop m k greedy fuel lo hi x = Some res ->
    exists y, caps_in W y /\ k y = Some res.
Proof.
  intros Hm. induction fuel as [|fuel IH]; intros W k lo hi x res Hx H; simpl in H;
    [discriminate|].
  assert (Hiter : m (fun y =>
              if (lo =? 0)%nat && (length (rest y) =? length (rest x))%nat then None
              else rep_loop m k greedy fuel (Nat.pred lo) (option_map Nat.pred hi) y) x
            = Some res -> exists y, caps_in W y /\ k y = Some res).
  { intros Hmd. apply (Hm W) in Hmd as (y & Hy & Hd); [|exact Hx].
    destruct ((lo =? 0)%nat && (length (rest y) =? length (rest x))%nat); [discriminate|].
    exact (IH _ _ _ _ _ _ Hy Hd). }
  destruct hi as [[|h]|]; [eauto | |];
    (destruct (lo =? 0)%nat; simpl in H;
     [destruct greedy; apply orelse_Some in H as [H | H]; eauto | eauto]).
Qed.

Lemma rmatch_caps slack ic r : keeps_caps (rmatch slack ic r).
Proof.
  induction r as [ | cs | | a IHa b IHb | a IHa b IHb | g lo hi a IHa | i a IHa | | | | a IHa];
    intros W k x res Hx H.
  - eauto.
  - simpl in H. destruct (rest x) as [|c t] eqn:E; [discriminate|].
    destruct (charset_has ic cs c); [|discriminate]. eauto using caps_in_advance.
  - simpl in H. destruct (rest x) as [|c t] eqn:E; [discriminate|].
    destruct (is_line_terminator c); [discriminate|]. eauto using caps_in_advance.
  - simpl in H. apply (IHa W) in H as (y & Hy & H); [|exact Hx]. exact (IHb W _ _ _ Hy H).
  - simpl in H. apply orelse_Some in H as [H | H]; eauto.
  - exact (rep_loop_caps _ g IHa _ W k lo hi x res Hx H).
  - simpl in H. apply (IHa W) in H as (y & Hy & H); [|exact Hx].
    eauto using caps_in_set_cap.
  - simpl in H. destruct (before x); [eauto | discriminate].
  - simpl in H. destruct (rest x); [eauto | discriminate].
  - simpl in H. destruct (at_word_boundary x); [eauto | discriminate].
  - simpl in H. destruct (rmatch slack ic a Some x); [discriminate | eauto].
Qed.

Lemma exec_at_caps re bef s len cs i :
  exec_at re bef s = Some (len, cs) -> factor_of (get_cap i cs) (rev bef ++ s).
Proof.
  unfold exec_at.
  destruct (rmatch 0 (ignoreCase re) (source re) Some _) as [s'|] eqn:E; [|discriminate].
  intros [= _ <-].
  apply (rmatch_caps 0 (ignoreCase re) (source re) (rev bef ++ s)) in E
    as (y & [_ Hy] & [= ->]); [|split; [reflexivity | constructor]].
  induction Hy as [|[j v] cs' Hv _ IH]; simpl.
  - exists (rev bef ++ s), []. rewrite !app_nil_r. reflexivity.
  - destruct (i =? j)%nat; [exact Hv | exact IH].
Qed.

Lemma occurs_factor P v s : factor_of v s -> occurs P v -> occurs P s.
Proof. intros (pre & post & ->) H. apply occurs_app_r, occurs_app_l, H. Qed.

Section Shape.
#[local] Unset Default Proof Using.
Context (P : jsstring -> Prop) (sig firstc lastc : N -> bool).
Hypothesis P_sig : forall m, P m -> Forall (fun c => sig c = true) m.
Hypothesis P_first : forall m, P m -> exists c t, m = c :: t /\ firstc c = true.
Hypothesis P_last : forall m, P m -> exists t c, m = t ++ [c] /\ lastc c = true.

Lemma occurs_nil : ~ occurs P [].
Proof.
  intros (pre & m & post & H & Hm). destruct (P_first m Hm) as (c & t & -> & _).
  destruct pre; discriminate.
Qed.

Lemma occurs_left u r1 :
  forallb (fun c => negb (lastc c)) r1 = true -> occurs P (u ++ r1) -> occurs P u.
Proof.
  intros Hr (pre & m & post & H & Hm).
  destruct (P_last m Hm) as (t & c & -> & Hc).
  apply app_eq_app in H as [l [[H1 H2] | [H1 H2]]].
  - (* u = pre ++ l *)
    symmetry in H2. apply app_eq_app in H2 as [l' [[H3 H4] | [H3 H4]]].
    + (* l = (t ++ [c]) ++ l' : the occurrence lies in u *)
      exists pre, (t ++ [c]), l'. subst. split; [reflexivity | exact Hm].
    + (* t ++ [c] = l ++ l', r1 = l' ++ post *)
      destruct l' as [|x l'] using rev_ind.
      * rewrite app_nil_r in H3. subst. exists pre, (t ++ [c]), [].
        rewrite app_nil_r. split; [reflexivity | exact Hm].
      * clear IHl'. rewrite app_assoc in H3. apply app_inj_tail in H3 as [_ <-].
        rewrite forallb_forall in Hr. exfalso.
        assert (Hin : In c r1) by (rewrite H4; apply in_or_app; left; apply in_or_app; right; left; reflexivity).
        apply Hr in Hin. rewrite Hc in Hin. discriminate.
  - (* pre = u ++ l, r1 = l ++ (t ++ [c]) ++ post *)
    rewrite forallb_forall in Hr. exfalso.
    assert (Hin : In c r1).
    { rewrite H2. apply in_or_app. right. apply in_or_app. left. apply in_or_app. right.
      left. reflexivity. }
    apply Hr in Hin. rewrite Hc in Hin. discriminate.
Qed.

Lemma occurs_right r2 v :
  forallb (fun c => negb (firstc c)) r2 = true -> occurs P (r2 ++ v) -> occurs P v.
Proof.
  intros Hr (pre & m & post & H & Hm).
  destruct (P_first m Hm) as (c & t & -> & Hc).
  apply app_eq_app in H as [l [[H1 H2] | [H1 H2]]].
  - (* r2 = pre ++ l, l ++ v = (c :: t) ++ post *)
    destruct l as [|x l].
    + simpl in H2. exists [], (c :: t), post. split; [symmetry; exact H2 | exact Hm].
    + injection H2 as Hx H2. subst x. rewrite forallb_forall in Hr. exfalso.
      assert (Hin : In c r2) by (rewrite H1; apply in_or_app; right; left; reflexivity).
      apply Hr in Hin. rewrite Hc in Hin. discriminate.
  - (* pre = r2 ++ l, v = l ++ (c :: t) ++ post *)
    exists l, (c :: t), post. split; [exact H2 | exact Hm].
Qed.

Lemma occurs_barrier u b v :
  sig b = false -> occurs P (u ++ b :: v) -> occurs P u \/ occurs P v.
Proof.
  intros Hb (pre & m & post & H & Hm).
  assert (Hnb : ~ In b m).
  { intros Hin. apply P_sig in Hm. rewrite Forall_forall in Hm.
    rewrite Hm in Hb by (apply list_elem_of_In; exact Hin). discriminate. }
  apply app_eq_app in H as [l [[H1 H2] | [H1 H2]]].
  - (* u = pre ++ l, l ++ b :: v = m ++ post *)
    symmetry in H2. apply app_eq_app in H2 as [l' [[H3 H4] | [H3 H4]]].
    + (* l = m ++ l' *)
      left. exists pre, m, l'. subst. split; [reflexivity | exact Hm].
    + (* m = l ++ l', b :: v = l' ++ post *)
      destruct l' as [|x l'].
      * left. rewrite app_nil_r in H3. subst. exists pre, l, []. rewrite app_nil_r.
        split; [reflexivity | exact Hm].
      * injection H4 as <- _. exfalso. apply Hnb. rewrite H3. apply in_or_app. right. left.
        reflexivity.
  - (* pre = u ++ l, b :: v = l ++ m ++ post *)
    destruct l as [|x l].
    + simpl in H2. destruct m as [|y m].
      * destruct (P_first [] Hm) as (? & ? & ? & _). discriminate.
      * injection H2 as <- _. exfalso. apply Hnb. left. reflexivity.
    + injection H2 as _ ->. right. exists l, m, post. split; [reflexivity | exact Hm].
Qed.

Lemma occurs_glue_chunk u rep v :
  good_chunk sig firstc lastc rep = true -> occurs P (u ++ rep ++ v) -> occurs P u \/ occurs P v.
Proof.
  unfold good_chunk. intros Hg H. apply existsb_exists in Hg as (i & _ & Hi).
  destruct (rep !! i) as [b|] eqn:Eb; [|discriminate].
  apply andb_true_iff in Hi as [Hi H2]. apply andb_true_iff in Hi as [Hb H1].
  apply negb_true_iff in Hb.
  rewrite <- (take_drop_middle rep i b Eb) in H.
  replace (u ++ (take i rep ++ b :: drop (S i) rep) ++ v)
    with ((u ++ take i rep) ++ b :: (drop (S i) rep ++ v)) in H
    by (rewrite <- !app_assoc; reflexivity).
  apply occurs_barrier in H as [H | H]; [| |exact Hb].
  - left. exact (occurs_left _ _ H1 H).
  - right. exact (occurs_right _ _ H2 H).
Qed.

Lemma occurs_glue_cut n : forall u rep v,
  good_cut sig firstc lastc n rep = true -> occurs P (u ++ rep ++ v) -> occurs P u \/ occurs P v.
Proof.
  induction n as [|n IH]; intros u rep v Hg H; [discriminate|].
  cbn [good_cut] in Hg.
  destruct (find _ (rev (seq 0 (length rep)))) as [k|] eqn:Ek; [|discriminate].
  apply find_some in Ek as [_ Hc].
  rewrite <- (firstn_skipn (S k) rep), <- app_assoc in H.
  apply occurs_glue_chunk in H as [H | H]; [left; exact H | | exact Hc].
  destruct (S k =? length rep)%nat eqn:Hlen.
  - apply Nat.eqb_eq in Hlen. rewrite skipn_all2 in H by lia. right. exact H.
  - apply (IH []) in H as [H | H]; [contradiction occurs_nil | right; exact H | exact Hg].
Qed.

Lemma occurs_glue u rep v :
  good_text sig firstc lastc rep = true -> occurs P (u ++ rep ++ v) -> occurs P u \/ occurs P v.
Proof. apply occurs_glue_cut. Qed.

(** Neither does a good template, given captures without an occurrence. *)
Lemma occurs_expand cs :
  (forall i, ~ occurs P (get_cap i cs)) ->
  forall n tpl u v,
    (length tpl <= n)%nat -> good_tpl sig firstc lastc tpl = true ->
    occurs P (u ++ expand tpl cs ++ v) -> occurs P u \/ occurs P v.
Proof.
  intros Hcs. induction n as [|n IH]; intros tpl u v Hn Hg H.
  - destruct tpl; [discriminate | simpl in Hn; lia].
  - destruct tpl as [|[a|] [|[|i] tl]]; try discriminate.
    + unfold expand in H. simpl in H, Hg. rewrite app_nil_r in H.
      exact (occurs_glue u a v Hg H).
    + simpl in Hg. apply andb_true_iff in Hg as [Ha Hg].
      change (expand (Txt a :: Ref i :: tl) cs) with (a ++ get_cap i cs ++ expand tl cs) in H.
      rewrite <- !app_assoc in H.
      apply occurs_glue in H as [H | H]; [left; exact H | | exact Ha].
      apply (IH tl) in H as [H | H]; [contradiction (Hcs i) | right; exact H | | exact Hg].
      simpl in Hn. lia.
Qed.

(** A replacement by a good template brings no occurrence in. *)
Lemma replace_from_keeps re tpl :
  good_tpl sig firstc lastc tpl = true ->
  forall s,
    (forall u bef, ~ occurs P (rev bef ++ s) -> ~ occurs P (u ++ s) ->
                   ~ occurs P (u ++ replace_from re tpl bef s 0)) /\
    (forall n bef, ~ occurs P (rev bef ++ s) -> ~ occurs P (replace_from re tpl bef s (S n))).
Proof.
  intros Hg.
  assert (Hexp : forall bef s len cs u v,
            exec_at re bef s = Some (len, cs) -> ~ occurs P (rev bef ++ s) ->
            occurs P (u ++ expand tpl cs ++ v) -> occurs P u \/ occurs P v).
  { intros bef s len cs u v E Hs. apply (occurs_expand cs) with (n := length tpl); auto.
    intros i Hi. apply Hs. eapply occurs_factor; [|exact Hi]. eapply exec_at_caps, E. }
  induction s as [|c t [IH1 IH2]].
  - split; [|intros n bef _; exact occurs_nil].
    intros u bef Hs Hu. simpl. destruct (exec_at re bef []) as [[len cs]|] eqn:E.
    + intros H. apply (Hexp _ _ _ _ _ _ E Hs) in H as [H | H]; [|contradiction occurs_nil].
      apply Hu, occurs_app_l, H.
    + exact Hu.
  - assert (Hshift : forall bef, ~ occurs P (rev bef ++ c :: t) ->
              ~ occurs P (rev (c :: bef) ++ t)).
    { intros bef Hs. simpl. rewrite <- app_assoc. exact Hs. }
    assert (Htail : forall bef, ~ occurs P (rev bef ++ c :: t) -> ~ occurs P t).
    { intros bef Hs H. apply Hs. apply occurs_app_r. exact (occurs_app_r P [c] t H). }
    assert (Hskip : forall n bef, ~ occurs P (rev bef ++ c :: t) ->
              ~ occurs P (replace_from re tpl (c :: bef) t n)).
    { intros [|n] bef Hs; [|exact (IH2 n _ (Hshift _ Hs))].
      exact (IH1 [] _ (Hshift _ Hs) (Htail _ Hs)). }
    split; [|intros n bef Hs; simpl; apply Hskip, Hs].
    intros u bef Hs Hu. simpl. destruct (exec_at re bef (c :: t)) as [[len cs]|] eqn:E.
    + intros H. apply (Hexp _ _ _ _ _ _ E Hs) in H as [H | H].
      * apply Hu, occurs_app_l, H.
      * destruct len as [|n].
        -- revert H. apply (IH1 [c] _ (Hshift _ Hs)). intros H.
           apply (Hs). apply occurs_app_r. exact H.
        -- exact (Hskip _ _ Hs H).
    + replace (u ++ c :: replace_from re tpl (c :: bef) t 0)
        with ((u ++ [c]) ++ replace_from re tpl (c :: bef) t 0)
        by (rewrite <- app_assoc; reflexivity).
      apply (IH1 _ _ (Hshift _ Hs)). rewrite <- app_assoc. exact Hu.
Qed.

Lemma replace_keeps re tpl s :
  good_tpl sig firstc lastc tpl = true ->
  ~ occurs P s -> ~ occurs P (replace re tpl s).
Proof. intros Hg Hs. exact (proj1 (replace_from_keeps re tpl Hg s) [] [] Hs Hs). Qed.

Lemma run_passes_keeps passes s :
  good_passes sig firstc lastc passes = true -> ~ occurs P s -> ~ occurs P (run_passes passes s).
Proof.
  unfold run_passes. revert s.
  induction passes as [|[re tpl] passes IH]; simpl; intros s Hg Hs; [exact Hs|].
  apply andb_true_iff in Hg as [H1 H2].
  apply IH; [exact H2|]. apply replace_keeps; assumption.
Qed.

(** The pass of a pattern that finds every [P]: nothing of the shape is left. *)
Section Clears.
Context (re : RegExp).
Hypothesis finds : forall bef m t, P m -> exec_at re bef (m ++ t) <> None.
Hypothesis not_empty : forall bef s cs, exec_at re bef s <> Some (0%nat, cs).

Lemma clean_before_pfree u s : clean_before P u s -> ~ occurs P u.
Proof.
  intros H (pre & m & post & Hu & Hm).
  specialize (H pre m (post ++ s)).
  assert (Hlen : (length u <= length pre)%nat).
  { apply H; [|exact Hm]. rewrite Hu, <- !app_assoc. reflexivity. }
  destruct (P_first m Hm) as (c & t & -> & _).
  rewrite Hu, !length_app in Hlen. simpl in Hlen. lia.
Qed.

Lemma clean_before_step u c t bef :
  clean_before P u (c :: t) -> exec_at re bef (c :: t) = None -> clean_before P (u ++ [c]) t.
Proof.
  intros H He pre m post Heq Hm.
  rewrite <- app_assoc in Heq. simpl in Heq.
  pose proof (H pre m post Heq Hm) as Hlen.
  rewrite length_app. simpl.
  destruct (decide (length pre = length u)) as [Hl | Hl]; [|lia].
  exfalso. apply app_inj_1 in Heq as [_ Heq]; [|symmetry; exact Hl].
  apply (finds bef m post Hm). rewrite <- Heq. exact He.
Qed.

Lemma replace_from_clears rep :
  good_text sig firstc lastc rep = true ->
  forall s,
    (forall u bef, clean_before P u s -> ~ occurs P (u ++ replace_from re [Txt rep] bef s 0)) /\
    (forall n bef, ~ occurs P (replace_from re [Txt rep] bef s (S n))).
Proof.
  intros Hg. induction s as [|c t [IH1 IH2]].
  - split; [|intros n bef; exact occurs_nil].
    intros u bef Hu. apply clean_before_pfree in Hu.
    simpl. destruct (exec_at re bef []) as [[len cs]|].
    + unfold expand. simpl. rewrite app_nil_r. intros H.
      apply occurs_glue in H as [H | H]; [contradiction|contradiction occurs_nil|exact Hg].
    + rewrite app_nil_r. exact Hu.
  - assert (Hnil : forall s, clean_before P [] s) by (intros s pre m post _ _; simpl; lia).
    assert (Hskip : forall n bef, ~ occurs P (replace_from re [Txt rep] bef t n)).
    { intros [|n] bef; [exact (IH1 [] bef (Hnil t)) | exact (IH2 n bef)]. }
    split; [|intros n bef; simpl; apply Hskip].
    intros u bef Hu. simpl. destruct (exec_at re bef (c :: t)) as [[len cs]|] eqn:E.
    + destruct len as [|n]; [contradiction (not_empty _ _ _ E)|].
      unfold expand. simpl. rewrite app_nil_r. intros H.
      apply occurs_glue in H as [H | H]; [| |exact Hg].
      * exact (clean_before_pfree _ _ Hu H).
      * exact (Hskip _ _ H).
    + replace (u ++ c :: replace_from re [Txt rep] (c :: bef) t 0)
        with ((u ++ [c]) ++ replace_from re [Txt rep] (c :: bef) t 0)
        by (rewrite <- app_assoc; reflexivity).
      apply IH1. eapply clean_before_step; eauto.
Qed.

Lemma replace_clears rep s :
  good_text sig firstc lastc rep = true -> ~ occurs P (replace re [Txt rep] s).
Proof.
  intros Hg. apply (proj1 (replace_from_clears rep Hg s) [] []).
  intros pre m post _ _. simpl. lia.
Qed.

(** A chain of passes in which the pattern's own pass is followed by good
    texts only. *)
Lemma run_passes_clears before rep after s :
  good_text sig firstc lastc rep = true -> good_passes sig firstc lastc after = true ->
  ~ occurs P (run_passes (before ++ (re, [Txt rep]) :: after) s).
Proof.
  intros Hg Ha. unfold run_passes. rewrite fold_left_app. simpl.
  apply run_passes_keeps; [exact Ha|]. apply replace_clears, Hg.
Qed.

(** So it is with more passes after the chain, when their templates are
    good as well. *)
Lemma run_passes_clears_both before rep after more s :
  good_text sig firstc lastc rep = true ->
  good_passes sig firstc lastc (after ++ more) = true ->
  ~ occurs P (run_passes (before ++ (re, [Txt rep]) :: after) s) /\
  ~ occurs P (run_passes ((before ++ (re, [Txt rep]) :: after) ++ more) s).
Proof.
  intros Hg Ha. split.
  - apply run_passes_clears; [exact Hg|]. unfold good_passes in *.
    rewrite forallb_app in Ha. apply andb_true_iff in Ha as [Ha _]. exact Ha.
  - rewrite <- app_assoc. simpl. apply run_passes_clears; assumption.
Qed.

End Clears.
End Shape.

(** *** The patterns find what they describe *)

Lemma run_state_nil x : run_state [] x (rest x) = x.
Proof. destruct x. reflexivity. Qed.

Lemma run_state_cons c w x t u :
  run_state w (advance c u x) t = run_state (c :: w) x t.
Proof. unfold run_state, advance. simpl. rewrite <- app_assoc. reflexivity. Qed.

Lemma rmatch_Chr_step slack ic cs k x c t :
  rest x = c :: t -> charset_has ic cs c = true ->
  rmatch slack ic (Chr cs) k x = k (advance c t x).
Proof. intros Hx Hc. simpl. rewrite Hx, Hc. reflexivity. Qed.

Lemma rmatch_Chr_stop slack ic cs k x :
  match rest x with [] => True | c :: _ => charset_has ic cs c = false end ->
  rmatch slack ic (Chr cs) k x = None.
Proof. intros Hx. simpl. destruct (rest x); [reflexivity|]. rewrite Hx. reflexivity. Qed.

Lemma rep_loop_S m k greedy fuel lo hi x :
  rep_loop m k greedy (S fuel) lo hi x =
  match hi with
  | Some O => k x
  | _ =>
      let d := fun y =>
        if (lo =? 0)%nat && (length (rest y) =? length (rest x))%nat
        then None
        else rep_loop m k greedy fuel (Nat.pred lo) (option_map Nat.pred hi) y in
      if negb (lo =? 0)%nat then m d x
      else if greedy then orelse (m d x) (k x)
      else orelse (k x) (m d x)
  end.
Proof. reflexivity. Qed.

(** A greedy quantifier over one class, at the start of a maximal run [ds]
    of the class whose length the quantifier allows: the whole run is taken
    first, so the match is what the continuation finds after it. *)
Lemma rep_loop_run slack ic cs k ds :
  forall fuel lo hi x tl res,
    rest x = ds ++ tl ->
    Forall (fun c => charset_has ic cs c = true) ds ->
    match tl with [] => True | c :: _ => charset_has ic cs c = false end ->
    (lo <= length ds)%nat ->
    match hi with Some h => (length ds <= h)%nat | None => True end ->
    (length ds < fuel)%nat ->
    k (run_state ds x tl) = Some res ->
    rep_loop (rmatch slack ic (Chr cs)) k true fuel lo hi x = Some res.
Proof.
  induction ds as [|c ds IH]; intros fuel lo hi x tl res Hx Hds Htl Hlo Hhi Hfuel Hk.
  - simpl in Hx, Hlo. assert (lo = 0%nat) as -> by lia.
    rewrite <- Hx, run_state_nil in Hk.
    destruct fuel as [|fuel]; [simpl in Hfuel; lia|]. rewrite rep_loop_S.
    assert (Hstop : forall d, rmatch slack ic (Chr cs) d x = None).
    { intros d. apply rmatch_Chr_stop. rewrite Hx. exact Htl. }
    destruct hi as [[|h]|]; [exact Hk | |]; cbv zeta; simpl negb; cbv iota;
      rewrite Hstop; exact Hk.
  - simpl in Hx, Hlo, Hhi, Hfuel. apply Forall_cons in Hds as [Hc Hds].
    destruct fuel as [|fuel]; [lia|]. rewrite rep_loop_S.
    assert (Hnext : rep_loop (rmatch slack ic (Chr cs)) k true fuel (Nat.pred lo)
                      (option_map Nat.pred hi) (advance c (ds ++ tl) x) = Some res).
    { apply (IH _ _ _ _ tl); [reflexivity | exact Hds | exact Htl | lia | | lia |].
      - destruct hi as [h|]; simpl; [lia | exact I].
      - rewrite run_state_cons. exact Hk. }
    assert (Hlen : (length (ds ++ tl) =? length (rest x))%nat = false).
    { apply Nat.eqb_neq. rewrite Hx. simpl. lia. }
    destruct hi as [[|h]|]; [lia | |]; cbv zeta;
      rewrite (rmatch_Chr_step _ _ _ _ _ c (ds ++ tl) Hx Hc);
      cbn [advance rest]; rewrite Hlen, andb_false_r, Hnext;
      destruct (negb (lo =? 0)%nat); reflexivity.
Qed.

(** A literal text, letter by letter. *)
Lemma rmatch_lit_run slack ic k pat m :
  Forall2 (fun c a => charset_has ic {| negated := false; items := [Lit a] |} c = true) m pat ->
  forall x t, rest x = m ++ t ->
    rmatch slack ic
      (fold_right (fun c r => Seq (Chr {| negated := false; items := [Lit c] |}) r) Eps pat) k x
    = k (run_state m x t).
Proof.
  induction 1 as [|c a m pat Hc _ IH]; intros x t Hx.
  - simpl in Hx. rewrite <- Hx, run_state_nil. reflexivity.
  - cbn [fold_right rmatch]. cbn [rmatch] in IH. simpl in Hx. rewrite Hx, Hc.
    rewrite (IH _ t) by reflexivity. rewrite run_state_cons. reflexivity.
Qed.

Lemma exec_at_not_empty re p :
  needs (ignoreCase re) p (source re) = true ->
  forall bef s cs, exec_at re bef s <> Some (0%nat, cs).
Proof.
  intros Hn bef s cs H. apply (exec_at_Some re p) in H as (w & t & _ & Hlen & Hw).
  specialize (Hw Hn). destruct w; [|discriminate]. inversion Hw.
Qed.

Lemma exec_at_found re bef s :
  (exists res, rmatch 0 (ignoreCase re) (source re) Some
                 {| before := bef; rest := s; caps := [] |} = Some res) ->
  exec_at re bef s <> None.
Proof. intros [res H]. unfold exec_at. rewrite H. discriminate. Qed.

(** *** Shapes *)

Lemma digit_in_class c :
  is_digit c = true -> charset_has false {| negated := false; items := [Digit] |} c = true.
Proof. intros H. unfold charset_has. simpl. rewrite H. reflexivity. Qed.

Lemma digit_not_lit c a :
  is_digit c = true -> is_digit a = false ->
  charset_has false {| negated := false; items := [Lit a] |} c = false.
Proof.
  intros Hc Ha. unfold charset_has. simpl.
  destruct (c =? a) eqn:E; [|reflexivity]. apply N.eqb_eq in E. congruence.
Qed.

(** The tail all three mention patterns share: the captured id and [>]. *)
Lemma id_tail_found ds t x :
  snowflake ds -> rest x = ds ++ str ">" ++ t ->
  exists res,
    rmatch 0 false (Seq (Cap 1 (between 17 19 (cls [Digit]))) (one ">")) Some x = Some res.
Proof.
  intros [Hd Hlen] Hx. eexists. cbn [rmatch between cls].
  eapply (rep_loop_run 0 false _ _ ds); [exact Hx | | | lia | simpl; lia | rewrite Hx, length_app; lia |].
  - eapply Forall_impl; [exact Hd|]. intros c. apply digit_in_class.
  - reflexivity.
  - cbv beta delta [one]. erewrite rmatch_Chr_step; [reflexivity | reflexivity | reflexivity].
Qed.

Lemma rmatch_Seq_Chr slack ic cs b k x c t :
  rest x = c :: t -> charset_has ic cs c = true ->
  rmatch slack ic (Seq (Chr cs) b) k x = rmatch slack ic b k (advance c t x).
Proof. intros Hx Hc. simpl. rewrite Hx, Hc. reflexivity. Qed.

Lemma opt_run slack ic a b k x bang tl :
  rest x = bang ++ tl ->
  Forall (fun c => charset_has ic {| negated := false; items := [Lit a] |} c = true) bang ->
  (length bang <= 1)%nat ->
  match tl with
  | [] => True
  | c :: _ => charset_has ic {| negated := false; items := [Lit a] |} c = false
  end ->
  (exists res, rmatch slack ic b k (run_state bang x tl) = Some res) ->
  exists res,
    rmatch slack ic (Seq (opt (Chr {| negated := false; items := [Lit a] |})) b) k x = Some res.
Proof.
  intros Hx Hb Hlen Htl [res Hres]. exists res. cbn [rmatch opt].
  eapply (rep_loop_run slack ic _ _ bang); eauto; try lia.
  rewrite Hx, length_app. lia.
Qed.

Lemma user_mention_found bef m t :
  is_user_mention m -> exec_at DISCORD_USER_MENTION bef (m ++ t) <> None.
Proof.
  intros [(ds & Hs & ->) | (ds & Hs & ->)]; apply exec_at_found;
    unfold DISCORD_USER_MENTION; cbn [source ignoreCase seqs]; unfold one at 1 2 3;
    simpl app; rewrite <- app_assoc;
    pose proof Hs as [Hd Hlen]; destruct ds as [|d1 ds']; try (simpl in Hlen; lia);
    apply Forall_cons in Hd as [Hd1 _].
  - erewrite !rmatch_Seq_Chr by reflexivity.
    apply (opt_run _ _ _ _ _ _ [] ((d1 :: ds') ++ str ">" ++ t)); [reflexivity | constructor | simpl; lia | | ].
    + simpl. apply digit_not_lit; [exact Hd1 | reflexivity].
    + eapply id_tail_found; [exact Hs | reflexivity].
  - erewrite !rmatch_Seq_Chr by reflexivity.
    apply (opt_run _ _ _ _ _ _ [ch "!"] ((d1 :: ds') ++ str ">" ++ t));
      [reflexivity | repeat constructor | simpl; lia | | ].
    + simpl. apply digit_not_lit; [exact Hd1 | reflexivity].
    + eapply id_tail_found; [exact Hs | reflexivity].
Qed.

Lemma channel_mention_found bef m t :
  is_channel_mention m -> exec_at DISCORD_CHANNEL_MENTION bef (m ++ t) <> None.
Proof.
  intros (ds & Hs & ->). apply exec_at_found.
  unfold DISCORD_CHANNEL_MENTION. cbn [source ignoreCase seqs]. unfold one at 1 2.
  simpl app. rewrite <- app_assoc.
  erewrite !rmatch_Seq_Chr by reflexivity.
  eapply id_tail_found; [exact Hs | reflexivity].
Qed.

Lemma role_mention_found bef m t :
  is_role_mention m -> exec_at DISCORD_ROLE_MENTION bef (m ++ t) <> None.
Proof.
  intros (ds & Hs & ->). apply exec_at_found.
  unfold DISCORD_ROLE_MENTION. cbn [source ignoreCase seqs]. unfold one at 1 2 3.
  simpl app. rewrite <- app_assoc.
  erewrite !rmatch_Seq_Chr by reflexivity.
  eapply id_tail_found; [exact Hs | reflexivity].
Qed.

Lemma same_letter_in_class c a :
  same_letter c a -> charset_has true {| negated := false; items := [Lit a] |} c = true.
Proof.
  intros [-> | <-]; unfold charset_has; simpl; rewrite N.eqb_refl, ?orb_true_r; reflexivity.
Qed.

Lemma javascript_found bef m t :
  is_javascript m -> exec_at JAVASCRIPT_PROTOCOL bef (m ++ t) <> None.
Proof.
  intros Hm. apply exec_at_found. unfold JAVASCRIPT_PROTOCOL, lit. cbn [source ignoreCase].
  rewrite (rmatch_lit_run 0 true Some (str "javascript:") m) with (t := t); [eauto | | reflexivity].
  eapply Forall2_impl; [exact Hm|]. intros c a. apply same_letter_in_class.
Qed.

(** The three hypotheses of [Shape] for ids in a frame. *)
Lemma framed_id_units open m :
  forallb mention_unit (str open) = true -> framed_id open m ->
  Forall (fun c => mention_unit c = true) m.
Proof.
  intros Ho (ds & [Hd _] & ->). rewrite !Forall_app. split; [|split].
  - apply Forall_forall. intros c Hc. rewrite forallb_forall in Ho. apply Ho.
    apply list_elem_of_In. exact Hc.
  - eapply Forall_impl; [exact Hd|]. intros c Hc. unfold mention_unit. rewrite Hc. reflexivity.
  - repeat constructor.
Qed.

Lemma framed_id_first open m :
  (exists t, str open = ch "<" :: t) -> framed_id open m ->
  exists c t, m = c :: t /\ opens_mention c = true.
Proof.
  intros [t Ho] (ds & _ & ->). rewrite Ho. eexists _, _. split; reflexivity.
Qed.

Lemma framed_id_last open m :
  framed_id open m -> exists t c, m = t ++ [c] /\ closes_mention c = true.
Proof.
  intros (ds & _ & ->). exists (str open ++ ds), (ch ">"). rewrite <- app_assoc.
  split; reflexivity.
Qed.

Lemma same_letter_units pat m :
  Forall2 same_letter m pat ->
  Forall (fun c => existsb (fun a => (c =? a) || (flipcase c =? a)) pat = true) m.
Proof.
  induction 1 as [|c a m pat Hc _ IH]; constructor.
  - cbn [existsb]. destruct Hc as [-> | <-]; rewrite N.eqb_refl, ?orb_true_r; reflexivity.
  - eapply Forall_impl; [exact IH|]. intros c' Hc'. cbn [existsb].
    rewrite Hc', orb_true_r. reflexivity.
Qed.

Lemma javascript_units m : is_javascript m -> Forall (fun c => javascript_unit c = true) m.
Proof. apply same_letter_units. Qed.

Lemma same_letter_cases c a :
  same_letter c a -> c = a \/ (is_upper c = true /\ c + 32 = a) \/ (is_lower c = true /\ c - 32 = a).
Proof.
  unfold same_letter, flipcase. intros [H | H]; [left; exact H|].
  destruct (is_upper c) eqn:Eu; [right; left; auto|].
  destruct (is_lower c) eqn:El; [right; right; auto | left; exact H].
Qed.

Lemma javascript_first m :
  is_javascript m -> exists c t, m = c :: t /\ opens_javascript c = true.
Proof.
  unfold is_javascript. change (str "javascript:") with (106 :: str "avascript:").
  intros H. inversion H as [|c a t pat Hc _ Ec Ea]; subst. exists c, t. split; [reflexivity|].
  unfold opens_javascript. change (ch "j") with 106. change (ch "J") with 74.
  apply same_letter_cases in Hc as [-> | [[Hu Hc] | [Hl Hc]]]; [reflexivity | |].
  - assert (c = 74) as ->; [|reflexivity].
    unfold is_upper in Hu. revert Hu Hc.
    rewrite andb_true_iff, !N.leb_le. lia.
  - unfold is_lower in Hl. exfalso. revert Hl Hc.
    rewrite andb_true_iff, !N.leb_le. lia.
Qed.

Lemma javascript_last m :
  is_javascript m -> exists t c, m = t ++ [c] /\ closes_javascript c = true.
Proof.
  unfold is_javascript. change (str "javascript:") with (str "javascript" ++ [58]).
  intros H. apply Forall2_app_inv_r in H as (t & l & Ht & Hl & ->).
  inversion Hl as [|c a l' pat Hc Hnil]; subst. inversion Hnil; subst.
  exists t, c. split; [reflexivity|]. unfold closes_javascript. change (ch ":") with 58.
  apply same_letter_cases in Hc as [-> | [[Hu Hc] | [Hl' Hc]]]; [reflexivity | |]; exfalso.
  - unfold is_upper in Hu. revert Hu Hc.
    rewrite andb_true_iff, !N.leb_le. lia.
  - unfold is_lower in Hl'. revert Hl' Hc.
    rewrite andb_true_iff, !N.leb_le. lia.
Qed.

Lemma no_user_mention x :
  ~ occurs is_user_mention (run_passes CONTENT_PASSES x) /\
  ~ occurs is_user_mention (run_passes (CONTENT_PASSES ++ HTML_PASSES) x).
Proof.
  apply (run_passes_clears_both is_user_mention mention_unit opens_mention closes_mention)
    with (re := DISCORD_USER_MENTION) (before := firstn 0 CONTENT_PASSES)
         (rep := str "[User Mention]") (after := skipn 1 CONTENT_PASSES).
  - intros m [H | H]; revert H; apply framed_id_units; reflexivity.
  - intros m [H | H]; revert H; apply framed_id_first; eexists; reflexivity.
  - intros m [H | H]; revert H; apply framed_id_last.
  - intros bef m t. apply user_mention_found.
  - apply (exec_at_not_empty _ (fun c => c =? ch "<")). reflexivity.
  - vm_compute. reflexivity.
  - vm_compute. reflexivity.
Qed.

Lemma no_channel_mention x :
  ~ occurs is_channel_mention (run_passes CONTENT_PASSES x) /\
  ~ occurs is_channel_mention (run_passes (CONTENT_PASSES ++ HTML_PASSES) x).
Proof.
  apply (run_passes_clears_both is_channel_mention mention_unit opens_mention closes_mention)
    with (re := DISCORD_CHANNEL_MENTION) (before := firstn 1 CONTENT_PASSES)
         (rep := str "[Channel Mention]") (after := skipn 2 CONTENT_PASSES).
  - intros m. apply framed_id_units. reflexivity.
  - intros m. apply framed_id_first. eexists. reflexivity.
  - intros m. apply framed_id_last.
  - intros bef m t. apply channel_mention_found.
  - apply (exec_at_not_empty _ (fun c => c =? ch "<")). reflexivity.
  - vm_compute. reflexivity.
  - vm_compute. reflexivity.
Qed.

Lemma no_role_mention x :
  ~ occurs is_role_mention (run_passes CONTENT_PASSES x) /\
  ~ occurs is_role_mention (run_passes (CONTENT_PASSES ++ HTML_PASSES) x).
Proof.
  apply (run_passes_clears_both is_role_mention mention_unit opens_mention closes_mention)
    with (re := DISCORD_ROLE_MENTION) (before := firstn 2 CONTENT_PASSES)
         (rep := str "[Role Mention]") (after := skipn 3 CONTENT_PASSES).
  - intros m. apply framed_id_units. reflexivity.
  - intros m. apply framed_id_first. eexists. reflexivity.
  - intros m. apply framed_id_last.
  - intros bef m t. apply role_mention_found.
  - apply (exec_at_not_empty _ (fun c => c =? ch "<")). reflexivity.
  - vm_compute. reflexivity.
  - vm_compute. reflexivity.
Qed.

Lemma no_javascript x :
  ~ occurs is_javascript (run_passes CONTENT_PASSES x) /\
  ~ occurs is_javascript (run_passes (CONTENT_PASSES ++ HTML_PASSES) x).
Proof.
  apply (run_passes_clears_both is_javascript javascript_unit opens_javascript
           closes_javascript)
    with (re := JAVASCRIPT_PROTOCOL) (before := firstn 6 CONTENT_PASSES)
         (rep := str "javascript-removed:") (after := skipn 7 CONTENT_PASSES).
  - apply javascript_units.
  - apply javascript_first.
  - apply javascript_last.
  - intros bef m t. apply javascript_found.
  - apply (exec_at_not_empty _ (fun c => c =? ch ":")). reflexivity.
  - vm_compute. reflexivity.
  - vm_compute. reflexivity.
Qed.

(** C8, as amended: whatever the input, neither the text [sanitizeContent]
    returns nor the html [convertToHtml] makes of it has a substring that is
    a user, channel or role mention with an id of 17 to 19 digits, or a
    substring [javascript:] in any mix of upper and lower case. *)
Theorem sanitizeContent_non_escape (x : jsstring) :
  non_escape (sanitizedContent (sanitizeContent x)) /\ non_escape (sanitize_html x).
Proof.
  rewrite sanitizedContent_passes, sanitize_html_passes. unfold non_escape.
  destruct (no_user_mention x), (no_channel_mention x), (no_role_mention x),
    (no_javascript x).
  repeat split; assumption.
Qed.

(** C8, as the specification words it, fails: a mention whose id has fewer
    than 17 digits is not one of the code's patterns, so it goes through [sanitizeContent] and [convertToHtml] unchanged and still
    matches the specification's pattern. *)
Lemma sanitizeContent_keeps_short_mentions :
  let x := str "<@123> <@!123> <#123> <@&123>" in
  sanitizedContent (sanitizeContent x) = x /\
  sanitize_html x = x /\
  test LOOSE_USER_MENTION (sanitizedContent (sanitizeContent x)) = true /\
  test LOOSE_CHANNEL_MENTION (sanitizedContent (sanitizeContent x)) = true /\
  test LOOSE_ROLE_MENTION (sanitizedContent (sanitizeContent x)) = true /\
  test LOOSE_USER_MENTION (sanitize_html x) = true.
Proof. vm_compute. repeat split; reflexivity. Qed.

(** *** The fuel of the quantifier loop is enough *)

Lemma rep_loop_fuel m m' greedy :
  local_matcher m m' ->
  forall fuel fuel' k k' lo hi x,
    (lo + length (rest x) < fuel)%nat -> (lo + length (rest x) < fuel')%nat ->
    (forall y, (length (rest y) <= length (rest x))%nat -> k y = k' y) ->
    rep_loop m k greedy fuel lo hi x = rep_loop m' k' greedy fuel' lo hi x.
Proof.
  intros Hm. induction fuel as [|fuel IH]; intros fuel' k k' lo hi x Hf Hf' Hk; [lia|].
  destruct fuel' as [|fuel']; [lia|]. rewrite !rep_loop_S.
  assert (Hx : k x = k' x) by (apply Hk; lia).
  assert (Hd : forall y, (length (rest y) <= length (rest x))%nat ->
            (if (lo =? 0)%nat && (length (rest y) =? length (rest x))%nat then None
             else rep_loop m k greedy fuel (Nat.pred lo) (option_map Nat.pred hi) y) =
            (if (lo =? 0)%nat && (length (rest y) =? length (rest x))%nat then None
             else rep_loop m' k' greedy fuel' (Nat.pred lo) (option_map Nat.pred hi) y)).
  { intros y Hy. destruct (lo =? 0)%nat eqn:Elo;
      destruct (length (rest y) =? length (rest x))%nat eqn:Elen; simpl; try reflexivity.
    - apply Nat.eqb_eq in Elo. apply Nat.eqb_neq in Elen.
      apply IH; [lia | lia |]. intros z Hz. apply Hk. lia.
    - apply Nat.eqb_neq in Elo. apply IH; [lia | lia |]. intros z Hz. apply Hk. lia.
    - apply Nat.eqb_neq in Elo. apply IH; [lia | lia |]. intros z Hz. apply Hk. lia. }
  destruct hi as [[|h]|]; [exact Hx | |]; cbv zeta;
    rewrite (Hm _ _ x Hd), Hx; reflexivity.
Qed.

Lemma rmatch_local ic r : forall slack slack', local_matcher (rmatch slack ic r) (rmatch slack' ic r).
Proof.
  induction r as [ | cs | | a IHa b IHb | a IHa b IHb | g lo hi a IHa | i a IHa | | | | a IHa];
    intros slack slack' k k' x Hk; pose proof (Hk x (Nat.le_refl _)) as Hx.
  - exact Hx.
  - simpl. destruct (rest x) as [|c t] eqn:E; [reflexivity|].
    destruct (charset_has ic cs c); [|reflexivity]. apply Hk. simpl. lia.
  - simpl. destruct (rest x) as [|c t] eqn:E; [reflexivity|].
    destruct (is_line_terminator c); [reflexivity|]. apply Hk. simpl. lia.
  - simpl. apply IHa. intros y Hy. apply IHb. intros z Hz. apply Hk. lia.
  - simpl. rewrite (IHa slack slack' k k' x Hk), (IHb slack slack' k k' x Hk). reflexivity.
  - cbn [rmatch]. apply rep_loop_fuel; [apply IHa | lia | lia | exact Hk].
  - simpl. apply IHa. intros y Hy. apply Hk. exact Hy.
  - simpl. destruct (before x); [exact Hx | reflexivity].
  - simpl. destruct (rest x); [exact Hx | reflexivity].
  - simpl. destruct (at_word_boundary x); [exact Hx | reflexivity].
  - simpl. rewrite (IHa slack slack' Some Some x (fun _ _ => eq_refl)).
    destruct (rmatch slack' ic a Some x); [reflexivity | exact Hx].
Qed.

(** More fuel than [rmatch 0] gives a quantifier changes no result: the
    loop never stops for lack of it. *)
Lemma rmatch_slack slack ic r k x : rmatch slack ic r k x = rmatch 0 ic r k x.
Proof. apply rmatch_local. reflexivity. Qed.

(** * More of the sources *)

(** ** Patterns of one class *)

Lemma exec_at_Chr ic cs bef s :
  exec_at {| source := Chr cs; ignoreCase := ic |} bef s =
  match s with
  | c :: _ => if charset_has ic cs c then Some (1%nat, []) else None
  | [] => None
  end.
Proof.
  unfold exec_at. simpl. destruct s as [|c t]; [reflexivity|].
  destruct (charset_has ic cs c); [|reflexivity]. simpl.
  replace (S (length t) - length t)%nat with 1%nat by lia. reflexivity.
Qed.

Lemma replace_from_Chr ic cs tpl s : forall bef,
  replace_from {| source := Chr cs; ignoreCase := ic |} tpl bef s 0 =
  map_class ic cs (expand tpl []) s.
Proof.
  induction s as [|c t IH]; intros bef.
  - cbn [replace_from]. rewrite exec_at_Chr. reflexivity.
  - cbn [replace_from]. rewrite exec_at_Chr.
    unfold map_class. cbn [flat_map]. fold (map_class ic cs (expand tpl []) t).
    destruct (charset_has ic cs c); rewrite IH; reflexivity.
Qed.

Lemma replace_Chr ic cs tpl s :
  replace {| source := Chr cs; ignoreCase := ic |} tpl s = map_class ic cs (expand tpl []) s.
Proof. apply replace_from_Chr. Qed.

(** The longest run of a class at the start of a string. *)
Lemma class_run (has : N -> bool) s :
  exists ds tl, s = ds ++ tl /\ Forall (fun c => has c = true) ds /\ stops has tl.
Proof.
  induction s as [|c t (ds & tl & -> & Hds & Htl)].
  - exists [], []. repeat split; constructor.
  - destruct (has c) eqn:Ec.
    + exists (c :: ds), tl. repeat split; [constructor; assumption | exact Htl].
    + exists [], (c :: ds ++ tl). repeat split; [constructor | exact Ec].
Qed.

Lemma exec_at_plus ic cs bef ds tl :
  Forall (fun c => charset_has ic cs c = true) ds -> stops (charset_has ic cs) tl ->
  exec_at {| source := plus (Chr cs); ignoreCase := ic |} bef (ds ++ tl) =
  match ds with
  | [] => None
  | _ => Some (length ds, [])
  end.
Proof.
  intros Hds Htl. unfold exec_at, plus. cbn [source ignoreCase rmatch].
  destruct ds as [|d ds].
  - rewrite rep_loop_S. simpl. destruct tl as [|c tl]; [reflexivity|].
    simpl in Htl. rewrite Htl. reflexivity.
  - erewrite (rep_loop_run 0 ic cs Some (d :: ds)); [| reflexivity | exact Hds | exact Htl
      | simpl; lia | exact I | cbn [rest]; rewrite length_app; simpl; lia | reflexivity].
    cbn [run_state rest caps]. f_equal. f_equal. rewrite length_app. lia.
Qed.

Lemma squeeze_stops has rep tl : stops has tl -> squeeze has rep true tl = squeeze has rep false tl.
Proof. destruct tl as [|c tl]; simpl; [reflexivity|]. intros ->. reflexivity. Qed.

Lemma squeeze_run has rep ds tl :
  Forall (fun c => has c = true) ds -> stops has tl ->
  squeeze has rep true (ds ++ tl) = squeeze has rep false tl.
Proof.
  induction 1 as [|d ds Hd _ IH]; intros Htl; simpl.
  - apply squeeze_stops, Htl.
  - rewrite Hd. simpl. apply IH, Htl.
Qed.

Lemma replace_from_plus ic cs rep s :
  (forall bef, replace_from {| source := plus (Chr cs); ignoreCase := ic |} [Txt rep] bef s 0
               = squeeze (charset_has ic cs) rep false s) /\
  (forall bef ds tl, s = ds ++ tl -> Forall (fun c => charset_has ic cs c = true) ds ->
     stops (charset_has ic cs) tl ->
     replace_from {| source := plus (Chr cs); ignoreCase := ic |} [Txt rep] bef s (length ds)
     = squeeze (charset_has ic cs) rep true s).
Proof.
  assert (Hnil : forall bef,
            exec_at {| source := plus (Chr cs); ignoreCase := ic |} bef [] = None).
  { intros bef. apply (exec_at_plus ic cs bef [] []); [constructor | exact I]. }
  induction s as [|c t [IH1 IH2]].
  - split.
    + intros bef. cbn [replace_from]. rewrite Hnil. reflexivity.
    + intros bef ds tl Hs _ _. symmetry in Hs. apply app_eq_nil in Hs as [-> ->].
      cbn [length replace_from]. rewrite Hnil. reflexivity.
  - assert (Hkeep : forall bef,
              replace_from {| source := plus (Chr cs); ignoreCase := ic |} [Txt rep] bef (c :: t) 0
              = squeeze (charset_has ic cs) rep false (c :: t)).
    { intros bef. destruct (class_run (charset_has ic cs) (c :: t)) as (ds & tl & Hs & Hds & Htl).
      cbn [replace_from]. rewrite Hs at 1. rewrite (exec_at_plus ic cs bef ds tl Hds Htl).
      destruct ds as [|d ds].
      - simpl in Hs. subst tl. simpl in Htl. simpl. rewrite Htl, IH1. reflexivity.
      - simpl in Hs. injection Hs as <- ->. apply Forall_cons in Hds as [Hc Hds].
        cbn [length]. unfold expand. simpl. rewrite app_nil_r, Hc.
        rewrite (IH2 (c :: bef) ds tl eq_refl Hds Htl). reflexivity. }
    split; [exact Hkeep|].
    intros bef ds tl Hs Hds Htl. destruct ds as [|d ds].
    + simpl in Hs. subst tl. cbn [length]. rewrite Hkeep. symmetry. apply squeeze_stops, Htl.
    + simpl in Hs. injection Hs as <- ->. apply Forall_cons in Hds as [Hc Hds].
      cbn [length replace_from]. simpl squeeze. rewrite Hc. simpl.
      apply (IH2 (c :: bef) ds tl eq_refl Hds Htl).
Qed.

Lemma replace_plus ic cs rep s :
  replace {| source := plus (Chr cs); ignoreCase := ic |} [Txt rep] s
  = squeeze (charset_has ic cs) rep false s.
Proof. apply (proj1 (replace_from_plus ic cs rep s)). Qed.

(** ** What a match tells about the input *)

Lemma rep_loop_Chr_inv slack ic cs k greedy : forall fuel lo hi x res,
  match hi with Some h => (lo <= h)%nat | None => True end ->
  rep_loop (rmatch slack ic (Chr cs)) k greedy fuel lo hi x = Some res ->
  exists ds tl, rest x = ds ++ tl /\ Forall (fun c => charset_has ic cs c = true) ds /\
    (lo <= length ds)%nat /\
    match hi with Some h => (length ds <= h)%nat | None => True end /\
    k (run_state ds x tl) = Some res.
Proof.
  induction fuel as [|fuel IH]; intros lo hi x res Hlh H; [discriminate|].
  rewrite rep_loop_S in H.
  assert (Hstop : k x = Some res -> lo = 0%nat ->
            exists ds tl, rest x = ds ++ tl /\ Forall (fun c => charset_has ic cs c = true) ds /\
              (lo <= length ds)%nat /\
              match hi with Some h => (length ds <= h)%nat | None => True end /\
              k (run_state ds x tl) = Some res).
  { intros Hk ->. exists [], (rest x). rewrite run_state_nil.
    repeat split; [constructor | simpl; lia | destruct hi; simpl; [lia | exact I] | exact Hk]. }
  assert (Hiter : rmatch slack ic (Chr cs) (fun y =>
              if (lo =? 0)%nat && (length (rest y) =? length (rest x))%nat then None
              else rep_loop (rmatch slack ic (Chr cs)) k greedy fuel (Nat.pred lo)
                     (option_map Nat.pred hi) y) x = Some res ->
            hi <> Some 0%nat ->
            exists ds tl, rest x = ds ++ tl /\ Forall (fun c => charset_has ic cs c = true) ds /\
              (lo <= length ds)%nat /\
              match hi with Some h => (length ds <= h)%nat | None => True end /\
              k (run_state ds x tl) = Some res).
  { intros Hm Hhi. simpl in Hm. destruct (rest x) as [|c t] eqn:Ex; [discriminate|].
    destruct (charset_has ic cs c) eqn:Ec; [|discriminate].
    destruct ((lo =? 0)%nat && _); [discriminate|].
    apply IH in Hm as (ds & tl & Hr & Hds & Hlo & Hh & Hk).
    - exists (c :: ds), tl. simpl in Hr. rewrite Hr. rewrite run_state_cons in Hk.
      repeat split; [constructor; assumption | simpl; lia | | exact Hk].
      destruct hi as [h|]; simpl in *; [|exact I]. destruct h; [congruence | lia].
    - destruct hi as [h|]; simpl; [|exact I]. lia. }
  destruct hi as [[|h]|].
  - apply Hstop; [exact H | lia].
  - cbv zeta in H. destruct (lo =? 0)%nat eqn:Elo; simpl in H.
    + apply Nat.eqb_eq in Elo. destruct greedy; apply orelse_Some in H as [H | H];
        try (apply Hiter; [exact H | discriminate]); apply Hstop; auto.
    + apply Hiter; [exact H | discriminate].
  - cbv zeta in H. destruct (lo =? 0)%nat eqn:Elo; simpl in H.
    + apply Nat.eqb_eq in Elo. destruct greedy; apply orelse_Some in H as [H | H];
        try (apply Hiter; [exact H | discriminate]); apply Hstop; auto.
    + apply Hiter; [exact H | discriminate].
Qed.

Lemma rmatch_lit_inv slack ic k pat : forall x res,
  rmatch slack ic
    (fold_right (fun c r => Seq (Chr {| negated := false; items := [Lit c] |}) r) Eps pat) k x
  = Some res ->
  exists m tl, rest x = m ++ tl /\ Forall2 (lit_has ic) m pat /\
               k (run_state m x tl) = Some res.
Proof.
  induction pat as [|a pat IH]; intros x res H.
  - exists [], (rest x). rewrite run_state_nil. repeat split; [constructor | exact H].
  - cbn [fold_right rmatch] in H. destruct (rest x) as [|c t] eqn:Ex; [discriminate|].
    destruct (charset_has ic _ c) eqn:Ec; [|discriminate].
    apply IH in H as (m & tl & Hr & Hm & Hk). simpl in Hr.
    exists (c :: m), tl. rewrite run_state_cons in Hk. rewrite Hr.
    repeat split; [constructor; assumption | exact Hk].
Qed.

Lemma rmatch_lit_found slack ic k pat m x tl :
  rest x = m ++ tl -> Forall2 (lit_has ic) m pat ->
  rmatch slack ic
    (fold_right (fun c r => Seq (Chr {| negated := false; items := [Lit c] |}) r) Eps pat) k x
  = k (run_state m x tl).
Proof. intros Hx Hm. exact (rmatch_lit_run slack ic k pat m Hm x tl Hx). Qed.

(** [test] is true exactly when the pattern matches at some position. *)
Lemma test_from_true re s : forall bef,
  test_from re bef s = true <->
  exists pre t, s = pre ++ t /\ exec_at re (rev pre ++ bef) t <> None.
Proof.
  induction s as [|c t IH]; intros bef; simpl.
  - destruct (exec_at re bef []) eqn:E.
    + split; [|reflexivity]. intros _. exists [], []. split; [reflexivity|].
      simpl. rewrite E. discriminate.
    + split; [discriminate|].
      intros (pre & t & Hs & He). symmetry in Hs. apply app_eq_nil in Hs as [-> ->].
      simpl in He. congruence.
  - destruct (exec_at re bef (c :: t)) eqn:E.
    + split; [|reflexivity]. intros _. exists [], (c :: t). split; [reflexivity|].
      simpl. rewrite E. discriminate.
    + rewrite IH. split.
      * intros (pre & t' & -> & He). exists (c :: pre), t'. split; [reflexivity|].
        simpl. rewrite <- app_assoc. exact He.
      * intros ([|c' pre] & t' & Hs & He); simpl in Hs, He.
        -- subst t'. congruence.
        -- injection Hs as <- ->. exists pre, t'. split; [reflexivity|].
           rewrite <- app_assoc in He. exact He.
Qed.

Lemma test_true re s :
  test re s = true <-> exists pre t, s = pre ++ t /\ exec_at re (rev pre) t <> None.
Proof.
  unfold test. rewrite test_from_true. split; intros (pre & t & Hs & He); exists pre, t;
    (split; [exact Hs|]); [rewrite app_nil_r in He | rewrite app_nil_r]; exact He.
Qed.

(** A pattern that starts with [^] matches at the first position only. *)
Lemma exec_at_Bol_later ic r b bef s :
  exec_at {| source := Seq Bol r; ignoreCase := ic |} (b :: bef) s = None.
Proof. reflexivity. Qed.

Lemma test_Bol ic r s :
  test {| source := Seq Bol r; ignoreCase := ic |} s = true <->
  exec_at {| source := Seq Bol r; ignoreCase := ic |} [] s <> None.
Proof.
  rewrite test_true. split.
  - intros ([|c pre] & t & -> & He); [exact He|].
    exfalso. apply He. simpl. destruct (rev pre ++ [c]) as [|b l] eqn:E.
    + destruct (rev pre); discriminate.
    + apply exec_at_Bol_later.
  - intros He. exists [], s. split; [reflexivity | exact He].
Qed.

(** ** lib/hash.ts: [validatePepper] *)

Lemma hex_class c :
  charset_has false {| negated := false;
                       items := [d09; Range (ch "a") (ch "f"); Range (ch "A") (ch "F")] |} c
  = is_hex c.
Proof.
  unfold charset_has, is_hex, is_digit, d09.
  change (ch "0") with 48. change (ch "9") with 57. change (ch "a") with 97.
  change (ch "f") with 102. change (ch "A") with 65. change (ch "F") with 70.
  cbn [negated items existsb item_has].
  repeat match goal with |- context [N.leb ?a ?b] => destruct (N.leb a b) end; reflexivity.
Qed.

Lemma test_HEX64 p :
  test Hash.HEX64 p = true <-> length p = 64%nat /\ Forall (fun c => is_hex c = true) p.
Proof.
  unfold Hash.HEX64. cbn [seqs]. rewrite test_Bol. unfold exec_at, exactly.
  cbn [source ignoreCase rmatch before rest]. split.
  - intros H.
    destruct (rep_loop _ _ _ _ _ _ _) as [res|] eqn:E; [clear H | congruence].
    apply rep_loop_Chr_inv in E as (ds & tl & Hr & Hds & Hlo & Hhi & Hk); [|simpl; lia].
    simpl in Hr, Hk. destruct tl; [|discriminate]. rewrite app_nil_r in Hr. subst ds.
    split; [lia|]. eapply Forall_impl; [exact Hds|]. intros c Hc. rewrite <- hex_class. exact Hc.
  - intros [Hlen Hp].
    destruct (rep_loop _ _ _ _ _ _ _) as [res|] eqn:E; [discriminate|]. exfalso.
    set (x := {| before := []; rest := p; caps := [] |}) in E.
    assert (Hrun : rep_loop (rmatch 0 false (Chr {| negated := false;
                       items := [d09; Range (ch "a") (ch "f"); Range (ch "A") (ch "F")] |}))
                     (fun s' => rmatch 0 false Eol Some s') true (S (0 + 64 + length p)) 64
                     (Some 64%nat) x = Some (run_state p x [])).
    { apply (rep_loop_run 0 false _ _ p _ _ _ _ []);
        [simpl; symmetry; apply app_nil_r | | exact I | lia | simpl; lia | simpl; lia | reflexivity].
      eapply Forall_impl; [exact Hp|]. intros c Hc. rewrite hex_class. exact Hc. }
    pose proof (eq_trans (eq_sym E) Hrun) as Habs. discriminate.
Qed.

(** X1. [validatePepper] returns normally exactly for a pepper of 64
    hexadecimal digits, digits and letters of either case; a missing or empty
    pepper and any other value make it throw. *)
Theorem validatePepper_accepts (e : Env) :
  Hash.validatePepper e = Ok tt <->
  exists p, e !! "PII_PEPPER"%string = Some p /\ length p = 64%nat /\
            Forall (fun c => is_hex c = true) p.
Proof.
  unfold Hash.validatePepper. destruct (e !! "PII_PEPPER"%string) as [[|c p]|] eqn:E.
  - split; [discriminate|]. intros (p & [= <-] & Hlen & _). discriminate.
  - destruct (test Hash.HEX64 (c :: p)) eqn:Et; simpl.
    + apply test_HEX64 in Et. split; [|reflexivity]. intros _. exists (c :: p). tauto.
    + split; [discriminate|]. intros (p' & [= <-] & Hp). apply test_HEX64 in Hp. congruence.
  - split; [discriminate|]. intros (p & [=] & _).
Qed.

(** ** lib/sanitizer.ts: [sanitizeForHtml] *)

Lemma map_class_lit a rep s :
  map_class false {| negated := false; items := [Lit a] |} rep s
  = flat_map (fun c => if c =? a then rep else [c]) s.
Proof.
  unfold map_class. apply flat_map_ext. intros c. unfold charset_has. simpl.
  rewrite !orb_false_r. reflexivity.
Qed.

Lemma flat_map_flat_map {A B C} (f : A -> list B) (g : B -> list C) l :
  flat_map g (flat_map f l) = flat_map (fun a => flat_map g (f a)) l.
Proof. induction l as [|a l IH]; simpl; [reflexivity|]. rewrite flat_map_app, IH. reflexivity. Qed.

Lemma sanitizeForHtml_flat (s : jsstring) :
  Html.sanitizeForHtml s = flat_map escape_unit s.
Proof.
  unfold Html.sanitizeForHtml, Html.APOS, Html.QUOT, Html.GT, Html.LT, Html.AMP, one.
  rewrite !replace_Chr. unfold expand. cbn [flat_map]. rewrite !app_nil_r.
  rewrite !map_class_lit, !flat_map_flat_map.
  apply flat_map_ext. intros c. unfold escape_unit.
  change (ch "&") with 38. change (ch "<") with 60. change (ch ">") with 62.
  change (ch "'") with 39.
  destruct (N.eqb_spec c 38) as [-> | H1]; [reflexivity|].
  destruct (N.eqb_spec c 60) as [-> | H2]; [reflexivity|].
  destruct (N.eqb_spec c 62) as [-> | H3]; [reflexivity|].
  destruct (N.eqb_spec c 34) as [-> | H4]; [reflexivity|].
  destruct (N.eqb_spec c 39) as [-> | H5]; [reflexivity|].
  cbn [flat_map app].
  repeat match goal with
         | |- context [N.eqb c ?a] => destruct (N.eqb_spec c a); [congruence|]; cbn [flat_map app]
         end.
  reflexivity.
Qed.

Lemma escape_unit_cases c :
  (c = 38 /\ escape_unit c = str "&amp;") \/ (c = 60 /\ escape_unit c = str "&lt;") \/
  (c = 62 /\ escape_unit c = str "&gt;") \/ (c = 34 /\ escape_unit c = str "&quot;") \/
  (c = 39 /\ escape_unit c = str "&#x27;") \/
  (c <> 38 /\ c <> 60 /\ c <> 62 /\ c <> 34 /\ c <> 39 /\ escape_unit c = [c]).
Proof.
  unfold escape_unit.
  change (ch "&") with 38. change (ch "<") with 60. change (ch ">") with 62.
  change (ch "'") with 39.
  destruct (N.eqb_spec c 38) as [-> | H1]; [tauto|].
  destruct (N.eqb_spec c 60) as [-> | H2]; [tauto|].
  destruct (N.eqb_spec c 62) as [-> | H3]; [tauto|].
  destruct (N.eqb_spec c 34) as [-> | H4]; [tauto|].
  destruct (N.eqb_spec c 39) as [-> | H5]; [tauto|].
  repeat right. tauto.
Qed.

(** X2. [sanitizeForHtml] rewrites its input unit by unit: the ampersand,
    the two angle brackets and the two quotes become their entities and every
    other unit stays. The ampersand pass being the first, the ampersand of an
    entity is never escaped again, and the result holds no angle bracket and
    no quote. *)
Theorem sanitizeForHtml_units (s : jsstring) :
  Html.sanitizeForHtml s = flat_map escape_unit s /\
  forall c, In c (Html.sanitizeForHtml s) -> c <> 60 /\ c <> 62 /\ c <> 34 /\ c <> 39.
Proof.
  split; [apply sanitizeForHtml_flat|]. rewrite sanitizeForHtml_flat.
  intros c Hc. apply in_flat_map in Hc as (x & _ & Hx).
  destruct (escape_unit_cases x) as [[_ E] | [[_ E] | [[_ E] | [[_ E] | [[_ E] | H]]]]];
    try (rewrite E in Hx; vm_compute in Hx;
         repeat (destruct Hx as [<- | Hx]; [repeat split; discriminate|]); contradiction).
  destruct H as (H1 & H2 & H3 & H4 & H5 & E). rewrite E in Hx.
  destruct Hx as [<- | []]. tauto.
Qed.

(** X3. [sanitizeForHtml] loses nothing: two inputs with the same escaped
    text are the same input. *)
Theorem sanitizeForHtml_injective (a b : jsstring) :
  Html.sanitizeForHtml a = Html.sanitizeForHtml b -> a = b.
Proof.
  rewrite !sanitizeForHtml_flat. revert b.
  induction a as [|x a IH]; intros [|y b] H; cbn [flat_map] in H.
  - reflexivity.
  - exfalso. destruct (escape_unit_cases y) as [[_ E] | [[_ E] | [[_ E] | [[_ E] | [[_ E] | E]]]]];
      try destruct E as (_ & _ & _ & _ & _ & E); rewrite E in H; discriminate.
  - exfalso. destruct (escape_unit_cases x) as [[_ E] | [[_ E] | [[_ E] | [[_ E] | [[_ E] | E]]]]];
      try destruct E as (_ & _ & _ & _ & _ & E); rewrite E in H; discriminate.
  - assert (Hxy : x = y /\ flat_map escape_unit a = flat_map escape_unit b).
    { destruct (escape_unit_cases x) as [[-> Ex] | [[-> Ex] | [[-> Ex] | [[-> Ex] | [[-> Ex] | Ex]]]]];
        destruct (escape_unit_cases y) as [[-> Ey] | [[-> Ey] | [[-> Ey] | [[-> Ey] | [[-> Ey] | Ey]]]]];
        try destruct Ex as (X1 & X2 & X3 & X4 & X5 & Ex);
        try destruct Ey as (Y1 & Y2 & Y3 & Y4 & Y5 & Ey);
        rewrite ?Ex, ?Ey in H; vm_compute (str _) in H; cbn [app] in H;
        try discriminate; try (injection H; intros; subst; tauto);
        try (injection H; intros; subst; congruence). }
    destruct Hxy as [-> Hab]. f_equal. apply IH, Hab.
Qed.

Lemma sanitizeForHtml_injective_witness :
  Html.sanitizeForHtml (str "a<b") = Html.sanitizeForHtml (str "a<b") /\ str "a<b" = str "a<b".
Proof. split; [reflexivity | apply sanitizeForHtml_injective; reflexivity]. Defined.

(** ** lib/sanitizer.ts: [convertToHtml] and the line feed *)

(** X4. The html [convertToHtml] returns holds no line feed, whatever its
    input: the pass for the line feed replaces every one and the link pass
    after it brings none back. *)
Theorem convertToHtml_no_line_feed (x : jsstring) : ~ In 10 (convertToHtml x).
Proof.
  intros Hin. apply in_split in Hin as (pre & post & Hx).
  cut (~ occurs (fun m => m = [10]) (convertToHtml x)).
  { intros H. apply H. exists pre, [10], post. split; [exact Hx | reflexivity]. }
  rewrite convertToHtml_passes.
  apply (run_passes_clears (fun m => m = [10]) (N.eqb 10) (N.eqb 10) (N.eqb 10))
    with (re := NEWLINE) (before := firstn 5 HTML_PASSES) (rep := str "<br>")
         (after := skipn 6 HTML_PASSES).
  - intros m ->. repeat constructor.
  - intros m ->. eexists _, _. split; reflexivity.
  - intros m ->. exists [], 10. split; reflexivity.
  - intros bef m t ->. discriminate.
  - apply (exec_at_not_empty _ (N.eqb 10)). reflexivity.
  - vm_compute. reflexivity.
  - vm_compute. reflexivity.
Qed.

(** ** The slugs *)

Lemma single_dashes_no_pair s : single_dashes s -> ~ factor_of (str "--") s.
Proof.
  intros Hs (pre & post & ->). induction pre as [|a pre IH]; simpl in Hs.
  - destruct Hs as [H _]. apply H; reflexivity.
  - apply IH, Hs.
Qed.

Lemma squeeze_Forall (P : N -> Prop) has rep b s :
  Forall P rep -> Forall (fun c => has c = false -> P c) s ->
  Forall P (squeeze has rep b s).
Proof.
  intros Hrep Hs. revert b. induction Hs as [|c t Hc _ IH]; intros b; simpl; [constructor|].
  destruct (has c).
  - apply Forall_app. split; [destruct b; [constructor | exact Hrep] | apply IH].
  - constructor; [apply Hc; reflexivity | apply IH].
Qed.

(** Squeezing the runs of a class that holds the dash into one dash each
    leaves single dashes only. *)
Lemma squeeze_single_dashes has s :
  has 45 = true ->
  (head (squeeze has [45] true s) <> Some 45 /\ single_dashes (squeeze has [45] true s)) /\
  single_dashes (squeeze has [45] false s).
Proof.
  intros H45. induction s as [|c t [[IH1 IH2] IH3]]; simpl; [repeat split; discriminate|].
  destruct (has c) eqn:Ec; simpl.
  - repeat split; auto.
  - assert (c <> 45) by congruence. repeat split; auto; congruence.
Qed.

Lemma drop_last_dash_Forall (P : N -> Prop) s : Forall P s -> Forall P (drop_last_dash s).
Proof.
  induction 1 as [|c t Hc Ht IH]; [constructor|]. simpl. destruct t as [|c' t].
  - destruct (c =? 45); [constructor | constructor; [exact Hc | constructor]].
  - constructor; [exact Hc | exact IH].
Qed.

Lemma drop_last_dash_head s x : head (drop_last_dash s) = Some x -> head s = Some x.
Proof.
  destruct s as [|c [|c' t]]; simpl; [discriminate | | auto].
  destruct (c =? 45); [discriminate | auto].
Qed.

Lemma drop_last_dash_single s : single_dashes s -> single_dashes (drop_last_dash s).
Proof.
  induction s as [|c t IH]; [auto|]. intros [Hc Ht]. destruct t as [|c' t].
  - simpl. destruct (c =? 45); simpl; [exact I | split; [intros _; discriminate | exact I]].
  - change (drop_last_dash (c :: c' :: t)) with (c :: drop_last_dash (c' :: t)).
    split; [|apply IH, Ht]. intros Hc45 Hh. apply drop_last_dash_head in Hh.
    exact (Hc Hc45 Hh).
Qed.

Lemma drop_last_dash_last s : single_dashes s -> last (drop_last_dash s) <> Some 45.
Proof.
  induction s as [|c t IH]; [discriminate|]. intros [Hc Ht]. destruct t as [|c' t].
  - simpl. destruct (N.eqb_spec c 45); simpl; congruence.
  - change (drop_last_dash (c :: c' :: t)) with (c :: drop_last_dash (c' :: t)).
    destruct (drop_last_dash (c' :: t)) as [|d r] eqn:E.
    + destruct t as [|c'' t]; [|discriminate E].
      simpl in E. destruct (N.eqb_spec c' 45) as [E45|]; [|discriminate E].
      simpl. intros [= Hc45]. apply Hc; [exact Hc45 | simpl; f_equal; exact E45].
    + change (last (c :: d :: r)) with (last (d :: r)). apply IH, Ht.
Qed.

Lemma strip_edge_shape s :
  Forall (fun c => slug_unit c = true) s -> single_dashes s ->
  Forall (fun c => slug_unit c = true) (strip_edge s) /\ single_dashes (strip_edge s) /\
  head (strip_edge s) <> Some 45 /\ last (strip_edge s) <> Some 45.
Proof.
  intros Hu Hs. destruct s as [|c t]; [repeat split; [constructor | discriminate..]|].
  apply Forall_cons in Hu as [Hc Hu]. destruct Hs as [Hc1 Ht]. simpl.
  destruct (N.eqb_spec c 45) as [-> | Hne].
  - repeat split; [apply drop_last_dash_Forall, Hu | apply drop_last_dash_single, Ht | |
                   apply drop_last_dash_last, Ht].
    intros Hh. apply drop_last_dash_head in Hh. apply Hc1; auto.
  - repeat split.
    + constructor; [exact Hc | apply drop_last_dash_Forall, Hu].
    + intros ->. contradiction.
    + apply drop_last_dash_single, Ht.
    + simpl. congruence.
    + pose proof (drop_last_dash_last t Ht) as Hl.
      destruct (drop_last_dash t) as [|d r]; [simpl; congruence | exact Hl].
Qed.

Lemma exec_at_EDGE_DASH bef s :
  exec_at Slug.EDGE_DASH bef s =
  match s with
  | [] => None
  | c :: t =>
      if c =? 45 then
        match bef, t with
        | [], _ | _, [] => Some (1%nat, [])
        | _, _ => None
        end
      else None
  end.
Proof.
  unfold exec_at, Slug.EDGE_DASH, one. change (ch "-") with 45.
  cbn [source ignoreCase rmatch before rest orelse].
  destruct s as [|c t]; [destruct bef; reflexivity|].
  unfold charset_has. cbn [negated items existsb item_has xorb andb orb].
  rewrite !orb_false_r.
  destruct (c =? 45); [|destruct bef; reflexivity].
  destruct bef as [|b bef]; cbn [advance rest caps orelse].
  - f_equal. f_equal. simpl. lia.
  - destruct t; [|reflexivity]. cbn [orelse]. f_equal.
Qed.

Lemma replace_from_EDGE_later s : forall b bef,
  replace_from Slug.EDGE_DASH [] (b :: bef) s 0 = drop_last_dash s.
Proof.
  induction s as [|c t IH]; intros b bef; cbn [replace_from]; rewrite exec_at_EDGE_DASH;
    [reflexivity|].
  destruct (c =? 45) eqn:Ec.
  - destruct t as [|c' t].
    + simpl. rewrite Ec. reflexivity.
    + rewrite IH. reflexivity.
  - rewrite IH. destruct t; [simpl; rewrite Ec|]; reflexivity.
Qed.

Lemma replace_EDGE_DASH s : replace Slug.EDGE_DASH [] s = strip_edge s.
Proof.
  unfold replace. destruct s as [|c t]; cbn [replace_from]; rewrite exec_at_EDGE_DASH;
    [reflexivity|].
  simpl. destruct (c =? 45); cbn [expand flat_map app]; rewrite replace_from_EDGE_later;
    reflexivity.
Qed.

Lemma keep_class c :
  charset_has false {| negated := true; items := [az; d09; Space; Lit (ch "-")] |} c
  = negb (is_lower c || is_digit c || is_space c || (c =? 45)).
Proof.
  unfold charset_has, is_lower, is_digit, az, d09.
  change (ch "0") with 48. change (ch "9") with 57. change (ch "a") with 97.
  change (ch "z") with 122. change (ch "-") with 45.
  cbn [negated items existsb item_has]. rewrite !orb_false_r.
  destruct ((97 <=? c) && (c <=? 122)), ((48 <=? c) && (c <=? 57)), (is_space c), (c =? 45);
    reflexivity.
Qed.

Lemma space_class c :
  charset_has false {| negated := false; items := [Space] |} c = is_space c.
Proof. unfold charset_has. simpl. rewrite !orb_false_r. reflexivity. Qed.

Lemma dash_class c :
  charset_has false {| negated := false; items := [Lit (ch "-")] |} c = (c =? 45).
Proof. unfold charset_has. simpl. rewrite !orb_false_r. reflexivity. Qed.

Lemma not_alnum_class c :
  charset_has false {| negated := true; items := [az; d09] |} c
  = negb (is_lower c || is_digit c).
Proof.
  unfold charset_has, is_lower, is_digit, az, d09.
  change (ch "0") with 48. change (ch "9") with 57. change (ch "a") with 97.
  change (ch "z") with 122.
  cbn [negated items existsb item_has]. rewrite !orb_false_r.
  destruct ((97 <=? c) && (c <=? 122)), ((48 <=? c) && (c <=? 57)); reflexivity.
Qed.

(** After the first two passes: lower-case letters, digits and dashes. *)
Lemma spaces_to_dashes_units s :
  Forall (fun c => (is_lower c || is_digit c || is_space c || (c =? 45)) = true) s ->
  Forall (fun c => slug_unit c = true)
         (replace Slug.SPACES [Txt (str "-")] s).
Proof.
  intros Hs. unfold Slug.SPACES, cls. rewrite replace_plus.
  apply squeeze_Forall; [repeat constructor|].
  eapply Forall_impl; [exact Hs|]. intros c Hc. rewrite space_class. intros Hsp.
  unfold slug_unit. cbv beta in Hc. rewrite Hsp, orb_false_r in Hc. exact Hc.
Qed.

Lemma strip_units s :
  Forall (fun c => (is_lower c || is_digit c || is_space c || (c =? 45)) = true)
         (replace Slug.NOT_SLUG_CHAR [] s).
Proof.
  unfold Slug.NOT_SLUG_CHAR, ncls. rewrite replace_Chr. unfold map_class, expand. simpl.
  apply Forall_forall. intros c Hc. apply list_elem_of_In, in_flat_map in Hc as (x & _ & Hx).
  rewrite keep_class in Hx. destruct (is_lower x || _ || _ || _) eqn:E; simpl in Hx.
  - destruct Hx as [<- | []]. exact E.
  - contradiction.
Qed.

Lemma dashes_squeezed s :
  Forall (fun c => slug_unit c = true) s ->
  Forall (fun c => slug_unit c = true) (replace Slug.DASHES [Txt (str "-")] s) /\
  single_dashes (replace Slug.DASHES [Txt (str "-")] s).
Proof.
  intros Hs. unfold Slug.DASHES, one. rewrite replace_plus. split.
  - apply squeeze_Forall; [repeat constructor|].
    eapply Forall_impl; [exact Hs|]. auto.
  - apply squeeze_single_dashes. reflexivity.
Qed.

(** X5. The slug that [syncSpecificThread], [syncNewThread] and the live
    thread handler compute has at most 255 units, all of them lower-case
    letters, digits or dashes, never two dashes in a row and no dash first;
    it has no dash last either unless it was cut at 255 units. *)
Theorem syncSpecificThread_slug_shape (name : jsstring) :
  let slug := Slug.syncSpecificThread_slug name in
  (length slug <= 255)%nat /\
  Forall (fun c => slug_unit c = true) slug /\
  ~ factor_of (str "--") slug /\
  head slug <> Some 45 /\
  ((length slug < 255)%nat -> last slug <> Some 45).
Proof.
  cbv zeta. unfold Slug.syncSpecificThread_slug, Slug.substring0.
  set (s3 := replace Slug.DASHES _ _).
  assert (H3 : Forall (fun c => slug_unit c = true) s3 /\ single_dashes s3).
  { apply dashes_squeezed, spaces_to_dashes_units, strip_units. }
  rewrite replace_EDGE_DASH.
  destruct (strip_edge_shape s3 (proj1 H3) (proj2 H3)) as (Hu & Hs & Hh & Hl).
  set (s4 := strip_edge s3) in *. repeat split.
  - rewrite length_firstn. lia.
  - apply Forall_take, Hu.
  - intros (pre & post & Hf). apply (single_dashes_no_pair s4 Hs).
    exists pre, (post ++ skipn 255 s4). rewrite <- (firstn_skipn 255 s4) at 1.
    rewrite Hf, <- !app_assoc. reflexivity.
  - destruct s4; [discriminate | exact Hh].
  - rewrite length_firstn. intros Hlen. rewrite firstn_all2 by lia. exact Hl.
Qed.

Lemma trimStart_Forall (P : N -> Prop) s : Forall P s -> Forall P (Slug.trimStart s).
Proof.
  induction 1 as [|c t Hc Ht IH]; simpl; [constructor|].
  destruct (is_space c); [exact IH | constructor; assumption].
Qed.

Lemma trim_Forall (P : N -> Prop) s : Forall P s -> Forall P (Slug.trim s).
Proof.
  intros H. unfold Slug.trim.
  apply Forall_rev, trimStart_Forall, Forall_rev, trimStart_Forall, H.
Qed.

(** X6. The two other slug computations, that of [upsertThread] and
    [upsertChannel] (smartSync.ts) and the channel slug of sync.ts, yield
    lower-case letters, digits and dashes only, and never two dashes in a
    row. *)
Theorem smartSync_and_channel_slug_units (name : jsstring) :
  (Forall (fun c => slug_unit c = true) (Slug.upsertThread_slug name) /\
   ~ factor_of (str "--") (Slug.upsertThread_slug name)) /\
  (Forall (fun c => slug_unit c = true) (Slug.syncSpecificChannel_slug name) /\
   ~ factor_of (str "--") (Slug.syncSpecificChannel_slug name)).
Proof.
  split.
  - unfold Slug.upsertThread_slug.
    destruct (dashes_squeezed
                (replace Slug.SPACES [Txt (str "-")]
                   (Slug.trim (replace Slug.NOT_SLUG_CHAR [] (Slug.toLowerCase name)))))
      as [Hu Hs].
    + apply spaces_to_dashes_units, trim_Forall, strip_units.
    + split; [exact Hu | apply single_dashes_no_pair, Hs].
  - unfold Slug.syncSpecificChannel_slug, Slug.NOT_ALNUM_RUN, ncls. rewrite replace_plus. split.
    + apply squeeze_Forall; [repeat constructor|].
      apply Forall_forall. intros c _. rewrite not_alnum_class. intros Hc.
      apply negb_false_iff in Hc. unfold slug_unit. rewrite Hc. reflexivity.
    + apply single_dashes_no_pair, squeeze_single_dashes. reflexivity.
Qed.

(** ** lib/image.ts: [isImageUrl] *)

Lemma rmatch_Seq slack ic a b k s :
  rmatch slack ic (Seq a b) k s = rmatch slack ic a (fun s' => rmatch slack ic b k s') s.
Proof. reflexivity. Qed.

Lemma rmatch_Alt slack ic a b k s :
  rmatch slack ic (Alt a b) k s = orelse (rmatch slack ic a k s) (rmatch slack ic b k s).
Proof. reflexivity. Qed.

Lemma rmatch_Chr_inv slack ic cs k x res :
  rmatch slack ic (Chr cs) k x = Some res ->
  exists c t, rest x = c :: t /\ charset_has ic cs c = true /\ k (advance c t x) = Some res.
Proof.
  simpl. destruct (rest x) as [|c t]; [discriminate|].
  destruct (charset_has ic cs c) eqn:E; [|discriminate]. eauto.
Qed.

Lemma rmatch_Eol_inv slack ic x res :
  rmatch slack ic Eol Some x = Some res -> rest x = [].
Proof. simpl. destruct (rest x); [reflexivity | discriminate]. Qed.

Lemma lit_has_same_letter c a : lit_has true c a <-> same_letter c a.
Proof.
  unfold lit_has, same_letter, charset_has. simpl. rewrite !orb_false_r, orb_true_iff, !N.eqb_eq.
  reflexivity.
Qed.

Lemma same_letter_dot c : same_letter c (ch ".") -> c = ch ".".
Proof.
  intros H. apply same_letter_cases in H as [H | [[Hu H] | [Hl H]]]; [exact H | |]; exfalso;
    change (ch ".") with 46 in H.
  - unfold is_upper in Hu. apply andb_true_iff in Hu as [H1 H2]. apply N.leb_le in H1, H2. lia.
  - unfold is_lower in Hl. apply andb_true_iff in Hl as [H1 H2]. apply N.leb_le in H1, H2. lia.
Qed.

Lemma orelse_found {A} (x y : option A) : x <> None \/ y <> None -> orelse x y <> None.
Proof. destruct x; simpl; [discriminate | tauto]. Qed.

Lemma lit_Eol_found ext e x :
  rest x = ext -> Forall2 same_letter ext (str e) ->
  rmatch 0 true (lit e) (fun s' => rmatch 0 true Eol Some s') x <> None.
Proof.
  intros Hx He. unfold lit.
  rewrite (rmatch_lit_found 0 true _ (str e) ext x []).
  - simpl. discriminate.
  - rewrite Hx, app_nil_r. reflexivity.
  - eapply Forall2_impl; [exact He|]. intros c a. apply lit_has_same_letter.
Qed.

Lemma lit_Eol_inv e x res :
  rmatch 0 true (lit e) (fun s' => rmatch 0 true Eol Some s') x = Some res ->
  Forall2 same_letter (rest x) (str e).
Proof.
  intros H. apply rmatch_lit_inv in H as (m & tl & Hr & Hm & Hk).
  apply rmatch_Eol_inv in Hk. simpl in Hk. subst tl. rewrite app_nil_r in Hr. rewrite Hr.
  eapply Forall2_impl; [exact Hm|]. intros c a. apply lit_has_same_letter.
Qed.

Lemma exec_at_IMAGE_EXTENSIONS bef t :
  exec_at Image.IMAGE_EXTENSIONS bef t <> None <->
  exists ext e, t = ch "." :: ext /\ In e image_extensions /\ Forall2 same_letter ext (str e).
Proof.
  unfold exec_at, Image.IMAGE_EXTENSIONS. cbn [source ignoreCase seqs].
  set (x := {| before := bef; rest := t; caps := [] |}).
  rewrite rmatch_Seq. split.
  - intros H. destruct (rmatch 0 true (one ".") _ x) as [res|] eqn:E; [clear H | congruence].
    apply rmatch_Chr_inv in E as (c & ext & Hr & Hc & Hk). simpl in Hr.
    apply (proj1 (lit_has_same_letter c (ch "."))), same_letter_dot in Hc. subst c t.
    exists ext. rewrite rmatch_Seq in Hk. unfold image_extensions.
    repeat (rewrite rmatch_Alt in Hk; apply orelse_Some in Hk as [Hk | Hk];
            [apply lit_Eol_inv in Hk; eexists; split; [reflexivity|];
             split; [|exact Hk]; simpl; tauto|]).
    apply lit_Eol_inv in Hk. eexists. split; [reflexivity|]. split; [|exact Hk]. simpl; tauto.
  - intros (ext & e & -> & He & Hm).
    unfold one. erewrite rmatch_Chr_step; [|reflexivity|reflexivity].
    rewrite rmatch_Seq. unfold image_extensions in He.
    match goal with |- match ?m with _ => _ end <> None =>
      cut (m <> None); [destruct m; [discriminate | congruence]|] end.
    repeat (rewrite rmatch_Alt; apply orelse_found;
            destruct He as [<- | He]; [left; apply (lit_Eol_found ext); [reflexivity | exact Hm]|];
            right).
    destruct He as [<- | []]. apply (lit_Eol_found ext); [reflexivity | exact Hm].
Qed.

(** X7. [isImageUrl] is true exactly when the url, cut at its first question
    mark, ends with a dot and one of [jpg], [jpeg], [png], [gif], [webp],
    [bmp], [svg] in any mix of upper and lower case. *)
Theorem isImageUrl_extension (url : jsstring) :
  Image.isImageUrl url = true <-> has_image_extension (Image.before_query url).
Proof.
  unfold Image.isImageUrl, has_image_extension.
  destruct (Image.before_query url) as [|c p] eqn:E.
  - split; [discriminate|]. intros (stem & ext & e & H & _). destruct stem; discriminate.
  - rewrite test_true. split.
    + intros (pre & t & Hs & He). apply exec_at_IMAGE_EXTENSIONS in He as (ext & e & -> & Hin & Hm).
      exists pre, ext, e. auto.
    + intros (stem & ext & e & Hs & Hin & Hm). exists stem, (ch "." :: ext).
      split; [exact Hs|]. apply exec_at_IMAGE_EXTENSIONS. eauto.
Qed.

(** ** The staff table (lib/staffLoader.ts) *)

Lemma hashUserId_missing e uid :
  ~ pepper_set e -> exists msg, Hash.hashUserId e uid = Throw msg.
Proof.
  intros H. unfold Hash.hashUserId.
  destruct (e !! "PII_PEPPER"%string) as [[|c p]|] eqn:E; eauto.
  exfalso. apply H. exists c, p. exact E.
Qed.

Lemma db_io_rejected w e l :
  db_events w = e :: l -> fails e = true ->
  exists msg w1, db_io w = (Throw msg, w1) /\ store w1 = store w.
Proof.
  intros E F. unfold db_io. rewrite E, F. eexists _, _. split; reflexivity.
Qed.

(** X8. A role added with [addStaffRole] is seen by [isStaff], and by
    [getStaffTag] unless the tag is the empty string, which [public_tag ||
    null] turns into no tag; the other rows stay. After [removeStaffRole]
    the user is not staff; the result says whether a row was there. *)
Theorem staff_role_round_trip (uid tag addedBy : jsstring) (w : World) :
  db_ok w -> pepper_set (env w) ->
  (exists h w1,
     Hash.hashUserId (env w) uid = Ok h /\
     StaffRoles.addStaffRole uid tag addedBy w = (Ok true, w1) /\
     staff_roles (store w1) = <[h := tag]> (staff_roles (store w)) /\
     fst (StaffRoles.isStaff uid w1) = Ok true /\
     fst (StaffLoader.getStaffTag uid w1) = Ok (match tag with [] => None | _ => Some tag end)) /\
  (exists h w1,
     Hash.hashUserId (env w) uid = Ok h /\
     StaffRoles.removeStaffRole uid w =
       (Ok (bool_decide (is_Some (staff_roles (store w) !! h))), w1) /\
     staff_roles (store w1) = delete h (staff_roles (store w)) /\
     fst (StaffRoles.isStaff uid w1) = Ok false /\
     fst (StaffLoader.getStaffTag uid w1) = Ok None).
Proof.
  intros Hdb Hp. destruct (hashUserId_ok (env w) uid Hp) as [h Hh].
  assert (Hlook : forall w1, follows w w1 ->
            fst (StaffRoles.isStaff uid w1)
              = Ok (bool_decide (is_Some (staff_roles (store w1) !! h))) /\
            fst (StaffLoader.getStaffTag uid w1)
              = Ok (match staff_roles (store w1) !! h with
                    | Some (c :: t) => Some (c :: t)
                    | _ => None
                    end)).
  { intros w1 (He & _ & Hk). split.
    - unfold StaffRoles.isStaff, try_catch.
      rewrite (bind_ok _ _ _ _ _ (gets_run env w1)). rewrite He.
      assert (Hl : lift (Hash.hashUserId (env w) uid) w1 = (Ok h, w1))
        by (unfold lift; rewrite Hh; reflexivity).
      rewrite (bind_ok _ _ _ _ _ Hl). unfold StaffRoles.count_staff_roles.
      destruct (read_ok (fun s => match staff_roles s !! h with
                                  | Some _ => [1%Z] | None => [0%Z] end) w1 Hk)
        as (w2 & H2 & _ & _).
      rewrite (bind_ok _ _ _ _ _ H2). unfold ret. simpl.
      destruct (staff_roles (store w1) !! h); reflexivity.
    - unfold StaffLoader.getStaffTag, try_catch.
      rewrite (bind_ok _ _ _ _ _ (gets_run env w1)). rewrite He.
      assert (Hl : lift (Hash.hashUserId (env w) uid) w1 = (Ok h, w1))
        by (unfold lift; rewrite Hh; reflexivity).
      rewrite (bind_ok _ _ _ _ _ Hl). unfold Db.select_staff_tag.
      destruct (read_ok (fun s => match staff_roles s !! h with
                                  | Some t => [t] | None => [] end) w1 Hk)
        as (w2 & H2 & _ & _).
      rewrite (bind_ok _ _ _ _ _ H2). unfold ret. simpl.
      destruct (staff_roles (store w1) !! h) as [[|c t]|]; reflexivity. }
  assert (Hl : lift (Hash.hashUserId (env w) uid) w = (Ok h, w))
    by (unfold lift; rewrite Hh; reflexivity).
  split.
  - destruct (write_ok (fun (_ : Time) s =>
                Db.with_staff_roles (<[h := tag]> (staff_roles s)) s) w Hdb)
      as (w1 & t & H1 & Hf & Hs).
    exists h, w1. split; [exact Hh|].
    assert (Hst : staff_roles (store w1) = <[h := tag]> (staff_roles (store w)))
      by (rewrite Hs; reflexivity).
    split.
    { unfold StaffRoles.addStaffRole, try_catch.
      rewrite (bind_ok _ _ _ _ _ (gets_run env w)), (bind_ok _ _ _ _ _ Hl).
      unfold Db.upsert_staff_role. rewrite (bind_ok _ _ _ _ _ H1). reflexivity. }
    split; [exact Hst|].
    destruct (Hlook w1 Hf) as [Hi Hg]. rewrite Hi, Hg, Hst, lookup_insert_eq.
    split; [reflexivity|]. destruct tag; reflexivity.
  - destruct (db_io_ok w Hdb) as (w1 & H1 & Hf & Hs).
    set (w2 := set_store (Db.with_staff_roles (delete h (staff_roles (store w1)))) w1).
    exists h, w2.
    split; [exact Hh|].
    assert (Hst : staff_roles (store w2) = delete h (staff_roles (store w)))
      by (unfold w2; simpl; rewrite Hs; reflexivity).
    split.
    { unfold StaffRoles.removeStaffRole, try_catch.
      rewrite (bind_ok _ _ _ _ _ (gets_run env w)), (bind_ok _ _ _ _ _ Hl).
      assert (Hd : StaffRoles.delete_staff_role h w
                   = (Ok (match staff_roles (store w) !! h with
                          | Some _ => 1%Z | None => 0%Z end), w2)).
      { unfold StaffRoles.delete_staff_role. rewrite (bind_ok _ _ _ _ _ H1).
        rewrite (bind_ok _ _ _ _ _ (gets_run store w1)).
        unfold bind, modify, ret. fold w2. rewrite Hs. reflexivity. }
      rewrite (bind_ok _ _ _ _ _ Hd). unfold ret.
      destruct (staff_roles (store w) !! h) eqn:E.
      - rewrite bool_decide_eq_true_2 by eauto. reflexivity.
      - rewrite bool_decide_eq_false_2 by (intros [? ?]; discriminate). reflexivity. }
    split; [exact Hst|].
    assert (Hf2 : follows w w2) by (destruct Hf as (? & ? & ?); repeat split; assumption).
    destruct (Hlook w2 Hf2) as [Hi Hg]. rewrite Hi, Hg, Hst, lookup_delete_eq.
    split; [|reflexivity].
    rewrite bool_decide_eq_false_2 by (intros [? ?]; discriminate). reflexivity.
Qed.

Lemma staff_role_round_trip_witness :
  (exists h w1,
     Hash.hashUserId (env Scenario.world) (str "111") = Ok h /\
     StaffRoles.addStaffRole (str "111") (str "Mod") (str "admin") Scenario.world = (Ok true, w1) /\
     staff_roles (store w1) = <[h := str "Mod"]> (staff_roles (store Scenario.world)) /\
     fst (StaffRoles.isStaff (str "111") w1) = Ok true /\
     fst (StaffLoader.getStaffTag (str "111") w1) = Ok (Some (str "Mod"))) /\
  (exists h w1,
     Hash.hashUserId (env Scenario.world) (str "111") = Ok h /\
     StaffRoles.removeStaffRole (str "111") Scenario.world =
       (Ok (bool_decide (is_Some (staff_roles (store Scenario.world) !! h))), w1) /\
     staff_roles (store w1) = delete h (staff_roles (store Scenario.world)) /\
     fst (StaffRoles.isStaff (str "111") w1) = Ok false /\
     fst (StaffLoader.getStaffTag (str "111") w1) = Ok None).
Proof.
  apply (staff_role_round_trip (str "111") (str "Mod") (str "admin") Scenario.world).
  - constructor.
  - exists 48, (tl Scenario.pepper). reflexivity.
Defined.

(** X9. Without PII_PEPPER, or when the statement is rejected, the staff
    functions answer false (no tag) instead of throwing, and the staff table
    stays as it was. *)
Theorem staff_functions_fail_closed (uid tag addedBy : jsstring) (w : World) :
  ~ pepper_set (env w) \/ (exists e l, db_events w = e :: l /\ fails e = true) ->
  fst (StaffRoles.isStaff uid w) = Ok false /\
  fst (StaffLoader.getStaffTag uid w) = Ok None /\
  (fst (StaffRoles.addStaffRole uid tag addedBy w) = Ok false /\
   store (snd (StaffRoles.addStaffRole uid tag addedBy w)) = store w) /\
  (fst (StaffRoles.removeStaffRole uid w) = Ok false /\
   store (snd (StaffRoles.removeStaffRole uid w)) = store w).
Proof.
  intros [Hp | (e & l & E & F)].
  - destruct (hashUserId_missing (env w) uid Hp) as [msg Hh].
    unfold StaffRoles.isStaff, StaffLoader.getStaffTag, StaffRoles.addStaffRole,
      StaffRoles.removeStaffRole, try_catch, bind, gets, lift. rewrite Hh. simpl. auto.
  - destruct (db_io_rejected w e l E F) as (msg & w1 & H1 & Hs).
    unfold StaffRoles.isStaff, StaffLoader.getStaffTag, StaffRoles.addStaffRole,
      StaffRoles.removeStaffRole, StaffRoles.count_staff_roles, StaffRoles.delete_staff_role,
      Db.select_staff_tag, Db.upsert_staff_role, Db.read, Db.write, try_catch, bind, gets, lift.
    rewrite H1. destruct (Hash.hashUserId (env w) uid); simpl; auto.
Qed.

Lemma staff_functions_fail_closed_witness :
  fst (StaffRoles.isStaff (str "111") world_without_pepper) = Ok false /\
  fst (StaffLoader.getStaffTag (str "111") world_without_pepper) = Ok None /\
  (fst (StaffRoles.addStaffRole (str "111") (str "Mod") (str "admin") world_without_pepper)
     = Ok false /\
   store (snd (StaffRoles.addStaffRole (str "111") (str "Mod") (str "admin")
                 world_without_pepper)) = store world_without_pepper) /\
  (fst (StaffRoles.removeStaffRole (str "111") world_without_pepper) = Ok false /\
   store (snd (StaffRoles.removeStaffRole (str "111") world_without_pepper))
     = store world_without_pepper).
Proof.
  apply (staff_functions_fail_closed (str "111") (str "Mod") (str "admin") world_without_pepper).
  left. intros (c & p & H). vm_compute in H. discriminate H.
Defined.

(** ** The delta pass of a thread (lib/smartSync.ts) *)

Lemma insert_by_id_desc_In x l m : In m (insert_by_id_desc x l) -> m = x \/ In m l.
Proof.
  induction l as [|y l IH]; simpl.
  - intros [<-|[]]. auto.
  - destruct (m_id y <=? m_id x)%Z; simpl.
    + intros [<-|H]; auto.
    + intros [<-|H]; auto. destruct (IH H); auto.
Qed.

Lemma newest_first_In l m : In m (newest_first l) -> In m l.
Proof.
  induction l as [|x l IH]; simpl; [auto|].
  intros H. apply insert_by_id_desc_In in H as [->|H]; auto.
Qed.

Lemma filter_all {A} (f : A -> bool) l : Forall (fun x => f x = true) l -> List.filter f l = l.
Proof.
  induction 1 as [|x l Hx _ IH]; simpl; [reflexivity|]. rewrite Hx, IH. reflexivity.
Qed.

Lemma fetch_after_below thread after :
  Forall (fun m => (after < m_id m)%Z) (t_messages thread) ->
  messages_fetch_after thread after =
    (net_io ;; ret (rev (firstn 50 (rev (newest_first (t_messages thread)))))).
Proof.
  intros H. unfold messages_fetch_after. rewrite filter_all; [reflexivity|].
  apply Forall_forall. intros m Hm. apply list_elem_of_In in Hm. apply newest_first_In in Hm.
  rewrite Forall_forall in H. apply bool_decide_eq_true_2. apply H.
  apply list_elem_of_In. exact Hm.
Qed.

(** X10. [syncThreadDelta] passes the cursor's millisecond count where the
    platform expects a message id. When every message id of the thread is
    above that number, as the ids the platform issues are, the fetch returns
    the (at most 50) messages of lowest id whatever the cursor is, and the
    whole delta pass of the thread is the same for any two such cursors. *)
Theorem syncThreadDelta_ignores_cursor (thread : ThreadChannel) (since1 since2 : Time) :
  Forall (fun m => (since1 < m_id m)%Z /\ (since2 < m_id m)%Z) (t_messages thread) ->
  messages_fetch_after thread since1 =
    (net_io ;; ret (rev (firstn 50 (rev (newest_first (t_messages thread)))))) /\
  SmartSync.syncThreadDelta thread since1 = SmartSync.syncThreadDelta thread since2.
Proof.
  intros H.
  assert (H1 : Forall (fun m => (since1 < m_id m)%Z) (t_messages thread))
    by (eapply Forall_impl; [exact H|]; intros m [? ?]; assumption).
  assert (H2 : Forall (fun m => (since2 < m_id m)%Z) (t_messages thread))
    by (eapply Forall_impl; [exact H|]; intros m [? ?]; assumption).
  split; [apply fetch_after_below; exact H1|].
  unfold SmartSync.syncThreadDelta.
  rewrite (fetch_after_below thread since1 H1), (fetch_after_below thread since2 H2).
  reflexivity.
Qed.

Lemma syncThreadDelta_ignores_cursor_witness :
  messages_fetch_after (Scenario.thread [Scenario.M1; Scenario.M2; Scenario.M3]) 0 =
    (net_io ;; ret (rev (firstn 50 (rev (newest_first
       (t_messages (Scenario.thread [Scenario.M1; Scenario.M2; Scenario.M3]))))))) /\
  SmartSync.syncThreadDelta (Scenario.thread [Scenario.M1; Scenario.M2; Scenario.M3]) 0 =
  SmartSync.syncThreadDelta (Scenario.thread [Scenario.M1; Scenario.M2; Scenario.M3]) 499.
Proof.
  apply (syncThreadDelta_ignores_cursor
           (Scenario.thread [Scenario.M1; Scenario.M2; Scenario.M3]) 0 499).
  repeat constructor.
Defined.

(** ** Paging through a thread ([fetchAllMessages]) *)

Lemma insert_by_id_desc_perm x l : Permutation (insert_by_id_desc x l) (x :: l).
Proof.
  induction l as [|y l IH]; simpl; [reflexivity|].
  destruct (m_id y <=? m_id x)%Z; [reflexivity|].
  rewrite IH. apply perm_swap.
Qed.

Lemma newest_first_perm l : Permutation (newest_first l) l.
Proof.
  unfold newest_first. induction l as [|x l IH]; simpl; [reflexivity|].
  rewrite insert_by_id_desc_perm, IH. reflexivity.
Qed.

Lemma insert_by_id_desc_sorted x l :
  desc_ids l -> ~ In (m_id x) (map m_id l) -> desc_ids (insert_by_id_desc x l).
Proof.
  induction l as [|y l IH]; simpl; intros Hd Hn.
  - split; [constructor | exact I].
  - destruct Hd as [Hy Hl]. destruct (Z.leb_spec (m_id y) (m_id x)) as [Hle|Hlt].
    + simpl. split; [|split; assumption].
      assert (Hyx : (m_id y < m_id x)%Z) by (assert (m_id y <> m_id x) by tauto; lia).
      constructor; [exact Hyx|].
      eapply Forall_impl; [exact Hy|]. intros z Hz. cbv beta in Hz. lia.
    + simpl. split.
      * rewrite insert_by_id_desc_perm.
        constructor; [exact Hlt | exact Hy].
      * apply IH; [exact Hl | tauto].
Qed.

Lemma newest_first_sorted l : NoDup (map m_id l) -> desc_ids (newest_first l).
Proof.
  induction l as [|x l IH]; simpl; intros H; [exact I|].
  apply NoDup_cons in H as [Hx Hl].
  apply insert_by_id_desc_sorted; [apply IH; exact Hl|].
  intros Hin. apply Hx. apply list_elem_of_In.
  apply in_map_iff in Hin as (y & Hy & Hin). apply in_map_iff. exists y.
  split; [exact Hy|]. apply newest_first_In. exact Hin.
Qed.

Lemma desc_ids_app a b :
  desc_ids (a ++ b) ->
  desc_ids a /\ desc_ids b /\
  Forall (fun x => Forall (fun y => (m_id y < m_id x)%Z) b) a.
Proof.
  induction a as [|x a IH]; simpl.
  - intros H. repeat split; [exact H | constructor].
  - intros [Hx Ha]. apply Forall_app in Hx as [Hxa Hxb].
    destruct (IH Ha) as (H1 & H2 & H3). repeat split; auto.
Qed.

(** On a descending list cut after [a], the page before the last id of [a]
    is what follows the cut. *)
Lemma page_after_cut a b :
  desc_ids (a ++ b) ->
  List.filter (before_id (option_map m_id (last a))) (a ++ b) = b.
Proof.
  intros H. destruct (desc_ids_app a b H) as (Ha & Hb & Hab).
  destruct (last a) as [z|] eqn:Ez; simpl.
  - apply last_Some in Ez as [a' ->].
    rewrite List.filter_app.
    assert (Hz : Forall (fun y => (m_id y < m_id z)%Z) b).
    { apply Forall_app in Hab as [_ Hzb]. inversion Hzb; assumption. }
    rewrite (filter_all _ b).
    2:{ eapply Forall_impl; [exact Hz|]. intros y Hy. apply bool_decide_eq_true_2. exact Hy. }
    assert (Hnone : List.filter (fun m => bool_decide (m_id m < m_id z)%Z) (a' ++ [z]) = []).
    { destruct (desc_ids_app a' [z] Ha) as (_ & _ & Haz).
      rewrite List.filter_app. simpl.
      rewrite bool_decide_eq_false_2 by lia.
      rewrite app_nil_r. clear -Haz. induction Haz as [|x l Hx _ IH]; simpl; [reflexivity|].
      inversion Hx as [|? ? Hlt _]; subst.
      rewrite bool_decide_eq_false_2 by lia. exact IH. }
    unfold before_id. rewrite Hnone. reflexivity.
  - apply last_None in Ez. subst a. simpl. apply filter_all.
    apply Forall_forall. intros; reflexivity.
Qed.

Lemma coll_set_new {A} id (v : A) (c : Collection A) :
  ~ In id (map fst c) -> coll_set id v c = c ++ [(id, v)].
Proof.
  induction c as [|[j u] c IH]; simpl; intros H; [reflexivity|].
  destruct (Z.eqb_spec j id) as [->|Hne]; [tauto|].
  rewrite IH by tauto. reflexivity.
Qed.

Lemma map_fst_entry l : map fst (map entry l) = map m_id l.
Proof. rewrite map_map. reflexivity. Qed.

Lemma coll_set_all_new batch : forall done,
  NoDup (map m_id (done ++ batch)) ->
  coll_set_all m_id batch (map entry done) = map entry (done ++ batch).
Proof.
  unfold coll_set_all. induction batch as [|m batch IH]; intros done H; simpl.
  - rewrite app_nil_r. reflexivity.
  - rewrite coll_set_new.
    + change (map entry done ++ [(m_id m, m)]) with (map entry done ++ map entry [m]).
      rewrite <- map_app. rewrite IH; rewrite <- app_assoc; [reflexivity | exact H].
    + rewrite map_fst_entry. rewrite map_app in H. apply NoDup_app in H as (_ & Hd & _).
      intros Hin. apply (Hd (m_id m)); [apply list_elem_of_In; exact Hin|].
      simpl. left.
Qed.

Lemma fetch_before_cases thread lastId w :
  (exists e w1, messages_fetch_before thread lastId w = (Throw e, w1)) \/
  (exists w1, messages_fetch_before thread lastId w
     = (Ok (firstn 100 (List.filter (before_id lastId) (newest_first (t_messages thread)))), w1)
     /\ (net_ok w -> net_ok w1)).
Proof.
  unfold messages_fetch_before, bind, net_io, ret, net_ok.
  destruct (net_events w) as [|e l] eqn:E.
  - right. eexists. split; [reflexivity|]. rewrite E. auto.
  - destruct (fails e) eqn:F.
    + left. eauto.
    + right. eexists. split; [reflexivity|]. simpl. intros H. inversion H; assumption.
Qed.

Lemma fetch_before_ok thread lastId w :
  net_ok w ->
  exists w1, messages_fetch_before thread lastId w
     = (Ok (firstn 100 (List.filter (before_id lastId) (newest_first (t_messages thread)))), w1)
     /\ net_ok w1.
Proof.
  intros H. unfold messages_fetch_before, bind, net_io, ret, net_ok in *.
  destruct (net_events w) as [|e l] eqn:E.
  - eexists. split; [reflexivity|]. rewrite E. constructor.
  - inversion H as [|? ? He Hl]; subst. rewrite He. eexists. split; [reflexivity|]. exact Hl.
Qed.

Lemma fetch_step_page thread (c : Collection Message) lastId w :
  let page := firstn 100 (List.filter (before_id lastId) (newest_first (t_messages thread))) in
  let step :=
    try_catch
      (do batch <- messages_fetch_before thread lastId;
       match batch with
       | [] => ret None
       | _ => sleep 100 ;;
              ret (Some (coll_set_all m_id batch c, option_map m_id (last batch)))
       end)
      (fun _ => ret None) in
  (exists w1, step w = (Ok None, w1) /\ (net_ok w -> page = [])) \/
  (exists w1, page <> [] /\
     step w = (Ok (Some (coll_set_all m_id page c, option_map m_id (last page))), w1) /\
     (net_ok w -> net_ok w1)).
Proof.
  intros page step. unfold step, try_catch.
  destruct (fetch_before_cases thread lastId w) as [(e & w1 & H1) | (w1 & H1 & Hok)].
  - left. rewrite (bind_throw _ _ _ _ _ H1). exists w1. split; [reflexivity|].
    intros Hw. exfalso. destruct (fetch_before_ok thread lastId w Hw) as (w2 & H2 & _).
    rewrite H2 in H1. discriminate H1.
  - rewrite (bind_ok _ _ _ _ _ H1). fold page. destruct page as [|m rest] eqn:E.
    + left. exists w1. split; [reflexivity | reflexivity].
    + right. eexists. split; [discriminate|]. split; [reflexivity|]. exact Hok.
Qed.

Lemma fetchAllMessages_loop_prefix thread :
  NoDup (map m_id (t_messages thread)) ->
  forall fuel k w,
    (length (skipn k (newest_first (t_messages thread))) < fuel)%nat ->
    exists k' w',
      fetchAllMessages_loop fuel thread
        (map entry (firstn k (newest_first (t_messages thread))))
        (option_map m_id (last (firstn k (newest_first (t_messages thread))))) w
      = (Ok (map entry (firstn k' (newest_first (t_messages thread)))), w') /\
      (net_ok w -> (length (t_messages thread) <= k')%nat).
Proof.
  intros Hnd. set (L := newest_first (t_messages thread)).
  assert (HL : desc_ids L) by (apply newest_first_sorted; exact Hnd).
  assert (HndL : NoDup (map m_id L)).
  { assert (Hp : Permutation (map m_id L) (map m_id (t_messages thread)))
      by apply Permutation_map, newest_first_perm.
    rewrite Hp. exact Hnd. }
  assert (Hlen : length L = length (t_messages thread))
    by (apply Permutation_length, newest_first_perm).
  induction fuel as [|fuel IH]; intros k w Hfuel; [lia|].
  cbn [fetchAllMessages_loop].
  assert (Hpage : List.filter (before_id (option_map m_id (last (firstn k L)))) L = skipn k L).
  { rewrite <- (firstn_skipn k L) at 2. apply page_after_cut. rewrite firstn_skipn. exact HL. }
  assert (Hs : length (skipn k L) = (length L - k)%nat) by apply length_skipn.
  rewrite Hs in Hfuel.
  destruct (fetch_step_page thread (map entry (firstn k L))
              (option_map m_id (last (firstn k L))) w)
    as [(w1 & H1 & Hend) | (w1 & Hb & H1 & Hok)];
    fold L in H1; rewrite (bind_ok _ _ _ _ _ H1).
  - (* a rejected request or an empty page: the end *)
    exists k, w1. split; [reflexivity|]. intros Hw. specialize (Hend Hw).
    fold L in Hend. rewrite Hpage in Hend. rewrite <- Hlen.
    destruct (skipn k L) as [|m rest]; [simpl in Hs; lia | discriminate Hend].
  - fold L in Hb. rewrite Hpage in *. set (batch := firstn 100 (skipn k L)) in *.
    assert (Hcat : firstn k L ++ batch = firstn (k + 100) L) by apply take_take_drop.
    assert (Hset : coll_set_all m_id batch (map entry (firstn k L))
                   = map entry (firstn (k + 100) L)).
    { rewrite coll_set_all_new; [rewrite Hcat; reflexivity|].
      rewrite Hcat. rewrite <- (firstn_skipn (k + 100) L) in HndL.
      rewrite map_app in HndL. apply NoDup_app in HndL as (Hn & _). exact Hn. }
    assert (Hlast : option_map m_id (last batch)
                    = option_map m_id (last (firstn (k + 100) L))).
    { rewrite <- Hcat. destruct batch as [|b0 batch0]; [congruence|].
      rewrite last_app_cons. reflexivity. }
    rewrite Hset, Hlast.
    destruct (IH (k + 100)%nat w1) as (k' & w' & H' & Hk').
    { rewrite length_skipn. destruct (skipn k L) as [|m rest] eqn:Es.
      - exfalso. apply Hb. reflexivity.
      - simpl in Hs. lia. }
    exists k', w'. split; [exact H'|]. intros Hw. apply Hk', Hok, Hw.
Qed.

(** X11. [fetchAllMessages] never throws. On a thread whose messages have
    distinct ids it returns the newest messages of the thread, newest
    first, each once under its id: a rejected page request ends the paging
    with the pages read so far, and with no rejected request the result is
    the whole thread. *)
Theorem fetchAllMessages_newest_prefix (thread : ThreadChannel) (w : World) :
  NoDup (map m_id (t_messages thread)) ->
  exists k w',
    fetchAllMessages thread w
      = (Ok (map entry (firstn k (newest_first (t_messages thread)))), w') /\
    (net_ok w -> firstn k (newest_first (t_messages thread)) = newest_first (t_messages thread)).
Proof.
  intros Hnd.
  destruct (fetchAllMessages_loop_prefix thread Hnd (S (length (t_messages thread))) 0 w)
    as (k & w' & H & Hk).
  { rewrite length_skipn, (Permutation_length (newest_first_perm _)). lia. }
  exists k, w'. split; [exact H|].
  intros Hw. apply firstn_all2. rewrite (Permutation_length (newest_first_perm _)). auto.
Qed.

Lemma fetchAllMessages_newest_prefix_witness :
  exists k w',
    fetchAllMessages (Scenario.thread [Scenario.M1; Scenario.M2; Scenario.M3]) Scenario.world
      = (Ok (map entry (firstn k (newest_first
               (t_messages (Scenario.thread [Scenario.M1; Scenario.M2; Scenario.M3]))))), w') /\
    (net_ok Scenario.world ->
     firstn k (newest_first (t_messages (Scenario.thread [Scenario.M1; Scenario.M2; Scenario.M3])))
     = newest_first (t_messages (Scenario.thread [Scenario.M1; Scenario.M2; Scenario.M3]))).
Proof.
  apply (fetchAllMessages_newest_prefix
           (Scenario.thread [Scenario.M1; Scenario.M2; Scenario.M3]) Scenario.world).
  simpl. repeat (apply NoDup_cons; split; [rewrite ?elem_of_cons, ?elem_of_nil; lia|]).
  apply NoDup_nil_2.
Defined.

(** ** Thread rows and the unique slug (lib/smartSync.ts, init.sql) *)

Lemma try_catch_ret_total {A} (m : M A) (d : A) w :
  exists r, try_catch m (fun _ => ret d) w = (Ok r, snd (m w)).
Proof. unfold try_catch. destruct (m w) as [[a|e] w1]; simpl; eauto. Qed.

Lemma getStaffTag_ok uid w :
  db_ok w ->
  exists r w1, StaffLoader.getStaffTag uid w = (Ok r, w1) /\ follows w w1 /\ store w1 = store w.
Proof.
  intros H. unfold StaffLoader.getStaffTag, try_catch.
  rewrite (bind_ok _ _ _ _ _ (gets_run env w)).
  destruct (Hash.hashUserId (env w) uid) as [h|msg] eqn:Eh.
  - assert (Hl : @lift jsstring (Ok h) w = (Ok h, w)) by reflexivity.
    rewrite (bind_ok _ _ _ _ _ Hl). unfold Db.select_staff_tag.
    destruct (read_ok (fun s => match staff_roles s !! h with
                                | Some t => [t] | None => [] end) w H)
      as (w1 & H1 & Hf & Hs).
    rewrite (bind_ok _ _ _ _ _ H1). unfold ret. eauto.
  - assert (Hl : @lift jsstring (Throw msg) w = (Throw msg, w)) by reflexivity.
    rewrite (bind_throw _ _ _ _ _ Hl). unfold ret. exists None, w.
    split; [reflexivity|]. split; [|reflexivity]. repeat split. exact H.
Qed.

Lemma starter_body_core thread :
  preserves core
    (try_catch
       (do starterMessage <- fetchStarterMessage thread;
        match starterMessage with
        | Some sm =>
            if negb (m_author_bot sm)
            then Image.append_images (sanitize_html (m_content sm)) (m_attachments sm)
            else ret []
        | None => ret []
        end)
       (fun _ => ret [])).
Proof.
  unfold fetchStarterMessage.
  apply preserves_try_catch; [|intros; apply preserves_ret].
  apply preserves_bind; [repeat core_step|].
  intros [sm|]; [|apply preserves_ret].
  destruct (negb (m_author_bot sm)); [apply append_images_core | apply preserves_ret].
Qed.

Lemma slug_owner_Some (ths : gmap Z ThreadRow) slug j0 row0 :
  ths !! j0 = Some row0 -> th_slug row0 = slug ->
  exists j row, Db.slug_owner ths slug = Some j /\ ths !! j = Some row /\ th_slug row = slug.
Proof.
  intros H0 Hs. unfold Db.slug_owner.
  destruct (List.filter (fun ir : Z * ThreadRow => bool_decide (th_slug (snd ir) = slug))
              (map_to_list ths)) as [|[j row] rest] eqn:E.
  - exfalso.
    assert (Hin : In (j0, row0)
              (List.filter (fun ir : Z * ThreadRow => bool_decide (th_slug (snd ir) = slug))
                 (map_to_list ths))).
    { apply List.filter_In. split.
      - apply list_elem_of_In, elem_of_map_to_list. exact H0.
      - apply bool_decide_eq_true_2. exact Hs. }
    rewrite E in Hin. destruct Hin.
  - exists j, row. split; [reflexivity|].
    assert (Hin : In (j, row)
              (List.filter (fun ir : Z * ThreadRow => bool_decide (th_slug (snd ir) = slug))
                 (map_to_list ths))) by (rewrite E; left; reflexivity).
    apply List.filter_In in Hin as [Hin Hb]. split.
    + apply elem_of_map_to_list, list_elem_of_In. exact Hin.
    + apply bool_decide_eq_true_1 in Hb. exact Hb.
Qed.

(** X12. [threads.slug] is UNIQUE and [upsertThread] computes the slug from
    the title alone. A thread that is not stored yet and whose slug a stored
    row holds gets no row of its own: the upsert succeeds and rewrites the
    title, body and tags of the row that holds the slug, which keeps its id,
    channel, author alias and reply count. *)
Theorem upsertThread_slug_collision (thread : ThreadChannel) (w : World)
  (j0 : Snowflake) (row0 : ThreadRow) :
  db_ok w -> pepper_set (env w) ->
  threads (store w) !! t_id thread = None ->
  threads (store w) !! j0 = Some row0 ->
  th_slug row0 = Slug.upsertThread_slug (t_name thread) ->
  exists w' j old new,
    SmartSync.upsertThread thread w = (Ok tt, w') /\
    threads (store w) !! j = Some old /\
    th_slug old = Slug.upsertThread_slug (t_name thread) /\
    threads (store w') = <[j := new]> (threads (store w)) /\
    threads (store w') !! t_id thread = None /\
    th_title new = t_name thread /\ th_tags new = Some (t_appliedTags thread) /\
    th_slug new = th_slug old /\ th_channel_id new = th_channel_id old /\
    th_author_alias new = th_author_alias old /\ th_reply_count new = th_reply_count old.
Proof.
  intros Hdb Hp Hnew H0 Hslug. unfold SmartSync.upsertThread.
  rewrite (bind_ok _ _ _ _ _ (gets_run env w)).
  destruct (hashUserId_ok (env w) (t_ownerId thread) Hp) as [h Hh].
  assert (Hl : lift (Hash.hashUserId (env w) (t_ownerId thread)) w = (Ok h, w))
    by (unfold lift; rewrite Hh; reflexivity).
  rewrite (bind_ok _ _ _ _ _ Hl).
  destruct (getStaffTag_ok (t_ownerId thread) w Hdb) as (tag & w1 & H1 & Hf1 & Hs1).
  rewrite (bind_ok _ _ _ _ _ H1).
  match goal with
  | |- context [try_catch ?m (fun _ => ret [])] =>
      destruct (try_catch_ret_total m [] w1) as [body H2];
      pose proof (starter_body_core thread w1) as Hc2
  end.
  rewrite H2 in Hc2. simpl in Hc2.
  rewrite (bind_ok _ _ _ _ _ H2).
  match type of H2 with _ = (_, ?x) => set (w2 := x) in * end.
  destruct (follows_core w1 w2 (proj2 (proj2 Hf1)) Hc2) as [Hf2 Hs2].
  rewrite (bind_ok _ _ _ _ _ (gets_run now w2)).
  destruct (db_io_ok w2 (proj2 (proj2 Hf2))) as (w3 & H3 & Hf3 & Hs3).
  assert (Hst : store w3 = store w) by congruence.
  destruct (slug_owner_Some (threads (store w)) _ j0 row0 H0 Hslug)
    as (j & old & Ho & Hj & Hjs).
  unfold Db.upsert_thread. rewrite (bind_ok _ _ _ _ _ H3).
  rewrite (bind_ok _ _ _ _ _ (gets_run store w3)).
  eexists _, j, old, _. split.
  { rewrite Hst. cbn [th_slug]. rewrite Hnew, Ho, Hj. unfold modify. reflexivity. }
  split; [exact Hj|]. split; [exact Hjs|]. cbn [store set_store threads Db.with_threads].
  split; [reflexivity|].
  split.
  { rewrite lookup_insert_ne; [exact Hnew|]. intros ->. congruence. }
  cbn. rewrite Hjs. auto 10.
Qed.

Lemma upsertThread_slug_collision_witness :
  exists w' j old new,
    SmartSync.upsertThread (Scenario.thread [Scenario.M1])
      (Scenario.world_of store_with_namesake Scenario.env0 Scenario.client [] []) = (Ok tt, w') /\
    threads store_with_namesake !! j = Some old /\
    th_slug old = Slug.upsertThread_slug (str "How do I X?") /\
    threads (store w') = <[j := new]> (threads store_with_namesake) /\
    threads (store w') !! 500%Z = None /\
    th_title new = str "How do I X?" /\ th_tags new = Some [] /\
    th_slug new = th_slug old /\ th_channel_id new = th_channel_id old /\
    th_author_alias new = th_author_alias old /\ th_reply_count new = th_reply_count old.
Proof.
  apply (upsertThread_slug_collision (Scenario.thread [Scenario.M1])
           (Scenario.world_of store_with_namesake Scenario.env0 Scenario.client [] [])
           600%Z namesake_row).
  - constructor.
  - exists 48, (tl Scenario.pepper). reflexivity.
  - reflexivity.
  - reflexivity.
  - vm_compute. reflexivity.
Defined.

(** ** What the message loop of smartSync.ts writes *)

Section StoreFrame.
Context {X : Type} (h : Store -> X).

Lemma db_io_store : preserves (fun w => h (store w)) db_io.
Proof.
  intros w. unfold db_io. destruct (db_events w) as [|e l]; [reflexivity|].
  destruct (fails e); reflexivity.
Qed.

Lemma read_store {A} (g : Store -> A) : preserves (fun w => h (store w)) (Db.read g).
Proof.
  unfold Db.read. apply preserves_bind; [apply db_io_store | intros _; apply preserves_gets].
Qed.

Lemma write_store g :
  (forall t s, h (g t s) = h s) -> preserves (fun w => h (store w)) (Db.write g).
Proof.
  intros H. unfold Db.write. apply preserves_bind; [apply db_io_store | intros _].
  apply preserves_modify. intros w. simpl. apply H.
Qed.

Lemma core_store {A} (m : M A) : preserves core m -> preserves (fun w => h (store w)) m.
Proof.
  intros H w. specialize (H w). unfold core in H.
  assert (Hs : store (snd (m w)) = store w) by congruence.
  rewrite Hs. reflexivity.
Qed.

Lemma getStaffTag_store uid : preserves (fun w => h (store w)) (StaffLoader.getStaffTag uid).
Proof.
  unfold StaffLoader.getStaffTag, Db.select_staff_tag.
  apply preserves_try_catch; [|intros; apply preserves_ret].
  apply preserves_bind; [apply preserves_gets | intros e].
  apply preserves_bind; [apply preserves_lift | intros hashedId].
  apply preserves_bind; [apply read_store | intros; apply preserves_ret].
Qed.

(** [upsertPost] changes the store through its INSERT alone. *)
Lemma upsertPost_store message :
  (forall r s, h (Db.with_posts (<[m_id message := r]> (posts s)) s) = h s) ->
  preserves (fun w => h (store w)) (SmartSync.upsertPost message).
Proof.
  intros Hh. unfold SmartSync.upsertPost.
  apply preserves_bind; [apply preserves_gets | intros e].
  apply preserves_bind; [apply preserves_lift | intros authorId].
  apply preserves_bind; [apply getStaffTag_store | intros staffTag].
  apply preserves_bind.
  { destruct (m_reference message) as [replyToId|]; [|apply preserves_ret].
    apply preserves_try_catch; [|intros; apply preserves_ret].
    unfold Db.select_post.
    apply preserves_bind; [apply read_store | intros [|p l]; apply preserves_ret]. }
  intros reply.
  apply preserves_bind; [apply core_store, append_images_core | intros htmlContent].
  apply preserves_bind; [|intros; apply preserves_modify; intros; reflexivity].
  unfold Db.upsert_post. apply write_store. intros t s.
  destruct (posts s !! m_id message); apply Hh.
Qed.

Lemma upsert_messages_store l :
  (forall m r s, In m l -> m_author_bot m = false ->
                 h (Db.with_posts (<[m_id m := r]> (posts s)) s) = h s) ->
  preserves (fun w => h (store w)) (SmartSync.upsert_messages l).
Proof.
  unfold SmartSync.upsert_messages. induction l as [|m l IH]; intros Hh; simpl.
  - apply preserves_ret.
  - apply preserves_bind.
    + destruct (m_author_bot m) eqn:Eb; [apply preserves_ret|].
      apply preserves_try_catch; [|intros; apply preserves_modify; intros; reflexivity].
      apply upsertPost_store. intros r s. apply (Hh m); [left; reflexivity | exact Eb].
    + intros _. apply IH. intros m' r s Hin. apply Hh. right. exact Hin.
Qed.

End StoreFrame.

Lemma upsert_messages_returns l w : fst (SmartSync.upsert_messages l w) = Ok tt.
Proof.
  unfold SmartSync.upsert_messages. revert w. induction l as [|m l IH]; intros w; simpl.
  - reflexivity.
  - unfold bind at 1.
    destruct (m_author_bot m).
    + unfold ret at 1. apply IH.
    + unfold try_catch. destruct (SmartSync.upsertPost m w) as [[[]|e] w1]; simpl; apply IH.
Qed.

(** X13. The loop that stores the messages of a thread (full and delta
    pass) always returns: a failure of [upsertPost] is counted and the loop
    goes on. It leaves the cursor row and the channel, thread and staff
    tables as they are, and a post row that differs after the loop has the
    id of a message of the list whose author is not a bot. *)
Theorem upsert_messages_writes (sortedMessages : list Message) (w : World) :
  let w' := snd (SmartSync.upsert_messages sortedMessages w) in
  fst (SmartSync.upsert_messages sortedMessages w) = Ok tt /\
  sync_state (store w') = sync_state (store w) /\
  channels (store w') = channels (store w) /\
  threads (store w') = threads (store w) /\
  staff_roles (store w') = staff_roles (store w) /\
  forall j, posts (store w') !! j <> posts (store w) !! j ->
            exists m, In m sortedMessages /\ m_id m = j /\ m_author_bot m = false.
Proof.
  intros w'. split; [apply upsert_messages_returns|].
  split; [apply (upsert_messages_store sync_state); reflexivity|].
  split; [apply (upsert_messages_store channels); reflexivity|].
  split; [apply (upsert_messages_store threads); reflexivity|].
  split; [apply (upsert_messages_store staff_roles); reflexivity|].
  intros j Hj.
  destruct (find (fun m => bool_decide (m_id m = j) && negb (m_author_bot m)) sortedMessages)
    as [m|] eqn:E.
  - apply find_some in E as [Hin Hb]. apply andb_prop in Hb as [H1 H2].
    exists m. split; [exact Hin|]. split.
    + apply bool_decide_eq_true_1 in H1. exact H1.
    + destruct (m_author_bot m); [discriminate H2 | reflexivity].
  - exfalso. apply Hj.
    apply (upsert_messages_store (fun s => posts s !! j)).
    intros m r s Hin Hb. simpl.
    apply lookup_insert_ne. intros Heq.
    pose proof (find_none _ _ E m Hin) as Hn. cbv beta in Hn.
    rewrite Hb in Hn. rewrite bool_decide_eq_true_2 in Hn by exact Heq. discriminate Hn.
Qed.

(** ** Images of a message (handlers/image.ts) *)

Lemma net_io_cases w :
  (exists e w1, net_io w = (Throw e, w1)) \/
  (exists w1, net_io w = (Ok tt, w1) /\ media w1 = media w /\ (net_ok w -> net_ok w1)).
Proof.
  unfold net_io, net_ok. destruct (net_events w) as [|e l] eqn:E.
  - right. exists w. rewrite E. auto.
  - destruct (fails e).
    + left. eauto.
    + right. eexists. split; [reflexivity|]. split; [reflexivity|].
      simpl. intros H. inversion H; assumption.
Qed.

Lemma net_io_ok w :
  net_ok w -> exists w1, net_io w = (Ok tt, w1) /\ net_ok w1.
Proof.
  unfold net_io, net_ok. intros H. destruct (net_events w) as [|e l] eqn:E.
  - exists w. rewrite E. auto.
  - inversion H as [|? ? He Hl]; subst. rewrite He. eexists. split; [reflexivity|]. exact Hl.
Qed.

(** One url through the pipeline: at most one image; exactly one when no
    call fails. *)
Lemma process_one_cases url w :
  exists r w1,
    try_catch (net_io ;; net_io ;;
               do t <- Date_now;
               do f <- gets media;
               ret [f url t])
              (fun _ => ret []) w = (Ok r, w1) /\
    (length r <= 1)%nat /\ (net_ok w -> length r = 1%nat /\ net_ok w1).
Proof.
  unfold try_catch.
  destruct (net_io_cases w) as [(e & w1 & H1) | (w1 & H1 & _ & Hk1)].
  - rewrite (bind_throw _ _ _ _ _ H1). exists [], w1. split; [reflexivity|].
    split; [simpl; lia|]. intros Hw. destruct (net_io_ok w Hw) as (w2 & H2 & _).
    rewrite H2 in H1. discriminate H1.
  - rewrite (bind_ok _ _ _ _ _ H1).
    destruct (net_io_cases w1) as [(e & w2 & H2) | (w2 & H2 & _ & Hk2)].
    + rewrite (bind_throw _ _ _ _ _ H2). exists [], w2. split; [reflexivity|].
      split; [simpl; lia|]. intros Hw. destruct (net_io_ok w1 (Hk1 Hw)) as (w3 & H3 & _).
      rewrite H3 in H2. discriminate H2.
    + rewrite (bind_ok _ _ _ _ _ H2). eexists _, w2. split; [reflexivity|].
      split; [simpl; lia|]. intros Hw. split; [reflexivity | auto].
Qed.

Lemma processImageUrls_count urls : forall w,
  exists r w1, Image.processImageUrls urls w = (Ok r, w1) /\
    (length r <= length (List.filter Image.isImageUrl urls))%nat /\
    (net_ok w -> length r = length (List.filter Image.isImageUrl urls) /\ net_ok w1).
Proof.
  induction urls as [|url urls IH]; intros w; cbn [Image.processImageUrls List.filter].
  - exists [], w. split; [reflexivity|]. split; [simpl; lia | auto].
  - destruct (Image.isImageUrl url); cbn [negb]; [|apply IH].
    destruct (process_one_cases url w) as (r & w1 & H1 & Hr & Hk).
    rewrite (bind_ok _ _ _ _ _ H1).
    destruct (IH w1) as (rs & w2 & H2 & Hrs & Hks).
    rewrite (bind_ok _ _ _ _ _ H2). exists (r ++ rs), w2. split; [reflexivity|].
    rewrite length_app. cbn [length]. split; [lia|].
    intros Hw. destruct (Hk Hw) as [Hr1 Hw1]. destruct (Hks Hw1) as [Hrs1 Hw2].
    split; [lia | exact Hw2].
Qed.

(** X14. The block that appends the images of a message to its html never
    throws and never loses the text: the result is the html itself, or the
    html followed by [<br>] and one [img] tag for each processed image. There
    are at most as many tags as urls that [isImageUrl] accepts (none at all
    without such an url), and exactly as many when no download or upload
    fails; the store, the environment and the statement schedule are left
    alone. *)
Theorem append_images_keeps_html (htmlContent : jsstring) (imageUrls : list jsstring)
  (w : World) :
  exists imageData w',
    Image.append_images htmlContent imageUrls w =
      (Ok (match imageData with
           | [] => htmlContent
           | _ => htmlContent ++ str "<br>" ++ Image.join (str "<br>")
                                                  (map Image.img_tag imageData)
           end), w') /\
    core w' = core w /\
    (length imageData <= length (List.filter Image.isImageUrl imageUrls))%nat /\
    (net_ok w -> length imageData = length (List.filter Image.isImageUrl imageUrls)).
Proof.
  pose proof (append_images_core htmlContent imageUrls w) as Hc.
  unfold Image.append_images in *. destruct imageUrls as [|u urls].
  - exists [], w. split; [reflexivity|]. split; [reflexivity|]. simpl. split; [lia | auto].
  - destruct (processImageUrls_count (u :: urls) w) as (r & w1 & H1 & Hr & Hk).
    unfold try_catch in *. rewrite (bind_ok _ _ _ _ _ H1) in *.
    exists r, w1. destruct r as [|i r].
    + split; [reflexivity|]. split; [exact Hc|]. split; [exact Hr|]. intros Hw. apply Hk, Hw.
    + split; [reflexivity|]. split; [exact Hc|]. split; [exact Hr|]. intros Hw. apply Hk, Hw.
Qed.

(** ** The thread limit of the historical sync (lib/sync.ts) *)

Lemma db_io_processed : preserves processed db_io.
Proof.
  intros w. unfold db_io. destruct (db_events w) as [|e l]; [reflexivity|].
  destruct (fails e); reflexivity.
Qed.

Lemma net_io_processed : preserves processed net_io.
Proof.
  intros w. unfold net_io. destruct (net_events w) as [|e l]; [reflexivity|].
  destruct (fails e); reflexivity.
Qed.

Lemma read_processed {A} (g : Store -> A) : preserves processed (Db.read g).
Proof.
  unfold Db.read. apply preserves_bind; [apply db_io_processed | intros _; apply preserves_gets].
Qed.

Lemma write_processed g : preserves processed (Db.write g).
Proof.
  unfold Db.write. apply preserves_bind; [apply db_io_processed | intros _].
  apply preserves_modify. intros w. reflexivity.
Qed.

Ltac proc_step :=
  match goal with
  | |- preserves _ (bind _ _) => apply preserves_bind; [|intros ?]
  | |- preserves _ (try_catch _ _) => apply preserves_try_catch; [|intros ?]
  | |- preserves _ (foreach _ _) => apply preserves_foreach; intros ?
  | |- preserves _ (ret _) => apply preserves_ret
  | |- preserves _ (throw _) => apply preserves_throw
  | |- preserves _ (lift _) => apply preserves_lift
  | |- preserves _ (gets _) => apply preserves_gets
  | |- preserves _ Date_now => apply preserves_gets
  | |- preserves _ db_io => apply db_io_processed
  | |- preserves _ net_io => apply net_io_processed
  | |- preserves _ (sleep _) => apply preserves_modify; intros ?; reflexivity
  | |- preserves _ (Db.read _) => apply read_processed
  | |- preserves _ (Db.write _) => apply write_processed
  | |- preserves _ (upd_stats inc_errors) => apply preserves_modify; intros ?; reflexivity
  | |- preserves _ (upd_stats inc_posts) => apply preserves_modify; intros ?; reflexivity
  | |- preserves _ (upd_stats inc_channels) => apply preserves_modify; intros ?; reflexivity
  | |- preserves _ (upd_stats (SyncAll.with_endTime _)) =>
      apply preserves_modify; intros ?; reflexivity
  | |- preserves _ (modify (set_store _)) => apply preserves_modify; intros ?; reflexivity
  | |- preserves _ (match ?x with _ => _ end) => destruct x
  | |- preserves _ (if ?x then _ else _) => destruct x
  end.

Lemma processImageUrls_processed urls : preserves processed (Image.processImageUrls urls).
Proof. induction urls as [|u urls IH]; simpl; repeat proc_step; exact IH. Qed.

Lemma append_images_processed h urls : preserves processed (Image.append_images h urls).
Proof.
  unfold Image.append_images. destruct urls; [repeat proc_step|].
  apply preserves_try_catch; [|intros; repeat proc_step].
  apply preserves_bind; [apply processImageUrls_processed | intros; repeat proc_step].
Qed.

Lemma fetchAllMessages_processed thread : preserves processed (fetchAllMessages thread).
Proof.
  unfold fetchAllMessages. generalize (S (length (t_messages thread))) as fuel.
  generalize (@nil (Snowflake * Message)) as messages. generalize (@None Snowflake) as lastId.
  intros lastId messages fuel. revert messages lastId.
  induction fuel as [|fuel IH]; intros; simpl; [repeat proc_step|].
  apply preserves_bind.
  - unfold messages_fetch_before. repeat proc_step.
  - intros [[m l]|]; [apply IH | repeat proc_step].
Qed.

Lemma syncMessage_processed m : preserves processed (Sync.syncMessage m).
Proof.
  unfold Sync.syncMessage, channel_message_fetch, Db.select_post, Db.upsert_post.
  apply preserves_bind; [repeat proc_step | intros e].
  apply preserves_bind; [repeat proc_step | intros a].
  apply preserves_bind; [repeat proc_step | intros reply].
  apply preserves_bind; [apply append_images_processed | intros html].
  repeat proc_step.
Qed.

Lemma updateReplyReferences_processed m : preserves processed (Sync.updateReplyReferences m).
Proof.
  unfold Sync.updateReplyReferences, Db.select_post, Db.update_post_reply. repeat proc_step.
Qed.

Lemma reconcile_replies_processed l : preserves processed (Sync.reconcile_replies l).
Proof.
  unfold Sync.reconcile_replies, Sync.update_references.
  apply preserves_bind.
  - generalize 0%Z as n. induction l as [|m l IH]; intros n; simpl; [apply preserves_ret|].
    apply preserves_bind; [|intros; apply IH].
    apply preserves_try_catch; [|intros; repeat proc_step].
    apply preserves_bind; [apply syncMessage_processed | intros; apply preserves_ret].
  - intros n. apply preserves_bind; [|intros; apply preserves_ret].
    apply preserves_foreach. intros m.
    apply preserves_try_catch; [|intros; apply preserves_ret].
    destruct (m_reference m); [apply updateReplyReferences_processed | apply preserves_ret].
Qed.

Lemma preserves_counts_one {A} (m : M A) : preserves processed m -> counts_one m.
Proof. intros H w. rewrite H. lia. Qed.

Lemma counts_one_after {A B} (m : M A) (k : A -> M B) :
  preserves processed m -> (forall a, counts_one (k a)) -> counts_one (bind m k).
Proof.
  intros Hm Hk w. unfold bind. specialize (Hm w).
  destruct (m w) as [[a|e] w1]; simpl in *.
  - specialize (Hk a w1). lia.
  - lia.
Qed.

(** [syncSpecificThread] counts the thread once, after the thread row is
    written. *)
Lemma syncSpecificThread_counts_one client id skip :
  counts_one (Sync.syncSpecificThread client id skip).
Proof.
  unfold Sync.syncSpecificThread.
  destruct (find _ (all_threads client)) as [thread|];
    [|apply preserves_counts_one, preserves_throw].
  apply counts_one_after.
  { destruct skip; [unfold Db.select_thread|]; repeat proc_step. }
  intros [|]; [apply preserves_counts_one, preserves_ret|].
  apply counts_one_after; [unfold fetchStarterMessage; repeat proc_step|].
  intros [sm|]; [|apply preserves_counts_one, preserves_ret].
  destruct (m_author_bot sm); [apply preserves_counts_one, preserves_ret|].
  apply counts_one_after; [apply preserves_gets | intros e].
  apply counts_one_after; [apply preserves_lift | intros a].
  apply counts_one_after; [apply append_images_processed | intros html].
  apply counts_one_after; [apply preserves_lift | intros tags].
  apply counts_one_after; [apply preserves_gets | intros t].
  apply counts_one_after; [unfold Db.upsert_thread; repeat proc_step|].
  intros _ w. unfold bind at 1. unfold upd_stats at 1. unfold modify at 1.
  match goal with
  | |- context [snd (?m (set_stats inc_threads w))] =>
      assert (Hp : preserves processed m)
  end.
  { apply preserves_bind; [apply fetchAllMessages_processed | intros messages].
    apply preserves_bind; [apply reconcile_replies_processed | intros n].
    unfold Db.update_reply_count. apply write_processed. }
  rewrite Hp. unfold processed. simpl. lia.
Qed.

Lemma counts_one_then {A B} (m : M A) (k : A -> M B) :
  counts_one m -> (forall a, preserves processed (k a)) -> counts_one (bind m k).
Proof.
  intros Hm Hk w. unfold bind. specialize (Hm w).
  destruct (m w) as [[a|e] w1]; simpl in *.
  - rewrite Hk. exact Hm.
  - exact Hm.
Qed.

Lemma counts_one_try_catch {A} (m : M A) (h : string -> M A) :
  counts_one m -> (forall e, preserves processed (h e)) -> counts_one (try_catch m h).
Proof.
  intros Hm Hh w. unfold try_catch. specialize (Hm w).
  destruct (m w) as [[a|e] w1]; simpl in *.
  - exact Hm.
  - rewrite Hh. exact Hm.
Qed.

Lemma preserves_capped n {A} (m : M A) : preserves processed m -> capped n m.
Proof. intros H w. rewrite H. lia. Qed.

Lemma capped_bind n {A B} (m : M A) (k : A -> M B) :
  capped n m -> (forall a, capped n (k a)) -> capped n (bind m k).
Proof.
  intros Hm Hk w. unfold bind. specialize (Hm w).
  destruct (m w) as [[a|e] w1]; simpl in *.
  - specialize (Hk a w1). lia.
  - lia.
Qed.

Lemma capped_try_catch n {A} (m : M A) (h : string -> M A) :
  capped n m -> (forall e, capped n (h e)) -> capped n (try_catch m h).
Proof.
  intros Hm Hh w. unfold try_catch. specialize (Hm w).
  destruct (m w) as [[a|e] w1]; simpl in *.
  - lia.
  - specialize (Hh e w1). lia.
Qed.

Lemma capped_foreach n {X} (l : list X) (body : X -> M unit) :
  (forall x, capped n (body x)) -> capped n (foreach l body).
Proof.
  intros Hb. induction l as [|x l IH]; simpl.
  - apply preserves_capped, preserves_ret.
  - apply capped_bind; [apply Hb | intros _; exact IH].
Qed.

Section Limit.
Variables (client : Client) (options : SyncAll.SyncOptions) (n : Z).
Hypothesis Hlimit : SyncAll.limit options = Some n.
Hypothesis Hpos : (0 < n)%Z.
#[local] Unset Default Proof Using.

Lemma sync_threads_capped l : capped (Z.to_nat n) (SyncAll.sync_threads client options l).
Proof.
  induction l as [|thread rest IH]; simpl; [apply preserves_capped, preserves_ret|].
  intros w. unfold bind at 1. unfold gets at 1.
  unfold SyncAll.limit_reached. rewrite Hlimit.
  destruct (Z.eqb_spec n 0) as [->|_]; [lia|]. cbn [negb andb].
  destruct (Z.leb_spec n (Z.of_nat (threadsProcessed (stats w)))) as [Hle|Hlt].
  - unfold ret. simpl. lia.
  - unfold bind. unfold try_catch.
    pose proof (syncSpecificThread_counts_one client (t_id thread)
                  (SyncAll.skipExisting options) w) as H1.
    destruct (Sync.syncSpecificThread client (t_id thread) (SyncAll.skipExisting options) w)
      as [[[]|e] w1]; simpl in H1.
    + specialize (IH w1). unfold processed in *. lia.
    + unfold upd_stats, modify.
      specialize (IH (set_stats inc_errors w1)). unfold processed in *. simpl in *. lia.
Qed.

Lemma syncSpecificChannel_capped id :
  capped (Z.to_nat n) (SyncAll.syncSpecificChannel client id options).
Proof.
  unfold SyncAll.syncSpecificChannel.
  destruct (find _ (Sync.all_channels client)) as [channel|];
    [|apply preserves_capped, preserves_throw].
  destruct (negb (SmartSync.is_forum channel)); [apply preserves_capped, preserves_throw|].
  apply capped_bind; [apply preserves_capped, preserves_gets | intros t].
  apply capped_bind; [apply preserves_capped; unfold Db.upsert_channel; repeat proc_step|].
  intros _. apply capped_bind; [apply preserves_capped; repeat proc_step | intros _].
  apply capped_bind; [apply preserves_capped; unfold fetchArchived; repeat proc_step|].
  intros archived.
  apply capped_bind; [apply preserves_capped; unfold fetchActive; repeat proc_step|].
  intros active. apply sync_threads_capped.
Qed.

Lemma syncSpecificGuild_capped id :
  capped (Z.to_nat n) (SyncAll.syncSpecificGuild client id options).
Proof.
  unfold SyncAll.syncSpecificGuild.
  destruct (find _ (guilds client)) as [guild|]; [|apply preserves_capped, preserves_throw].
  apply capped_foreach. intros channel.
  apply capped_try_catch; [apply syncSpecificChannel_capped|].
  intros; apply preserves_capped; repeat proc_step.
Qed.

Lemma syncAllGuilds_capped : capped (Z.to_nat n) (SyncAll.syncAllGuilds client options).
Proof.
  unfold SyncAll.syncAllGuilds. apply capped_foreach. intros guild.
  apply capped_try_catch; [apply syncSpecificGuild_capped|].
  intros; apply preserves_capped; repeat proc_step.
Qed.

End Limit.

(** The statistics [syncHistoricalData] returns are those of the run. *)
Lemma syncHistoricalData_returns_stats client options w :
  match SyncAll.syncHistoricalData client options w with
  | (Ok s, w') => s = stats w'
  | (Throw _, _) => True
  end.
Proof.
  unfold SyncAll.syncHistoricalData.
  unfold bind at 1. unfold Date_now at 1. unfold gets at 1.
  unfold bind at 1. unfold modify at 1. unfold bind at 1.
  destruct (try_catch _ _ _) as [[[]|e] w1]; simpl; auto.
Qed.

(** X15. With a limit of [n] threads ([n > 0]) a run of [syncHistoricalData]
    counts at most [n] threads, whatever else the options select and whatever
    fails on the way: the statistics it returns, and those it leaves behind
    when it throws, have [threadsProcessed <= n]. *)
Theorem syncHistoricalData_limit (client : Client) (options : SyncAll.SyncOptions)
  (n : Z) (w : World) :
  SyncAll.limit options = Some n -> (0 < n)%Z ->
  (Z.of_nat (processed (snd (SyncAll.syncHistoricalData client options w))) <= n)%Z /\
  forall s, fst (SyncAll.syncHistoricalData client options w) = Ok s ->
            (Z.of_nat (threadsProcessed s) <= n)%Z.
Proof.
  intros Hlimit Hpos.
  assert (Hcap : (processed (snd (SyncAll.syncHistoricalData client options w))
                  <= Z.to_nat n)%nat).
  { unfold SyncAll.syncHistoricalData.
    unfold bind at 1. unfold Date_now at 1. unfold gets at 1.
    unfold bind at 1. unfold modify at 1.
    set (w0 := set_stats _ w).
    assert (H0 : processed w0 = 0%nat) by reflexivity.
    destruct (SyncAll.threadId options) as [id|].
    { match goal with
      | |- context [bind (try_catch ?m ?h) ?k] =>
          assert (Hc : counts_one (bind (try_catch m h) k))
      end.
      { apply counts_one_then; [|intros; apply preserves_gets].
        apply counts_one_try_catch; [|intros; repeat proc_step].
        apply counts_one_then; [apply syncSpecificThread_counts_one|].
        intros; repeat proc_step. }
      specialize (Hc w0). rewrite H0 in Hc. lia. }
    match goal with
    | |- context [bind (try_catch ?m ?h) ?k] =>
        assert (Hc : capped (Z.to_nat n) (bind (try_catch m h) k))
    end.
    { apply capped_bind; [|intros; apply preserves_capped, preserves_gets].
      apply capped_try_catch; [|intros; apply preserves_capped; repeat proc_step].
      apply capped_bind; [|intros; apply preserves_capped; repeat proc_step].
      destruct (SyncAll.channelId options) as [id|];
        [apply (syncSpecificChannel_capped client options n Hlimit Hpos)|].
      destruct (SyncAll.guildId options) as [id|];
        [apply (syncSpecificGuild_capped client options n Hlimit Hpos)|].
      apply (syncAllGuilds_capped client options n Hlimit Hpos). }
    specialize (Hc w0). rewrite H0 in Hc. lia. }
  split; [lia|].
  intros s Hs.
  pose proof (syncHistoricalData_returns_stats client options w) as Hst.
  destruct (SyncAll.syncHistoricalData client options w) as [[s'|e] w']; [|discriminate Hs].
  simpl in *. injection Hs as ->. subst s. unfold processed in Hcap. lia.
Qed.

Lemma syncHistoricalData_limit_witness :
  (Z.of_nat (processed (snd (SyncAll.syncHistoricalData Scenario.client limit_one
                               Scenario.world))) <= 1)%Z /\
  forall s, fst (SyncAll.syncHistoricalData Scenario.client limit_one Scenario.world) = Ok s ->
            (Z.of_nat (threadsProcessed s) <= 1)%Z.
Proof.
  apply (syncHistoricalData_limit Scenario.client limit_one 1 Scenario.world).
  - reflexivity.
  - lia.
Defined.

(** ** Limits that are not positive *)

Lemma bind_ext {A B} (m : M A) (k k' : A -> M B) w :
  (forall a w1, k a w1 = k' a w1) -> bind m k w = bind m k' w.
Proof. intros H. unfold bind. destruct (m w) as [[a|e] w1]; [apply H | reflexivity]. Qed.

Lemma bind_ext_l {A B} (m m' : M A) (k : A -> M B) w :
  m w = m' w -> bind m k w = bind m' k w.
Proof. intros H. unfold bind. rewrite H. reflexivity. Qed.

Lemma try_catch_ext {A} (m m' : M A) (h : string -> M A) w :
  m w = m' w -> try_catch m h w = try_catch m' h w.
Proof. intros H. unfold try_catch. rewrite H. reflexivity. Qed.

Lemma foreach_ext {X} (l : list X) (body body' : X -> M unit) :
  (forall x w, body x w = body' x w) -> forall w, foreach l body w = foreach l body' w.
Proof.
  intros H. induction l as [|x l IH]; intros w; simpl; [reflexivity|].
  rewrite (bind_ext_l _ _ _ _ (H x w)). apply bind_ext. intros _ w1. apply IH.
Qed.

Section ZeroLimit.
Variables (client : Client) (options : SyncAll.SyncOptions).
Hypothesis Hzero : SyncAll.limit options = Some 0%Z.
#[local] Unset Default Proof Using.

Lemma sync_threads_zero l : forall w,
  SyncAll.sync_threads client options l w
  = SyncAll.sync_threads client (set_limit None options) l w.
Proof.
  induction l as [|thread rest IH]; intros w; simpl; [reflexivity|].
  apply bind_ext. intros s w1. unfold SyncAll.limit_reached. rewrite Hzero. simpl.
  apply bind_ext. intros _ w2. apply IH.
Qed.

Lemma syncSpecificChannel_zero id w :
  SyncAll.syncSpecificChannel client id options w
  = SyncAll.syncSpecificChannel client id (set_limit None options) w.
Proof.
  unfold SyncAll.syncSpecificChannel.
  destruct (find _ (Sync.all_channels client)) as [channel|]; [|reflexivity].
  destruct (negb (SmartSync.is_forum channel)); [reflexivity|].
  apply bind_ext. intros t w1. apply bind_ext. intros _ w2. apply bind_ext. intros _ w3.
  apply bind_ext. intros archived w4. apply bind_ext. intros active w5.
  apply sync_threads_zero.
Qed.

Lemma syncSpecificGuild_zero id w :
  SyncAll.syncSpecificGuild client id options w
  = SyncAll.syncSpecificGuild client id (set_limit None options) w.
Proof.
  unfold SyncAll.syncSpecificGuild.
  destruct (find _ (guilds client)) as [guild|]; [|reflexivity].
  apply foreach_ext. intros channel w1. apply try_catch_ext, syncSpecificChannel_zero.
Qed.

Lemma syncAllGuilds_zero w :
  SyncAll.syncAllGuilds client options w
  = SyncAll.syncAllGuilds client (set_limit None options) w.
Proof.
  unfold SyncAll.syncAllGuilds.
  apply foreach_ext. intros guild w1. apply try_catch_ext, syncSpecificGuild_zero.
Qed.

End ZeroLimit.

(** X16. A limit of 0 is no limit: [options.limit && ...] is false for it, so
    the run is the one without [--limit], in every world. *)
Theorem syncHistoricalData_limit_zero (client : Client) (options : SyncAll.SyncOptions)
  (w : World) :
  SyncAll.limit options = Some 0%Z ->
  SyncAll.syncHistoricalData client options w
  = SyncAll.syncHistoricalData client (set_limit None options) w.
Proof.
  intros Hzero. unfold SyncAll.syncHistoricalData.
  apply bind_ext. intros t0 w1. apply bind_ext. intros _ w2.
  apply bind_ext_l. apply try_catch_ext. apply bind_ext_l.
  cbn [set_limit SyncAll.threadId SyncAll.channelId SyncAll.guildId SyncAll.skipExisting].
  destruct (SyncAll.threadId options) as [id|]; [reflexivity|].
  destruct (SyncAll.channelId options) as [id|]; [apply syncSpecificChannel_zero, Hzero|].
  destruct (SyncAll.guildId options) as [id|]; [apply syncSpecificGuild_zero, Hzero|].
  apply syncAllGuilds_zero, Hzero.
Qed.

Lemma syncHistoricalData_limit_zero_witness :
  SyncAll.syncHistoricalData Scenario.client (set_limit (Some 0%Z) limit_one) Scenario.world
  = SyncAll.syncHistoricalData Scenario.client
      (set_limit None (set_limit (Some 0%Z) limit_one)) Scenario.world.
Proof.
  apply (syncHistoricalData_limit_zero Scenario.client (set_limit (Some 0%Z) limit_one)
           Scenario.world).
  reflexivity.
Defined.

Section NegativeLimit.
Variables (client : Client) (options : SyncAll.SyncOptions) (n : Z).
Hypothesis Hlimit : SyncAll.limit options = Some n.
Hypothesis Hneg : (n < 0)%Z.
#[local] Unset Default Proof Using.

Lemma sync_threads_negative l w : SyncAll.sync_threads client options l w = (Ok tt, w).
Proof.
  destruct l as [|thread rest]; simpl; [reflexivity|].
  unfold bind, gets, SyncAll.limit_reached. rewrite Hlimit.
  destruct (Z.eqb_spec n 0) as [->|_]; [lia|]. cbn [negb andb].
  destruct (Z.leb_spec n (Z.of_nat (threadsProcessed (stats w)))) as [_|Hlt]; [reflexivity | lia].
Qed.

Lemma syncSpecificChannel_negative id :
  preserves (fun w => (processed w, content_tables w))
    (SyncAll.syncSpecificChannel client id options).
Proof.
  unfold SyncAll.syncSpecificChannel.
  destruct (find _ (Sync.all_channels client)) as [channel|]; [|apply preserves_throw].
  destruct (negb (SmartSync.is_forum channel)); [apply preserves_throw|].
  apply preserves_bind; [apply preserves_gets | intros t].
  apply preserves_bind.
  { unfold Db.upsert_channel, Db.write. apply preserves_bind.
    - intros w. unfold db_io. destruct (db_events w) as [|e l]; [reflexivity|].
      destruct (fails e); reflexivity.
    - intros _. apply preserves_modify. intros w. unfold content_tables. simpl.
      destruct (channels (store w) !! c_id channel); reflexivity. }
  intros _. apply preserves_bind; [apply preserves_modify; intros; reflexivity | intros _].
  assert (Hnet : preserves (fun w => (processed w, content_tables w)) net_io).
  { intros w. unfold net_io. destruct (net_events w) as [|e l]; [reflexivity|].
    destruct (fails e); reflexivity. }
  apply preserves_bind.
  { unfold fetchArchived. apply preserves_bind; [exact Hnet | intros; apply preserves_ret]. }
  intros archived. apply preserves_bind.
  { unfold fetchActive. apply preserves_bind; [exact Hnet | intros; apply preserves_ret]. }
  intros active w. rewrite sync_threads_negative. reflexivity.
Qed.

Lemma syncSpecificGuild_negative id :
  preserves (fun w => (processed w, content_tables w))
    (SyncAll.syncSpecificGuild client id options).
Proof.
  unfold SyncAll.syncSpecificGuild.
  destruct (find _ (guilds client)) as [guild|]; [|apply preserves_throw].
  apply preserves_foreach. intros channel.
  apply preserves_try_catch; [apply syncSpecificChannel_negative|].
  intros; apply preserves_modify; intros; reflexivity.
Qed.

Lemma syncAllGuilds_negative :
  preserves (fun w => (processed w, content_tables w)) (SyncAll.syncAllGuilds client options).
Proof.
  unfold SyncAll.syncAllGuilds. apply preserves_foreach. intros guild.
  apply preserves_try_catch; [apply syncSpecificGuild_negative|].
  intros; apply preserves_modify; intros; reflexivity.
Qed.

End NegativeLimit.

(** X17. With a negative limit and no thread id, the run stores nothing of
    any thread: every channel loop stops before its first thread, so the
    thread and post tables are left as they were and no thread is counted,
    while the channel rows are still written. *)
Theorem syncHistoricalData_negative_limit (client : Client) (options : SyncAll.SyncOptions)
  (n : Z) (w : World) :
  SyncAll.limit options = Some n -> (n < 0)%Z -> SyncAll.threadId options = None ->
  let w' := snd (SyncAll.syncHistoricalData client options w) in
  processed w' = 0%nat /\ content_tables w' = content_tables w.
Proof.
  intros Hlimit Hneg Hthread w'. unfold w', SyncAll.syncHistoricalData.
  change (bind Date_now ?k w) with (k (now w) w). cbv beta.
  change (bind (modify ?g) ?k w) with (k tt (g w)). cbv beta.
  set (w0 := set_stats _ w).
  match goal with
  | |- context [bind (try_catch ?m ?h) ?k] =>
      assert (Hc : preserves (fun w => (processed w, content_tables w))
                     (bind (try_catch m h) k))
  end.
  { apply preserves_bind; [|intros; apply preserves_gets].
    apply preserves_try_catch.
    2:{ intros e. apply preserves_bind; [apply preserves_modify; intros; reflexivity|].
        intros; apply preserves_throw. }
    apply preserves_bind.
    2:{ intros _. apply preserves_bind; [apply preserves_gets|].
        intros; apply preserves_modify; intros; reflexivity. }
    rewrite Hthread.
    destruct (SyncAll.channelId options) as [id|];
      [apply (syncSpecificChannel_negative client options n Hlimit Hneg)|].
    destruct (SyncAll.guildId options) as [id|];
      [apply (syncSpecificGuild_negative client options n Hlimit Hneg)|].
    apply (syncAllGuilds_negative client options n Hlimit Hneg). }
  specialize (Hc w0). split; [exact (f_equal fst Hc) | exact (f_equal snd Hc)].
Qed.

Lemma syncHistoricalData_negative_limit_witness :
  let w' := snd (SyncAll.syncHistoricalData Scenario.client (set_limit (Some (-1)%Z) limit_one)
                   Scenario.world) in
  processed w' = 0%nat /\ content_tables w' = content_tables Scenario.world.
Proof.
  apply (syncHistoricalData_negative_limit Scenario.client (set_limit (Some (-1)%Z) limit_one)
           (-1) Scenario.world).
  - reflexivity.
  - lia.
  - reflexivity.
Defined.

(** ** The live message handlers *)

Lemma process_attachments_core l : preserves core (Handlers.process_attachments l).
Proof. induction l as [|a l IH]; simpl; repeat core_step; exact IH. Qed.

Lemma process_attachments_total l : forall w,
  exists r w1, Handlers.process_attachments l w = (Ok r, w1).
Proof.
  induction l as [|a l IH]; intros w; simpl; [eauto|].
  destruct (try_catch_ret_total
              (net_io ;; net_io ;; do t <- Date_now; do f <- gets media; ret [f (Handlers.att_url a) t])
              [] w) as [r H1].
  rewrite (bind_ok _ _ _ _ _ H1).
  match type of H1 with _ = (_, ?x) => destruct (IH x) as (rs & w2 & H2) end.
  rewrite (bind_ok _ _ _ _ _ H2). eauto.
Qed.

Lemma processImages_ok attachments w :
  exists r w1, Handlers.processImages attachments w = (Ok r, w1) /\ core w1 = core w.
Proof.
  unfold Handlers.processImages.
  destruct (List.filter Handlers.is_image attachments) as [|a l]; [exists [], w; auto|].
  destruct (process_attachments_total (a :: l) w) as (r & w1 & H).
  exists r, w1. split; [exact H|].
  pose proof (process_attachments_core (a :: l) w) as Hc. rewrite H in Hc. exact Hc.
Qed.

Lemma getReplyContext_ok message w :
  exists rc w1, Handlers.getReplyContext message w = (Ok rc, w1) /\ core w1 = core w /\
                fst rc = m_reference message.
Proof.
  unfold Handlers.getReplyContext. destruct (m_reference message) as [ref|].
  2:{ exists (None, None), w. auto. }
  rewrite (bind_ok _ _ _ _ _ (gets_run env w)).
  match goal with
  | |- context [try_catch ?m (fun _ => ret None)] =>
      destruct (try_catch_ret_total m None w) as [a H1];
      assert (Hc : preserves core (try_catch m (fun _ => ret None)))
  end.
  { apply preserves_try_catch; [|intros; apply preserves_ret].
    apply preserves_bind; [apply channel_message_fetch_core | intros; repeat core_step]. }
  specialize (Hc w). rewrite H1 in Hc. simpl in Hc.
  rewrite (bind_ok _ _ _ _ _ H1). eexists _, _. split; [reflexivity|]. split; [exact Hc|].
  reflexivity.
Qed.

Lemma count_posts_threads s v id :
  Db.count_posts (Db.with_threads v s) id = Db.count_posts s id.
Proof. reflexivity. Qed.

(** X18. A message created in a thread whose row is stored, with PII_PEPPER
    set and the statements accepted; its reference, if it has one, names a
    stored post, as the foreign key of [reply_to_id] demands. The post row is
    written with the reference id as [reply_to_id], and the thread row gets
    [reply_count] = the number of post rows of the thread: COUNT( * ), the
    starter included when it is stored as a post, and not COUNT( * ) - 1 as
    in [updateThreadReplyCount] of smartSync.ts. *)
Theorem handleMessageCreate_counts_all (message : Message)
  (attachments : list Handlers.Attachment) (w : World) :
  db_ok w -> pepper_set (env w) ->
  is_Some (threads (store w) !! m_channel_id message) ->
  (forall X, m_reference message = Some X -> is_Some (posts (store w) !! X)) ->
  exists w' p row,
    Handlers.handleMessageCreate message attachments true w = (Ok tt, w') /\
    posts (store w') = <[m_id message := p]> (posts (store w)) /\
    po_reply_to_id p = m_reference message /\
    (forall X, po_reply_to_id p = Some X -> is_Some (posts (store w') !! X)) /\
    (posts (store w) !! m_id message = None ->
     po_thread_id p = m_channel_id message /\
     Hash.hashUserId (env w) (m_author_id message) = Ok (po_author_alias p)) /\
    threads (store w') !! m_channel_id message = Some row /\
    th_reply_count row = Db.count_posts (store w') (m_channel_id message).
Proof.
  intros Hdb Hp Hthread Href. unfold Handlers.handleMessageCreate.
  rewrite (bind_ok _ _ _ _ _ (gets_run env w)).
  destruct (hashUserId_ok (env w) (m_author_id message) Hp) as [h Hh].
  assert (Hl : lift (Hash.hashUserId (env w) (m_author_id message)) w = (Ok h, w))
    by (unfold lift; rewrite Hh; reflexivity).
  rewrite (bind_ok _ _ _ _ _ Hl).
  destruct (getStaffTag_ok (m_author_id message) w Hdb) as (tag & w1 & H1 & Hf1 & Hs1).
  rewrite (bind_ok _ _ _ _ _ H1).
  destruct (getReplyContext_ok message w1) as (rc & w2 & H2 & Hc2 & Hrc).
  rewrite (bind_ok _ _ _ _ _ H2).
  destruct (follows_core w1 w2 (proj2 (proj2 Hf1)) Hc2) as [Hf2 Hs2].
  destruct (processImages_ok attachments w2) as (imgs & w3 & H3 & Hc3).
  rewrite (bind_ok _ _ _ _ _ H3).
  destruct (follows_core w2 w3 (proj2 (proj2 Hf2)) Hc3) as [Hf3 Hs3].
  match goal with
  | |- context [Db.upsert_post ?i ?r] =>
      destruct (upsert_post_ok i r w3 (proj2 (proj2 Hf3))) as (w4 & p & H4 & Hf4 & Hps & Hr1 & _);
      assert (Hnew : threads (store w4) = threads (store w3) /\
                     (posts (store w3) !! i = None -> p = r))
  end.
  { split.
    { revert H4. unfold Db.upsert_post, Db.write.
      destruct (db_io_ok w3 (proj2 (proj2 Hf3))) as (w3' & Hio & _ & Hs3').
      rewrite (bind_ok _ _ _ _ _ Hio). unfold modify. intros H4. injection H4 as <-.
      simpl. rewrite Hs3'. destruct (posts (store w3) !! m_id message); reflexivity. }
    intros Hn. assert (Hlk : posts (store w4) !! m_id message = Some p)
      by (rewrite Hps; apply lookup_insert_eq).
    revert H4. unfold Db.upsert_post, Db.write.
    destruct (db_io_ok w3 (proj2 (proj2 Hf3))) as (w3' & Hio & _ & Hs3').
    rewrite (bind_ok _ _ _ _ _ Hio). unfold modify. intros H4. injection H4 as <-.
    simpl in Hlk. rewrite Hs3', Hn in Hlk. simpl in Hlk.
    rewrite lookup_insert_eq in Hlk. injection Hlk as <-. reflexivity. }
  rewrite (bind_ok _ _ _ _ _ H4).
  rewrite (bind_ok _ _ _ _ _ (gets_run now w4)).
  unfold Handlers.update_thread_count.
  match goal with
  | |- context [Db.write ?g] => destruct (write_ok g w4 (proj2 (proj2 Hf4))) as (w5 & t & H5 & Hf5 & Hs5)
  end.
  destruct Hnew as [Hth4 Hnew].
  assert (Hst : store w3 = store w) by congruence.
  destruct Hthread as [old Hold].
  assert (Hold4 : threads (store w4) !! m_channel_id message = Some old)
    by (rewrite Hth4, Hst; exact Hold).
  assert (Hposts : posts (store w5) = posts (store w4)).
  { rewrite Hs5. rewrite Hold4. reflexivity. }
  assert (Hcount : Db.count_posts (store w5) (m_channel_id message)
                   = Db.count_posts (store w4) (m_channel_id message)).
  { unfold Db.count_posts. rewrite Hposts. reflexivity. }
  eexists w5, p, _. split; [exact H5|].
  split; [rewrite Hposts, Hps, Hst; reflexivity|].
  split; [rewrite Hr1; exact Hrc|].
  split.
  { intros X HX. rewrite Hr1, Hrc in HX. destruct (Href X HX) as [q Hq].
    rewrite Hposts, Hps, Hst. destruct (decide (m_id message = X)) as [->|Hne].
    - rewrite lookup_insert_eq. eauto.
    - rewrite lookup_insert_ne by exact Hne. eauto. }
  split.
  { intros Hn. rewrite <- Hst in Hn. rewrite (Hnew Hn). simpl. split; [reflexivity | exact Hh]. }
  rewrite Hcount, Hs5, Hold4. simpl. rewrite lookup_insert_eq. split; reflexivity.
Qed.

(** The theorem at a reply to the last stored post of the scenario's
    thread. *)
Lemma handleMessageCreate_counts_all_witness :
  (is_Some (threads (store synced_world) !! m_channel_id M4) /\
   forall X, m_reference M4 = Some X -> is_Some (posts (store synced_world) !! X)) /\
  exists w' p row,
    Handlers.handleMessageCreate M4 [] true synced_world = (Ok tt, w') /\
    posts (store w') = <[m_id M4 := p]> (posts (store synced_world)) /\
    po_reply_to_id p = m_reference M4 /\
    (forall X, po_reply_to_id p = Some X -> is_Some (posts (store w') !! X)) /\
    (posts (store synced_world) !! m_id M4 = None ->
     po_thread_id p = m_channel_id M4 /\
     Hash.hashUserId (env synced_world) (m_author_id M4) = Ok (po_author_alias p)) /\
    threads (store w') !! m_channel_id M4 = Some row /\
    th_reply_count row = Db.count_posts (store w') (m_channel_id M4).
Proof.
  assert (Ht : is_Some (threads (store synced_world) !! m_channel_id M4))
    by (vm_compute; eauto).
  assert (Hr : forall X, m_reference M4 = Some X -> is_Some (posts (store synced_world) !! X)).
  { intros X [= <-]. vm_compute. eauto. }
  split; [split; assumption|].
  apply (handleMessageCreate_counts_all M4 [] synced_world); [| |exact Ht|exact Hr].
  - constructor.
  - exists 48, (tl Scenario.pepper). reflexivity.
Defined.




Lemma try_catch_ret_fst (m : M unit) w : fst (try_catch m (fun _ => ret tt) w) = Ok tt.
Proof. unfold try_catch. destruct (m w) as [[[]|e] w1]; reflexivity. Qed.

Lemma processImages_store attachments :
  preserves (fun w => store w) (Handlers.processImages attachments).
Proof.
  apply (core_store (fun s => s)). intros w.
  destruct (processImages_ok attachments w) as (r & w1 & H & Hc). rewrite H. exact Hc.
Qed.

Lemma getReplyContext_store message :
  preserves (fun w => store w) (Handlers.getReplyContext message).
Proof.
  apply (core_store (fun s => s)). intros w.
  destruct (getReplyContext_ok message w) as (r & w1 & H & Hc & _). rewrite H. exact Hc.
Qed.

Lemma preserves_bind_ret {X A B} (f : World -> X) (a : A) (k : A -> M B) :
  preserves f (k a) -> preserves f (bind (ret a) k).
Proof. intros H w. exact (H w). Qed.

Lemma handleMessageCreate_outside message attachments :
  preserves (fun w => store w) (Handlers.handleMessageCreate message attachments false).
Proof.
  unfold Handlers.handleMessageCreate.
  apply preserves_bind; [apply preserves_gets | intros e].
  apply preserves_bind; [apply preserves_lift | intros a].
  apply preserves_bind; [apply (getStaffTag_store (fun s => s)) | intros tag].
  apply preserves_bind; [apply getReplyContext_store | intros rc].
  apply preserves_bind; [apply processImages_store | intros imgs].
  apply preserves_ret.
Qed.

Lemma handleMessageUpdate_outside message attachments oldContent :
  preserves (fun w => store w)
    (Handlers.handleMessageUpdate message attachments false oldContent).
Proof.
  unfold Handlers.handleMessageUpdate.
  destruct (bool_decide _); [apply preserves_ret|].
  apply preserves_bind; [apply preserves_gets | intros e].
  apply preserves_bind; [apply preserves_lift | intros a].
  apply preserves_bind; [apply processImages_store | intros imgs].
  apply preserves_ret.
Qed.

(** X20. [messageHandler] never throws: whatever fails inside is logged.
    For a complete message it writes nothing when the author is a bot, when
    the content is empty, or when the channel is not a thread. *)
Theorem messageHandler_skips (message : Handlers.Incoming)
  (oldMessage : option (option jsstring)) (w : World) :
  fst (Handlers.messageHandler message oldMessage w) = Ok tt /\
  (Handlers.in_partial message = false ->
   m_author_bot (Handlers.in_message message) = true \/
   m_content (Handlers.in_message message) = [] \/
   Handlers.in_isThread message = false ->
   store (snd (Handlers.messageHandler message oldMessage w)) = store w).
Proof.
  split; [apply try_catch_ret_fst|].
  intros Hpartial Hskip.
  assert (Hp : preserves (fun w => store w) (Handlers.messageHandler message oldMessage));
    [|apply Hp].
  unfold Handlers.messageHandler. rewrite Hpartial. cbn [andb].
  apply preserves_try_catch; [|intros; apply preserves_ret].
  destruct (negb (Handlers.in_isThread message) && _); [apply preserves_ret|].
  apply preserves_bind_ret.
  destruct Hskip as [Hbot | [Hempty | Hthread]].
  - rewrite Hbot. apply preserves_ret.
  - rewrite Hempty, orb_true_r. apply preserves_ret.
  - destruct (m_author_bot _ || _); [apply preserves_ret|]. rewrite Hthread.
    destruct oldMessage as [oldContent|];
      [apply handleMessageUpdate_outside | apply handleMessageCreate_outside].
Qed.

Lemma messageHandler_skips_witness :
  fst (Handlers.messageHandler (incoming M4_bot) None synced_world) = Ok tt /\
  store (snd (Handlers.messageHandler (incoming M4_bot) None synced_world))
  = store synced_world.
Proof.
  split.
  - apply (messageHandler_skips (incoming M4_bot) None synced_world).
  - apply (messageHandler_skips (incoming M4_bot) None synced_world).
    + reflexivity.
    + left. reflexivity.
Defined.

(** ** The live thread handler *)

Lemma tag_names_parent parent tags : exists r, Sync.tag_names (Some parent) tags = Ok r.
Proof. unfold Sync.tag_names. destruct tags; eauto. Qed.

(** X21. [handleThreadUpsert] takes [thread.lastMessage] for the starter
    whenever a last message is cached. For a thread that has a row, with
    PII_PEPPER set and the statements accepted, the handler then rewrites
    the body of the thread with the html of that last message (no call to
    [fetchStarterMessage] is made), and sets [reply_count] to the number of
    post rows of the thread; the stored author alias stays. *)
Theorem handleThreadUpsert_takes_last_message (ev : ThreadHandler.ThreadEvent)
  (parent : ForumChannel) (last : Message) (attachments : list Handlers.Attachment)
  (old : ThreadRow) (w : World) :
  db_ok w -> pepper_set (env w) ->
  ThreadHandler.ev_lastMessage ev = Some (last, attachments) ->
  m_author_bot last = false ->
  threads (store w) !! t_id (ThreadHandler.ev_thread ev) = Some old ->
  exists w' imageData new,
    ThreadHandler.handleThreadUpsert ev parent w = (Ok tt, w') /\
    threads (store w') !! t_id (ThreadHandler.ev_thread ev) = Some new /\
    th_body_html new = Handlers.with_images (sanitize_html (m_content last)) imageData /\
    th_reply_count new = Db.count_posts (store w) (t_id (ThreadHandler.ev_thread ev)) /\
    th_author_alias new = th_author_alias old /\ th_slug new = th_slug old /\
    posts (store w') = posts (store w).
Proof.
  intros Hdb Hp Hlast Hbot Hold. unfold ThreadHandler.handleThreadUpsert.
  rewrite Hlast.
  change (bind (ret ?a) ?k w) with (k a w). cbv beta iota. rewrite Hbot.
  rewrite (bind_ok _ _ _ _ _ (gets_run env w)).
  destruct (hashUserId_ok (env w) (m_author_id last) Hp) as [h Hh].
  assert (Hl : lift (Hash.hashUserId (env w) (m_author_id last)) w = (Ok h, w))
    by (unfold lift; rewrite Hh; reflexivity).
  rewrite (bind_ok _ _ _ _ _ Hl).
  destruct (getStaffTag_ok (m_author_id last) w Hdb) as (tag & w1 & H1 & Hf1 & Hs1).
  rewrite (bind_ok _ _ _ _ _ H1).
  rewrite (bind_ok _ _ _ _ _ (gets_run now w1)).
  unfold Db.upsert_channel.
  match goal with
  | |- context [Db.write ?g] =>
      destruct (write_ok g w1 (proj2 (proj2 Hf1))) as (w2 & t2 & H2 & Hf2 & Hs2)
  end.
  rewrite (bind_ok _ _ _ _ _ H2).
  assert (Hth2 : threads (store w2) = threads (store w) /\ posts (store w2) = posts (store w)).
  { rewrite Hs2, Hs1.
    destruct (channels (store w) !! t_parentId (ThreadHandler.ev_thread ev)); auto. }
  destruct Hth2 as [Hth2 Hpo2].
  destruct (processImages_ok attachments w2) as (imgs & w3 & H3 & Hc3).
  rewrite (bind_ok _ _ _ _ _ H3).
  destruct (follows_core w2 w3 (proj2 (proj2 Hf2)) Hc3) as [Hf3 Hs3].
  destruct (tag_names_parent parent (t_appliedTags (ThreadHandler.ev_thread ev))) as [tags Ht].
  assert (Hlt : lift (Sync.tag_names (Some parent) (t_appliedTags (ThreadHandler.ev_thread ev))) w3
                = (Ok tags, w3)) by (unfold lift; rewrite Ht; reflexivity).
  rewrite (bind_ok _ _ _ _ _ Hlt).
  destruct (read_ok (fun s => Db.count_posts s (t_id (ThreadHandler.ev_thread ev))) w3
              (proj2 (proj2 Hf3))) as (w4 & H4 & Hf4 & Hs4).
  rewrite (bind_ok _ _ _ _ _ H4).
  rewrite (bind_ok _ _ _ _ _ (gets_run now w4)).
  unfold ThreadHandler.upsert_thread_counted.
  destruct (db_io_ok w4 (proj2 (proj2 Hf4))) as (w5 & H5 & Hf5 & Hs5).
  rewrite (bind_ok _ _ _ _ _ H5).
  rewrite (bind_ok _ _ _ _ _ (gets_run store w5)).
  assert (Hth5 : threads (store w5) = threads (store w)) by congruence.
  assert (Hpo5 : posts (store w5) = posts (store w)) by congruence.
  eexists _, imgs, _. split.
  { rewrite Hth5, Hold. unfold modify. reflexivity. }
  cbn [store set_store threads posts Db.with_threads].
  split; [apply lookup_insert_eq|]. cbn.
  split; [reflexivity|]. split.
  { unfold Db.count_posts. rewrite Hs3. rewrite Hpo2. reflexivity. }
  split; [reflexivity|]. split; [reflexivity | exact Hpo5].
Qed.

Lemma handleThreadUpsert_takes_last_message_witness :
  exists w' imageData new,
    ThreadHandler.handleThreadUpsert thread_event scenario_channel synced_world = (Ok tt, w') /\
    threads (store w') !! t_id (ThreadHandler.ev_thread thread_event) = Some new /\
    th_body_html new = Handlers.with_images (sanitize_html (m_content Scenario.M3)) imageData /\
    th_reply_count new
      = Db.count_posts (store synced_world) (t_id (ThreadHandler.ev_thread thread_event)) /\
    th_author_alias new = th_author_alias synced_thread_row /\
    th_slug new = th_slug synced_thread_row /\
    posts (store w') = posts (store synced_world).
Proof.
  apply (handleThreadUpsert_takes_last_message thread_event scenario_channel Scenario.M3 []
           synced_thread_row synced_world).
  - constructor.
  - exists 48, (tl Scenario.pepper). reflexivity.
  - reflexivity.
  - reflexivity.
  - vm_compute. reflexivity.
Defined.

(** ** The full pass of a thread stores the thread *)

Lemma net_events_keeps {A} (m : M A) :
  preserves net_events m -> keeps_net_ok_of m.
Proof. intros H w. unfold net_ok. rewrite H. auto. Qed.

Lemma keeps_bind {A B} (m : M A) (k : A -> M B) :
  keeps_net_ok_of m -> (forall a, keeps_net_ok_of (k a)) -> keeps_net_ok_of (bind m k).
Proof.
  intros Hm Hk w Hw. unfold bind. specialize (Hm w Hw).
  destruct (m w) as [[a|e] w1]; simpl in *; [apply Hk; exact Hm | exact Hm].
Qed.

Lemma keeps_try_catch {A} (m : M A) (h : string -> M A) :
  keeps_net_ok_of m -> (forall e, keeps_net_ok_of (h e)) -> keeps_net_ok_of (try_catch m h).
Proof.
  intros Hm Hh w Hw. unfold try_catch. specialize (Hm w Hw).
  destruct (m w) as [[a|e] w1]; simpl in *; [exact Hm | apply Hh; exact Hm].
Qed.

Lemma keeps_net_io : keeps_net_ok_of net_io.
Proof.
  intros w Hw. destruct (net_io_ok w Hw) as (w1 & H & Hk). rewrite H. exact Hk.
Qed.

Lemma keeps_ret {A} (a : A) : keeps_net_ok_of (ret a).
Proof. intros w Hw. exact Hw. Qed.

Lemma keeps_processImageUrls urls : keeps_net_ok_of (Image.processImageUrls urls).
Proof.
  intros w Hw. destruct (processImageUrls_count urls w) as (r & w1 & H & _ & Hk).
  rewrite H. apply Hk, Hw.
Qed.

Lemma keeps_append_images h urls : keeps_net_ok_of (Image.append_images h urls).
Proof.
  unfold Image.append_images. destruct urls as [|u urls]; [apply keeps_ret|].
  apply keeps_try_catch; [|intros; apply keeps_ret].
  apply keeps_bind; [apply keeps_processImageUrls|].
  intros [|i r]; apply keeps_ret.
Qed.

Lemma db_io_net : preserves net_events db_io.
Proof.
  intros w. unfold db_io. destruct (db_events w) as [|e l]; [reflexivity|].
  destruct (fails e); reflexivity.
Qed.

Lemma read_net {A} (g : Store -> A) : preserves net_events (Db.read g).
Proof.
  unfold Db.read. apply preserves_bind; [apply db_io_net | intros _; apply preserves_gets].
Qed.

Lemma write_net g : preserves net_events (Db.write g).
Proof.
  unfold Db.write. apply preserves_bind; [apply db_io_net | intros _].
  apply preserves_modify. intros w. reflexivity.
Qed.

Lemma getStaffTag_net uid : preserves net_events (StaffLoader.getStaffTag uid).
Proof.
  unfold StaffLoader.getStaffTag, Db.select_staff_tag.
  apply preserves_try_catch; [|intros; apply preserves_ret].
  apply preserves_bind; [apply preserves_gets | intros e].
  apply preserves_bind; [apply preserves_lift | intros hashedId].
  apply preserves_bind; [apply read_net | intros; apply preserves_ret].
Qed.

Lemma slug_owner_None (ths : gmap Z ThreadRow) slug :
  (forall j row, ths !! j = Some row -> th_slug row <> slug) ->
  Db.slug_owner ths slug = None.
Proof.
  intros H. unfold Db.slug_owner.
  destruct (List.filter (fun ir : Z * ThreadRow => bool_decide (th_slug (snd ir) = slug))
              (map_to_list ths)) as [|[j row] rest] eqn:E; [reflexivity|].
  exfalso.
  assert (Hin : In (j, row)
            (List.filter (fun ir : Z * ThreadRow => bool_decide (th_slug (snd ir) = slug))
               (map_to_list ths))) by (rewrite E; left; reflexivity).
  apply List.filter_In in Hin as [Hin Hb].
  apply bool_decide_eq_true_1 in Hb. apply (H j row); [|exact Hb].
  apply elem_of_map_to_list, list_elem_of_In. exact Hin.
Qed.

(** [upsertThread] when no other row holds the slug of the thread. *)
Lemma upsertThread_ok thread w :
  db_ok w -> pepper_set (env w) ->
  (forall j row, threads (store w) !! j = Some row ->
                 th_slug row = Slug.upsertThread_slug (t_name thread) -> j = t_id thread) ->
  exists w1, SmartSync.upsertThread thread w = (Ok tt, w1) /\ follows w w1 /\
    posts (store w1) = posts (store w) /\
    is_Some (threads (store w1) !! t_id thread) /\
    (net_ok w -> net_ok w1).
Proof.
  intros Hdb Hp Hfree. unfold SmartSync.upsertThread.
  rewrite (bind_ok _ _ _ _ _ (gets_run env w)).
  destruct (hashUserId_ok (env w) (t_ownerId thread) Hp) as [h Hh].
  assert (Hl : lift (Hash.hashUserId (env w) (t_ownerId thread)) w = (Ok h, w))
    by (unfold lift; rewrite Hh; reflexivity).
  rewrite (bind_ok _ _ _ _ _ Hl).
  destruct (getStaffTag_ok (t_ownerId thread) w Hdb) as (tag & w1 & H1 & Hf1 & Hs1).
  assert (Hn1 : net_events w1 = net_events w).
  { pose proof (getStaffTag_net (t_ownerId thread) w) as Hn. rewrite H1 in Hn. exact Hn. }
  rewrite (bind_ok _ _ _ _ _ H1).
  match goal with
  | |- context [try_catch ?m (fun _ => ret [])] =>
      destruct (try_catch_ret_total m [] w1) as [body H2];
      pose proof (starter_body_core thread w1) as Hc2;
      assert (Hk2 : keeps_net_ok_of (try_catch m (fun _ => ret [])))
  end.
  { apply keeps_try_catch; [|intros; apply keeps_ret].
    unfold fetchStarterMessage.
    apply keeps_bind; [apply keeps_bind; [apply keeps_net_io | intros; apply keeps_ret]|].
    intros [sm|]; [|apply keeps_ret].
    destruct (negb (m_author_bot sm)); [apply keeps_append_images | apply keeps_ret]. }
  specialize (Hk2 w1). rewrite H2 in Hc2, Hk2. simpl in Hc2, Hk2.
  rewrite (bind_ok _ _ _ _ _ H2).
  match type of H2 with _ = (_, ?x) => set (w2 := x) in * end.
  destruct (follows_core w1 w2 (proj2 (proj2 Hf1)) Hc2) as [Hf2 Hs2].
  rewrite (bind_ok _ _ _ _ _ (gets_run now w2)).
  destruct (db_io_ok w2 (proj2 (proj2 Hf2))) as (w3 & H3 & Hf3 & Hs3).
  assert (Hn3 : net_ok w2 -> net_ok w3).
  { pose proof (db_io_net w2) as Hn. rewrite H3 in Hn. simpl in Hn.
    unfold net_ok. rewrite Hn. auto. }
  assert (Hst : store w3 = store w) by congruence.
  assert (Hfol : follows w w3) by eauto using follows_trans.
  unfold Db.upsert_thread. rewrite (bind_ok _ _ _ _ _ H3).
  rewrite (bind_ok _ _ _ _ _ (gets_run store w3)). rewrite Hst. cbn [th_slug].
  assert (Hnet : net_ok w -> net_ok w3).
  { intros Hw. apply Hn3, Hk2. unfold net_ok. rewrite Hn1. exact Hw. }
  destruct (threads (store w) !! t_id thread) as [old|] eqn:E.
  - rewrite slug_owner_None.
    2:{ intros j row Hj Hs. apply lookup_delete_Some in Hj as [Hne Hj].
        apply Hne. symmetry. apply (Hfree j row Hj Hs). }
    unfold modify. eexists. split; [reflexivity|].
    split; [exact Hfol|]. cbn [store set_store posts threads Db.with_threads].
    split; [congruence|]. split; [|exact Hnet].
    rewrite lookup_insert_eq. eauto.
  - rewrite slug_owner_None.
    2:{ intros j row Hj Hs. pose proof (Hfree j row Hj Hs) as ->. congruence. }
    unfold modify. eexists. split; [reflexivity|].
    split; [exact Hfol|]. cbn [store set_store posts threads Db.with_threads].
    split; [congruence|]. split; [|exact Hnet].
    rewrite lookup_insert_eq. eauto.
Qed.

Lemma upsertPost_ok message w :
  db_ok w -> pepper_set (env w) ->
  exists w1 p, SmartSync.upsertPost message w = (Ok tt, w1) /\ follows w w1 /\
    posts (store w1) = <[m_id message := p]> (posts (store w)).
Proof.
  intros Hdb Hp. unfold SmartSync.upsertPost.
  rewrite (bind_ok _ _ _ _ _ (gets_run env w)).
  destruct (hashUserId_ok (env w) (m_author_id message) Hp) as [h Hh].
  assert (Hl : lift (Hash.hashUserId (env w) (m_author_id message)) w = (Ok h, w))
    by (unfold lift; rewrite Hh; reflexivity).
  rewrite (bind_ok _ _ _ _ _ Hl).
  destruct (getStaffTag_ok (m_author_id message) w Hdb) as (tag & w1 & H1 & Hf1 & Hs1).
  rewrite (bind_ok _ _ _ _ _ H1).
  assert (Hreply : exists reply w2,
            match m_reference message with
            | Some replyToId =>
                try_catch
                  (do referencedPost <- Db.select_post replyToId;
                   match referencedPost with
                   | p :: _ => ret (Some replyToId, Some (po_author_alias p))
                   | [] => ret (None, None)
                   end)
                  (fun _ => ret (None, None))
            | None => ret (None, None)
            end w1 = (Ok reply, w2) /\ follows w1 w2 /\ store w2 = store w1).
  { destruct (m_reference message) as [ref|].
    - unfold try_catch, Db.select_post.
      destruct (read_ok (fun s => match posts s !! ref with Some p => [p] | None => [] end) w1
                  (proj2 (proj2 Hf1))) as (w2 & H2 & Hf2 & Hs2).
      rewrite (bind_ok _ _ _ _ _ H2).
      destruct (posts (store w1) !! ref); unfold ret; eauto 6.
    - exists (None, None), w1. split; [reflexivity|]. split; [|reflexivity].
      repeat split. exact (proj2 (proj2 Hf1)). }
  destruct Hreply as (reply & w2 & H2 & Hf2 & Hs2).
  rewrite (bind_ok _ _ _ _ _ H2).
  destruct (append_images_total (sanitize_html (m_content message)) (m_attachments message) w2)
    as (html & w3 & H3).
  pose proof (append_images_core (sanitize_html (m_content message)) (m_attachments message) w2)
    as Hc3.
  rewrite H3 in Hc3. simpl in Hc3.
  destruct (follows_core w2 w3 (proj2 (proj2 Hf2)) Hc3) as [Hf3 Hs3].
  rewrite (bind_ok _ _ _ _ _ H3).
  match goal with
  | |- context [Db.upsert_post ?i ?r] =>
      destruct (upsert_post_ok i r w3 (proj2 (proj2 Hf3))) as (w4 & p & H4 & Hf4 & Hps & _)
  end.
  rewrite (bind_ok _ _ _ _ _ H4).
  exists (set_stats inc_posts w4), p. split; [reflexivity|].
  split.
  { apply follows_set_stats. eauto using follows_trans. }
  simpl. rewrite Hps. congruence.
Qed.

Lemma follows_pepper w w1 : follows w w1 -> pepper_set (env w) -> pepper_set (env w1).
Proof. intros (He & _) H. rewrite He. exact H. Qed.

Lemma upsert_messages_ok l : forall w,
  db_ok w -> pepper_set (env w) ->
  exists w1, SmartSync.upsert_messages l w = (Ok tt, w1) /\ follows w w1 /\
    threads (store w1) = threads (store w) /\
    (forall j, is_Some (posts (store w) !! j) -> is_Some (posts (store w1) !! j)) /\
    (forall m, In m l -> m_author_bot m = false -> is_Some (posts (store w1) !! m_id m)).
Proof.
  unfold SmartSync.upsert_messages.
  induction l as [|m l IH]; intros w Hdb Hp; simpl.
  - exists w. split; [reflexivity|]. split; [repeat split; exact Hdb|].
    split; [reflexivity|]. split; [auto|]. intros m [].
  - destruct (m_author_bot m) eqn:Eb.
    + unfold bind at 1. unfold ret at 1.
      destruct (IH w Hdb Hp) as (w1 & H1 & Hf & Ht & Hkeep & Hall).
      exists w1. split; [exact H1|]. split; [exact Hf|]. split; [exact Ht|].
      split; [exact Hkeep|].
      intros m' [<-|Hin] Hb; [congruence | auto].
    + destruct (upsertPost_ok m w Hdb Hp) as (w1 & p & H1 & Hf1 & Hps).
      assert (Ht1 : threads (store w1) = threads (store w)).
      { pose proof (upsertPost_store threads m (fun _ _ => eq_refl) w) as Hfr.
        rewrite H1 in Hfr. exact Hfr. }
      assert (Htry : try_catch (SmartSync.upsertPost m) (fun _ => upd_stats inc_errors) w
                     = (Ok tt, w1)) by (unfold try_catch; rewrite H1; reflexivity).
      rewrite (bind_ok _ _ _ _ _ Htry).
      destruct (IH w1 (proj2 (proj2 Hf1)) (follows_pepper w w1 Hf1 Hp))
        as (w2 & H2 & Hf2 & Ht2 & Hkeep & Hall).
      exists w2. split; [exact H2|]. split; [eauto using follows_trans|].
      split; [congruence|]. split.
      * intros j Hj. apply Hkeep. rewrite Hps.
        destruct (decide (m_id m = j)) as [->|Hne];
          [rewrite lookup_insert_eq; eauto | rewrite lookup_insert_ne by exact Hne; exact Hj].
      * intros m' [<-|Hin] Hb; [|auto].
        apply Hkeep. rewrite Hps, lookup_insert_eq. eauto.
Qed.

Lemma fetchAllMessages_core thread : preserves core (fetchAllMessages thread).
Proof.
  unfold fetchAllMessages. generalize (S (length (t_messages thread))) as fuel.
  generalize (@nil (Snowflake * Message)) as messages. generalize (@None Snowflake) as lastId.
  intros lastId messages fuel. revert messages lastId.
  induction fuel as [|fuel IH]; intros; simpl; [apply preserves_ret|].
  apply preserves_bind.
  - unfold messages_fetch_before.
    apply preserves_try_catch; [|intros; apply preserves_ret].
    apply preserves_bind; [repeat core_step|].
    intros [|m l]; [apply preserves_ret|].
    apply preserves_bind; [apply preserves_modify; intros; reflexivity|].
    intros; apply preserves_ret.
  - intros [[m l]|]; [apply IH | apply preserves_ret].
Qed.

(** With no rejected page request, [fetchAllMessages] returns the thread. *)
Lemma fetchAllMessages_whole thread w :
  NoDup (map m_id (t_messages thread)) -> net_ok w ->
  exists w1, fetchAllMessages thread w
             = (Ok (map entry (newest_first (t_messages thread))), w1) /\
             core w1 = core w.
Proof.
  intros Hnd Hw.
  destruct (fetchAllMessages_loop_prefix thread Hnd (S (length (t_messages thread))) 0 w)
    as (k & w1 & H & Hk).
  { rewrite length_skipn, (Permutation_length (newest_first_perm _)). lia. }
  exists w1.
  assert (Hall : firstn k (newest_first (t_messages thread)) = newest_first (t_messages thread)).
  { apply firstn_all2. rewrite (Permutation_length (newest_first_perm _)). auto. }
  rewrite Hall in H.
  change (fetchAllMessages thread w
          = (Ok (map entry (newest_first (t_messages thread))), w1)) in H.
  split; [exact H|].
  pose proof (fetchAllMessages_core thread w) as Hc. rewrite H in Hc. exact Hc.
Qed.

(** X22. The full pass of a thread, with PII_PEPPER set, every statement
    accepted and every platform call answered, on a thread whose message
    ids are distinct and whose slug no other thread row holds. The row of
    the parent channel is stored, as the foreign key of [channel_id]
    demands, and every staff tag has at most three units, so that the alias
    [hash.slice(0, 8):tag] fits CHAR(12). Then the pass returns, the thread
    has its row, and every message of the thread whose author is not a bot
    has its post row. *)
Theorem syncThreadFull_stores_thread (thread : ThreadChannel) (w : World) :
  db_ok w -> net_ok w -> pepper_set (env w) ->
  is_Some (channels (store w) !! t_parentId thread) ->
  map_Forall (fun _ tag => (length tag <= 3)%nat) (staff_roles (store w)) ->
  NoDup (map m_id (t_messages thread)) ->
  (forall j row, threads (store w) !! j = Some row ->
                 th_slug row = Slug.upsertThread_slug (t_name thread) -> j = t_id thread) ->
  exists w',
    SmartSync.syncThreadFull thread w = (Ok tt, w') /\
    is_Some (threads (store w') !! t_id thread) /\
    forall m, In m (t_messages thread) -> m_author_bot m = false ->
              is_Some (posts (store w') !! m_id m).
Proof.
  intros Hdb Hnet Hp Hch Htags Hnd Hfree. unfold SmartSync.syncThreadFull.
  destruct (upsertThread_ok thread w Hdb Hp Hfree) as (w1 & H1 & Hf1 & Hpo1 & Hrow1 & Hn1).
  rewrite (bind_ok _ _ _ _ _ H1).
  destruct (fetchAllMessages_whole thread w1 Hnd (Hn1 Hnet)) as (w2 & H2 & Hc2).
  rewrite (bind_ok _ _ _ _ _ H2).
  destruct (follows_core w1 w2 (proj2 (proj2 Hf1)) Hc2) as [Hf2 Hs2].
  assert (Hp2 : pepper_set (env w2)) by eauto using follows_pepper.
  destruct (upsert_messages_ok
              (sort_by_created (map snd (map entry (newest_first (t_messages thread)))))
              w2 (proj2 (proj2 Hf2)) Hp2) as (w3 & H3 & Hf3 & Ht3 & Hkeep & Hall).
  rewrite (bind_ok _ _ _ _ _ H3).
  unfold SmartSync.updateThreadReplyCount, Db.update_reply_count_from_posts.
  match goal with
  | |- context [Db.write ?g] =>
      destruct (write_ok g w3 (proj2 (proj2 Hf3))) as (w4 & t & H4 & Hf4 & Hs4)
  end.
  exists w4. split; [exact H4|].
  assert (Hrow3 : is_Some (threads (store w3) !! t_id thread)) by congruence.
  split.
  - rewrite Hs4. destruct Hrow3 as [old Hold]. rewrite Hold. simpl.
    rewrite lookup_insert_eq. eauto.
  - intros m Hin Hb.
    assert (Hposts : posts (store w4) = posts (store w3)).
    { rewrite Hs4. destruct (threads (store w3) !! t_id thread); reflexivity. }
    rewrite Hposts. apply Hall; [|exact Hb].
    apply (Permutation_in (l := t_messages thread)); [|exact Hin].
    symmetry. rewrite sort_by_created_perm. rewrite map_map. simpl. rewrite map_id.
    apply newest_first_perm.
Qed.

(** The theorem at the thread of the scenario, the channel row stored. *)
Lemma syncThreadFull_stores_thread_witness :
  let t := Scenario.thread [Scenario.M1; Scenario.M2; Scenario.M3] in
  let w := Scenario.world_of Scenario.store_with_channel Scenario.env0 Scenario.client [] [] in
  (is_Some (channels (store w) !! t_parentId t) /\
   map_Forall (fun _ tag => (length tag <= 3)%nat) (staff_roles (store w))) /\
  exists w',
    SmartSync.syncThreadFull t w = (Ok tt, w') /\
    is_Some (threads (store w') !! 500%Z) /\
    forall m, In m [Scenario.M1; Scenario.M2; Scenario.M3] -> m_author_bot m = false ->
              is_Some (posts (store w') !! m_id m).
Proof.
  intros t w.
  assert (Hch : is_Some (channels (store w) !! t_parentId t)) by (vm_compute; eauto).
  assert (Htags : map_Forall (fun _ tag => (length tag <= 3)%nat) (staff_roles (store w)))
    by (intros k v Hk; simpl in Hk; rewrite lookup_empty in Hk; discriminate Hk).
  split; [split; assumption|].
  apply (syncThreadFull_stores_thread t w); [| | |exact Hch|exact Htags| |].
  - constructor.
  - constructor.
  - exists 48, (tl Scenario.pepper). reflexivity.
  - simpl. repeat (apply NoDup_cons; split; [rewrite ?elem_of_cons, ?elem_of_nil; lia|]).
    apply NoDup_nil_2.
  - intros j row H. simpl in H. rewrite lookup_empty in H. discriminate H.
Defined.

(** ** Markup goes through the sanitizer *)

Lemma replace_without re tpl p s :
  needs (ignoreCase re) p (source re) = true ->
  Forall (fun c => p c = false) s -> replace re tpl s = s.
Proof.
  intros Hn Hs. apply replace_from_no_match. intros pre t ->.
  apply Forall_app in Hs as [_ Ht]. exact (exec_at_without re p _ t Hn Ht).
Qed.

Lemma is_space_flipcase c : is_space c = false -> is_space (flipcase c) = false.
Proof.
  unfold flipcase, is_upper, is_lower. intros H.
  destruct ((65 <=? c) && (c <=? 90)) eqn:Eu.
  - apply andb_true_iff in Eu as [H1 H2]. apply N.leb_le in H1, H2.
    unfold is_space, is_line_terminator.
    repeat match goal with
           | |- context [?a =? ?b] => destruct (N.eqb_spec a b); [lia|]
           | |- context [?a <=? ?b] => destruct (N.leb_spec a b); [lia|]
           end; reflexivity.
  - destruct ((97 <=? c) && (c <=? 122)) eqn:El; [|exact H].
    apply andb_true_iff in El as [H1 H2]. apply N.leb_le in H1, H2.
    unfold is_space, is_line_terminator.
    repeat match goal with
           | |- context [?a =? ?b] => destruct (N.eqb_spec a b); [lia|]
           | |- context [?a <=? ?b] => destruct (N.leb_spec a b); [lia|]
           end; reflexivity.
Qed.

Lemma replace_ON_EVENT_no_space tpl s :
  Forall (fun c => is_space c = false) s -> replace ON_EVENT_ATTRIBUTES tpl s = s.
Proof.
  intros Hs. apply replace_from_no_match. intros pre t ->.
  apply Forall_app in Hs as [_ Ht]. unfold exec_at.
  cbn [ON_EVENT_ATTRIBUTES source ignoreCase seqs cls rmatch rest].
  destruct t as [|c t]; [reflexivity|].
  inversion Ht as [|? ? Hc _]; subst.
  unfold charset_has. cbn [negated items existsb item_has xorb andb orb].
  rewrite Hc, (is_space_flipcase c Hc). reflexivity.
Qed.

Lemma has_pair_suffix a b pre t : has_pair a b (pre ++ t) = false -> has_pair a b t = false.
Proof.
  induction pre as [|c pre IH]; simpl; [auto|].
  destruct ((c =? a) && _); [discriminate | exact IH].
Qed.

Lemma has_pair_head a b w tl : has_pair a b (w ++ a :: b :: tl) = true.
Proof.
  induction w as [|c w IH]; simpl.
  - rewrite !N.eqb_refl. reflexivity.
  - destruct ((c =? a) && _); [reflexivity | exact IH].
Qed.

Lemma lit_has_plain c a :
  is_upper a = false -> is_lower a = false -> lit_has true c a -> c = a.
Proof.
  intros Hu Hl H. apply lit_has_same_letter in H.
  destruct (same_letter_cases c a H) as [E | [[Hc E] | [Hc E]]]; [exact E | |].
  - exfalso. unfold is_upper, is_lower in *.
    apply andb_true_iff in Hc as [H1 H2]. apply N.leb_le in H1, H2. subst a.
    apply andb_false_iff in Hl as [Hl | Hl]; apply N.leb_gt in Hl; lia.
  - exfalso. unfold is_upper, is_lower in *.
    apply andb_true_iff in Hc as [H1 H2]. apply N.leb_le in H1, H2. subst a.
    apply andb_false_iff in Hu as [Hu | Hu]; apply N.leb_gt in Hu; lia.
Qed.

(** Every match of [SCRIPT_TAG] ends with a closing tag. *)
Lemma replace_SCRIPT_TAG_no_close tpl s :
  has_pair (ch "<") (ch "/") s = false -> replace SCRIPT_TAG tpl s = s.
Proof.
  intros Hs. apply replace_from_no_match. intros pre t ->.
  apply has_pair_suffix in Hs. unfold exec_at.
  destruct (rmatch 0 _ _ Some _) as [res|] eqn:E; [|reflexivity]. exfalso.
  cbn [SCRIPT_TAG source ignoreCase seqs] in E.
  rewrite rmatch_Seq in E.
  apply (rmatch_sound 0 true (fun _ => false)) in E as (s1 & w1 & E & Hr1 & _).
  rewrite rmatch_Seq in E.
  apply (rmatch_sound 0 true (fun _ => false)) in E as (s2 & w2 & E & Hr2 & _).
  rewrite rmatch_Seq in E.
  apply (rmatch_sound 0 true (fun _ => false)) in E as (s3 & w3 & E & Hr3 & _).
  rewrite rmatch_Seq in E.
  apply (rmatch_sound 0 true (fun _ => false)) in E as (s4 & w4 & E & Hr4 & _).
  apply rmatch_lit_inv in E as (m & tl & Hrest & Hm & _).
  pose proof (reaches_trans _ _ _ _ _ (reaches_trans _ _ _ _ _
                (reaches_trans _ _ _ _ _ Hr1 Hr2) Hr3) Hr4) as [Hr _].
  cbn [rest] in Hr. rewrite Hrest in Hr.
  change (str "</script>") with (ch "<" :: ch "/" :: str "script>") in Hm.
  inversion Hm as [|c0 a0 m0 p0 Hc0 Hm0]; subst.
  inversion Hm0 as [|c1 a1 m1 p1 Hc1 Hm1]; subst.
  apply lit_has_plain in Hc0; [|reflexivity|reflexivity].
  apply lit_has_plain in Hc1; [|reflexivity|reflexivity]. subst c0 c1.
  cbn [app] in Hs. rewrite has_pair_head in Hs. discriminate Hs.
Qed.

Lemma run_passes_fixes passes s : Forall (fixes s) passes -> run_passes passes s = s.
Proof.
  unfold run_passes. induction 1 as [|pass passes Hp _ IH]; simpl; [reflexivity|].
  unfold fixes in Hp. rewrite Hp. exact IH.
Qed.

(** X23. Neither [sanitizeContent] nor [convertToHtml] escapes markup. A
    text without a digit, white space, [:], [@], [*], [~] or backquote and
    without [</] goes through the pipeline unchanged, whatever tags and
    attributes it holds. *)
Theorem sanitize_html_keeps_markup (x : jsstring) :
  raw_markup x = true -> sanitize_html x = x.
Proof.
  unfold raw_markup. intros H. apply andb_true_iff in H as [Hu Hp].
  apply negb_true_iff in Hp.
  assert (Ht : Forall (fun c => markup_trigger c = false) x).
  { apply Forall_forall. intros c Hc. apply list_elem_of_In in Hc.
    rewrite forallb_forall in Hu. specialize (Hu c Hc).
    apply andb_true_iff in Hu as [Hu _]. apply negb_true_iff in Hu. exact Hu. }
  assert (Hsp : Forall (fun c => is_space c = false) x).
  { apply Forall_forall. intros c Hc. apply list_elem_of_In in Hc.
    rewrite forallb_forall in Hu. specialize (Hu c Hc).
    apply andb_true_iff in Hu as [_ Hu]. apply negb_true_iff in Hu. exact Hu. }
  rewrite sanitize_html_passes. apply run_passes_fixes.
  repeat match goal with
         | |- Forall _ (_ ++ _) => cbn [CONTENT_PASSES HTML_PASSES app]
         | |- Forall _ HTML_PASSES => unfold HTML_PASSES
         | |- Forall _ (_ :: _) => constructor
         | |- Forall _ [] => constructor
         | |- fixes _ (SCRIPT_TAG, _) => apply replace_SCRIPT_TAG_no_close; exact Hp
         | |- fixes _ (ON_EVENT_ATTRIBUTES, _) => apply replace_ON_EVENT_no_space; exact Hsp
         | |- fixes _ _ =>
             apply (replace_without _ _ markup_trigger); [vm_compute; reflexivity | exact Ht]
         end.
Qed.

Lemma sanitize_html_keeps_markup_witness :
  sanitize_html (str "<svg/onload=alert(document.cookie)>")
  = str "<svg/onload=alert(document.cookie)>".
Proof.
  apply (sanitize_html_keeps_markup (str "<svg/onload=alert(document.cookie)>")).
  vm_compute. reflexivity.
Defined.

(** ** A run in once mode *)

Lemma keeps_db_preserves {A} (m : M A) : preserves db_events m -> keeps_db_ok m.
Proof. intros H w. unfold db_ok. rewrite H. auto. Qed.

Lemma keeps_db_core {A} (m : M A) : preserves core m -> keeps_db_ok m.
Proof.
  intros H. apply keeps_db_preserves. intros w. specialize (H w). unfold core in H.
  congruence.
Qed.

Lemma keeps_db_bind {A B} (m : M A) (k : A -> M B) :
  keeps_db_ok m -> (forall a, keeps_db_ok (k a)) -> keeps_db_ok (bind m k).
Proof.
  intros Hm Hk w Hw. unfold bind. specialize (Hm w Hw).
  destruct (m w) as [[a|e] w1]; simpl in *; [apply Hk; exact Hm | exact Hm].
Qed.

Lemma keeps_db_try_catch {A} (m : M A) (h : string -> M A) :
  keeps_db_ok m -> (forall e, keeps_db_ok (h e)) -> keeps_db_ok (try_catch m h).
Proof.
  intros Hm Hh w Hw. unfold try_catch. specialize (Hm w Hw).
  destruct (m w) as [[a|e] w1]; simpl in *; [exact Hm | apply Hh; exact Hm].
Qed.

Lemma keeps_db_foreach {X} (l : list X) (body : X -> M unit) :
  (forall x, keeps_db_ok (body x)) -> keeps_db_ok (foreach l body).
Proof.
  intros Hb. induction l as [|x l IH]; simpl.
  - intros w Hw. exact Hw.
  - apply keeps_db_bind; [apply Hb | intros _; exact IH].
Qed.

Lemma keeps_db_io : keeps_db_ok db_io.
Proof. intros w Hw. destruct (db_io_ok w Hw) as (w1 & H & (_ & _ & Hk) & _). rewrite H. exact Hk. Qed.

Lemma keeps_db_pure {A} (m : M A) :
  (forall w, db_events (snd (m w)) = db_events w) -> keeps_db_ok m.
Proof. intros H. apply keeps_db_preserves. exact H. Qed.

Ltac db_step :=
  match goal with
  | |- keeps_db_ok (bind _ _) => apply keeps_db_bind; [|intros ?]
  | |- keeps_db_ok (try_catch _ _) => apply keeps_db_try_catch; [|intros ?]
  | |- keeps_db_ok (foreach _ _) => apply keeps_db_foreach; intros ?
  | |- keeps_db_ok db_io => apply keeps_db_io
  | |- keeps_db_ok Db.ping => apply keeps_db_io
  | |- keeps_db_ok (Db.read _) => unfold Db.read
  | |- keeps_db_ok (Db.write _) => unfold Db.write
  | |- keeps_db_ok net_io => apply keeps_db_core, net_io_core
  | |- keeps_db_ok (Image.append_images _ _) => apply keeps_db_core, append_images_core
  | |- keeps_db_ok (fetchAllMessages _) => apply keeps_db_core, fetchAllMessages_core
  | |- keeps_db_ok (ret _) => apply keeps_db_pure; intros ?; reflexivity
  | |- keeps_db_ok (throw _) => apply keeps_db_pure; intros ?; reflexivity
  | |- keeps_db_ok (lift _) => apply keeps_db_pure; intros ?; reflexivity
  | |- keeps_db_ok (gets _) => apply keeps_db_pure; intros ?; reflexivity
  | |- keeps_db_ok Date_now => apply keeps_db_pure; intros ?; reflexivity
  | |- keeps_db_ok (modify _) => apply keeps_db_pure; intros ?; reflexivity
  | |- keeps_db_ok (upd_stats _) => apply keeps_db_pure; intros ?; reflexivity
  | |- keeps_db_ok (match ?x with _ => _ end) => destruct x
  | |- keeps_db_ok (if ?x then _ else _) => destruct x
  end.

Lemma keeps_db_getStaffTag uid : keeps_db_ok (StaffLoader.getStaffTag uid).
Proof. unfold StaffLoader.getStaffTag, Db.select_staff_tag. repeat db_step. Qed.

Lemma keeps_db_upsertThread thread : keeps_db_ok (SmartSync.upsertThread thread).
Proof.
  unfold SmartSync.upsertThread.
  apply keeps_db_bind; [repeat db_step | intros e].
  apply keeps_db_bind; [repeat db_step | intros a].
  apply keeps_db_bind; [apply keeps_db_getStaffTag | intros tag].
  apply keeps_db_bind; [apply keeps_db_core, starter_body_core | intros body].
  apply keeps_db_bind; [repeat db_step | intros t].
  unfold Db.upsert_thread. repeat db_step.
Qed.

Lemma keeps_db_upsertPost message : keeps_db_ok (SmartSync.upsertPost message).
Proof.
  unfold SmartSync.upsertPost.
  apply keeps_db_bind; [repeat db_step | intros e].
  apply keeps_db_bind; [repeat db_step | intros a].
  apply keeps_db_bind; [apply keeps_db_getStaffTag | intros tag].
  apply keeps_db_bind; [unfold Db.select_post; repeat db_step | intros reply].
  unfold Db.upsert_post. repeat db_step.
Qed.

Lemma keeps_db_upsert_messages l : keeps_db_ok (SmartSync.upsert_messages l).
Proof.
  unfold SmartSync.upsert_messages. apply keeps_db_foreach. intros m.
  destruct (m_author_bot m); [repeat db_step|].
  apply keeps_db_try_catch; [apply keeps_db_upsertPost | intros; repeat db_step].
Qed.

Lemma keeps_db_syncThreadFull thread : keeps_db_ok (SmartSync.syncThreadFull thread).
Proof.
  unfold SmartSync.syncThreadFull, SmartSync.updateThreadReplyCount,
    Db.update_reply_count_from_posts.
  apply keeps_db_bind; [apply keeps_db_upsertThread | intros _].
  apply keeps_db_bind; [repeat db_step | intros messages].
  apply keeps_db_bind; [apply keeps_db_upsert_messages | intros _].
  repeat db_step.
Qed.

Lemma keeps_db_syncThreadDelta thread since :
  keeps_db_ok (SmartSync.syncThreadDelta thread since).
Proof.
  unfold SmartSync.syncThreadDelta, SmartSync.updateThreadReplyCount,
    Db.update_reply_count_from_posts, messages_fetch_after.
  apply keeps_db_bind; [apply keeps_db_upsertThread | intros _].
  apply keeps_db_try_catch; [|intros; repeat db_step].
  apply keeps_db_bind; [repeat db_step | intros messages].
  apply keeps_db_bind; [apply keeps_db_upsert_messages | intros _].
  repeat db_step.
Qed.

Lemma keeps_db_syncGuild sync guild :
  (forall thread, keeps_db_ok (sync thread)) ->
  keeps_db_ok (SmartSync.syncGuild (SmartSync.syncChannelThreads sync) guild).
Proof.
  intros Hs. unfold SmartSync.syncGuild. apply keeps_db_foreach. intros channel.
  apply keeps_db_try_catch; [|intros; repeat db_step].
  apply keeps_db_bind.
  { unfold SmartSync.upsertChannel, Db.upsert_channel. repeat db_step. }
  intros _. apply keeps_db_bind; [|intros; repeat db_step].
  unfold SmartSync.syncChannelThreads, fetchActive, fetchArchived.
  apply keeps_db_try_catch; [|intros; repeat db_step].
  apply keeps_db_bind; [repeat db_step | intros active].
  apply keeps_db_bind; [repeat db_step | intros archived].
  apply keeps_db_foreach. intros thread.
  apply keeps_db_try_catch; [|intros; repeat db_step].
  apply keeps_db_bind; [apply Hs | intros; repeat db_step].
Qed.

Lemma keeps_db_traverse client forceFull st : keeps_db_ok (traverse client forceFull st).
Proof.
  unfold traverse.
  destruct (forceFull || (is_first_run st =? 1)%Z).
  - apply keeps_db_bind; [repeat db_step | intros _].
    unfold SmartSync.runFullSync. apply keeps_db_foreach. intros guild.
    apply keeps_db_try_catch; [|intros; repeat db_step].
    apply keeps_db_bind; [|intros; repeat db_step].
    apply keeps_db_syncGuild. apply keeps_db_syncThreadFull.
  - apply keeps_db_bind; [repeat db_step | intros _].
    unfold SmartSync.runDeltaSync. apply keeps_db_foreach. intros guild.
    apply keeps_db_try_catch; [|intros; repeat db_step].
    apply keeps_db_bind; [|intros; repeat db_step].
    apply (keeps_db_syncGuild (fun thread => SmartSync.syncThreadDelta thread (last_sync st))).
    intros thread. apply keeps_db_syncThreadDelta.
Qed.

(** The traversal counts what fails and returns. *)
Lemma traverse_returns client forceFull st w : fst (traverse client forceFull st w) = Ok tt.
Proof.
  assert (Hloop : forall (l : list Guild) (body : Guild -> M unit) w0,
            fst (foreach l (fun g => try_catch (body g) (fun _ => upd_stats inc_errors)) w0)
            = Ok tt).
  { induction l as [|g l IH]; intros body w0; simpl; [reflexivity|].
    unfold bind at 1. unfold try_catch at 1.
    destruct (body g w0) as [[[]|e] w1]; simpl; apply IH. }
  unfold traverse. destruct (forceFull || (is_first_run st =? 1)%Z);
    unfold bind at 1; unfold upd_stats at 1; unfold modify at 1; apply Hloop.
Qed.

Lemma keeps_db_getSyncState : keeps_db_ok SmartSync.getSyncState.
Proof. unfold SmartSync.getSyncState, Db.select_sync_state. repeat db_step. Qed.

Lemma getSyncState_returns w : exists st, fst (SmartSync.getSyncState w) = Ok st.
Proof.
  unfold SmartSync.getSyncState, try_catch.
  destruct (bind _ _ w) as [[st|e] w1]; simpl; eauto.
Qed.

Lemma smartSync_ok client forceFull w :
  db_ok w ->
  exists w3, SmartSync.smartSync client forceFull w
             = (Ok tt, set_stats (with_end (now w3)) w3).
Proof.
  intros Hdb. rewrite smartSync_unfold.
  set (w0 := set_stats _ w).
  assert (H0 : db_ok w0) by exact Hdb.
  pose proof (keeps_db_getSyncState w0 H0) as H1.
  destruct (getSyncState_returns w0) as [st Hst].
  destruct (SmartSync.getSyncState w0) as [r1 w1] eqn:E1. simpl in H1, Hst. subst r1.
  pose proof (keeps_db_traverse client forceFull st w1 H1) as H2.
  pose proof (traverse_returns client forceFull st w1) as Hr2.
  destruct (traverse client forceFull st w1) as [r2 w2] eqn:E2. simpl in H2, Hr2. subst r2.
  assert (E3 : exists w3, SmartSync.updateSyncState w2 = (Ok tt, w3)).
  { unfold SmartSync.updateSyncState, Date_now, Db.update_sync_state.
    rewrite (bind_ok _ _ _ _ _ (gets_run now w2)).
    match goal with
    | |- context [Db.write ?g] => destruct (write_ok g w2 H2) as (w3 & t & H3 & _)
    end.
    exists w3. exact H3. }
  destruct E3 as [w3 E3].
  unfold try_catch.
  rewrite (bind_ok _ _ _ _ _ E1), (bind_ok _ _ _ _ _ E2), (bind_ok _ _ _ _ _ E3).
  rewrite (bind_ok _ _ _ _ _ (gets_run now w3)). unfold upd_stats, modify.
  eexists. reflexivity.
Qed.

(** X24. When no statement is rejected [smartSync] returns, whatever the
    platform and the media pipeline do and whether or not PII_PEPPER is set:
    what fails on the way is counted in the statistics, which carry the end
    time of the run. *)
Theorem smartSync_returns_when_statements_succeed (client : Client) (forceFull : bool)
  (w : World) :
  db_ok w ->
  exists w', SmartSync.smartSync client forceFull w = (Ok tt, w') /\
             endTime (stats w') = Some (now w').
Proof.
  intros Hdb. destruct (smartSync_ok client forceFull w Hdb) as (w3 & H).
  eexists. split; [exact H | reflexivity].
Qed.

Lemma smartSync_returns_when_statements_succeed_witness :
  exists w', SmartSync.smartSync Scenario.client false once_world = (Ok tt, w') /\
             endTime (stats w') = Some (now w').
Proof.
  apply (smartSync_returns_when_statements_succeed Scenario.client false once_world).
  constructor.
Defined.

(** X25. In once mode with the sync enabled, the [ready] handler ends the
    process with exit code 0 whenever no statement is rejected, even when
    every call to the platform fails and PII_PEPPER is not set. *)
Theorem ready_once_exits_zero (client : Client) (w : World) :
  db_ok w ->
  env w !! "RUN_MODE"%string = Some (str "once") ->
  env w !! "ENABLE_HISTORICAL_SYNC"%string = Some (str "true") ->
  fst (Index.ready client w) = Ok (Index.Exited 0).
Proof.
  intros Hdb Hmode Hsync. unfold Index.ready.
  rewrite (bind_ok _ _ _ _ _ (gets_run env w)).
  unfold Index.env_is. rewrite Hmode, Hsync.
  rewrite (bool_decide_eq_true_2 (Some (str "true") = Some (str "true")) eq_refl).
  rewrite (bool_decide_eq_true_2 (str "once" = str "once") eq_refl).
  change (str "once") with (111 :: str "nce") at 1. cbv beta iota.
  match goal with
  | |- context [bind (if ?c then ?a else ?b) _] =>
      assert (Hreg : exists w1, (if c then a else b) w = (Ok tt, w1) /\ db_ok w1)
  end.
  { destruct (_ && _).
    - pose proof (net_io_core w) as Hc. unfold try_catch, Index.registerCommands.
      destruct (net_io w) as [[[]|e] w1]; simpl in Hc; eexists; (split; [reflexivity|]);
        unfold core in Hc; unfold db_ok;
        assert (Hd : db_events w1 = db_events w) by congruence; rewrite Hd; exact Hdb.
    - exists w. split; [reflexivity | exact Hdb]. }
  destruct Hreg as (w1 & Hreg & Hdb1).
  rewrite (bind_ok _ _ _ _ _ Hreg).
  destruct (smartSync_ok client (bool_decide (env w !! "FORCE_FULL_SYNC"%string
                                               = Some (str "true"))) w1 Hdb1) as (w2 & H2).
  unfold try_catch. rewrite (bind_ok _ _ _ _ _ H2). reflexivity.
Qed.

Lemma ready_once_exits_zero_witness :
  fst (Index.ready Scenario.client once_world) = Ok (Index.Exited 0).
Proof.
  apply (ready_once_exits_zero Scenario.client once_world).
  - constructor.
  - reflexivity.
  - reflexivity.
Defined.

(** ** Loading the staff file *)

Lemma isStaff_reads uid h w :
  db_ok w -> Hash.hashUserId (env w) uid = Ok h ->
  fst (StaffRoles.isStaff uid w) = Ok (bool_decide (is_Some (staff_roles (store w) !! h))).
Proof.
  intros Hdb Hh. unfold StaffRoles.isStaff, try_catch.
  rewrite (bind_ok _ _ _ _ _ (gets_run env w)).
  assert (Hl : lift (Hash.hashUserId (env w) uid) w = (Ok h, w))
    by (unfold lift; rewrite Hh; reflexivity).
  rewrite (bind_ok _ _ _ _ _ Hl). unfold StaffRoles.count_staff_roles.
  destruct (read_ok (fun s => match staff_roles s !! h with
                              | Some _ => [1%Z] | None => [0%Z] end) w Hdb)
    as (w2 & H2 & _ & _).
  rewrite (bind_ok _ _ _ _ _ H2). unfold ret. simpl.
  destruct (staff_roles (store w) !! h); reflexivity.
Qed.

Lemma load_records_ok records : forall w,
  db_ok w -> pepper_set (env w) ->
  exists w1,
    foreach records (fun record =>
      try_catch
        (do e <- gets env;
         do hashedId <- lift (Hash.hashUserId e (fst record));
         Db.upsert_staff_role hashedId (snd record))
        (fun _ => ret tt)) w = (Ok tt, w1) /\
    follows w w1 /\
    (forall h, is_Some (staff_roles (store w) !! h) -> is_Some (staff_roles (store w1) !! h)) /\
    (forall record h, In record records -> Hash.hashUserId (env w) (fst record) = Ok h ->
                      is_Some (staff_roles (store w1) !! h)).
Proof.
  induction records as [|r records IH]; intros w Hdb Hp; simpl.
  - exists w. split; [reflexivity|]. split; [repeat split; exact Hdb|].
    split; [auto|]. intros record h [].
  - destruct (hashUserId_ok (env w) (fst r) Hp) as [h Hh].
    assert (Hl : lift (Hash.hashUserId (env w) (fst r)) w = (Ok h, w))
      by (unfold lift; rewrite Hh; reflexivity).
    destruct (write_ok (fun (_ : Time) s =>
                Db.with_staff_roles (<[h := snd r]> (staff_roles s)) s) w Hdb)
      as (w1 & t & H1 & Hf1 & Hs1).
    assert (Hstep : try_catch
                      (do e <- gets env;
                       do hashedId <- lift (Hash.hashUserId e (fst r));
                       Db.upsert_staff_role hashedId (snd r))
                      (fun _ => ret tt) w = (Ok tt, w1)).
    { unfold try_catch. rewrite (bind_ok _ _ _ _ _ (gets_run env w)), (bind_ok _ _ _ _ _ Hl).
      unfold Db.upsert_staff_role. rewrite H1. reflexivity. }
    rewrite (bind_ok _ _ _ _ _ Hstep).
    destruct (IH w1 (proj2 (proj2 Hf1)) (follows_pepper w w1 Hf1 Hp))
      as (w2 & H2 & Hf2 & Hkeep & Hall).
    exists w2. split; [exact H2|]. split; [eauto using follows_trans|].
    assert (Hins : forall h', is_Some (staff_roles (store w) !! h') \/ h' = h ->
                              is_Some (staff_roles (store w1) !! h')).
    { intros h' Hh'. rewrite Hs1. simpl.
      destruct (decide (h = h')) as [->|Hne]; [rewrite lookup_insert_eq; eauto|].
      rewrite lookup_insert_ne by exact Hne. destruct Hh' as [Hh' | ->]; [exact Hh' | congruence]. }
    split.
    + intros h' Hh'. apply Hkeep, Hins. left. exact Hh'.
    + intros record h' [<-|Hin] Hrec.
      * apply Hkeep, Hins. right. congruence.
      * apply (Hall record h' Hin). destruct Hf1 as (He & _). rewrite He. exact Hrec.
Qed.

(** X26. After [loadStaffFromCSV], with PII_PEPPER set and the statements
    accepted, every row of the file whose two columns are not blank makes
    its user staff: [isStaff] of the trimmed id answers true. Rows with a
    blank column are skipped, and a missing file leaves everything as it
    is. *)
Theorem loadStaffFromCSV_then_isStaff (w : World) :
  db_ok w -> pepper_set (env w) ->
  exists w',
    StaffLoader.loadStaffFromCSV w = (Ok tt, w') /\
    match staff_csv w with
    | None => w' = w
    | Some rows =>
        forall row, In row rows ->
          Slug.trim (fst row) <> [] -> Slug.trim (snd row) <> [] ->
          fst (StaffRoles.isStaff (Slug.trim (fst row)) w') = Ok true
    end.
Proof.
  intros Hdb Hp. unfold StaffLoader.loadStaffFromCSV.
  rewrite (bind_ok _ _ _ _ _ (gets_run staff_csv w)).
  destruct (staff_csv w) as [rows|]; [|exists w; split; reflexivity].
  destruct (load_records_ok (StaffLoader.csv_records rows) w Hdb Hp)
    as (w1 & H1 & Hf1 & _ & Hall).
  exists w1. split; [exact H1|].
  intros row Hin Hid Htag.
  destruct (hashUserId_ok (env w) (Slug.trim (fst row)) Hp) as [h Hh].
  assert (Hh1 : Hash.hashUserId (env w1) (Slug.trim (fst row)) = Ok h)
    by (destruct Hf1 as (He & _); rewrite He; exact Hh).
  rewrite (isStaff_reads _ h w1 (proj2 (proj2 Hf1)) Hh1).
  rewrite bool_decide_eq_true_2; [reflexivity|].
  apply (Hall (Slug.trim (fst row), Slug.trim (snd row)) h); [|exact Hh].
  unfold StaffLoader.csv_records. apply in_map_iff. exists row. split; [reflexivity|].
  apply List.filter_In. split; [exact Hin|].
  destruct (Slug.trim (fst row)); [congruence|].
  destruct (Slug.trim (snd row)); [congruence | reflexivity].
Qed.

Lemma loadStaffFromCSV_then_isStaff_witness :
  exists w',
    StaffLoader.loadStaffFromCSV world_with_staff_file = (Ok tt, w') /\
    forall row, In row staff_rows ->
      Slug.trim (fst row) <> [] -> Slug.trim (snd row) <> [] ->
      fst (StaffRoles.isStaff (Slug.trim (fst row)) w') = Ok true.
Proof.
  apply (loadStaffFromCSV_then_isStaff world_with_staff_file).
  - constructor.
  - exists 48, (tl Scenario.pepper). reflexivity.
Defined.

(** ** Who may run [/sync] *)

Lemma read_cases {A} (g : Store -> A) w :
  (exists e w1, Db.read g w = (Throw e, w1) /\ store_and_stats w1 = store_and_stats w) \/
  (exists w1, Db.read g w = (Ok (g (store w)), w1) /\ store_and_stats w1 = store_and_stats w).
Proof.
  unfold Db.read, bind, db_io, gets. destruct (db_events w) as [|e l].
  - right. exists w. auto.
  - destruct (fails e).
    + left. eexists _, _. split; reflexivity.
    + right. eexists. split; reflexivity.
Qed.

Lemma isStaff_cases uid w :
  exists b w1, StaffRoles.isStaff uid w = (Ok b, w1) /\
    store_and_stats w1 = store_and_stats w /\
    ((forall h, Hash.hashUserId (env w) uid = Ok h -> staff_roles (store w) !! h = None) ->
     b = false).
Proof.
  unfold StaffRoles.isStaff, try_catch.
  rewrite (bind_ok _ _ _ _ _ (gets_run env w)).
  destruct (Hash.hashUserId (env w) uid) as [h|msg] eqn:Eh.
  2:{ exists false, w. auto. }
  assert (Hl : @lift jsstring (Ok h) w = (Ok h, w)) by reflexivity.
  rewrite (bind_ok _ _ _ _ _ Hl). unfold StaffRoles.count_staff_roles.
  destruct (read_cases (fun s => match staff_roles s !! h with
                                 | Some _ => [1%Z] | None => [0%Z] end) w)
    as [(e & w1 & H1 & Hs) | (w1 & H1 & Hs)].
  - rewrite (bind_throw _ _ _ _ _ H1). exists false, w1. auto.
  - rewrite (bind_ok _ _ _ _ _ H1). unfold ret. eexists _, w1. split; [reflexivity|].
    split; [exact Hs|]. intros Hnone. rewrite (Hnone h eq_refl). reflexivity.
Qed.

(** X27. A user without a row in the staff table cannot start a sync with
    [/sync]: whatever the options, and whether or not the staff check itself
    fails, the command answers that the user has no permission (or throws
    when that answer cannot be sent) and leaves the store and the statistics
    of the last run as they are. *)
Theorem execute_requires_staff (client : Client) (interaction : SyncCommand.Interaction)
  (w : World) :
  (forall h, Hash.hashUserId (env w) (SyncCommand.user_id interaction) = Ok h ->
             staff_roles (store w) !! h = None) ->
  let r := SyncCommand.execute client interaction w in
  (fst r = Ok SyncCommand.NoPermission \/ exists e, fst r = Throw e) /\
  store_and_stats (snd r) = store_and_stats w.
Proof.
  intros Hnone r. unfold r, SyncCommand.execute.
  destruct (isStaff_cases (SyncCommand.user_id interaction) w) as (b & w1 & H1 & Hs1 & Hb).
  rewrite (bind_ok _ _ _ _ _ H1). rewrite (Hb Hnone). cbn [negb].
  unfold SyncCommand.send, bind, net_io, ret.
  destruct (net_events w1) as [|e l].
  - split; [left; reflexivity | exact Hs1].
  - destruct (fails e); simpl.
    + split; [right; eauto | exact Hs1].
    + split; [left; reflexivity | exact Hs1].
Qed.

Lemma execute_requires_staff_witness :
  let r := SyncCommand.execute Scenario.client sync_all_from_111 Scenario.world in
  (fst r = Ok SyncCommand.NoPermission \/ exists e, fst r = Throw e) /\
  store_and_stats (snd r) = store_and_stats Scenario.world.
Proof.
  apply (execute_requires_staff Scenario.client sync_all_from_111 Scenario.world).
  intros h _. reflexivity.
Defined.

(** ** The messages of a thread since a date (lib/delta-sync.ts) *)

Lemma fetchRecentMessages_loop_spec thread since :
  NoDup (map m_id (t_messages thread)) ->
  (forall a b, In a (t_messages thread) -> In b (t_messages thread) ->
               (m_id a < m_id b)%Z -> (m_createdAt a <= m_createdAt b)%Z) ->
  forall fuel k w,
    (length (skipn k (newest_first (t_messages thread))) < fuel)%nat ->
    exists k' w',
      DeltaSync.fetchRecentMessages_loop fuel thread since
        (map entry (List.filter (DeltaSync.isRecent since)
                      (firstn k (newest_first (t_messages thread)))))
        (option_map m_id (last (firstn k (newest_first (t_messages thread))))) w
      = (Ok (map entry (List.filter (DeltaSync.isRecent since)
                          (firstn k' (newest_first (t_messages thread))))), w') /\
      (net_ok w ->
       Forall (fun m => (m_createdAt m <= since)%Z)
              (skipn k' (newest_first (t_messages thread)))).
Proof.
  intros Hnd Hmono. set (L := newest_first (t_messages thread)).
  assert (HL : desc_ids L) by (apply newest_first_sorted; exact Hnd).
  assert (HndL : NoDup (map m_id L)).
  { assert (Hp : Permutation (map m_id L) (map m_id (t_messages thread)))
      by apply Permutation_map, newest_first_perm.
    rewrite Hp. exact Hnd. }
  assert (HinL : forall m, In m L -> In m (t_messages thread))
    by (intros m; apply newest_first_In).
  induction fuel as [|fuel IH]; intros k w Hfuel; [lia|].
  cbn [DeltaSync.fetchRecentMessages_loop].
  assert (Hpage : List.filter (before_id (option_map m_id (last (firstn k L)))) L = skipn k L).
  { rewrite <- (firstn_skipn k L) at 2. apply page_after_cut. rewrite firstn_skipn. exact HL. }
  assert (Hs : length (skipn k L) = (length L - k)%nat) by apply length_skipn.
  rewrite Hs in Hfuel.
  set (page := firstn 100 (skipn k L)).
  assert (Hcat : firstn k L ++ page = firstn (k + 100) L) by apply take_take_drop.
  assert (Hset : coll_set_all m_id (List.filter (DeltaSync.isRecent since) page)
                   (map entry (List.filter (DeltaSync.isRecent since) (firstn k L)))
                 = map entry (List.filter (DeltaSync.isRecent since) (firstn (k + 100) L))).
  { rewrite coll_set_all_new; [rewrite <- List.filter_app, Hcat; reflexivity|].
    rewrite <- List.filter_app, Hcat. apply filter_ids_NoDup.
    rewrite <- (firstn_skipn (k + 100) L) in HndL.
    rewrite map_app in HndL. apply NoDup_app in HndL as (Hn & _). exact Hn. }
  match goal with
  | |- context [try_catch ?m ?h] => set (step := try_catch m h)
  end.
  assert (Hstep :
    (exists w1, step w = (Ok (map entry (List.filter (DeltaSync.isRecent since) (firstn k L)),
                              None), w1) /\ (net_ok w -> skipn k L = [])) \/
    (exists w1, step w = (Ok (map entry (List.filter (DeltaSync.isRecent since)
                                           (firstn (k + 100) L)), None), w1) /\
                page <> [] /\ Forall (fun m => (m_createdAt m <= since)%Z) page) \/
    (exists w1, step w = (Ok (map entry (List.filter (DeltaSync.isRecent since)
                                           (firstn (k + 100) L)),
                              Some (option_map m_id (last (firstn (k + 100) L)))), w1) /\
                page <> [] /\ (net_ok w -> net_ok w1))).
  { unfold step, try_catch.
    destruct (fetch_before_cases thread (option_map m_id (last (firstn k L))) w)
      as [(e & w1 & H1) | (w1 & H1 & Hok)].
    - left. rewrite (bind_throw _ _ _ _ _ H1). exists w1. split; [reflexivity|].
      intros Hw. exfalso.
      destruct (fetch_before_ok thread (option_map m_id (last (firstn k L))) w Hw)
        as (w2 & H2 & _).
      rewrite H2 in H1. discriminate H1.
    - fold L in H1. rewrite Hpage in H1. fold page in H1.
      rewrite (bind_ok _ _ _ _ _ H1).
      destruct page as [|m0 rest0] eqn:Epage.
      + left. exists w1. split; [reflexivity|]. intros _.
        unfold page in Epage. destruct (skipn k L); [reflexivity | discriminate Epage].
      + rewrite Hset.
        destruct (negb (forallb (DeltaSync.isRecent since) (m0 :: rest0))
                  && forallb (fun msg => (m_createdAt msg <=? since)%Z) (m0 :: rest0)) eqn:Estop.
        * right; left. exists w1. split; [reflexivity|]. split; [discriminate|].
          apply andb_true_iff in Estop as [_ Hall].
          apply Forall_forall. intros m Hm. apply list_elem_of_In in Hm.
          rewrite forallb_forall in Hall. apply Z.leb_le, Hall, Hm.
        * right; right. eexists. split.
          { unfold bind, sleep, modify, ret.
            assert (Hlast : option_map m_id (last (m0 :: rest0))
                            = option_map m_id (last (firstn (k + 100) L))).
            { rewrite <- Hcat. rewrite last_app_cons. reflexivity. }
            rewrite Hlast. reflexivity. }
          split; [discriminate | exact Hok]. }
  destruct Hstep as [(w1 & H1 & Hend) | [(w1 & H1 & Hne & Hold) | (w1 & H1 & Hne & Hok)]];
    rewrite (bind_ok _ _ _ _ _ H1).
  - exists k, w1. split; [reflexivity|]. intros Hw. rewrite (Hend Hw). constructor.
  - exists (k + 100)%nat, w1. split; [reflexivity|]. intros _.
    destruct page as [|h rest0] eqn:Epage; [congruence|].
    inversion Hold as [|? ? Hh _]; subst.
    rewrite <- (firstn_skipn (k + 100) L) in HL.
    destruct (desc_ids_app _ _ HL) as (_ & _ & Hcross).
    assert (Hhin : In h (firstn (k + 100) L)).
    { rewrite <- Hcat. apply in_or_app. right. left. reflexivity. }
    rewrite Forall_forall in Hcross.
    specialize (Hcross h (proj2 (list_elem_of_In _ _) Hhin)).
    apply Forall_forall. intros x Hx. rewrite Forall_forall in Hcross.
    specialize (Hcross x Hx). apply list_elem_of_In in Hx.
    assert (Hle : (m_createdAt x <= m_createdAt h)%Z).
    { apply Hmono; [| |exact Hcross].
      - apply HinL. rewrite <- (firstn_skipn (k + 100) L). apply in_or_app. right. exact Hx.
      - apply HinL. rewrite <- (firstn_skipn (k + 100) L). apply in_or_app. left. exact Hhin. }
    lia.
  - destruct (IH (k + 100)%nat w1) as (k' & w' & H' & Hk').
    { rewrite length_skipn. unfold page in Hne. destruct (skipn k L) as [|m rest0] eqn:Es.
      - exfalso. apply Hne. reflexivity.
      - simpl in Hs. lia. }
    exists k', w'. split; [exact H'|]. intros Hw. apply Hk', Hok, Hw.
Qed.

(** X28. [fetchRecentMessages] never throws, and every message it returns is
    recent: created or edited after [since]. When message ids are distinct,
    a later id never has an earlier creation time and no page request is
    rejected, it returns every message of the thread created after
    [since]. *)
Theorem fetchRecentMessages_finds_new (thread : ThreadChannel) (since : Time) (w : World) :
  NoDup (map m_id (t_messages thread)) ->
  (forall a b, In a (t_messages thread) -> In b (t_messages thread) ->
               (m_id a < m_id b)%Z -> (m_createdAt a <= m_createdAt b)%Z) ->
  exists result w',
    DeltaSync.fetchRecentMessages thread since w = (Ok result, w') /\
    (forall e, In e result ->
       e = entry (snd e) /\ In (snd e) (t_messages thread) /\
       DeltaSync.isRecent since (snd e) = true) /\
    (net_ok w ->
     forall m, In m (t_messages thread) -> (since < m_createdAt m)%Z -> In (entry m) result).
Proof.
  intros Hnd Hmono.
  destruct (fetchRecentMessages_loop_spec thread since Hnd Hmono
              (S (length (t_messages thread))) 0 w) as (k & w' & H & Hk).
  { rewrite length_skipn, (Permutation_length (newest_first_perm _)). lia. }
  eexists _, w'. split; [exact H|]. split.
  - intros e He. apply in_map_iff in He as (m & <- & Hm).
    apply List.filter_In in Hm as [Hm Hr]. split; [reflexivity|]. split; [|exact Hr].
    apply newest_first_In.
    rewrite <- (firstn_skipn k (newest_first (t_messages thread))).
    apply in_or_app. left. exact Hm.
  - intros Hw m Hm Hnew. apply in_map. apply List.filter_In. split.
    + assert (HmL : In m (newest_first (t_messages thread))).
      { apply (Permutation_in (l := t_messages thread)); [|exact Hm].
        symmetry. apply newest_first_perm. }
      rewrite <- (firstn_skipn k (newest_first (t_messages thread))) in HmL.
      apply in_app_or in HmL as [HmL | HmL]; [exact HmL|]. exfalso.
      specialize (Hk Hw). rewrite Forall_forall in Hk.
      specialize (Hk m (proj2 (list_elem_of_In _ _) HmL)). lia.
    + unfold DeltaSync.isRecent. apply orb_true_iff. left. apply Z.ltb_lt. exact Hnew.
Qed.

Lemma fetchRecentMessages_finds_new_witness :
  exists result w',
    DeltaSync.fetchRecentMessages (Scenario.thread [Scenario.M1; Scenario.M2; Scenario.M3])
      1500 Scenario.world = (Ok result, w') /\
    (forall e, In e result ->
       e = entry (snd e) /\ In (snd e) [Scenario.M1; Scenario.M2; Scenario.M3] /\
       DeltaSync.isRecent 1500 (snd e) = true) /\
    (net_ok Scenario.world ->
     forall m, In m [Scenario.M1; Scenario.M2; Scenario.M3] -> (1500 < m_createdAt m)%Z ->
               In (entry m) result).
Proof.
  apply (fetchRecentMessages_finds_new
           (Scenario.thread [Scenario.M1; Scenario.M2; Scenario.M3]) 1500 Scenario.world).
  - simpl. repeat (apply NoDup_cons; split; [rewrite ?elem_of_cons, ?elem_of_nil; lia|]).
    apply NoDup_nil_2.
  - intros a b Ha Hb. simpl in Ha, Hb.
    destruct Ha as [<-|[<-|[<-|[]]]]; destruct Hb as [<-|[<-|[<-|[]]]]; simpl; lia.
Defined.

(** ** What the delta pass of a thread does not reach *)

Lemma upsertThread_posts thread :
  preserves (fun w => posts (store w)) (SmartSync.upsertThread thread).
Proof.
  unfold SmartSync.upsertThread.
  apply preserves_bind; [apply preserves_gets | intros e].
  apply preserves_bind; [apply preserves_lift | intros a].
  apply preserves_bind; [apply (getStaffTag_store posts) | intros tag].
  apply preserves_bind; [apply (core_store posts), starter_body_core | intros body].
  apply preserves_bind; [apply preserves_gets | intros t].
  unfold Db.upsert_thread.
  apply preserves_bind; [apply (db_io_store posts) | intros _].
  apply preserves_bind; [apply preserves_gets | intros s].
  repeat match goal with
         | |- preserves _ (match ?x with _ => _ end) => destruct x
         | |- preserves _ (if ?x then _ else _) => destruct x
         | |- preserves _ (modify _) => apply preserves_modify; intros ?; reflexivity
         | |- preserves _ (throw _) => apply preserves_throw
         | |- preserves _ (ret _) => apply preserves_ret
         end.
Qed.

Lemma preserves_bind_val {X A B} (f : World -> X) (Q : A -> Prop) (m : M A) (k : A -> M B) :
  preserves f m -> (forall w a w1, m w = (Ok a, w1) -> Q a) ->
  (forall a, Q a -> preserves f (k a)) -> preserves f (bind m k).
Proof.
  intros Hm HQ Hk w. unfold bind. specialize (Hm w). specialize (HQ w).
  destruct (m w) as [[a|e] w1]; simpl in *.
  - rewrite (Hk a (HQ a w1 eq_refl)). exact Hm.
  - exact Hm.
Qed.

Lemma net_io_store {X} (h : Store -> X) : preserves (fun w => h (store w)) net_io.
Proof. apply core_store, net_io_core. Qed.

(** X29. The delta pass of a thread asks for the messages after the cursor
    without a limit, and gets 50. When every message id is above the cursor
    number, these are the 50 messages of lowest id: the post row of any
    other message of the thread is what it was before the pass, so a new
    message of a thread of more than 50 messages is not stored. *)
Theorem syncThreadDelta_reaches_oldest_50 (thread : ThreadChannel) (since : Time)
  (m : Message) (w : World) :
  NoDup (map m_id (t_messages thread)) ->
  Forall (fun x => (since < m_id x)%Z) (t_messages thread) ->
  In m (t_messages thread) -> ~ In m (oldest_50 thread) ->
  posts (store (snd (SmartSync.syncThreadDelta thread since w))) !! m_id m
  = posts (store w) !! m_id m.
Proof.
  intros Hnd Hall Hin Hout.
  assert (Hp : preserves (fun w => posts (store w) !! m_id m)
                 (SmartSync.syncThreadDelta thread since)); [|apply Hp].
  unfold SmartSync.syncThreadDelta.
  apply preserves_bind.
  { intros w0. pose proof (upsertThread_posts thread w0) as H. cbv beta in H.
    rewrite H. reflexivity. }
  intros _. apply preserves_try_catch; [|intros; apply preserves_throw].
  rewrite (fetch_after_below thread since Hall).
  apply (preserves_bind_val _ (fun l => l = rev (oldest_50 thread))).
  { apply preserves_bind; [apply (net_io_store (fun s => posts s !! m_id m))|].
    intros; apply preserves_ret. }
  { intros w0 a w1. unfold bind, ret. destruct (net_io w0) as [[[]|e] w2]; [|discriminate].
    intros H. injection H as <- _. reflexivity. }
  intros messages0 ->.
  apply preserves_bind; [|intros _].
  2:{ unfold SmartSync.updateThreadReplyCount, Db.update_reply_count_from_posts.
      apply (write_store (fun s => posts s !! m_id m)). intros t s.
      destruct (threads s !! t_id thread); reflexivity. }
  apply (upsert_messages_store (fun s => posts s !! m_id m)).
  intros m' r s Hm' _. apply lookup_insert_ne. intros Heq.
  apply Hout.
  assert (Hm'in : In m' (oldest_50 thread)).
  { apply in_rev. apply (Permutation_in (l := sort_by_created (rev (oldest_50 thread))));
      [apply sort_by_created_perm | exact Hm']. }
  assert (Hm'all : In m' (t_messages thread)).
  { apply newest_first_In, in_rev. unfold oldest_50 in Hm'in.
    rewrite <- (firstn_skipn 50 (rev (newest_first (t_messages thread)))).
    apply in_or_app. left. exact Hm'in. }
  assert (Heqm : m' = m).
  { clear -Hnd Hin Hm'all Heq. induction (t_messages thread) as [|x l IH]; [destruct Hin|].
    simpl in Hnd. apply NoDup_cons in Hnd as [Hx Hl].
    destruct Hin as [->|Hin], Hm'all as [->|Hm'all]; auto.
    - exfalso. apply Hx. apply list_elem_of_In, in_map_iff. exists m'. auto.
    - exfalso. apply Hx. apply list_elem_of_In, in_map_iff. exists m. auto. }
  subst m'. exact Hm'in.
Qed.

Lemma syncThreadDelta_reaches_oldest_50_witness :
  posts (store (snd (SmartSync.syncThreadDelta (long_thread 60) 0 Scenario.world)))
    !! m_id newest_of_60
  = posts (store Scenario.world) !! m_id newest_of_60.
Proof.
  apply (syncThreadDelta_reaches_oldest_50 (long_thread 60) 0 newest_of_60 Scenario.world).
  - refine (bool_decide_unpack _ _). vm_compute. exact I.
  - refine (bool_decide_unpack _ _). vm_compute. exact I.
  - unfold long_thread, Scenario.thread. cbn [t_messages].
    apply in_map_iff. exists 59%nat. split; [reflexivity | apply in_seq; lia].
  - intros H. apply (in_map m_id) in H. vm_compute in H.
    repeat (destruct H as [H|H]; [discriminate H|]). exact H.
Defined.

(** ** What start-up depends on *)

Lemma loadStaffFromCSV_returns w :
  exists w1, StaffLoader.loadStaffFromCSV w = (Ok tt, w1) /\
             net_events w1 = net_events w /\ env w1 = env w.
Proof.
  unfold StaffLoader.loadStaffFromCSV.
  rewrite (bind_ok _ _ _ _ _ (gets_run staff_csv w)).
  destruct (staff_csv w) as [rows|]; [|exists w; auto].
  generalize (StaffLoader.csv_records rows) as records. intros records. revert w.
  induction records as [|r records IH]; intros w; simpl; [exists w; auto|].
  match goal with
  | |- context [try_catch ?m (fun _ => ret tt)] =>
      destruct (try_catch_ret_total m tt w) as [[] H1];
      assert (Hfr : preserves (fun w => (net_events w, env w)) m)
  end.
  { apply preserves_bind; [apply preserves_gets | intros e].
    apply preserves_bind; [apply preserves_lift | intros h].
    unfold Db.upsert_staff_role, Db.write.
    apply preserves_bind; [|intros; apply preserves_modify; intros; reflexivity].
    intros w0. unfold db_io. destruct (db_events w0) as [|e0 l]; [reflexivity|].
    destruct (fails e0); reflexivity. }
  rewrite (bind_ok _ _ _ _ _ H1).
  match type of H1 with _ = (_, ?x) => destruct (IH x) as (w2 & H2 & Hn2 & He2) end.
  exists w2. split; [exact H2|].
  specialize (Hfr w). injection Hfr as Hn He. split; congruence.
Qed.

Lemma main_outcome w :
  fst (Index.main w)
  = Ok (if match db_events w with [] => true | e :: _ => negb (fails e) end
           && Index.truthy (env w !! "DISCORD_TOKEN"%string)
           && match net_events w with [] => true | e :: _ => negb (fails e) end
        then Index.Serving else Index.Exited 1).
Proof.
  assert (Hrest : forall w0, net_events w0 = net_events w -> env w0 = env w ->
            fst (try_catch
                   (ret tt ;;
                    do e <- gets env;
                    (if Index.truthy (e !! "STAFF_CSV_PATH"%string)
                     then StaffLoader.loadStaffFromCSV else ret tt) ;;
                    Index.login (e !! "DISCORD_TOKEN"%string) ;;
                    ret Index.Serving)
                   (fun _ => ret (Index.Exited 1)) w0)
            = Ok (if Index.truthy (env w !! "DISCORD_TOKEN"%string)
                     && match net_events w with [] => true | e :: _ => negb (fails e) end
                  then Index.Serving else Index.Exited 1)).
  { intros w0 Hn0 He0. unfold try_catch.
    change (bind (ret tt) ?k w0) with (k tt w0). cbv beta.
    rewrite (bind_ok _ _ _ _ _ (gets_run env w0)).
    assert (Hstaff : exists w1,
              (if Index.truthy (env w0 !! "STAFF_CSV_PATH"%string)
               then StaffLoader.loadStaffFromCSV else ret tt) w0 = (Ok tt, w1) /\
              net_events w1 = net_events w0 /\ env w1 = env w0).
    { destruct (Index.truthy _); [apply loadStaffFromCSV_returns | exists w0; auto]. }
    destruct Hstaff as (w1 & H1 & Hn1 & He1).
    rewrite (bind_ok _ _ _ _ _ H1). unfold Index.login. rewrite He0.
    destruct (Index.truthy (env w !! "DISCORD_TOKEN"%string)); [|reflexivity].
    unfold bind, net_io, ret. rewrite Hn1, Hn0.
    destruct (net_events w) as [|e1 l1]; [reflexivity|].
    destruct (fails e1); reflexivity. }
  unfold Index.main, Index.initializeDatabase, Db.ping.
  destruct (db_events w) as [|e l] eqn:Edb.
  - cbn [andb negb]. rewrite <- (Hrest w eq_refl eq_refl). unfold try_catch, bind at 1, db_io, ret at 1.
    rewrite Edb. unfold bind at 4. reflexivity.
  - destruct (fails e) eqn:Ef.
    + unfold try_catch, bind at 1, db_io. rewrite Edb, Ef. reflexivity.
    + cbn [negb andb].
      rewrite <- (Hrest (set_now (now w + Z.of_nat (latency e))%Z (set_db_events l w))
                    eq_refl eq_refl).
      unfold try_catch, bind at 1, db_io, ret at 1. rewrite Edb, Ef.
      unfold bind at 4. reflexivity.
Qed.

(** X30. [main] goes on to serve only if the ping of the database is
    answered, DISCORD_TOKEN is set and the login call is answered: when one
    of the three fails, start-up ends with exit code 1. *)
Theorem main_needs_database_and_login (w : World) :
  ~ (next_ok (db_events w) /\ Index.truthy (env w !! "DISCORD_TOKEN"%string) = true /\
     next_ok (net_events w)) ->
  fst (Index.main w) = Ok (Index.Exited 1) /\ fst (Index.main w) <> Ok Index.Serving.
Proof.
  rewrite main_outcome. unfold next_ok. intros H.
  destruct (db_events w) as [|e l]; [|destruct (fails e)];
    (destruct (Index.truthy (env w !! "DISCORD_TOKEN"%string));
     [destruct (net_events w) as [|e1 l1]; [|destruct (fails e1)]|]);
    simpl; try (split; [reflexivity | discriminate]); exfalso; apply H; auto.
Qed.

(** The theorem at three starts of the scenario: the ping is rejected; the
    token is not set; the login is rejected. *)
Lemma main_needs_database_and_login_witness :
  let ko := {| fails := true; latency := 0 |} in
  let w1 := Scenario.world_of Scenario.fresh_store Scenario.env0 Scenario.client [ko] [] in
  let w2 := Scenario.world_of Scenario.fresh_store
              {[ "PII_PEPPER"%string := Scenario.pepper ]} Scenario.client [] [] in
  let w3 := Scenario.world_of Scenario.fresh_store Scenario.env0 Scenario.client [] [ko] in
  fst (Index.main w1) = Ok (Index.Exited 1) /\
  fst (Index.main w2) = Ok (Index.Exited 1) /\
  fst (Index.main w3) = Ok (Index.Exited 1) /\
  fst (Index.main Scenario.world) = Ok Index.Serving.
Proof.
  intros ko w1 w2 w3.
  split; [apply (main_needs_database_and_login w1); intros (H & _); discriminate H|].
  split; [apply (main_needs_database_and_login w2); intros (_ & H & _); discriminate H|].
  split; [apply (main_needs_database_and_login w3); intros (_ & _ & H); discriminate H|].
  vm_compute. reflexivity.
Defined.

(** * The sanitizer on a line of markdown *)

(** ** Counting what a match needs *)

Lemma how_many_app p a b : how_many p (a ++ b) = (how_many p a + how_many p b)%nat.
Proof. induction a as [|x a IH]; simpl; [reflexivity|]. rewrite IH. lia. Qed.

Lemma how_many_none p s : Forall (fun c => p c = false) s -> how_many p s = 0%nat.
Proof. induction 1 as [|x s Hx _ IH]; simpl; [reflexivity|]. rewrite Hx, IH. reflexivity. Qed.

Lemma rep_loop_counted p n m greedy :
  counted p n m ->
  forall fuel k lo hi x res,
    rep_loop m k greedy fuel lo hi x = Some res ->
    exists s' w, k s' = Some res /\ reaches x s' w /\
      (match hi with Some h => (lo <= h)%nat | None => True end ->
       (lo * n <= how_many p w)%nat).
Proof.
  intros Hm. induction fuel as [|fuel IH]; intros k lo hi x res H; simpl in H; [discriminate|].
  assert (Hstop : k x = Some res -> lo = 0%nat \/ hi = Some 0%nat ->
            exists s' w, k s' = Some res /\ reaches x s' w /\
              (match hi with Some h => (lo <= h)%nat | None => True end ->
               (lo * n <= how_many p w)%nat)).
  { intros Hk Hlo. exists x, []. split; [exact Hk|]. split; [apply reaches_refl|].
    intros Hn. destruct Hlo as [-> | ->]; [simpl; lia|].
    assert (lo = 0%nat) as -> by lia. simpl. lia. }
  assert (Hiter : m (fun y =>
              if (lo =? 0)%nat && (length (rest y) =? length (rest x))%nat then None
              else rep_loop m k greedy fuel (Nat.pred lo) (option_map Nat.pred hi) y) x
            = Some res -> hi <> Some 0%nat ->
            exists s' w, k s' = Some res /\ reaches x s' w /\
              (match hi with Some h => (lo <= h)%nat | None => True end ->
               (lo * n <= how_many p w)%nat)).
  { intros Hmd Hhi. apply Hm in Hmd as (y & w1 & Hd & Hr1 & Hn1).
    destruct ((lo =? 0)%nat && (length (rest y) =? length (rest x))%nat); [discriminate|].
    apply IH in Hd as (s' & w2 & Hk & Hr2 & Hn2).
    exists s', (w1 ++ w2). split; [exact Hk|]. split; [eapply reaches_trans; eauto|].
    intros Hn. rewrite how_many_app.
    assert (Hpred : (Nat.pred lo * n <= how_many p w2)%nat).
    { apply Hn2. destruct hi as [h|]; [|exact I]. simpl. lia. }
    destruct lo as [|lo]; [simpl; lia|]. simpl in Hpred. simpl. lia. }
  destruct hi as [[|h]|].
  - apply Hstop; auto.
  - destruct (lo =? 0)%nat eqn:Elo; simpl in H.
    + apply Nat.eqb_eq in Elo. destruct greedy; apply orelse_Some in H as [H | H];
        try (apply Hiter; [exact H | discriminate]); apply Hstop; auto.
    + apply Hiter; [exact H | discriminate].
  - destruct (lo =? 0)%nat eqn:Elo; simpl in H.
    + apply Nat.eqb_eq in Elo. destruct greedy; apply orelse_Some in H as [H | H];
        try (apply Hiter; [exact H | discriminate]); apply Hstop; auto.
    + apply Hiter; [exact H | discriminate].
Qed.

Lemma rmatch_counted slack ic p r : counted p (least ic p r) (rmatch slack ic r).
Proof.
  induction r as [ | cs | | a IHa b IHb | a IHa b IHb | g lo hi a IHa | i a IHa | | | | a IHa];
    intros k s res H.
  - simpl in H. exists s, []. split; [exact H|]. split; [apply reaches_refl | simpl; lia].
  - simpl in H. destruct (rest s) as [|c t] eqn:E; [discriminate|].
    destruct (charset_has ic cs c) eqn:Ec; [|discriminate].
    exists (advance c t s), [c]. split; [exact H|]. split; [apply reaches_advance, E|].
    cbn [least how_many].
    destruct (negb (negated cs) && forallb (item_within ic p) (items cs)) eqn:En; [|lia].
    rewrite (charset_within_sound ic p cs c En Ec). lia.
  - simpl in H. destruct (rest s) as [|c t] eqn:E; [discriminate|].
    destruct (is_line_terminator c); [discriminate|].
    exists (advance c t s), [c]. split; [exact H|]. split; [apply reaches_advance, E|].
    simpl. lia.
  - simpl in H. apply IHa in H as (s1 & w1 & H & Hr1 & Hn1).
    apply IHb in H as (s2 & w2 & H & Hr2 & Hn2).
    exists s2, (w1 ++ w2). split; [exact H|]. split; [eapply reaches_trans; eauto|].
    cbn [least]. rewrite how_many_app. lia.
  - simpl in H. cbn [least]. apply orelse_Some in H as [H | H].
    + apply IHa in H as (s1 & w1 & H & Hr1 & Hn1). exists s1, w1.
      split; [exact H|]. split; [exact Hr1 | lia].
    + apply IHb in H as (s1 & w1 & H & Hr1 & Hn1). exists s1, w1.
      split; [exact H|]. split; [exact Hr1 | lia].
  - destruct (rep_loop_counted p _ _ g IHa _ k lo hi s res H) as (s' & w & Hk & Hr & Hn).
    exists s', w. split; [exact Hk|]. split; [exact Hr|]. cbn [least].
    destruct hi as [h|].
    + destruct (Nat.leb_spec lo h); [apply Hn; assumption | lia].
    + apply Hn. exact I.
  - simpl in H. apply IHa in H as (s1 & w1 & H & Hr1 & Hn1).
    exists (set_cap i (consumed s s1) s1), w1. auto.
  - simpl in H. destruct (before s); [|discriminate].
    exists s, []. split; [exact H|]. split; [apply reaches_refl | simpl; lia].
  - simpl in H. destruct (rest s); [|discriminate].
    exists s, []. split; [exact H|]. split; [apply reaches_refl | simpl; lia].
  - simpl in H. destruct (at_word_boundary s); [|discriminate].
    exists s, []. split; [exact H|]. split; [apply reaches_refl | simpl; lia].
  - simpl in H. destruct (rmatch slack ic a Some s); [discriminate|].
    exists s, []. split; [exact H|]. split; [apply reaches_refl | simpl; lia].
Qed.

(** A text with fewer such units than a match needs has no match. *)
Lemma replace_few re tpl p b s :
  (how_many p s <= b)%nat -> (b <? least (ignoreCase re) p (source re))%nat = true ->
  replace re tpl s = s.
Proof.
  intros Hs Hb. apply Nat.ltb_lt in Hb. apply replace_from_no_match. intros pre t ->.
  unfold exec_at.
  destruct (rmatch 0 (ignoreCase re) (source re) Some _) as [s'|] eqn:E; [|reflexivity].
  exfalso.
  apply (rmatch_counted 0 (ignoreCase re) p) in E as (s1 & w & _ & [Hr _] & Hn).
  cbn [rest] in Hr. rewrite Hr, !how_many_app in Hs. lia.
Qed.

(** ** Marker pairs *)

Lemma starts_with_split D s :
  starts_with D s = true -> s = D ++ skipn (length D) s.
Proof.
  revert s. induction D as [|d D IH]; intros s H; [reflexivity|].
  destruct s as [|c s]; [discriminate|]. simpl in H.
  apply andb_true_iff in H as [Hc Hs]. apply N.eqb_eq in Hc. subst c.
  simpl. f_equal. apply IH, Hs.
Qed.

Lemma starts_with_app D t : starts_with D (D ++ t) = true.
Proof. induction D as [|d D IH]; simpl; [reflexivity|]. rewrite N.eqb_refl. exact IH. Qed.

Lemma skipn_length_app {A} (D t : list A) : skipn (length D) (D ++ t) = t.
Proof. induction D; simpl; auto. Qed.

Lemma split_at_Some D s a b : split_at D s = Some (a, b) -> s = a ++ D ++ b.
Proof.
  revert a b. induction s as [|c t IH]; intros a b.
  - simpl. destruct (starts_with D []) eqn:E; [|discriminate].
    intros [= <- <-]. simpl. apply starts_with_split in E. exact E.
  - cbn [split_at]. destruct (starts_with D (c :: t)) eqn:E.
    + intros [= <- <-]. simpl. apply starts_with_split, E.
    + destruct (split_at D t) as [[a' b']|] eqn:Et; [|discriminate].
      intros [= <- <-]. simpl. f_equal. apply IH. reflexivity.
Qed.

Lemma decompose_Some D s cap rest :
  decompose D s = Some (cap, rest) -> s = D ++ cap ++ D ++ rest.
Proof.
  unfold decompose. destruct (starts_with D s) eqn:E; [|discriminate].
  intros H. apply split_at_Some in H. apply starts_with_split in E. congruence.
Qed.

Lemma consumed_run_state w x t : consumed x (run_state w x t) = w.
Proof.
  unfold consumed, run_state. cbn [before].
  rewrite length_app, length_rev.
  replace (length w + length (before x) - length (before x))%nat with (length (rev w)).
  2:{ rewrite length_rev. lia. }
  rewrite firstn_app, firstn_all. rewrite Nat.sub_diag. simpl. rewrite app_nil_r.
  apply rev_involutive.
Qed.

Lemma run_state_app w v x t u :
  rest x = w ++ u -> run_state v (run_state w x u) t = run_state (w ++ v) x t.
Proof.
  intros _. unfold run_state. cbn [before caps]. rewrite rev_app_distr, app_assoc. reflexivity.
Qed.

Lemma rmatch_Any (k : mstate -> option mstate) s :
  rmatch 0 false Any k s =
  match rest s with
  | [] => None
  | c :: t => if is_line_terminator c then None else k (advance c t s)
  end.
Proof. reflexivity. Qed.

Lemma starts_with_nil D : D <> [] -> starts_with D [] = false.
Proof. destruct D; [contradiction | reflexivity]. Qed.

Section Pair.
Variables (rD : regex) (D : jsstring).
Hypothesis HD : D <> [].
Hypothesis HrD : forall k x,
  rmatch 0 false rD k x =
  if starts_with D (rest x) then k (run_state D x (skipn (length D) (rest x))) else None.

#[local] Unset Default Proof Using.


(** The lazy quantifier over [.] followed by the closing marker stops at
    the first marker of the line. *)
Lemma lazy_any_first x0 r : forall fuel x,
  single_line r -> rest x = r -> (length r < fuel)%nat ->
  rep_loop (rmatch 0 false Any)
    (fun s' => rmatch 0 false rD Some (set_cap 1 (consumed x0 s') s')) false fuel 0 None x
  = match split_at D r with
    | Some (cap, rest') =>
        let s' := run_state cap x (D ++ rest') in
        Some (run_state D (set_cap 1 (consumed x0 s') s') rest')
    | None => None
    end.
Proof.
  induction r as [|c t IH]; intros fuel x Hl Hx Hfuel;
    (destruct fuel as [|fuel]; [simpl in Hfuel; lia|]); rewrite rep_loop_S; cbv zeta; cbn [Nat.eqb negb].
  - cbn [split_at]. rewrite (starts_with_nil D HD). rewrite HrD. cbn [set_cap rest]. rewrite Hx, (starts_with_nil D HD).
    simpl. rewrite Hx. reflexivity.
  - cbn [split_at]. rewrite HrD. cbn [set_cap rest]. rewrite Hx.
    destruct (starts_with D (c :: t)) eqn:E.
    + assert (Hrs : run_state [] x (D ++ skipn (length D) (c :: t)) = x).
      { rewrite <- (starts_with_split D (c :: t) E), <- Hx. apply run_state_nil. }
      cbv zeta. rewrite Hrs. reflexivity.
    + cbn [orelse]. rewrite rmatch_Any, Hx.
      apply Forall_cons in Hl as [Hc Hl]. rewrite Hc.
      cbn [advance rest]. 
      assert (Hlen : (length t =? length (c :: t))%nat = false)
        by (apply Nat.eqb_neq; simpl; lia).
      rewrite Hlen. cbn [andb Nat.pred option_map].
      rewrite (IH fuel (advance c t x) Hl eq_refl) by (simpl in Hfuel; lia).
      destruct (split_at D t) as [[cap rest']|]; [|reflexivity].
      cbv zeta. rewrite run_state_cons. reflexivity.
Qed.

Lemma exec_at_pair bef s :
  single_line s ->
  exec_at (pair_pattern rD) bef s =
  match decompose D s with
  | Some (cap, rest') => Some ((length s - length rest')%nat, [(1%nat, cap)])
  | None => None
  end.
Proof.
  intros Hl. unfold exec_at, pair_pattern. cbn [source ignoreCase seqs].
  rewrite rmatch_Seq, HrD. cbn [rest]. unfold decompose.
  destruct (starts_with D s) eqn:E; [|reflexivity].
  set (r := skipn (length D) s).
  set (x1 := run_state D {| before := bef; rest := s; caps := [] |} r).
  rewrite rmatch_Seq. cbn [rmatch]. unfold lazy_star. cbn [rmatch].
  assert (Hlr : single_line r).
  { unfold r, single_line. rewrite (starts_with_split D s E) in Hl.
    apply Forall_app in Hl as [_ Hl]. exact Hl. }
  match goal with
  | |- match ?e with _ => _ end = _ =>
      assert (HL : e = match split_at D r with
                       | Some (cap, rest') =>
                           let s' := run_state cap x1 (D ++ rest') in
                           Some (run_state D (set_cap 1 (consumed x1 s') s') rest')
                       | None => None
                       end)
        by (apply (lazy_any_first x1 r); [exact Hlr | reflexivity | simpl; lia]);
      rewrite HL; clear HL
  end.
  destruct (split_at D r) as [[cap rest']|]; [|reflexivity].
  cbv zeta. cbn [run_state rest caps set_cap]. rewrite consumed_run_state. reflexivity.
Qed.
End Pair.

(** The markers of the pipeline are pair patterns. *)
Lemma rmatch_lit_exact pat : forall k x,
  rmatch 0 false
    (fold_right (fun c r => Seq (Chr {| negated := false; items := [Lit c] |}) r) Eps pat) k x
  = if starts_with pat (rest x)
    then k (run_state pat x (skipn (length pat) (rest x)))
    else None.
Proof.
  induction pat as [|a pat IH]; intros k x.
  - cbn [fold_right rmatch starts_with length skipn]. rewrite run_state_nil. reflexivity.
  - cbn [fold_right rmatch starts_with]. destruct (rest x) as [|c t] eqn:Ex; [reflexivity|].
    unfold charset_has. cbn [negated items existsb item_has xorb andb orb].
    rewrite orb_false_r. destruct (N.eqb_spec c a) as [->|Hne]; [|reflexivity].
    rewrite IH. cbn [advance rest andb length skipn].
    destruct (starts_with pat t); [|reflexivity].
    rewrite run_state_cons. reflexivity.
Qed.

Lemma rmatch_one a k x :
  rmatch 0 false (Chr {| negated := false; items := [Lit a] |}) k x
  = if starts_with [a] (rest x)
    then k (run_state [a] x (skipn 1 (rest x)))
    else None.
Proof.
  cbn [rmatch starts_with]. destruct (rest x) as [|c t] eqn:Ex; [reflexivity|].
  unfold charset_has. cbn [negated items existsb item_has xorb andb orb].
  rewrite orb_false_r, andb_true_r. destruct (N.eqb_spec c a) as [->|Hne]; reflexivity.
Qed.

Lemma replace_from_skip re tpl : forall s n bef,
  (n <= length s)%nat ->
  replace_from re tpl bef s n = replace_from re tpl (rev (firstn n s) ++ bef) (skipn n s) 0.
Proof.
  induction s as [|c t IH]; intros n bef Hn.
  - simpl in Hn. assert (n = 0%nat) as -> by lia. reflexivity.
  - destruct n as [|n]; [reflexivity|]. cbn [replace_from firstn skipn rev].
    rewrite IH by (simpl in Hn; lia). rewrite <- app_assoc. reflexivity.
Qed.

Section Converts.
Variables (rD : regex) (D o c : jsstring).
Hypothesis HD : D <> [].
Hypothesis HrD : forall k x,
  rmatch 0 false rD k x =
  if starts_with D (rest x) then k (run_state D x (skipn (length D) (rest x))) else None.

#[local] Unset Default Proof Using.

(** [replace] with a pair pattern and the template [o$1c], on one line. *)
Lemma replace_from_converts : forall n s bef,
  (length s <= n)%nat -> single_line s ->
  converts D o c s (replace_from (pair_pattern rD) [Txt o; Ref 1; Txt c] bef s 0).
Proof.
  induction n as [|n IH]; intros s bef Hn Hl.
  - destruct s; [|simpl in Hn; lia]. cbn [replace_from].
    rewrite (exec_at_pair rD D HD HrD bef [] Hl). unfold decompose.
    rewrite (starts_with_nil D HD). constructor.
  - destruct s as [|ch t]; cbn [replace_from]; rewrite (exec_at_pair rD D HD HrD bef _ Hl).
    + unfold decompose. rewrite (starts_with_nil D HD). constructor.
    + destruct (decompose D (ch :: t)) as [[cap rest']|] eqn:E.
      * pose proof (decompose_Some D _ _ _ E) as Hs.
        assert (Hlen : (length (ch :: t) - length rest' = S (length (D ++ cap ++ D) - 1))%nat).
        { rewrite Hs, !length_app. destruct D; [contradiction|]. simpl. lia. }
        rewrite Hlen.
        rewrite replace_from_skip.
        2:{ apply (f_equal (@length N)) in Hs. rewrite !length_app in Hs.
            simpl in Hs. rewrite !length_app. lia. }
        assert (Hsk : skipn (length (D ++ cap ++ D) - 1) t = rest').
        { assert (Ht : t = skipn 1 ((D ++ cap ++ D) ++ rest')).
          { rewrite <- !app_assoc, <- Hs. reflexivity. }
          rewrite Ht, skipn_skipn.
          replace (length (D ++ cap ++ D) - 1 + 1)%nat with (length (D ++ cap ++ D)).
          - apply skipn_length_app.
          - rewrite length_app. destruct D; [contradiction|]. simpl. lia. }
        rewrite Hsk. unfold expand. cbn [flat_map get_cap Nat.eqb]. rewrite app_nil_r, <- !app_assoc.
        apply (conv_pair D o c _ cap rest'); [exact E|]. apply IH.
        -- apply (f_equal (@length N)) in Hs. rewrite !length_app in Hs.
           destruct D; [contradiction|]. simpl in Hn, Hs. lia.
        -- unfold single_line in *. rewrite Hs in Hl.
           apply Forall_app in Hl as [_ Hl]. apply Forall_app in Hl as [_ Hl].
           apply Forall_app in Hl as [_ Hl]. exact Hl.
      * apply conv_skip; [exact E|]. apply IH; [simpl in Hn; lia|].
        inversion Hl; assumption.
Qed.

Lemma replace_converts s :
  single_line s -> converts D o c s (replace (pair_pattern rD) [Txt o; Ref 1; Txt c] s).
Proof. intros Hl. exact (replace_from_converts (length s) s [] (le_n _) Hl). Qed.

(** Without a pair on the line the replacement does nothing. *)
Lemma replace_pair_none tpl s :
  single_line s -> (forall pre t, s = pre ++ t -> decompose D t = None) ->
  replace (pair_pattern rD) tpl s = s.
Proof.
  intros Hl Hnone. apply replace_from_no_match. intros pre t Hs.
  rewrite (exec_at_pair rD D HD HrD).
  - rewrite (Hnone pre t Hs). reflexivity.
  - unfold single_line in *. rewrite Hs in Hl. apply Forall_app in Hl as [_ Hl]. exact Hl.
Qed.
End Converts.

(** ** What a conversion keeps *)

Lemma split_at_first d : forall s cap rest',
  split_at [d] s = Some (cap, rest') -> how_many (N.eqb d) cap = 0%nat.
Proof.
  induction s as [|ch t IH]; intros cap rest'; cbn [split_at starts_with].
  - discriminate.
  - rewrite andb_true_r. destruct (N.eqb_spec ch d) as [->|Hne].
    + intros [= <- _]. reflexivity.
    + destruct (split_at [d] t) as [[a b]|] eqn:E; [|discriminate].
      intros [= <- _]. cbn [how_many]. rewrite (IH a b eq_refl).
      destruct (N.eqb_spec d ch); [congruence | reflexivity].
Qed.

Lemma split_at_None d : forall s, split_at [d] s = None -> how_many (N.eqb d) s = 0%nat.
Proof.
  induction s as [|ch t IH]; cbn [split_at starts_with]; [reflexivity|].
  rewrite andb_true_r. destruct (N.eqb_spec ch d) as [->|Hne]; [discriminate|].
  destruct (split_at [d] t) as [[a b]|] eqn:E; [discriminate|].
  intros _. cbn [how_many]. rewrite (IH eq_refl).
  destruct (N.eqb_spec d ch); [congruence | reflexivity].
Qed.

Lemma decompose_count D d D' s cap rest' :
  D = d :: D' -> decompose D s = Some (cap, rest') -> (2 <= how_many (N.eqb d) s)%nat.
Proof.
  intros -> H. apply decompose_Some in H. subst s.
  rewrite !how_many_app. cbn [how_many]. rewrite N.eqb_refl. lia.
Qed.

Lemma how_many_suffix p pre t : (how_many p t <= how_many p (pre ++ t))%nat.
Proof. rewrite how_many_app. lia. Qed.

Lemma few_markers_no_pair D d D' s :
  D = d :: D' -> (how_many (N.eqb d) s <= 1)%nat ->
  forall pre t, s = pre ++ t -> decompose D t = None.
Proof.
  intros HD Hs pre t ->. destruct (decompose D t) as [[cap rest']|] eqn:E; [|reflexivity].
  apply (decompose_count D d D' _ _ _ HD) in E.
  pose proof (how_many_suffix (N.eqb d) pre t). lia.
Qed.

Section Kept.
Variables (D o c : jsstring).

Lemma conv_Forall (P : N -> Prop) s out :
  converts D o c s out -> Forall P o -> Forall P c -> Forall P s -> Forall P out.
Proof.
  intros H Ho Hc. induction H as [|ch t out Hd H IH|s cap rest' out Hd H IH]; intros Hs.
  - constructor.
  - inversion Hs; subst. constructor; auto.
  - apply decompose_Some in Hd. subst s.
    apply Forall_app in Hs as [_ Hs]. apply Forall_app in Hs as [Hcap Hs].
    apply Forall_app in Hs as [_ Hs].
    repeat (apply Forall_app; split); auto.
Qed.

Lemma conv_count_le p s out :
  converts D o c s out -> how_many p o = 0%nat -> how_many p c = 0%nat ->
  (how_many p out <= how_many p s)%nat.
Proof.
  intros H Ho Hc. induction H as [|ch t out Hd H IH|s cap rest' out Hd H IH].
  - apply le_n.
  - cbn [how_many]. lia.
  - apply decompose_Some in Hd. subst s. rewrite !how_many_app. lia.
Qed.
End Kept.

Lemma conv_no_marker d o c s out :
  converts [d] o c s out -> how_many (N.eqb d) s = 0%nat -> out = s.
Proof.
  induction 1 as [|ch t out Hd H IH|s cap rest' out Hd H IH]; intros Hs.
  - reflexivity.
  - f_equal. apply IH. cbn [how_many] in Hs. lia.
  - exfalso. apply decompose_Some in Hd. subst s.
    cbn [app how_many] in Hs. rewrite N.eqb_refl in Hs. discriminate Hs.
Qed.

(** After the conversion of a marker of one unit at most one is left. *)
Lemma conv_marker_once d o c s out :
  converts [d] o c s out -> how_many (N.eqb d) o = 0%nat -> how_many (N.eqb d) c = 0%nat ->
  (how_many (N.eqb d) out <= 1)%nat.
Proof.
  intros H Ho Hc. induction H as [|ch t out Hd H IH|s cap rest' out Hd H IH].
  - simpl. lia.
  - cbn [how_many]. destruct (N.eqb_spec d ch) as [<-|Hne]; [|exact IH].
    unfold decompose in Hd. cbn [starts_with length skipn] in Hd.
    rewrite N.eqb_refl in Hd. cbn [andb] in Hd. apply split_at_None in Hd.
    change (skipn 0 t) with t in Hd.
    rewrite (conv_no_marker d o c t out H Hd), Hd. lia.
  - unfold decompose in Hd. destruct (starts_with [d] s); [|discriminate].
    apply split_at_first in Hd. rewrite !how_many_app. lia.
Qed.

(** ** Where a [>] can stand *)

Lemma last_cons (x : N) : forall a p q, List.last (x :: a) p = List.last (x :: a) q.
Proof.
  intros a. revert x. induction a as [|y a IH]; intros x p q; [reflexivity|].
  exact (IH y p q).
Qed.

Lemma closes_app : forall a p b,
  closes p (a ++ b) = closes p a && closes (List.last a p) b.
Proof.
  induction a as [|x a IH]; intros p b; [reflexivity|].
  cbn [app closes]. rewrite IH, andb_assoc. f_equal. f_equal.
  destruct a as [|y a]; [reflexivity|]. exact (last_cons y a x p).
Qed.

Lemma closes_any p q s : tag_end p = false -> closes p s = true -> closes q s = true.
Proof.
  intros Hp. destruct s as [|x s]; [reflexivity|]. cbn [closes].
  rewrite Hp, orb_false_r. intros H. apply andb_true_iff in H as [H1 H2].
  rewrite H1, H2. reflexivity.
Qed.

Lemma closes_without p s : Forall (fun x => x <> 62) s -> closes p s = true.
Proof.
  intros H. revert p. induction H as [|x s Hx _ IH]; intros p; [reflexivity|].
  cbn [closes]. rewrite IH. destruct (N.eqb_spec x 62); [contradiction | reflexivity].
Qed.

Lemma closes_no_pair a : tag_end a = false ->
  forall s p, closes p s = true -> has_pair a 62 s = false.
Proof.
  intros Ha. induction s as [|x s IH]; intros p H; [reflexivity|].
  cbn [closes] in H. apply andb_true_iff in H as [_ H]. cbn [has_pair].
  rewrite (IH x H). destruct (N.eqb_spec x a) as [->|]; [|reflexivity].
  destruct s as [|y s]; [reflexivity|]. cbn [closes] in H.
  rewrite Ha, orb_false_r in H. apply andb_true_iff in H as [H _].
  destruct (N.eqb_spec y 62); [discriminate | reflexivity].
Qed.

Lemma conv_closes D o c s out :
  D <> [] -> tag_end (List.last D 0) = false ->
  (forall q, closes q o = true) -> (forall q, closes q c = true) ->
  converts D o c s out -> forall p, closes p s = true -> closes p out = true.
Proof.
  intros HD Hd Ho Hc H. induction H as [|ch t out _ H IH|s cap rest' out Hs H IH]; intros p Hp.
  - reflexivity.
  - cbn [closes] in *. apply andb_true_iff in Hp as [H1 H2]. rewrite H1, (IH _ H2). reflexivity.
  - apply decompose_Some in Hs. subst s.
    assert (Hl : forall q, List.last D q = List.last D 0).
    { intros q. destruct D as [|x D']; [contradiction|]. apply last_cons. }
    rewrite closes_app, Hl in Hp. apply andb_true_iff in Hp as [_ Hp].
    rewrite closes_app in Hp. apply andb_true_iff in Hp as [Hcap Hp].
    rewrite closes_app, (Hl (List.last cap (List.last D 0))) in Hp.
    apply andb_true_iff in Hp as [_ Hrest].
    rewrite !closes_app, Ho, Hc, (closes_any _ _ _ Hd Hcap), (closes_any _ _ _ Hd (IH _ Hrest)).
    reflexivity.
Qed.

(** ** The pipeline on a line of markdown *)

Lemma md_html_trigger s :
  Forall (fun c => md_trigger c = false) s -> Forall (fun c => html_trigger c = false) s.
Proof.
  intros H0. eapply Forall_impl; [exact H0|]. clear H0. intros c H. cbv beta in H.
  unfold md_trigger in H. cbn [existsb] in H. rewrite !orb_false_iff in H.
  destruct H as [(H60 & H62 & H58 & H61 & H64 & H126 & _) Hlt].
  unfold html_trigger. cbn [existsb]. rewrite H58, H61, H64, H126, Hlt. reflexivity.
Qed.

Lemma md_no_gt s : Forall (fun c => md_trigger c = false) s -> Forall (fun c => c <> 62) s.
Proof.
  intros H0. eapply Forall_impl; [exact H0|]. clear H0. intros c H. cbv beta in H.
  unfold md_trigger in H. cbn [existsb] in H. rewrite !orb_false_iff in H.
  destruct H as [(_ & H62 & _) _]. apply N.eqb_neq, H62.
Qed.

Lemma html_single_line s :
  Forall (fun c => html_trigger c = false) s -> single_line s.
Proof.
  intros H0. eapply Forall_impl; [exact H0|]. clear H0. intros c H. cbv beta in H.
  unfold html_trigger in H. apply orb_false_iff in H as [_ H]. exact H.
Qed.

Lemma run_passes_app p q s : run_passes (p ++ q) s = run_passes q (run_passes p s).
Proof. unfold run_passes. apply fold_left_app. Qed.

Lemma run_passes_cons re tpl q s :
  run_passes ((re, tpl) :: q) s = run_passes q (replace re tpl s).
Proof. reflexivity. Qed.

(** Every match of [SCRIPT_TAG] ends with [t>] or [T>]. *)
Lemma replace_SCRIPT_TAG_no_end tpl s :
  has_pair 116 62 s = false -> has_pair 84 62 s = false -> replace SCRIPT_TAG tpl s = s.
Proof.
  intros Hs HS. apply replace_from_no_match. intros pre t ->.
  apply has_pair_suffix in Hs, HS. unfold exec_at.
  destruct (rmatch 0 _ _ Some _) as [res|] eqn:E; [|reflexivity]. exfalso.
  cbn [SCRIPT_TAG source ignoreCase seqs] in E.
  rewrite rmatch_Seq in E.
  apply (rmatch_sound 0 true (fun _ => false)) in E as (s1 & w1 & E & Hr1 & _).
  rewrite rmatch_Seq in E.
  apply (rmatch_sound 0 true (fun _ => false)) in E as (s2 & w2 & E & Hr2 & _).
  rewrite rmatch_Seq in E.
  apply (rmatch_sound 0 true (fun _ => false)) in E as (s3 & w3 & E & Hr3 & _).
  rewrite rmatch_Seq in E.
  apply (rmatch_sound 0 true (fun _ => false)) in E as (s4 & w4 & E & Hr4 & _).
  apply rmatch_lit_inv in E as (m & tl & Hrest & Hm & _).
  pose proof (reaches_trans _ _ _ _ _ (reaches_trans _ _ _ _ _
                (reaches_trans _ _ _ _ _ Hr1 Hr2) Hr3) Hr4) as [Hr _].
  cbn [rest] in Hr. rewrite Hrest in Hr. rewrite Hr in Hs, HS. clear Hr.
  change (str "</script>") with (str "</scrip" ++ [116; 62]) in Hm.
  apply Forall2_app_inv_r in Hm as (m0 & m1 & _ & Hm1 & ->).
  assert (Hp : forall W a, has_pair a 62 (W ++ (m0 ++ [a; 62]) ++ tl) = true).
  { intros W a. rewrite <- app_assoc. cbn [app]. rewrite app_assoc. apply has_pair_head. }
  inversion Hm1 as [|c7 a7 m2 p2 Hc7 Hm2]; subst.
  inversion Hm2 as [|c8 a8 m3 p3 Hc8 Hm3]; subst.
  inversion Hm3; subst.
  apply lit_has_plain in Hc8; [|reflexivity|reflexivity]. subst c8.
  apply lit_has_same_letter in Hc7.
  destruct (same_letter_cases c7 116 Hc7) as [-> | [[Hu Hc] | [Hl Hc]]].
  - rewrite Hp in Hs. discriminate Hs.
  - assert (c7 = 84) as -> by lia. rewrite Hp in HS. discriminate HS.
  - unfold is_lower in Hl. apply andb_true_iff in Hl as [H1 H2].
    apply N.leb_le in H1, H2. lia.
Qed.

(** A match of [CODE_BLOCK] starts with three backquotes. *)
Lemma replace_CODE_BLOCK_few tpl s :
  (how_many (N.eqb 96) s <= 1)%nat -> replace CODE_BLOCK tpl s = s.
Proof.
  intros Hs. apply replace_from_no_match. intros pre t ->.
  pose proof (how_many_suffix (N.eqb 96) pre t) as Hle. unfold exec_at.
  cbn [CODE_BLOCK source ignoreCase seqs]. rewrite rmatch_Seq. unfold lit at 1.
  rewrite rmatch_lit_exact. cbn [rest].
  destruct (starts_with (str "```") t) eqn:E; [|reflexivity]. exfalso.
  assert (Ht : (how_many (N.eqb 96) t <= 1)%nat) by lia.
  apply starts_with_split in E. rewrite E in Ht.
  change (str "```") with [96; 96; 96] in Ht. cbn [app] in Ht.
  cbn [how_many N.eqb Pos.eqb] in Ht. lia.
Qed.

Lemma HrD_lit pat k x :
  rmatch 0 false (lit pat) k x =
  if starts_with (str pat) (rest x)
  then k (run_state (str pat) x (skipn (length (str pat)) (rest x)))
  else None.
Proof. apply rmatch_lit_exact. Qed.

Lemma HrD_one a k x :
  rmatch 0 false (one a) k x =
  if starts_with [ch a] (rest x)
  then k (run_state [ch a] x (skipn (length [ch a]) (rest x)))
  else None.
Proof. apply rmatch_one. Qed.

Lemma BOLD_converts s :
  single_line s ->
  converts (str "**") (str "<strong>") (str "</strong>") s
    (replace BOLD [Txt (str "<strong>"); Ref 1; Txt (str "</strong>")] s).
Proof.
  apply (replace_converts (lit "**") (str "**")); [discriminate | apply HrD_lit].
Qed.

Lemma ITALIC_converts s :
  single_line s ->
  converts [42] (str "<em>") (str "</em>") s
    (replace ITALIC [Txt (str "<em>"); Ref 1; Txt (str "</em>")] s).
Proof.
  apply (replace_converts (one "*") [42]); [discriminate | apply HrD_one].
Qed.

Lemma CODE_converts s :
  single_line s ->
  converts [96] (str "<code>") (str "</code>") s
    (replace CODE [Txt (str "<code>"); Ref 1; Txt (str "</code>")] s).
Proof.
  apply (replace_converts (one "`") [96]); [discriminate | apply HrD_one].
Qed.

Lemma replace_BOLD_few tpl s :
  single_line s -> (how_many (N.eqb 42) s <= 1)%nat -> replace BOLD tpl s = s.
Proof.
  intros Hl Hs.
  apply (replace_pair_none (lit "**") (str "**") ltac:(discriminate) (HrD_lit "**") tpl s Hl).
  exact (few_markers_no_pair (str "**") 42 [42] s eq_refl Hs).
Qed.

Lemma replace_ITALIC_few tpl s :
  single_line s -> (how_many (N.eqb 42) s <= 1)%nat -> replace ITALIC tpl s = s.
Proof.
  intros Hl Hs.
  apply (replace_pair_none (one "*") [42] ltac:(discriminate) (HrD_one "*") tpl s Hl).
  exact (few_markers_no_pair [42] 42 [] s eq_refl Hs).
Qed.

Lemma replace_CODE_few tpl s :
  single_line s -> (how_many (N.eqb 96) s <= 1)%nat -> replace CODE tpl s = s.
Proof.
  intros Hl Hs.
  apply (replace_pair_none (one "`") [96] ltac:(discriminate) (HrD_one "`") tpl s Hl).
  exact (few_markers_no_pair [96] 96 [] s eq_refl Hs).
Qed.

Lemma md_html_facts x :
  markdown_line x ->
  let y := md_html x in
  Forall (fun c => html_trigger c = false) y /\
  (how_many (N.eqb 42) y <= 1)%nat /\ (how_many (N.eqb 96) y <= 1)%nat /\
  (how_many is_digit y <= 8)%nat /\ closes 0 y = true /\
  Forall (fun c => html_trigger c = false)
    (replace ITALIC [Txt (str "<em>"); Ref 1; Txt (str "</em>")]
       (replace BOLD [Txt (str "<strong>"); Ref 1; Txt (str "</strong>")] x)).
Proof.
  intros [Hx Hd]. unfold md_html.
  set (y1 := replace BOLD _ x). set (y2 := replace ITALIC _ y1). set (y3 := replace CODE _ y2).
  pose proof (md_html_trigger x Hx) as Hh.
  assert (Ht : forall w : string, forallb (fun c => negb (html_trigger c)) (str w) = true ->
                        Forall (fun c => html_trigger c = false) (str w)).
  { intros w H. induction (str w) as [|a l IH]; constructor;
      cbn [forallb] in H; apply andb_true_iff in H as [H1 H2];
      [apply negb_true_iff, H1 | exact (IH H2)]. }
  assert (C1 : converts (str "**") (str "<strong>") (str "</strong>") x y1)
    by (apply BOLD_converts, html_single_line, Hh).
  assert (Hh1 : Forall (fun c => html_trigger c = false) y1).
  { apply (conv_Forall _ _ _ _ _ _ C1); [apply Ht; reflexivity | apply Ht; reflexivity | exact Hh]. }
  assert (C2 : converts [42] (str "<em>") (str "</em>") y1 y2)
    by (apply ITALIC_converts, html_single_line, Hh1).
  assert (Hh2 : Forall (fun c => html_trigger c = false) y2).
  { apply (conv_Forall _ _ _ _ _ _ C2); [apply Ht; reflexivity | apply Ht; reflexivity | exact Hh1]. }
  assert (C3 : converts [96] (str "<code>") (str "</code>") y2 y3)
    by (apply CODE_converts, html_single_line, Hh2).
  assert (Hh3 : Forall (fun c => html_trigger c = false) y3).
  { apply (conv_Forall _ _ _ _ _ _ C3); [apply Ht; reflexivity | apply Ht; reflexivity | exact Hh2]. }
  assert (S2 : (how_many (N.eqb 42) y2 <= 1)%nat)
    by (apply (conv_marker_once _ _ _ _ _ C2); reflexivity).
  assert (S3 : (how_many (N.eqb 42) y3 <= 1)%nat).
  { etransitivity; [|exact S2]. apply (conv_count_le _ _ _ _ _ _ C3); reflexivity. }
  assert (Q3 : (how_many (N.eqb 96) y3 <= 1)%nat)
    by (apply (conv_marker_once _ _ _ _ _ C3); reflexivity).
  assert (D3 : (how_many is_digit y3 <= 8)%nat).
  { etransitivity; [|exact Hd].
    etransitivity; [apply (conv_count_le _ _ _ _ _ _ C3); reflexivity|].
    etransitivity; [apply (conv_count_le _ _ _ _ _ _ C2); reflexivity|].
    apply (conv_count_le _ _ _ _ _ _ C1); reflexivity. }
  assert (G0 : closes 0 x = true) by (apply closes_without, md_no_gt, Hx).
  assert (G1 : closes 0 y1 = true).
  { apply (conv_closes (str "**") (str "<strong>") (str "</strong>") _ _ ltac:(discriminate) eq_refl
             ltac:(intros q; reflexivity) ltac:(intros q; reflexivity) C1 0 G0). }
  assert (G2 : closes 0 y2 = true).
  { apply (conv_closes [42] (str "<em>") (str "</em>") _ _ ltac:(discriminate) eq_refl
             ltac:(intros q; reflexivity) ltac:(intros q; reflexivity) C2 0 G1). }
  assert (G3 : closes 0 y3 = true).
  { apply (conv_closes [96] (str "<code>") (str "</code>") _ _ ltac:(discriminate) eq_refl
             ltac:(intros q; reflexivity) ltac:(intros q; reflexivity) C3 0 G2). }
  repeat split; assumption.
Qed.

(** The first application on a line of markdown is the three conversions. *)
Lemma sanitize_html_markdown x : markdown_line x -> sanitize_html x = md_html x.
Proof.
  intros Hx. destruct (md_html_facts x Hx) as (Hh3 & S3 & Q3 & D3 & G3 & Hh2).
  destruct Hx as [Hx Hd].
  rewrite sanitize_html_passes, run_passes_app.
  rewrite (run_passes_fixes CONTENT_PASSES x).
  2:{ unfold CONTENT_PASSES.
      repeat (constructor;
              [first [ apply (replace_without _ _ md_trigger); [vm_compute; reflexivity | exact Hx]
                     | apply (replace_few _ _ is_digit 8); [exact Hd | vm_compute; reflexivity] ]|]).
      constructor. }
  unfold HTML_PASSES. rewrite !run_passes_cons.
  rewrite (replace_without STRIKE _ html_trigger _ eq_refl Hh2).
  fold (md_html x).
  rewrite (replace_CODE_BLOCK_few _ _ Q3).
  rewrite (replace_without NEWLINE _ html_trigger _ eq_refl Hh3).
  rewrite (replace_without URL _ html_trigger _ eq_refl Hh3).
  reflexivity.
Qed.

(** The second application finds nothing to replace in that html. *)
Lemma sanitize_html_md_html x : markdown_line x -> sanitize_html (md_html x) = md_html x.
Proof.
  intros Hx. destruct (md_html_facts x Hx) as (Hh3 & S3 & Q3 & D3 & G3 & _).
  pose proof (html_single_line _ Hh3) as Hl.
  rewrite sanitize_html_passes. apply run_passes_fixes.
  cbn [CONTENT_PASSES app]. unfold HTML_PASSES.
  repeat match goal with
         | |- Forall _ (_ :: _) => constructor
         | |- Forall _ [] => constructor
         | |- fixes _ (SCRIPT_TAG, _) =>
             apply replace_SCRIPT_TAG_no_end;
             [exact (closes_no_pair 116 eq_refl _ _ G3) | exact (closes_no_pair 84 eq_refl _ _ G3)]
         | |- fixes _ (BOLD, _) => exact (replace_BOLD_few _ _ Hl S3)
         | |- fixes _ (ITALIC, _) => exact (replace_ITALIC_few _ _ Hl S3)
         | |- fixes _ (CODE, _) => exact (replace_CODE_few _ _ Hl Q3)
         | |- fixes _ (CODE_BLOCK, _) => exact (replace_CODE_BLOCK_few _ _ Q3)
         | |- fixes _ _ =>
             first [ apply (replace_without _ _ html_trigger); [vm_compute; reflexivity | exact Hh3]
                   | apply (replace_few _ _ is_digit 8); [exact D3 | vm_compute; reflexivity] ]
         end.
Qed.

(** C7, as the code has it. The pipeline is idempotent on every line of
    markdown: a text without a line terminator, [<], [>], [:], [=], [@] or
    [~] and with eight digits at most, whatever stars and backquotes it has.
    The first application converts the pairs of [**], then of [*], then of
    backquotes, leftmost first, and leaves one star and one backquote at
    most; the second finds no pair, and no other pattern finds what it
    needs. The pipeline is idempotent as well on every input without any
    unit a pattern needs, and on every input whose html gives none of the
    patterns a match. *)
Theorem sanitize_html_idempotent_classes (x : jsstring) :
  markdown_line x \/ plain x \/ unmatched (sanitize_html x) = true ->
  sanitize_html (sanitize_html x) = sanitize_html x.
Proof.
  intros [H | [H | H]].
  - rewrite (sanitize_html_markdown x H). apply sanitize_html_md_html, H.
  - rewrite (sanitize_html_plain x H). apply sanitize_html_plain, H.
  - apply sanitize_html_unmatched, H.
Qed.

(** The theorem at lines of markdown (pairs inside pairs, an empty pair, a
    star and a backquote left over, digits), at a text with [>], and at
    inputs the pipeline rewrites otherwise (a strike, a line feed, a mention,
    an address, a telephone number, a script, an event attribute): each html
    is stable. *)
Lemma sanitize_html_idempotent_classes_witness :
  let stable x := sanitize_html (sanitize_html x) = sanitize_html x in
  (let x := str "***a*** `b` ``c`` * ** `" in
   markdown_line x /\ stable x /\
   sanitize_html x
   = str "<strong><em>a</strong></em> <code>b</code> <code></code>c<code></code> <em> </em>* `") /\
  (let x := str "**b** and *i*, 2*3*4" in
   markdown_line x /\ stable x /\
   sanitize_html x = str "<strong>b</strong> and <em>i</em>, 2<em>3</em>4") /\
  (let x := str "see you at 5, room 101" in markdown_line x /\ stable x) /\
  (let x := str "a > b" in plain x /\ stable x) /\
  (let x := str "~~s~~ one" ++ [10] ++ str "two" in
   unmatched (sanitize_html x) = true /\ stable x /\
   sanitize_html x = str "<del>s</del> one<br>two") /\
  (let x := str "mail alice@example.com or call 555-123-4567, <@12345678901234567>" in
   unmatched (sanitize_html x) = true /\ stable x /\
   sanitize_html x = str "mail [Email Redacted] or call [Phone Redacted], [User Mention]") /\
  (let x := str "<script>x</script><b onclick=javascript:y>" in
   unmatched (sanitize_html x) = true /\ stable x /\
   sanitize_html x = str "[Removed Script]<b data-removed-event=javascript-removed:y>").
Proof.
  intros stable.
  assert (Hm : forall x, markdown_line x -> markdown_line x /\ stable x).
  { intros x H. split; [exact H|].
    exact (sanitize_html_idempotent_classes x (or_introl H)). }
  assert (Hp : forall x, plain x -> plain x /\ stable x).
  { intros x H. split; [exact H|].
    exact (sanitize_html_idempotent_classes x (or_intror (or_introl H))). }
  assert (Hu : forall x, unmatched (sanitize_html x) = true ->
                         unmatched (sanitize_html x) = true /\ stable x).
  { intros x H. split; [exact H|].
    exact (sanitize_html_idempotent_classes x (or_intror (or_intror H))). }
  assert (Hand : forall A B C : Prop, A /\ B -> C -> A /\ B /\ C) by tauto.
  split; [apply Hand; [apply Hm; split; [repeat constructor | vm_compute; lia]
                      | vm_compute; reflexivity]|].
  split; [apply Hand; [apply Hm; split; [repeat constructor | vm_compute; lia]
                      | vm_compute; reflexivity]|].
  split; [apply Hm; split; [repeat constructor | vm_compute; lia]|].
  split; [apply Hp; repeat constructor|].
  split; [apply Hand; [apply Hu; vm_compute; reflexivity | vm_compute; reflexivity]|].
  split; [apply Hand; [apply Hu; vm_compute; reflexivity | vm_compute; reflexivity]|].
  apply Hand; [apply Hu; vm_compute; reflexivity | vm_compute; reflexivity].
Defined.
